(** * LensFormat: a shallow embedding of [lens_format/core.pyx]

    The development follows the first module of [src/lens_format/core.pyx]
    (the tag set [T_NULL .. T_TUPLE], [FastEncoder], [DecodeFrame] and the
    [FastDecoder] with its 32-slot frame pool).

    Conventions of the embedding.
    - A C [uint64_t] is a [Z] kept in [0, 2^64) by [wrap64]; an [int64_t] or
      [Py_ssize_t] is a [Z] kept in [-2^63, 2^63) by [to_int64].  Signed
      overflow is taken as two's complement wrap-around, as the compiled
      module behaves.
    - A byte is a [Z] in [0, 256); a buffer is a [list Z].
    - A Python [str] is the Rocq [string] of its UTF-8 bytes.
    - A [float] is its 64-bit IEEE-754 pattern; no float arithmetic is
      modelled.  A [datetime] is represented by the millisecond count
      [int(obj.timestamp() * 1000)] that the encoder extracts from it.
    - The module is compiled with [boundscheck=False, wraparound=False]:
      an index outside a memoryview or a list is not an exception but an
      unchecked memory access.  Such accesses end a run with [Undefined].
    - Exceptions raised inside [cdef] methods propagate to the caller
      (the Cython 3 default).  Reference counts are not modelled. *)

From Stdlib Require Import ZArith List Bool String Ascii Lia.
From Equations Require Import Equations.
Import ListNotations.

Local Open Scope Z_scope.

(** ** Machine integers *)

Definition wrap64 (z : Z) : Z := z mod 2 ^ 64.

Definition to_int64 (z : Z) : Z :=
  let u := z mod 2 ^ 64 in
  if u <? 2 ^ 63 then u else u - 2 ^ 64.

Definition uchar (z : Z) : Z := z mod 256.

Definition in_int64 (z : Z) : bool := (- 2 ^ 63 <=? z) && (z <? 2 ^ 63).
Definition in_uint64 (z : Z) : bool := (0 <=? z) && (z <? 2 ^ 64).

(** ** Tags *)

Definition T_NULL : Z := 0.
Definition T_TRUE : Z := 1.
Definition T_FALSE : Z := 2.
Definition T_INT : Z := 3.
Definition T_FLOAT : Z := 4.
Definition T_STR : Z := 5.
Definition T_ARR : Z := 6.
Definition T_OBJ : Z := 7.
Definition T_SYMREF : Z := 8.
Definition T_BYTES : Z := 9.
Definition T_TIME : Z := 10.
Definition T_EXT : Z := 11.
Definition T_SET : Z := 12.
Definition T_TUPLE : Z := 13.

(** ** ZigZag

    [c_zigzag_decode] takes a [uint64_t] and returns an [int64_t];
    [c_zigzag_encode] takes an [int64_t] and returns a [uint64_t]. *)

Definition c_zigzag_decode (n : Z) : Z :=
  to_int64 (Z.lxor (Z.shiftr n 1) (wrap64 (- (Z.land n 1)))).

Definition c_zigzag_encode (n : Z) : Z :=
  wrap64 (Z.lxor (to_int64 (Z.shiftl n 1)) (Z.shiftr n 63)).

(** ** Varint writer

    [_write_varint]: the [while n >= 0x80] loop appends the low seven bits
    with the continuation bit set and shifts [n] right by seven. *)

Equations? _write_varint (n : Z) (buffer : list Z) : list Z
  by wf (Z.to_nat (Z.log2 n)) lt :=
_write_varint n buffer with Z_ge_lt_dec n 128 := {
  | left _ =>
      _write_varint (Z.shiftr n 7) (buffer ++ [uchar (Z.lor (Z.land n 127) 128)])
  | right _ => buffer ++ [uchar n] }.
Proof.
  assert (7 <= Z.log2 n) by (apply (Z.log2_le_mono 128 n); lia).
  rewrite Z.log2_shiftr by lia.
  lia.
Qed.

(** ** Python values *)

#[local] Set Warnings "-register-all".

Inductive value : Type :=
| VNone
| VBool (b : bool)
| VInt (n : Z)
| VFloat (bits : Z)
| VStr (s : string)
| VBytes (payload : list Z)
| VBytearray (payload : list Z)
| VMemoryview (payload : list Z)
| VDatetime (ms : Z)
| VList (items : list value)
| VTuple (items : list value)
| VSet (elems : list value)
| VDict (entries : list (value * value))
| VOther (type_name : string).

(** ** Exceptions and outcomes

    [LensEncodeError] is only ever raised with the message
    ["Unsupported type: ..."]; the constructor carries the offending
    object.  [LensDecodeError] carries which of the decoder's messages was
    raised.  The remaining constructors are Python's built-in exceptions,
    which are not subclasses of [LensError]. *)

Inductive decode_msg : Type :=
| EndOfBufferInVarint
| VarintOverflow
| ExpectedSymrefForDictKey (tag : Z)
| EndOfBuffer
| EndOfBufferForFloat
| EndOfBufferForString
| EndOfBufferForBytes
| UnknownTag (tag : Z).

Inductive exn : Type :=
| LensEncodeError (unsupported : value)
| LensDecodeError (msg : decode_msg)
| KeyError (key : value)
| IndexError
| OverflowError
| TypeError
| ValueError
| SystemError
| MemoryError
| UnicodeDecodeError.

Inductive undefined : Type :=
| BufferReadOutOfBounds (pos : Z)
| SymbolReadOutOfBounds (index : Z)
| ItemStoreOutOfBounds (index : Z)
| NullItem
| SelfReference.

Inductive outcome (A : Type) : Type :=
| Ok (a : A)
| Raise (e : exn)
| Undefined (u : undefined)
| OutOfFuel.

Arguments Ok {A} a.
Arguments Raise {A} e.
Arguments Undefined {A} u.
Arguments OutOfFuel {A}.

Definition bind {A B : Type} (m : outcome A) (k : A -> outcome B) : outcome B :=
  match m with
  | Ok a => k a
  | Raise e => Raise e
  | Undefined u => Undefined u
  | OutOfFuel => OutOfFuel
  end.

Notation "x <- m ;; k" := (bind m (fun x => k))
  (at level 61, m at next level, right associativity).
Notation "' p <- m ;; k" := (bind m (fun x => let p := x in k))
  (at level 61, p pattern, m at next level, right associativity).

(** ** Strings as UTF-8 *)

Definition utf8_encode (s : string) : list Z :=
  map (fun a => Z.of_N (N_of_ascii a)) (list_ascii_of_string s).

Definition string_of_bytes (b : list Z) : string :=
  string_of_list_ascii (map (fun z => ascii_of_N (Z.to_N z)) b).

(** Acceptance by a strict UTF-8 decoder (well-formed byte sequences of the
    Unicode standard: no overlong forms, no surrogates, nothing above
    U+10FFFF).  [pending] continuation bytes are still owed; the next one
    must lie in [lo, hi]. *)
Fixpoint utf8_well_formed (pending : nat) (lo hi : Z) (b : list Z) : bool :=
  match b with
  | [] => Nat.eqb pending 0
  | c :: rest =>
      match pending with
      | O =>
          if c <? 128 then utf8_well_formed 0 128 191 rest
          else if (194 <=? c) && (c <=? 223) then utf8_well_formed 1 128 191 rest
          else if c =? 224 then utf8_well_formed 2 160 191 rest
          else if (225 <=? c) && (c <=? 236) then utf8_well_formed 2 128 191 rest
          else if c =? 237 then utf8_well_formed 2 128 159 rest
          else if (238 <=? c) && (c <=? 239) then utf8_well_formed 2 128 191 rest
          else if c =? 240 then utf8_well_formed 3 144 191 rest
          else if (241 <=? c) && (c <=? 243) then utf8_well_formed 3 128 191 rest
          else if c =? 244 then utf8_well_formed 3 128 143 rest
          else false
      | S p => (lo <=? c) && (c <=? hi) && utf8_well_formed p 128 191 rest
      end
  end.

(** [PyUnicode_DecodeUTF8(p, ln, "strict")]. *)
Definition PyUnicode_DecodeUTF8 (b : list Z) : outcome value :=
  if utf8_well_formed 0 128 191 b then Ok (VStr (string_of_bytes b))
  else Raise UnicodeDecodeError.

(** ** Dictionaries in insertion order *)

Section Dict.
Context {K V : Type} (eqb : K -> K -> bool).

Fixpoint dict_get (d : list (K * V)) (k : K) : option V :=
  match d with
  | [] => None
  | (k', v) :: rest => if eqb k' k then Some v else dict_get rest k
  end.

Fixpoint dict_set (d : list (K * V)) (k : K) (v : V) : list (K * V) :=
  match d with
  | [] => [(k, v)]
  | (k', v') :: rest =>
      if eqb k' k then (k', v) :: rest else (k', v') :: dict_set rest k v
  end.
End Dict.

(** ** 64-bit words in memory (little-endian host, [NEED_SWAP = 1]) *)

Definition byte_at (x : Z) (i : Z) : Z := Z.land (Z.shiftr x (8 * i)) 255.

Definition word_bytes (x : Z) : list Z :=
  map (byte_at x) [0; 1; 2; 3; 4; 5; 6; 7].

Fixpoint bytes_word (b : list Z) : Z :=
  match b with
  | [] => 0
  | c :: rest => Z.lor c (Z.shiftl (bytes_word rest) 8)
  end.

Definition lens_be64 (x : Z) : Z := bytes_word (rev (word_bytes x)).

(** ** FastEncoder *)

Record FastEncoder : Type := {
  symbol_map : list (string * Z);
  ext_handler : option (value -> option (Z * list Z))
}.

(** [{sym: i for i, sym in enumerate(symbols)}]: a later duplicate
    overwrites the index of an earlier one. *)
Fixpoint enumerate_symbols (i : Z) (symbols : list string)
    (m : list (string * Z)) : list (string * Z) :=
  match symbols with
  | [] => m
  | sym :: rest => enumerate_symbols (i + 1) rest (dict_set String.eqb m sym i)
  end.

Definition FastEncoder_init (symbols : list string)
    (ext_handler : option (value -> option (Z * list Z))) : FastEncoder :=
  {| symbol_map := enumerate_symbols 0 symbols []; ext_handler := ext_handler |}.

(** [self.symbol_map[k]] for an arbitrary key object: only a [str] can be
    equal to a key of the symbol map. *)
Definition symbol_map_getitem (self : FastEncoder) (k : value) : outcome Z :=
  match k with
  | VStr s =>
      match dict_get String.eqb (symbol_map self) s with
      | Some i => Ok i
      | None => Raise (KeyError k)
      end
  | _ => Raise (KeyError k)
  end.

Definition len {A : Type} (l : list A) : Z := Z.of_nat (List.length l).

Fixpoint _encode_recursive (self : FastEncoder) (obj : value)
    (buffer : list Z) {struct obj} : outcome (list Z) :=
  match obj with
  | VNone => Ok (buffer ++ [T_NULL])
  | VBool true => Ok (buffer ++ [T_TRUE])
  | VBool false => Ok (buffer ++ [T_FALSE])
  | VInt n =>
      if in_int64 n
      then Ok (_write_varint (c_zigzag_encode n) (buffer ++ [T_INT]))
      else Raise OverflowError
  | VFloat bits =>
      Ok ((buffer ++ [T_FLOAT]) ++ word_bytes (lens_be64 bits))
  | VStr s =>
      match dict_get String.eqb (symbol_map self) s with
      | Some i => Ok (_write_varint i (buffer ++ [T_SYMREF]))
      | None =>
          let b_val := utf8_encode s in
          Ok (_write_varint (len b_val) (buffer ++ [T_STR]) ++ b_val)
      end
  | VDatetime ts =>
      if in_int64 ts
      then Ok (_write_varint (c_zigzag_encode ts) (buffer ++ [T_TIME]))
      else Raise OverflowError
  | VList items =>
      (fix each (l : list value) (buffer : list Z) : outcome (list Z) :=
         match l with
         | [] => Ok buffer
         | item :: rest =>
             buffer <- _encode_recursive self item buffer ;; each rest buffer
         end) items (_write_varint (len items) (buffer ++ [T_ARR]))
  | VDict entries =>
      (fix each (l : list (value * value)) (buffer : list Z)
           : outcome (list Z) :=
         match l with
         | [] => Ok buffer
         | (k, v) :: rest =>
             i <- symbol_map_getitem self k ;;
             buffer <- _encode_recursive self v
                         (_write_varint i (buffer ++ [T_SYMREF])) ;;
             each rest buffer
         end) entries (_write_varint (len entries) (buffer ++ [T_OBJ]))
  | VBytes payload | VBytearray payload =>
      Ok (_write_varint (len payload) (buffer ++ [T_BYTES]) ++ payload)
  | VTuple items =>
      (fix each (l : list value) (buffer : list Z) : outcome (list Z) :=
         match l with
         | [] => Ok buffer
         | item :: rest =>
             buffer <- _encode_recursive self item buffer ;; each rest buffer
         end) items (_write_varint (len items) (buffer ++ [T_TUPLE]))
  | VSet elems =>
      (fix each (l : list value) (buffer : list Z) : outcome (list Z) :=
         match l with
         | [] => Ok buffer
         | item :: rest =>
             buffer <- _encode_recursive self item buffer ;; each rest buffer
         end) elems (_write_varint (len elems) (buffer ++ [T_SET]))
  | VMemoryview _ | VOther _ =>
      match ext_handler self with
      | Some handler =>
          match handler obj with
          | Some (eid, payload) =>
              if in_uint64 eid
              then Ok (_write_varint (len payload)
                         (_write_varint eid (buffer ++ [T_EXT])) ++ payload)
              else Raise OverflowError
          | None => Raise (LensEncodeError obj)
          end
      | None => Raise (LensEncodeError obj)
      end
  end.

(** [encode]: clear the buffer, encode, return a copy as [bytes]. *)
Definition encode (self : FastEncoder) (obj : value) : outcome (list Z) :=
  _encode_recursive self obj [].

(** ** Python object protocol used by the decoder *)

Definition is_None (v : value) : bool :=
  match v with VNone => true | _ => false end.

Fixpoint hashable (v : value) : bool :=
  match v with
  | VList _ | VSet _ | VDict _ | VBytearray _ => false
  | VTuple items => forallb hashable items
  | _ => true
  end.

(** [==] on hashable objects, as set insertion and dictionary assignment
    use it.  A [bool] equals the [int] 0 or 1; floats compare by bit
    pattern; memoryview objects compare by identity and are never equal to
    another object; unhashable objects never reach a comparison. *)
Fixpoint py_eqb (a b : value) {struct a} : bool :=
  match a, b with
  | VNone, VNone => true
  | VBool x, VBool y => Bool.eqb x y
  | VBool x, VInt n => n =? (if x then 1 else 0)
  | VInt n, VBool x => n =? (if x then 1 else 0)
  | VInt x, VInt y => x =? y
  | VFloat x, VFloat y => x =? y
  | VStr x, VStr y => String.eqb x y
  | VBytes x, VBytes y =>
      (List.length x =? List.length y)%nat && forallb (fun p => fst p =? snd p) (combine x y)
  | VDatetime x, VDatetime y => x =? y
  | VTuple xs, VTuple ys =>
      (fix all2 (l : list value) (r : list value) : bool :=
         match l, r with
         | [], [] => true
         | x :: l', y :: r' => py_eqb x y && all2 l' r'
         | _, _ => false
         end) xs ys
  | VOther x, VOther y => String.eqb x y
  | _, _ => false
  end.

Inductive container_obj : Type :=
| CNone
| CList (slots : list (option value))
| CTuple (slots : list (option value))
| CDict (entries : list (value * value))
| CSet (elems : list value).

Definition PY_SSIZE_T_MAX : Z := 2 ^ 63 - 1.

(** [PyList_New(n)] and [PyTuple_New(n)]: [n] slots holding [NULL]. *)
Definition new_slots (n : Z) : outcome (list (option value)) :=
  if n <? 0 then Raise SystemError
  else if n >? PY_SSIZE_T_MAX / 8 then Raise MemoryError
  else Ok (repeat None (Z.to_nat n)).

Definition PyList_New (n : Z) : outcome container_obj :=
  slots <- new_slots n ;; Ok (CList slots).

Definition PyTuple_New (n : Z) : outcome container_obj :=
  slots <- new_slots n ;; Ok (CTuple slots).

Fixpoint store_slot (slots : list (option value)) (i : nat) (val : value)
    : option (list (option value)) :=
  match slots, i with
  | [], _ => None
  | _ :: rest, O => Some (Some val :: rest)
  | s :: rest, S i' =>
      match store_slot rest i' val with
      | Some rest' => Some (s :: rest')
      | None => None
      end
  end.

(** [PyList_SET_ITEM] / [PyTuple_SET_ITEM]: an unchecked store. *)
Definition SET_ITEM (slots : list (option value)) (i : Z) (val : value)
    : outcome (list (option value)) :=
  if i <? 0 then Undefined (ItemStoreOutOfBounds i)
  else match store_slot slots (Z.to_nat i) val with
       | Some slots' => Ok slots'
       | None => Undefined (ItemStoreOutOfBounds i)
       end.

Definition PyDict_SetItem (c : container_obj) (key val : value)
    : outcome container_obj :=
  match c with
  | CDict entries =>
      if hashable key then Ok (CDict (dict_set py_eqb entries key val))
      else Raise TypeError
  | _ => Raise SystemError
  end.

Definition PySet_Add (c : container_obj) (val : value) : outcome container_obj :=
  match c with
  | CSet elems =>
      if hashable val
      then Ok (CSet (if existsb (py_eqb val) elems then elems else elems ++ [val]))
      else Raise TypeError
  | _ => Raise SystemError
  end.

Fixpoint filled (slots : list (option value)) : option (list value) :=
  match slots with
  | [] => Some []
  | Some v :: rest =>
      match filled rest with Some l => Some (v :: l) | None => None end
  | None :: _ => None
  end.

(** The finished container as a value.  A sequence that still holds a
    [NULL] slot is not a valid Python object. *)
Definition container_value (c : container_obj) : outcome value :=
  match c with
  | CNone => Ok VNone
  | CList slots =>
      match filled slots with Some l => Ok (VList l) | None => Undefined NullItem end
  | CTuple slots =>
      match filled slots with Some l => Ok (VTuple l) | None => Undefined NullItem end
  | CDict entries => Ok (VDict entries)
  | CSet elems => Ok (VSet elems)
  end.

(** ** DecodeFrame *)

Record DecodeFrame : Type := {
  container : container_obj;
  remaining : Z;
  list_idx : Z;
  current_key : value;
  is_dict : bool
}.

(** [reset] overwrites every field of the frame. *)
Definition reset (container : container_obj) (remaining : Z) (is_dict : bool)
    : DecodeFrame :=
  {| container := container; remaining := remaining; is_dict := is_dict;
     current_key := VNone; list_idx := 0 |}.

(** A frame on the decoder's stack is an object reference: either one of
    the 32 pooled frames, shared with [frame_pool], or a frame allocated
    for this push and referenced from the stack only. *)
Inductive frame_ref : Type :=
| Pooled (slot : nat)
| Allocated (frame : DecodeFrame).

(** ** FastDecoder *)

Record FastDecoder : Type := {
  buffer : list Z;
  size : Z;
  pos : Z;
  symbols : list string;
  frame_pool : list DecodeFrame;
  pool_idx : Z;
  zero_copy : bool;
  ext_hook : option (Z -> list Z -> outcome value);
  ts_hook : option (Z -> outcome value)
}.

Definition FastDecoder_init (data : list Z) (symbols : list string)
    (zero_copy : bool) (ext_hook : option (Z -> list Z -> outcome value))
    (ts_hook : option (Z -> outcome value)) : FastDecoder :=
  {| buffer := data; size := len data; pos := 0; symbols := symbols;
     zero_copy := zero_copy; ext_hook := ext_hook; ts_hook := ts_hook;
     pool_idx := 0; frame_pool := repeat (reset CNone 0 false) 32 |}.

Definition set_pos (self : FastDecoder) (p : Z) : FastDecoder :=
  {| buffer := buffer self; size := size self; pos := p;
     symbols := symbols self; frame_pool := frame_pool self;
     pool_idx := pool_idx self; zero_copy := zero_copy self;
     ext_hook := ext_hook self; ts_hook := ts_hook self |}.

Definition set_pool (self : FastDecoder) (pool : list DecodeFrame) (idx : Z)
    : FastDecoder :=
  {| buffer := buffer self; size := size self; pos := pos self;
     symbols := symbols self; frame_pool := pool;
     pool_idx := idx; zero_copy := zero_copy self;
     ext_hook := ext_hook self; ts_hook := ts_hook self |}.

(** [self.buffer[i]] with bounds checking disabled. *)
Definition buffer_getitem (self : FastDecoder) (i : Z) : outcome Z :=
  if i <? 0 then Undefined (BufferReadOutOfBounds i)
  else match nth_error (buffer self) (Z.to_nat i) with
       | Some b => Ok b
       | None => Undefined (BufferReadOutOfBounds i)
       end.

(** The [ln] bytes at [&self.buffer[start]], read through the raw pointer. *)
Definition buffer_span (self : FastDecoder) (start ln : Z) : outcome (list Z) :=
  if ln <=? 0 then Ok []
  else if start <? 0 then Undefined (BufferReadOutOfBounds start)
  else if start + ln >? size self then Undefined (BufferReadOutOfBounds (size self))
  else Ok (firstn (Z.to_nat ln) (skipn (Z.to_nat start) (buffer self))).

(** [self.buffer[start:stop]]: slicing a memoryview normalises and clamps
    its bounds like any Python slice. *)
Definition slice_bound (shape i : Z) : Z :=
  if i <? 0 then Z.max 0 (i + shape) else Z.min i shape.

Definition buffer_slice (self : FastDecoder) (start stop : Z) : list Z :=
  let a := slice_bound (size self) start in
  let b := slice_bound (size self) stop in
  firstn (Z.to_nat (b - a)) (skipn (Z.to_nat a) (buffer self)).

(** [self.symbols[i]] for a [uint64_t] index with bounds checking disabled:
    an index that does not fit [Py_ssize_t] raises [IndexError]; any other
    index is read without a check. *)
Definition symbols_getitem (self : FastDecoder) (i : Z) : outcome value :=
  if i >? PY_SSIZE_T_MAX then Raise IndexError
  else match nth_error (symbols self) (Z.to_nat i) with
       | Some s => Ok (VStr s)
       | None => Undefined (SymbolReadOutOfBounds i)
       end.

(** [_read_varint].  The loop runs at most ten times: [shift] grows by
    seven on every continuation byte and the loop raises once it exceeds
    63, so ten units of fuel are never used up. *)
Fixpoint read_varint_loop (fuel : nat) (self : FastDecoder) (res shift : Z)
    : outcome (Z * FastDecoder) :=
  match fuel with
  | O => OutOfFuel
  | S fuel =>
      if pos self >=? size self
      then Raise (LensDecodeError EndOfBufferInVarint)
      else
        b <- buffer_getitem self (pos self) ;;
        let self := set_pos self (pos self + 1) in
        let res := Z.lor res (wrap64 (Z.shiftl (Z.land b 127) shift)) in
        if Z.land b 128 =? 0 then Ok (res, self)
        else
          let shift := shift + 7 in
          if shift >? 63 then Raise (LensDecodeError VarintOverflow)
          else read_varint_loop fuel self res shift
  end.

Definition _read_varint (self : FastDecoder) : outcome (Z * FastDecoder) :=
  read_varint_loop 10 self 0 0.

Definition deref (self : FastDecoder) (r : frame_ref) : DecodeFrame :=
  match r with
  | Pooled slot => nth slot (frame_pool self) (reset CNone 0 false)
  | Allocated frame => frame
  end.

Fixpoint list_store {A : Type} (l : list A) (i : nat) (a : A) : list A :=
  match l, i with
  | [], _ => []
  | _ :: rest, O => a :: rest
  | x :: rest, S i' => x :: list_store rest i' a
  end.

(** Writing the fields of the frame object that [stack[-1]] refers to. *)
Definition store_top (self : FastDecoder) (stack : list frame_ref)
    (frame : DecodeFrame) : FastDecoder * list frame_ref :=
  match stack with
  | Pooled slot :: _ =>
      (set_pool self (list_store (frame_pool self) slot frame) (pool_idx self),
       stack)
  | Allocated _ :: below => (self, Allocated frame :: below)
  | [] => (self, [])
  end.

Definition _push_frame (self : FastDecoder) (container : container_obj)
    (remaining : Z) (is_dict : bool) : frame_ref * FastDecoder :=
  if pool_idx self >=? 32
  then (Allocated (reset container remaining is_dict), self)
  else
    let slot := Z.to_nat (pool_idx self) in
    (Pooled slot,
     set_pool self
       (list_store (frame_pool self) slot (reset container remaining is_dict))
       (pool_idx self + 1)).

Definition with_fill (frame : DecodeFrame) (c : container_obj)
    (idx : Z) : DecodeFrame :=
  {| container := c; remaining := remaining frame; list_idx := idx;
     current_key := current_key frame; is_dict := is_dict frame |}.

Definition with_key (frame : DecodeFrame) (key : value) : DecodeFrame :=
  {| container := container frame; remaining := remaining frame;
     list_idx := list_idx frame; current_key := key;
     is_dict := is_dict frame |}.

Definition with_remaining (frame : DecodeFrame) (n : Z) : DecodeFrame :=
  {| container := container frame; remaining := n;
     list_idx := list_idx frame; current_key := current_key frame;
     is_dict := is_dict frame |}.

Definition _fill_container (frame : DecodeFrame) (val : value)
    : outcome DecodeFrame :=
  frame <-
    (if is_dict frame then
       c <- PyDict_SetItem (container frame) (current_key frame) val ;;
       Ok (with_key (with_fill frame c (list_idx frame)) VNone)
     else
       match container frame with
       | CList slots =>
           slots <- SET_ITEM slots (list_idx frame) val ;;
           Ok (with_fill frame (CList slots) (list_idx frame + 1))
       | CTuple slots =>
           slots <- SET_ITEM slots (list_idx frame) val ;;
           Ok (with_fill frame (CTuple slots) (list_idx frame + 1))
       | other =>
           c <- PySet_Add other val ;;
           Ok (with_fill frame c (list_idx frame))
       end) ;;
  Ok (with_remaining frame (remaining frame - 1)).

(** [datetime.fromtimestamp(ms / 1000.0, tz=UTC)]: the instant [ms]
    milliseconds after the epoch, provided its year lies in 1..9999. *)
Definition datetime_fromtimestamp (ms : Z) : outcome value :=
  if (-62135596800000 <=? ms) && (ms <=? 253402300799999)
  then Ok (VDatetime ms)
  else Raise ValueError.

(** ** The decoding loop

    One iteration of [while True] in [decode_all] either ends the call
    ([Done]) or reaches a [continue] or the end of the loop body
    ([Continue]) with the updated decoder and stack.  The head of [stack]
    is [stack[-1]]. *)

Inductive step : Type :=
| Continue (self : FastDecoder) (stack : list frame_ref)
| Done (result : outcome value).

Definition step_bind {A : Type} (m : outcome A) (k : A -> step) : step :=
  match m with
  | Ok a => k a
  | Raise e => Done (Raise e)
  | Undefined u => Done (Undefined u)
  | OutOfFuel => Done OutOfFuel
  end.

Notation "x <-- m ;; k" := (step_bind m (fun x => k))
  (at level 61, m at next level, right associativity).
Notation "' p <-- m ;; k" := (step_bind m (fun x => let p := x in k))
  (at level 61, p pattern, m at next level, right associativity).

Definition same_frame (a b : frame_ref) : bool :=
  match a, b with
  | Pooled i, Pooled j => Nat.eqb i j
  | _, _ => false
  end.

(** [if stack: self._fill_container(stack[-1], val, owned) else: return val] *)
Definition install (self : FastDecoder) (stack : list frame_ref) (val : value)
    : step :=
  match stack with
  | [] => Done (Ok val)
  | top :: _ =>
      frame <-- _fill_container (deref self top) val ;;
      let '(self, stack) := store_top self stack frame in
      Continue self stack
  end.

Definition push (self : FastDecoder) (stack : list frame_ref)
    (container : container_obj) (remaining : Z) (is_dict : bool) : step :=
  let '(frame, self) := _push_frame self container remaining is_dict in
  Continue self (frame :: stack).

(** The tail of the loop body: read one tag and the value it announces. *)
Definition decode_value (self : FastDecoder) (stack : list frame_ref) : step :=
  if pos self >=? size self then Done (Raise (LensDecodeError EndOfBuffer))
  else
    tag <-- buffer_getitem self (pos self) ;;
    let self := set_pos self (pos self + 1) in
    if tag =? T_NULL then install self stack VNone
    else if tag =? T_TRUE then install self stack (VBool true)
    else if tag =? T_FALSE then install self stack (VBool false)
    else if tag =? T_INT then
      '(u, self) <-- _read_varint self ;;
      install self stack (VInt (c_zigzag_decode u))
    else if tag =? T_FLOAT then
      if to_int64 (pos self + 8) >? size self
      then Done (Raise (LensDecodeError EndOfBufferForFloat))
      else
        raw <-- buffer_span self (pos self) 8 ;;
        let self := set_pos self (to_int64 (pos self + 8)) in
        install self stack (VFloat (lens_be64 (bytes_word raw)))
    else if tag =? T_STR then
      '(u, self) <-- _read_varint self ;;
      let ln := to_int64 u in
      if to_int64 (pos self + ln) >? size self
      then Done (Raise (LensDecodeError EndOfBufferForString))
      else
        let start := pos self in
        let self := set_pos self (to_int64 (pos self + ln)) in
        val <-- (if ln <? 0 then Raise SystemError
                 else raw <- buffer_span self start ln ;;
                      PyUnicode_DecodeUTF8 raw) ;;
        install self stack val
    else if tag =? T_BYTES then
      '(u, self) <-- _read_varint self ;;
      let ln := to_int64 u in
      if to_int64 (pos self + ln) >? size self
      then Done (Raise (LensDecodeError EndOfBufferForBytes))
      else
        let start := pos self in
        let self := set_pos self (to_int64 (pos self + ln)) in
        let raw := buffer_slice self start (pos self) in
        install self stack (if zero_copy self then VMemoryview raw else VBytes raw)
    else if tag =? T_SYMREF then
      '(u, self) <-- _read_varint self ;;
      val <-- symbols_getitem self u ;;
      install self stack val
    else if tag =? T_TIME then
      '(u, self) <-- _read_varint self ;;
      let var_int := wrap64 (c_zigzag_decode u) in
      val <-- match ts_hook self with
              | Some hook => hook var_int
              | None => datetime_fromtimestamp var_int
              end ;;
      install self stack val
    else if tag =? T_EXT then
      '(var_int, self) <-- _read_varint self ;;
      '(u, self) <-- _read_varint self ;;
      let ln := to_int64 u in
      let start := pos self in
      let self := set_pos self (to_int64 (pos self + ln)) in
      let raw := buffer_slice self start (pos self) in
      val <-- match ext_hook self with
              | Some hook => hook var_int raw
              | None => Ok (VTuple [VInt var_int; VMemoryview raw])
              end ;;
      install self stack val
    else if tag =? T_ARR then
      '(var_int, self) <-- _read_varint self ;;
      if var_int =? 0 then install self stack (VList [])
      else
        c <-- PyList_New (to_int64 var_int) ;;
        push self stack c (to_int64 var_int) false
    else if tag =? T_OBJ then
      '(var_int, self) <-- _read_varint self ;;
      if var_int =? 0 then install self stack (VDict [])
      else push self stack (CDict []) (to_int64 var_int) true
    else if tag =? T_TUPLE then
      '(var_int, self) <-- _read_varint self ;;
      c <-- PyTuple_New (to_int64 var_int) ;;
      push self stack c (to_int64 var_int) false
    else if tag =? T_SET then
      '(var_int, self) <-- _read_varint self ;;
      push self stack (CSet []) (to_int64 var_int) false
    else Done (Raise (LensDecodeError (UnknownTag tag))).

Definition decode_step (self : FastDecoder) (stack : list frame_ref) : step :=
  match stack with
  | top :: below =>
      let frame := deref self top in
      if remaining frame =? 0 then
        (* close the frame *)
        val <-- container_value (container frame) ;;
        let self :=
          if pool_idx self >? 0
          then set_pool self (frame_pool self) (pool_idx self - 1)
          else self in
        match below with
        | [] => Done (Ok val)
        | parent :: _ =>
            (* when [parent] is the frame just popped, [val] is the very
               dictionary it would be stored into *)
            if same_frame top parent && is_dict (deref self parent)
            then Done (Undefined SelfReference)
            else install self below val
        end
      else if is_dict frame && is_None (current_key frame) then
        (* dict key handling *)
        tag <-- buffer_getitem self (pos self) ;;
        if negb (tag =? T_SYMREF)
        then Done (Raise (LensDecodeError (ExpectedSymrefForDictKey tag)))
        else
          let self := set_pos self (pos self + 1) in
          '(u, self) <-- _read_varint self ;;
          key <-- symbols_getitem self u ;;
          let '(self, stack) := store_top self stack (with_key frame key) in
          Continue self stack
      else decode_value self stack
  | [] => decode_value self stack
  end.

Fixpoint decode_loop (fuel : nat) (self : FastDecoder) (stack : list frame_ref)
    : outcome value :=
  match fuel with
  | O => OutOfFuel
  | S fuel =>
      match decode_step self stack with
      | Done result => result
      | Continue self stack => decode_loop fuel self stack
      end
  end.

(** [decode_all] run for at most [fuel] iterations of its loop. *)
Definition decode_all (fuel : nat) (self : FastDecoder) : outcome value :=
  decode_loop fuel self [].

(** [FastDecoder(data, symbols).decode_all()] with the default options. *)
Definition decode (fuel : nat) (data : list Z) (symbols : list string)
    : outcome value :=
  decode_all fuel (FastDecoder_init data symbols false None None).

(** ** Induction over values

    [value] nests through [list]: the induction principle carries the
    hypothesis for every element of a sequence and every value of a
    dictionary. *)

Section ValueInduction.
Variable P : value -> Prop.
Hypothesis HNone : P VNone.
Hypothesis HBool : forall b, P (VBool b).
Hypothesis HInt : forall n, P (VInt n).
Hypothesis HFloat : forall bits, P (VFloat bits).
Hypothesis HStr : forall s, P (VStr s).
Hypothesis HBytes : forall b, P (VBytes b).
Hypothesis HBytearray : forall b, P (VBytearray b).
Hypothesis HMemoryview : forall b, P (VMemoryview b).
Hypothesis HDatetime : forall ms, P (VDatetime ms).
Hypothesis HList : forall items, Forall P items -> P (VList items).
Hypothesis HTuple : forall items, Forall P items -> P (VTuple items).
Hypothesis HSet : forall elems, Forall P elems -> P (VSet elems).
Hypothesis HDict :
  forall entries, Forall (fun kv => P (snd kv)) entries -> P (VDict entries).
Hypothesis HOther : forall name, P (VOther name).

Fixpoint value_induction (v : value) : P v :=
  match v with
  | VNone => HNone
  | VBool b => HBool b
  | VInt n => HInt n
  | VFloat bits => HFloat bits
  | VStr s => HStr s
  | VBytes b => HBytes b
  | VBytearray b => HBytearray b
  | VMemoryview b => HMemoryview b
  | VDatetime ms => HDatetime ms
  | VList items =>
      HList items
        ((fix all (l : list value) : Forall P l :=
            match l with
            | [] => Forall_nil P
            | x :: r => Forall_cons x (value_induction x) (all r)
            end) items)
  | VTuple items =>
      HTuple items
        ((fix all (l : list value) : Forall P l :=
            match l with
            | [] => Forall_nil P
            | x :: r => Forall_cons x (value_induction x) (all r)
            end) items)
  | VSet elems =>
      HSet elems
        ((fix all (l : list value) : Forall P l :=
            match l with
            | [] => Forall_nil P
            | x :: r => Forall_cons x (value_induction x) (all r)
            end) elems)
  | VDict entries =>
      HDict entries
        ((fix all (l : list (value * value)) : Forall (fun kv => P (snd kv)) l :=
            match l with
            | [] => Forall_nil _
            | (k, x) :: r => Forall_cons (k, x) (value_induction x) (all r)
            end) entries)
  | VOther name => HOther name
  end.
End ValueInduction.


(** ** The encoder's loops, named

    [encode_each] is the [for item in obj] loop of the list, tuple and set
    branches; [encode_entries] is the [for k, v in obj.items()] loop of the
    dict branch. *)

Definition map_outcome {A B : Type} (f : A -> B) (m : outcome A) : outcome B :=
  match m with
  | Ok a => Ok (f a)
  | Raise e => Raise e
  | Undefined u => Undefined u
  | OutOfFuel => OutOfFuel
  end.

Fixpoint encode_each (self : FastEncoder) (l : list value) (buffer : list Z)
    : outcome (list Z) :=
  match l with
  | [] => Ok buffer
  | item :: rest =>
      buffer <- _encode_recursive self item buffer ;; encode_each self rest buffer
  end.

Fixpoint encode_entries (self : FastEncoder) (l : list (value * value))
    (buffer : list Z) : outcome (list Z) :=
  match l with
  | [] => Ok buffer
  | (k, v) :: rest =>
      i <- symbol_map_getitem self k ;;
      buffer <- _encode_recursive self v (_write_varint i (buffer ++ [T_SYMREF])) ;;
      encode_entries self rest buffer
  end.


(** ** How the encoder's type dispatch is reached

    [fallthrough obj]: [obj] matches none of the [isinstance] tests and
    reaches the final [else].  [ext_declines self obj]: no extension
    handler is configured, or it returns a falsy result for [obj].
    [dispatched self obj x]: encoding [obj] calls [_encode_recursive] on
    [x]; everything visited before [x] was encoded without an exception.
    [has_key obj k]: [k] is a key of a dictionary inside [obj]. *)

Definition fallthrough (obj : value) : bool :=
  match obj with VMemoryview _ | VOther _ => true | _ => false end.

Definition ext_declines (self : FastEncoder) (obj : value) : Prop :=
  match ext_handler self with
  | Some handler => handler obj = None
  | None => True
  end.

Definition encodes (self : FastEncoder) (obj : value) : Prop :=
  exists out, _encode_recursive self obj [] = Ok out.

Definition resolves (self : FastEncoder) (k : value) : Prop :=
  exists i, symbol_map_getitem self k = Ok i.

Definition in_symbol_table (symbols : list string) (k : value) : Prop :=
  match k with VStr s => In s symbols | _ => False end.

Inductive dispatched (self : FastEncoder) : value -> value -> Prop :=
| dispatched_here obj : dispatched self obj obj
| dispatched_list pre item post x :
    Forall (encodes self) pre -> dispatched self item x ->
    dispatched self (VList (pre ++ item :: post)) x
| dispatched_tuple pre item post x :
    Forall (encodes self) pre -> dispatched self item x ->
    dispatched self (VTuple (pre ++ item :: post)) x
| dispatched_set pre item post x :
    Forall (encodes self) pre -> dispatched self item x ->
    dispatched self (VSet (pre ++ item :: post)) x
| dispatched_dict pre k v post x :
    Forall (fun kv => resolves self (fst kv) /\ encodes self (snd kv)) pre ->
    resolves self k -> dispatched self v x ->
    dispatched self (VDict (pre ++ (k, v) :: post)) x.

Inductive has_key : value -> value -> Prop :=
| has_key_here entries k v : In (k, v) entries -> has_key (VDict entries) k
| has_key_value entries k' v k :
    In (k', v) entries -> has_key v k -> has_key (VDict entries) k
| has_key_list items item k :
    In item items -> has_key item k -> has_key (VList items) k
| has_key_tuple items item k :
    In item items -> has_key item k -> has_key (VTuple items) k
| has_key_set items item k :
    In item items -> has_key item k -> has_key (VSet items) k.


(** ** Running the decoding loop a fixed number of iterations *)

Fixpoint decode_steps (n : nat) (self : FastDecoder) (stack : list frame_ref)
    : step :=
  match n with
  | O => Continue self stack
  | S n =>
      match decode_step self stack with
      | Continue self stack => decode_steps n self stack
      | Done result => Done result
      end
  end.

Definition stack_of (s : step) : list frame_ref :=
  match s with Continue _ stack => stack | Done _ => [] end.

Definition pool_idx_of (s : step) : Z :=
  match s with Continue self _ => pool_idx self | Done _ => -1 end.

(** [depth] singleton lists around [inner]. *)
Definition nested (depth : nat) (inner : value) : value :=
  Nat.iter depth (fun v => VList [v]) inner.

Definition is_LensEncodeError (r : outcome (list Z)) : bool :=
  match r with Raise (LensEncodeError _) => true | _ => false end.

Definition is_LensDecodeError (r : outcome value) : bool :=
  match r with Raise (LensDecodeError _) => true | _ => false end.

(** ** Supported values and the state of the loop inside a container

    What the round trip needs: the nesting depth of a value as the decoder
    counts frames, the values the encoder and decoder both handle, and the
    frames the loop keeps in the pool while it fills a container. *)

(** The number of frames the decoder holds at once while it rebuilds [v].
    An empty list or dict is returned without a frame ([var_int == 0] in
    the T_ARR and T_OBJ branches); a tuple or set always gets one. *)
Fixpoint depth (v : value) : nat :=
  match v with
  | VList items =>
      match items with
      | [] => O
      | _ =>
          S ((fix deepest (l : list value) : nat :=
                match l with
                | [] => O
                | x :: r => Nat.max (depth x) (deepest r)
                end) items)
      end
  | VTuple items | VSet items =>
      S ((fix deepest (l : list value) : nat :=
            match l with
            | [] => O
            | x :: r => Nat.max (depth x) (deepest r)
            end) items)
  | VDict entries =>
      match entries with
      | [] => O
      | _ =>
          S ((fix deepest (l : list (value * value)) : nat :=
                match l with
                | [] => O
                | (_, x) :: r => Nat.max (depth x) (deepest r)
                end) entries)
      end
  | _ => O
  end.

(** Every earlier element differs from every later one, as [==] sees it. *)
Fixpoint distinct (done : list value) (rest : list value) : Prop :=
  match rest with
  | [] => True
  | x :: r => existsb (py_eqb x) done = false /\ distinct (done ++ [x]) r
  end.

Fixpoint distinct_keys (done : list (value * value)) (rest : list (value * value))
    : Prop :=
  match rest with
  | [] => True
  | (k, v) :: r =>
      existsb (fun e => py_eqb (fst e) k) done = false /\
      distinct_keys (done ++ [(k, v)]) r
  end.

Inductive supported (symbols : list string) : value -> Prop :=
| supported_None : supported symbols VNone
| supported_bool b : supported symbols (VBool b)
| supported_int n : - 2 ^ 63 <= n < 2 ^ 63 -> supported symbols (VInt n)
| supported_float bits : 0 <= bits < 2 ^ 64 -> supported symbols (VFloat bits)
| supported_symbol s : In s symbols -> supported symbols (VStr s)
| supported_str s :
    utf8_well_formed 0 128 191 (utf8_encode s) = true ->
    supported symbols (VStr s)
| supported_bytes payload : supported symbols (VBytes payload)
| supported_datetime ms :
    0 <= ms <= 253402300799999 -> supported symbols (VDatetime ms)
| supported_list items :
    Forall (supported symbols) items -> supported symbols (VList items)
| supported_tuple items :
    Forall (supported symbols) items -> supported symbols (VTuple items)
| supported_set elems :
    Forall (supported symbols) elems ->
    Forall (fun x => hashable x = true) elems ->
    distinct [] elems ->
    supported symbols (VSet elems)
| supported_dict entries :
    Forall (fun kv => in_symbol_table symbols (fst kv) /\
                      supported symbols (snd kv)) entries ->
    distinct_keys [] entries ->
    supported symbols (VDict entries).

Definition run (fuel : nat) (s : step) : outcome value :=
  match s with
  | Continue self stack => decode_loop fuel self stack
  | Done result => result
  end.

Fixpoint pooled_stack (k : nat) : list frame_ref :=
  match k with
  | O => []
  | S k' => Pooled k' :: pooled_stack k'
  end.

Definition pool_agree (k : nat) (pool pool' : list DecodeFrame) : Prop :=
  List.length pool' = List.length pool /\
  forall i, (i < k)%nat ->
    nth i pool' (reset CNone 0 false) = nth i pool (reset CNone 0 false).

Definition seq_frame (tuple : bool) (done rest : list value) : DecodeFrame :=
  {| container :=
       (if tuple then CTuple else CList)
         (map Some done ++ repeat None (List.length rest));
     remaining := len rest; list_idx := len done;
     current_key := VNone; is_dict := false |}.

Definition set_frame (done rest : list value) : DecodeFrame :=
  {| container := CSet done; remaining := len rest; list_idx := 0;
     current_key := VNone; is_dict := false |}.

Definition dict_frame (done rest : list (value * value)) (key : value)
    : DecodeFrame :=
  {| container := CDict done; remaining := len rest; list_idx := 0;
     current_key := key; is_dict := true |}.

Definition decoder_at (data : list Z) (symbols : list string)
    (hook : option (Z -> list Z -> outcome value))
    (p : Z) (pool : list DecodeFrame) (idx : Z) : FastDecoder :=
  {| buffer := data; size := len data; pos := p; symbols := symbols;
     frame_pool := pool; pool_idx := idx; zero_copy := false;
     ext_hook := hook; ts_hook := None |}.



(** [entry_chunk self kv c]: [c] is what the dict branch writes for the
    entry [kv]: the SYMREF tag, the varint of the key's index, the value. *)
Definition entry_chunk (self : FastEncoder) (kv : value * value) (c : list Z)
    : Prop :=
  exists s i o,
    fst kv = VStr s /\
    dict_get String.eqb (symbol_map self) s = Some i /\
    _encode_recursive self (snd kv) [] = Ok o /\
    c = (T_SYMREF :: _write_varint i []) ++ o.

(** What [PySet_Add] needs to append [x] to the elements [done]. *)
Definition set_ok (done : list value) (x : value) : Prop :=
  hashable x = true /\ existsb (py_eqb x) done = false.

Fixpoint chain (okp : list value -> value -> Prop) (done rest : list value)
    : Prop :=
  match rest with
  | [] => True
  | x :: r => okp done x /\ chain okp (done ++ [x]) r
  end.

(** [decodes_back symbols handler data hook v]: started where the encoding
    of [v] begins inside [data], with [k] pooled frames on the stack, the
    loop installs [v] into the frame on top of the stack (or returns it)
    after finitely many iterations, leaving the frames in use untouched. *)
Definition decodes_back (symbols : list string)
    (handler : option (value -> option (Z * list Z))) (data : list Z)
    (hook : option (Z -> list Z -> outcome value)) (v : value) : Prop :=
  forall out,
    _encode_recursive (FastEncoder_init symbols handler) v [] = Ok out ->
    supported symbols v ->
    forall pre post pool k,
      data = pre ++ out ++ post -> List.length pool = 32%nat ->
      (k + depth v <= 32)%nat ->
      exists n pool',
        pool_agree k pool pool' /\
        forall fuel,
          run (n + fuel)
            (decode_value
               (decoder_at data symbols hook (len pre) pool (Z.of_nat k))
               (pooled_stack k))
          = run fuel
              (install
                 (decoder_at data symbols hook (len pre + len out) pool'
                    (Z.of_nat k))
                 (pooled_stack k) v).

(** ** Seed inputs *)

(** 1969-12-31T23:59:59.999Z, one millisecond before the epoch. *)
Definition before_epoch : value := VDatetime (-1).

(** Thirty-one singleton lists around a list of two singleton lists: the
    innermost lists sit at nesting depth 33. *)
Definition deep_value : value :=
  nested 31 (VList [VList [VNone]; VList [VNone]]).

Definition deep_bytes : list Z :=
  flat_map (fun _ => [6; 1]) (seq 0 31) ++ [6; 2; 6; 1; 0; 6; 1; 0].

(** The same shape one level shallower: depth 32, within the pool. *)
Definition shallow_value : value :=
  nested 30 (VList [VList [VNone]; VList [VNone]]).

Definition shallow_bytes : list Z :=
  flat_map (fun _ => [6; 1]) (seq 0 30) ++ [6; 2; 6; 1; 0; 6; 1; 0].

(** A ten-byte varint whose last byte is 2: the value 2^64. *)
Definition varint_2_64 : list Z :=
  [128; 128; 128; 128; 128; 128; 128; 128; 128; 2].

Definition id_name_symbols : list string := ["id"; "name"]%string.

Definition id_name_map : value :=
  VDict [(VStr "id", VInt 7); (VStr "name", VStr "x")].


(** ** Varints as numbers *)

(** The number a varint stands for: seven payload bits per byte, least
    significant group first. *)
Fixpoint varint_value (b : list Z) : Z :=
  match b with
  | [] => 0
  | c :: rest => Z.land c 127 + 128 * varint_value rest
  end.

(** The bytes of one varint: the continuation bit is set on every byte but
    the last. *)
Fixpoint varint_shape (b : list Z) : Prop :=
  match b with
  | [] => False
  | c :: rest =>
      match rest with
      | [] => Z.land c 128 = 0
      | _ => Z.land c 128 <> 0 /\ varint_shape rest
      end
  end.

(** [self.buffer[start:stop]] for in-range bounds, as a list. *)
Definition consumed (self : FastDecoder) (start stop : Z) : list Z :=
  firstn (Z.to_nat (stop - start)) (skipn (Z.to_nat start) (buffer self)).

(** ** An input whose length field is negative *)

Definition rewinding_bytes : list Z := T_BYTES :: _write_varint (2 ^ 64 - 11) [].

Definition rewinding_input (c : Z) : list Z :=
  T_SET :: _write_varint c [] ++ rewinding_bytes.

(** The decoder while it fills the set of [rewinding_input c]: [r] elements
    are still announced, [elems] have been added. *)
Definition rewinding_state (c : Z) (table : list string) (r : Z)
    (elems : list value) : FastDecoder :=
  {| buffer := rewinding_input c; size := len (rewinding_input c);
     pos := 1 + len (_write_varint c []); symbols := table;
     frame_pool :=
       list_store (repeat (reset CNone 0 false) 32) 0
         {| container := CSet elems; remaining := r; list_idx := 0;
            current_key := VNone; is_dict := false |};
     pool_idx := 1; zero_copy := false; ext_hook := None; ts_hook := None |}.

(** * The sibling decoders

    [core.pyx] holds two more versions of the decoder behind the first
    module, and [src/unnamed/part_000] a third together with its own
    encoder.  Each is modelled in a module of its own.  They raise
    exceptions of their own and differ in which accesses are checked, so
    their results are kept in a type that is generic in both. *)

(** ** Results and loops *)

Inductive result (E U A : Type) : Type :=
| Returns (a : A)
| Raises (e : E)
| Unchecked (u : U)
| Timeout.

Arguments Returns {E U A} a.
Arguments Raises {E U A} e.
Arguments Unchecked {E U A} u.
Arguments Timeout {E U A}.

Definition result_bind {E U A B : Type} (m : result E U A)
    (k : A -> result E U B) : result E U B :=
  match m with
  | Returns a => k a
  | Raises e => Raises e
  | Unchecked u => Unchecked u
  | Timeout => Timeout
  end.

(** One iteration of a [while True] loop over a decoder [D] and a stack of
    frames [F]: [Next] when it reaches a [continue] or the end of the loop
    body, [Stop] when it returns or raises. *)
Inductive turn (D F R : Type) : Type :=
| Next (self : D) (stack : list F)
| Stop (r : R).

Arguments Next {D F R} self stack.
Arguments Stop {D F R} r.

Definition turn_bind {D F E U A B : Type} (m : result E U A)
    (k : A -> turn D F (result E U B)) : turn D F (result E U B) :=
  match m with
  | Returns a => k a
  | Raises e => Stop (Raises e)
  | Unchecked u => Stop (Unchecked u)
  | Timeout => Stop Timeout
  end.

Notation "x <~ m ;; k" := (result_bind m (fun x => k))
  (at level 61, m at next level, right associativity).
Notation "' p <~ m ;; k" := (result_bind m (fun x => let p := x in k))
  (at level 61, p pattern, m at next level, right associativity).
Notation "x <~~ m ;; k" := (turn_bind m (fun x => k))
  (at level 61, m at next level, right associativity).
Notation "' p <~~ m ;; k" := (turn_bind m (fun x => let p := x in k))
  (at level 61, p pattern, m at next level, right associativity).

Section Iterate.
Context {D F E U : Type}.
Variable step : D -> list F -> turn D F (result E U value).

(** The loop run for at most [fuel] iterations. *)
Fixpoint iterate (fuel : nat) (self : D) (stack : list F) : result E U value :=
  match fuel with
  | O => Timeout
  | S fuel =>
      match step self stack with
      | Next self stack => iterate fuel self stack
      | Stop r => r
      end
  end.

Definition resume (fuel : nat) (t : turn D F (result E U value))
    : result E U value :=
  match t with
  | Next self stack => iterate fuel self stack
  | Stop r => r
  end.
End Iterate.

(** ** Python operations shared by the sibling decoders *)

(** [symbols[i]] for a [uint64_t] index on a [list]-typed attribute with
    bounds checking disabled. *)
Definition list_getitem_unchecked (symbols : list string) (i : Z) : outcome value :=
  if i >? PY_SSIZE_T_MAX then Raise IndexError
  else match nth_error symbols (Z.to_nat i) with
       | Some s => Ok (VStr s)
       | None => Undefined (SymbolReadOutOfBounds i)
       end.

(** [PyDict_SetItem] and [PySet_Add] on the contents of a dict or set. *)
Definition dict_setitem (entries : list (value * value)) (key val : value)
    : outcome (list (value * value)) :=
  if hashable key then Ok (dict_set py_eqb entries key val) else Raise TypeError.

Definition set_add (elems : list value) (val : value) : outcome (list value) :=
  if hashable val
  then Ok (if existsb (py_eqb val) elems then elems else elems ++ [val])
  else Raise TypeError.

(** [buf[i]] on a typed memoryview with bounds checking disabled. *)
Definition memoryview_getitem (buf : list Z) (i : Z) : outcome Z :=
  if i <? 0 then Undefined (BufferReadOutOfBounds i)
  else match nth_error buf (Z.to_nat i) with
       | Some b => Ok b
       | None => Undefined (BufferReadOutOfBounds i)
       end.

(** The [ln] bytes behind the pointer [&buf[start]]. *)
Definition memoryview_span (buf : list Z) (start ln : Z) : outcome (list Z) :=
  if ln <=? 0 then Ok []
  else if start <? 0 then Undefined (BufferReadOutOfBounds start)
  else if start + ln >? len buf then Undefined (BufferReadOutOfBounds (len buf))
  else Ok (firstn (Z.to_nat ln) (skipn (Z.to_nat start) buf)).

(** [buf[start:stop]]: a slice of a memoryview, bounds clamped. *)
Definition memoryview_slice (buf : list Z) (start stop : Z) : list Z :=
  let a := slice_bound (len buf) start in
  let b := slice_bound (len buf) stop in
  firstn (Z.to_nat (b - a)) (skipn (Z.to_nat a) buf).

(** An unchecked store into a list object. *)
Fixpoint list_setitem (items : list value) (i : nat) (val : value)
    : option (list value) :=
  match items, i with
  | [], _ => None
  | _ :: rest, O => Some (val :: rest)
  | x :: rest, S i' =>
      match list_setitem rest i' val with
      | Some rest' => Some (x :: rest')
      | None => None
      end
  end.

Definition list_setitem_unchecked (items : list value) (i : Z) (val : value)
    : outcome (list value) :=
  if i <? 0 then Undefined (ItemStoreOutOfBounds i)
  else match list_setitem items (Z.to_nat i) val with
       | Some items' => Ok items'
       | None => Undefined (ItemStoreOutOfBounds i)
       end.

(** ** The decoder of [part_000]

    [src/unnamed/part_000], lines 50-449: the same tags and the same
    encoder as the first module ([_encode] tests the container types in
    another order), and a decoder that allocates a fresh [DecodeFrame] for
    every container, keeps list and tuple elements in a list of [None]
    and tests the buffer end before every read of the buffer. *)

Module Part000.

Definition zigzag_encode (n : Z) : Z :=
  wrap64 (Z.lxor (to_int64 (Z.shiftl n 1)) (Z.shiftr n 63)).

Definition zigzag_decode (n : Z) : Z :=
  to_int64 (Z.lxor (Z.shiftr n 1) (wrap64 (- (Z.land n 1)))).

(** [FastEncoder]: the class has the fields and the constructor of the
    first module's; [_write_varint] is the same loop. *)
Fixpoint _encode (self : FastEncoder) (obj : value) (buffer : list Z)
    {struct obj} : outcome (list Z) :=
  match obj with
  | VNone => Ok (buffer ++ [T_NULL])
  | VBool true => Ok (buffer ++ [T_TRUE])
  | VBool false => Ok (buffer ++ [T_FALSE])
  | VInt n =>
      if in_int64 n
      then Ok (_write_varint (zigzag_encode n) (buffer ++ [T_INT]))
      else Raise OverflowError
  | VFloat bits =>
      Ok ((buffer ++ [T_FLOAT]) ++ word_bytes (lens_be64 bits))
  | VStr s =>
      match dict_get String.eqb (symbol_map self) s with
      | Some i => Ok (_write_varint i (buffer ++ [T_SYMREF]))
      | None =>
          let b := utf8_encode s in
          Ok (_write_varint (len b) (buffer ++ [T_STR]) ++ b)
      end
  | VDatetime ts =>
      if in_int64 ts
      then Ok (_write_varint (zigzag_encode ts) (buffer ++ [T_TIME]))
      else Raise OverflowError
  | VList items =>
      (fix each (l : list value) (buffer : list Z) : outcome (list Z) :=
         match l with
         | [] => Ok buffer
         | x :: rest => buffer <- _encode self x buffer ;; each rest buffer
         end) items (_write_varint (len items) (buffer ++ [T_ARR]))
  | VTuple items =>
      (fix each (l : list value) (buffer : list Z) : outcome (list Z) :=
         match l with
         | [] => Ok buffer
         | x :: rest => buffer <- _encode self x buffer ;; each rest buffer
         end) items (_write_varint (len items) (buffer ++ [T_TUPLE]))
  | VSet elems =>
      (fix each (l : list value) (buffer : list Z) : outcome (list Z) :=
         match l with
         | [] => Ok buffer
         | x :: rest => buffer <- _encode self x buffer ;; each rest buffer
         end) elems (_write_varint (len elems) (buffer ++ [T_SET]))
  | VDict entries =>
      (fix each (l : list (value * value)) (buffer : list Z)
           : outcome (list Z) :=
         match l with
         | [] => Ok buffer
         | (k, v) :: rest =>
             i <- symbol_map_getitem self k ;;
             buffer <- _encode self v (_write_varint i (buffer ++ [T_SYMREF])) ;;
             each rest buffer
         end) entries (_write_varint (len entries) (buffer ++ [T_OBJ]))
  | VBytes payload | VBytearray payload =>
      Ok (_write_varint (len payload) (buffer ++ [T_BYTES]) ++ payload)
  | VMemoryview _ | VOther _ =>
      match ext_handler self with
      | Some handler =>
          match handler obj with
          | Some (eid, payload) =>
              if in_uint64 eid
              then Ok (_write_varint (len payload)
                         (_write_varint eid (buffer ++ [T_EXT])) ++ payload)
              else Raise OverflowError
          | None => Raise (LensEncodeError obj)
          end
      | None => Raise (LensEncodeError obj)
      end
  end.

Definition encode (self : FastEncoder) (obj : value) : outcome (list Z) :=
  _encode self obj [].

(** The messages of this decoder's [LensDecodeError]s. *)
Inductive message : Type :=
| TruncatedVarint
| VarintOverflow
| TruncatedDictKey
| DictKeyMustBeSymbol
| UnexpectedEOF
| TruncatedFloat
| TruncatedString
| TruncatedBytes
| TruncatedExtPayload
| UnknownTag (tag : Z).

Inductive error : Type :=
| LensDecodeError (msg : message)
| Python (e : exn).

Definition decoded (A : Type) : Type := result error undefined A.

Definition lift {A : Type} (m : outcome A) : decoded A :=
  match m with
  | Ok a => Returns a
  | Raise e => Raises (Python e)
  | Undefined u => Unchecked u
  | OutOfFuel => Timeout
  end.

Inductive container_obj : Type :=
| CList (items : list value)
| CDict (entries : list (value * value))
| CSet (elems : list value).

Record DecodeFrame : Type := {
  container : container_obj;
  remaining : Z;
  index : Z;
  current_key : value;
  is_dict : bool;
  is_tuple : bool
}.

Definition DecodeFrame_init (container : container_obj) (remaining : Z)
    (is_dict is_tuple : bool) : DecodeFrame :=
  {| container := container; remaining := remaining; index := 0;
     current_key := VNone; is_dict := is_dict; is_tuple := is_tuple |}.

Record FastDecoder : Type := {
  buf : list Z;
  pos : Z;
  size : Z;
  symbols : list string;
  zero_copy : bool;
  ext_hook : option (Z -> list Z -> outcome value);
  ts_hook : option (Z -> outcome value)
}.

Definition FastDecoder_init (data : list Z) (symbols : list string)
    (zero_copy : bool) (ext_hook : option (Z -> list Z -> outcome value))
    (ts_hook : option (Z -> outcome value)) : FastDecoder :=
  {| buf := data; size := len data; pos := 0; symbols := symbols;
     zero_copy := zero_copy; ext_hook := ext_hook; ts_hook := ts_hook |}.

Definition set_pos (self : FastDecoder) (p : Z) : FastDecoder :=
  {| buf := buf self; pos := p; size := size self; symbols := symbols self;
     zero_copy := zero_copy self; ext_hook := ext_hook self;
     ts_hook := ts_hook self |}.

(** [_read_varint]: the overflow test sits in front of the shift, so the
    loop raises when it reads an eleventh byte; eleven units of fuel are
    never used up. *)
Fixpoint read_varint_loop (fuel : nat) (self : FastDecoder) (res shift : Z)
    : decoded (Z * FastDecoder) :=
  match fuel with
  | O => Timeout
  | S fuel =>
      if pos self >=? size self
      then Raises (LensDecodeError TruncatedVarint)
      else
        b <~ lift (memoryview_getitem (buf self) (pos self)) ;;
        let self := set_pos self (pos self + 1) in
        if shift >? 63 then Raises (LensDecodeError VarintOverflow)
        else
          let res := Z.lor res (wrap64 (Z.shiftl (Z.land b 127) shift)) in
          if Z.land b 128 =? 0 then Returns (res, self)
          else read_varint_loop fuel self res (shift + 7)
  end.

Definition _read_varint (self : FastDecoder) : decoded (Z * FastDecoder) :=
  read_varint_loop 11 self 0 0.

(** [[None] * ln]: empty for a negative [ln]. *)
Definition none_list (ln : Z) : decoded (list value) :=
  if ln >? PY_SSIZE_T_MAX / 8 then Raises (Python MemoryError)
  else Returns (repeat VNone (Z.to_nat ln)).

Definition with_key (frame : DecodeFrame) (key : value) : DecodeFrame :=
  {| container := container frame; remaining := remaining frame;
     index := index frame; current_key := key;
     is_dict := is_dict frame; is_tuple := is_tuple frame |}.

Definition with_fill (frame : DecodeFrame) (c : container_obj) (idx : Z)
    (key : value) : DecodeFrame :=
  {| container := c; remaining := remaining frame - 1;
     index := idx; current_key := key;
     is_dict := is_dict frame; is_tuple := is_tuple frame |}.

Definition _fill_parent (frame : DecodeFrame) (val : value)
    : decoded DecodeFrame :=
  if is_dict frame then
    match container frame with
    | CDict entries =>
        entries <~ lift (dict_setitem entries (current_key frame) val) ;;
        Returns (with_fill frame (CDict entries) (index frame) VNone)
    | _ => Raises (Python SystemError)
    end
  else
    match container frame with
    | CList items =>
        items <~ lift (list_setitem_unchecked items (index frame) val) ;;
        Returns (with_fill frame (CList items) (index frame + 1)
                   (current_key frame))
    | CSet elems =>
        elems <~ lift (set_add elems val) ;;
        Returns (with_fill frame (CSet elems) (index frame) (current_key frame))
    | CDict _ => Raises (Python SystemError)
    end.

(** [if not stack: return val] and [self._fill_parent(stack[-1], val)]. *)
Definition deliver (self : FastDecoder) (stack : list DecodeFrame)
    (val : value) : turn FastDecoder DecodeFrame (decoded value) :=
  match stack with
  | [] => Stop (Returns val)
  | frame :: below =>
      frame <~~ _fill_parent frame val ;;
      Next self (frame :: below)
  end.

Definition push (self : FastDecoder) (stack : list DecodeFrame)
    (frame : DecodeFrame) : turn FastDecoder DecodeFrame (decoded value) :=
  Next self (frame :: stack).

(** The value of a finished frame: [frame.container], as a tuple for a
    tuple frame. *)
Definition finished (frame : DecodeFrame) : value :=
  match container frame with
  | CList items => if is_tuple frame then VTuple items else VList items
  | CDict entries => VDict entries
  | CSet elems => VSet elems
  end.

Definition decode_value (self : FastDecoder) (stack : list DecodeFrame)
    : turn FastDecoder DecodeFrame (decoded value) :=
  if pos self >=? size self then Stop (Raises (LensDecodeError UnexpectedEOF))
  else
    tag <~~ lift (memoryview_getitem (buf self) (pos self)) ;;
    let self := set_pos self (pos self + 1) in
    if tag =? T_NULL then deliver self stack VNone
    else if tag =? T_TRUE then deliver self stack (VBool true)
    else if tag =? T_FALSE then deliver self stack (VBool false)
    else if tag =? T_INT then
      '(u, self) <~~ _read_varint self ;;
      deliver self stack (VInt (zigzag_decode u))
    else if tag =? T_FLOAT then
      if to_int64 (pos self + 8) >? size self
      then Stop (Raises (LensDecodeError TruncatedFloat))
      else
        raw <~~ lift (memoryview_span (buf self) (pos self) 8) ;;
        let self := set_pos self (to_int64 (pos self + 8)) in
        deliver self stack (VFloat (lens_be64 (bytes_word raw)))
    else if tag =? T_STR then
      '(u, self) <~~ _read_varint self ;;
      let ln := to_int64 u in
      if to_int64 (pos self + ln) >? size self
      then Stop (Raises (LensDecodeError TruncatedString))
      else
        val <~~ lift (if ln <? 0 then Raise SystemError
                      else raw <- memoryview_span (buf self) (pos self) ln ;;
                           PyUnicode_DecodeUTF8 raw) ;;
        let self := set_pos self (to_int64 (pos self + ln)) in
        deliver self stack val
    else if tag =? T_BYTES then
      '(u, self) <~~ _read_varint self ;;
      let ln := to_int64 u in
      if to_int64 (pos self + ln) >? size self
      then Stop (Raises (LensDecodeError TruncatedBytes))
      else
        let raw := memoryview_slice (buf self) (pos self) (to_int64 (pos self + ln)) in
        let val := if zero_copy self then VMemoryview raw else VBytes raw in
        let self := set_pos self (to_int64 (pos self + ln)) in
        deliver self stack val
    else if tag =? T_SYMREF then
      '(u, self) <~~ _read_varint self ;;
      val <~~ lift (list_getitem_unchecked (symbols self) u) ;;
      deliver self stack val
    else if tag =? T_TIME then
      '(u, self) <~~ _read_varint self ;;
      let ln := zigzag_decode u in
      val <~~ lift (match ts_hook self with
                    | Some hook => hook ln
                    | None => datetime_fromtimestamp ln
                    end) ;;
      deliver self stack val
    else if tag =? T_EXT then
      '(eid, self) <~~ _read_varint self ;;
      '(u, self) <~~ _read_varint self ;;
      let ln := to_int64 u in
      if to_int64 (pos self + ln) >? size self
      then Stop (Raises (LensDecodeError TruncatedExtPayload))
      else
        let payload := memoryview_slice (buf self) (pos self) (to_int64 (pos self + ln)) in
        let self := set_pos self (to_int64 (pos self + ln)) in
        val <~~ lift (match ext_hook self with
                      | Some hook => hook eid payload
                      | None => Ok (VTuple [VInt eid; VMemoryview payload])
                      end) ;;
        deliver self stack val
    else if tag =? T_ARR then
      '(u, self) <~~ _read_varint self ;;
      let ln := to_int64 u in
      items <~~ none_list ln ;;
      push self stack (DecodeFrame_init (CList items) ln false false)
    else if tag =? T_TUPLE then
      '(u, self) <~~ _read_varint self ;;
      let ln := to_int64 u in
      items <~~ none_list ln ;;
      push self stack (DecodeFrame_init (CList items) ln false true)
    else if tag =? T_SET then
      '(u, self) <~~ _read_varint self ;;
      push self stack (DecodeFrame_init (CSet []) (to_int64 u) false false)
    else if tag =? T_OBJ then
      '(u, self) <~~ _read_varint self ;;
      push self stack (DecodeFrame_init (CDict []) (to_int64 u) true false)
    else Stop (Raises (LensDecodeError (UnknownTag tag))).

(** One iteration of the loop of [decode_all].  The head of [stack] is
    [stack[-1]].  The dict-key path comes first: a dict frame without a
    pending key reads a key even when no entry remains. *)
Definition decode_step (self : FastDecoder) (stack : list DecodeFrame)
    : turn FastDecoder DecodeFrame (decoded value) :=
  match stack with
  | frame :: below =>
      if is_dict frame && is_None (current_key frame) then
        if pos self >=? size self
        then Stop (Raises (LensDecodeError TruncatedDictKey))
        else
          tag <~~ lift (memoryview_getitem (buf self) (pos self)) ;;
          if negb (tag =? T_SYMREF)
          then Stop (Raises (LensDecodeError DictKeyMustBeSymbol))
          else
            let self := set_pos self (pos self + 1) in
            '(u, self) <~~ _read_varint self ;;
            key <~~ lift (list_getitem_unchecked (symbols self) u) ;;
            Next self (with_key frame key :: below)
      else if remaining frame =? 0 then deliver self below (finished frame)
      else decode_value self stack
  | [] => decode_value self stack
  end.

(** [decode_all] run for at most [fuel] iterations of its loop. *)
Definition decode_all (fuel : nat) (self : FastDecoder) : decoded value :=
  iterate decode_step fuel self [].

End Part000.

(** ** Values a decoder can give back

    The sibling decoders know different subsets of the tags; a [dialect]
    says which.  [portable d symbols v]: the encoder writes [v] with tags
    of [d] only, and nothing in [v] is changed by a round trip (integers
    in the signed 64-bit range, strings that are symbols or well-formed
    UTF-8, timestamps that [datetime] can represent, sets of distinct
    hashable elements, dict keys that are distinct symbols). *)

Record dialect : Type := {
  with_bytes : bool;
  with_time : bool;
  with_tuple_set : bool;
  with_dict : bool
}.

Inductive portable (d : dialect) (symbols : list string) : value -> Prop :=
| portable_None : portable d symbols VNone
| portable_bool b : portable d symbols (VBool b)
| portable_int n : - 2 ^ 63 <= n < 2 ^ 63 -> portable d symbols (VInt n)
| portable_float bits : 0 <= bits < 2 ^ 64 -> portable d symbols (VFloat bits)
| portable_symbol s : In s symbols -> portable d symbols (VStr s)
| portable_str s :
    utf8_well_formed 0 128 191 (utf8_encode s) = true ->
    portable d symbols (VStr s)
| portable_bytes payload :
    with_bytes d = true -> portable d symbols (VBytes payload)
| portable_datetime ms :
    with_time d = true -> -62135596800000 <= ms <= 253402300799999 ->
    portable d symbols (VDatetime ms)
| portable_list items :
    Forall (portable d symbols) items -> portable d symbols (VList items)
| portable_tuple items :
    with_tuple_set d = true ->
    Forall (portable d symbols) items -> portable d symbols (VTuple items)
| portable_set elems :
    with_tuple_set d = true ->
    Forall (portable d symbols) elems ->
    Forall (fun x => hashable x = true) elems ->
    distinct [] elems ->
    portable d symbols (VSet elems)
| portable_dict entries :
    with_dict d = true ->
    Forall (fun kv => in_symbol_table symbols (fst kv) /\
                      portable d symbols (snd kv)) entries ->
    distinct_keys [] entries ->
    portable d symbols (VDict entries).

(** The number of containers open at once while [v] is rebuilt, when every
    container gets a frame. *)
Fixpoint frames (v : value) : nat :=
  match v with
  | VList items | VTuple items | VSet items =>
      S ((fix deepest (l : list value) : nat :=
            match l with
            | [] => O
            | x :: r => Nat.max (frames x) (deepest r)
            end) items)
  | VDict entries =>
      S ((fix deepest (l : list (value * value)) : nat :=
            match l with
            | [] => O
            | (_, x) :: r => Nat.max (frames x) (deepest r)
            end) entries)
  | _ => O
  end.

Inductive seq_kind : Type := KList | KTuple | KSet.

Definition seq_tag (k : seq_kind) : Z :=
  match k with KList => T_ARR | KTuple => T_TUPLE | KSet => T_SET end.

Definition seq_value (k : seq_kind) (items : list value) : value :=
  match k with
  | KList => VList items
  | KTuple => VTuple items
  | KSet => VSet items
  end.

(** What adding [x] behind the elements [done] needs. *)
Definition seq_ok (k : seq_kind) (done : list value) (x : value) : Prop :=
  match k with KSet => set_ok done x | _ => True end.

Definition scalar (v : value) : Prop :=
  match v with
  | VList _ | VTuple _ | VSet _ | VDict _ => False
  | _ => True
  end.

(** *** The frames of [part_000] while a container is filled *)

Definition part000_dialect : dialect :=
  {| with_bytes := true; with_time := true; with_tuple_set := true;
     with_dict := false |}.

Definition part000_at (data : list Z) (symbols : list string)
    (ext_hook : option (Z -> list Z -> outcome value)) (p : Z) (_ : unit)
    : Part000.FastDecoder :=
  {| Part000.buf := data; Part000.pos := p; Part000.size := len data;
     Part000.symbols := symbols; Part000.zero_copy := false;
     Part000.ext_hook := ext_hook; Part000.ts_hook := None |}.

Definition part000_seq_frame (k : seq_kind) (done rest : list value)
    : Part000.DecodeFrame :=
  {| Part000.container :=
       match k with
       | KSet => Part000.CSet done
       | _ => Part000.CList (done ++ repeat VNone (List.length rest))
       end;
     Part000.remaining := len rest;
     Part000.index := match k with KSet => 0 | _ => len done end;
     Part000.current_key := VNone;
     Part000.is_dict := false;
     Part000.is_tuple := match k with KTuple => true | _ => false end |}.

Definition part000_dict_frame (done rest : list (value * value)) (key : value)
    : Part000.DecodeFrame :=
  {| Part000.container := Part000.CDict done;
     Part000.remaining := len rest;
     Part000.index := 0;
     Part000.current_key := key;
     Part000.is_dict := true;
     Part000.is_tuple := false |}.

(** The loop reads a tag next: the stack is empty, or its top frame still
    waits for a value. *)
Definition part000_expects (stack : list Part000.DecodeFrame) : Prop :=
  match stack with
  | [] => True
  | frame :: _ =>
      (Part000.is_dict frame && is_None (Part000.current_key frame)) = false /\
      Part000.remaining frame <> 0
  end.

(** ** What a decoding loop owes a value

    [delivered step deliver at_ expects fits symbols handler data v]: for
    the decoder whose loop iteration is [step] and which hands a finished
    value to [deliver]: started where the encoding of [v] begins in
    [data], on a stack that waits for a value ([expects]) and has room for
    the frames of [v] ([fits]), the loop delivers [v] after finitely many
    iterations, with the read position right behind the encoding.
    [at_ p a] is the decoder at position [p]; [a] stands for what else may
    change while it runs. *)
Definition delivered {D F E U A : Type}
    (step : D -> list F -> turn D F (result E U value))
    (deliver : D -> list F -> value -> turn D F (result E U value))
    (at_ : Z -> A -> D) (expects : list F -> Prop) (fits : nat -> Prop)
    (symbols : list string) (handler : option (value -> option (Z * list Z)))
    (data : list Z) (v : value) : Prop :=
  forall out,
    encode (FastEncoder_init symbols handler) v = Ok out ->
    forall pre post a (stack : list F),
      data = pre ++ out ++ post -> expects stack ->
      fits (List.length stack + frames v)%nat ->
      exists n a',
        forall fuel,
          resume step (n + fuel) (step (at_ (len pre) a) stack) =
          resume step fuel (deliver (at_ (len pre + len out) a') stack v).

(** ** The pointer-based decoder

    [core.pyx], lines 340-601: a decoder without an encoder of its own.
    It walks the buffer with two C pointers, keeps its frames in a C array
    of [MAX_STACK_DEPTH] structs, raises [ValueError], [RuntimeError] and
    [NotImplementedError] instead of [LensDecodeError], and knows no tag
    for bytes, timestamps or extensions.  A pointer is modelled by the
    address it holds; the buffer lies at [address].  As before, reference
    counts are not modelled. *)

Module Pointer.

Definition MAX_STACK_DEPTH : Z := 128.
Definition CT_LIST : Z := 0.
Definition CT_DICT : Z := 1.
Definition CT_SET : Z := 2.
Definition CT_TUPLE : Z := 3.

(** The messages of this decoder's [ValueError]s.  ("Dict insert failed"
    and "Set add failed" are never raised: [PyDict_SetItem] and
    [PySet_Add] are declared [except -1], so their own exception
    propagates from the call.) *)
Inductive message : Type :=
| TruncatedVarint
| VarintOverflow
| ExpectedDictKeySymbol
| SymbolIndexOutOfRange
| UnexpectedEOF
| TruncatedFloat
| TruncatedString.

Inductive error : Type :=
| ValueError (msg : message)
| RuntimeError                      (* "Stack overflow" *)
| NotImplementedError (tag : Z)     (* "Unknown tag {tag}" *)
| Python (e : exn).

(** What C leaves undefined here: a shift of a 64-bit word by 64 bits or
    more, a [NULL] key turned into an object, a list store into an object
    that is no list, and the accesses of the first module. *)
Inductive unchecked : Type :=
| ShiftCount (shift : Z)
| NullKey
| NotAList
| Memory (u : undefined).

Definition decoded (A : Type) : Type := result error unchecked A.

Definition lift {A : Type} (m : outcome A) : decoded A :=
  match m with
  | Ok a => Returns a
  | Raise e => Raises (Python e)
  | Undefined u => Unchecked (Memory u)
  | OutOfFuel => Timeout
  end.

Inductive container_obj : Type :=
| CList (items : list value)
| CDict (entries : list (value * value))
| CSet (elems : list value).

(** [struct Frame]; [current_key] is [None] for [NULL]. *)
Record Frame : Type := {
  container : container_obj;
  remaining : Z;
  index : Z;
  current_key : option value;
  c_type : Z
}.

(** [memory] and [address] are the buffer behind the two pointers:
    [memory] holds its bytes, the first of them at [address]. *)
Record FastDecoder : Type := {
  memory : list Z;
  address : Z;
  curr : Z;
  end_ : Z;
  symbols : list string;
  num_symbols : Z
}.

Definition FastDecoder_init (address : Z) (data : list Z)
    (symbols : list string) : FastDecoder :=
  if len data >? 0
  then {| memory := data; address := address; curr := address;
          end_ := address + len data;
          symbols := symbols; num_symbols := len symbols |}
  else {| memory := data; address := address; curr := 0; end_ := 0;
          symbols := symbols; num_symbols := len symbols |}.

Definition set_curr (self : FastDecoder) (p : Z) : FastDecoder :=
  {| memory := memory self; address := address self; curr := p;
     end_ := end_ self; symbols := symbols self;
     num_symbols := num_symbols self |}.

(** [self.curr[0]], and the [ln] bytes behind [self.curr]. *)
Definition deref (self : FastDecoder) : decoded Z :=
  lift (memoryview_getitem (memory self) (curr self - address self)).

Definition span (self : FastDecoder) (ln : Z) : outcome (list Z) :=
  memoryview_span (memory self) (curr self - address self) ln.

(** [_read_varint]: the overflow test only looks at bytes with a payload
    above 1; with a smaller payload the eleventh byte is shifted by 70
    bits.  Eleven units of fuel are never used up. *)
Fixpoint read_varint_loop (fuel : nat) (self : FastDecoder) (res shift : Z)
    : decoded (Z * FastDecoder) :=
  match fuel with
  | O => Timeout
  | S fuel =>
      if curr self >=? end_ self then Raises (ValueError TruncatedVarint)
      else
        b <~ deref self ;;
        let self := set_curr self (curr self + 1) in
        if (shift >=? 63) && (Z.land b 127 >? 1)
        then Raises (ValueError VarintOverflow)
        else if shift >=? 64 then Unchecked (ShiftCount shift)
        else
          let res := Z.lor res (wrap64 (Z.shiftl (Z.land b 127) shift)) in
          if Z.land b 128 =? 0 then Returns (res, self)
          else read_varint_loop fuel self res (shift + 7)
  end.

Definition _read_varint (self : FastDecoder) : decoded (Z * FastDecoder) :=
  read_varint_loop 11 self 0 0.

Definition with_key (frame : Frame) (key : option value) : Frame :=
  {| container := container frame; remaining := remaining frame;
     index := index frame; current_key := key; c_type := c_type frame |}.

Definition with_fill (frame : Frame) (c : container_obj) (idx : Z)
    (key : option value) : Frame :=
  {| container := c; remaining := remaining frame - 1; index := idx;
     current_key := key; c_type := c_type frame |}.

Definition _fill_parent (frame : Frame) (val : value) : decoded Frame :=
  if c_type frame =? CT_DICT then
    match current_key frame, container frame with
    | None, _ => Unchecked NullKey
    | Some key, CDict entries =>
        entries <~ lift (dict_setitem entries key val) ;;
        Returns (with_fill frame (CDict entries) (index frame) None)
    | Some _, _ => Raises (Python SystemError)
    end
  else if (c_type frame =? CT_LIST) || (c_type frame =? CT_TUPLE) then
    match container frame with
    | CList items =>
        items <~ lift (list_setitem_unchecked items (index frame) val) ;;
        Returns (with_fill frame (CList items) (index frame + 1)
                   (current_key frame))
    | _ => Unchecked NotAList
    end
  else
    match container frame with
    | CSet elems =>
        elems <~ lift (set_add elems val) ;;
        Returns (with_fill frame (CSet elems) (index frame) (current_key frame))
    | _ => Raises (Python SystemError)
    end.

(** [if depth < 0: return val] and [self._fill_parent(&stack[depth], val)].
    The head of [stack] is [stack[depth]]. *)
Definition deliver (self : FastDecoder) (stack : list Frame) (val : value)
    : turn FastDecoder Frame (decoded value) :=
  match stack with
  | [] => Stop (Returns val)
  | frame :: below =>
      frame <~~ _fill_parent frame val ;;
      Next self (frame :: below)
  end.

(** The value of a closed frame: the container, or [tuple(container)]. *)
Definition finished (frame : Frame) : value :=
  if c_type frame =? CT_TUPLE then
    match container frame with
    | CList items => VTuple items
    | CDict entries => VTuple (map fst entries)
    | CSet elems => VTuple elems
    end
  else
    match container frame with
    | CList items => VList items
    | CDict entries => VDict entries
    | CSet elems => VSet elems
    end.

(** [PyList_New(ln)] with every slot set to [None]. *)
Definition none_list (ln : Z) : outcome (list value) :=
  slots <- new_slots ln ;; Ok (map (fun _ => VNone) slots).

(** The three branches that open a container: the depth test, the
    length, the object, the new frame. *)
Definition open (self : FastDecoder) (stack : list Frame)
    (new : Z -> outcome container_obj) (ct : Z)
    : turn FastDecoder Frame (decoded value) :=
  if len stack >=? MAX_STACK_DEPTH then Stop (Raises RuntimeError)
  else
    '(u, self) <~~ _read_varint self ;;
    let ln := to_int64 u in
    c_obj <~~ lift (new ln) ;;
    Next self ({| container := c_obj; remaining := ln; index := 0;
                  current_key := None; c_type := ct |} :: stack).

Definition decode_value (self : FastDecoder) (stack : list Frame)
    : turn FastDecoder Frame (decoded value) :=
  if curr self >=? end_ self then Stop (Raises (ValueError UnexpectedEOF))
  else
    tag <~~ deref self ;;
    let self := set_curr self (curr self + 1) in
    if tag =? 0 then deliver self stack VNone
    else if tag =? 1 then deliver self stack (VBool true)
    else if tag =? 2 then deliver self stack (VBool false)
    else if tag =? 3 then
      '(u_val, self) <~~ _read_varint self ;;
      deliver self stack
        (VInt (to_int64 (Z.lxor (Z.shiftr u_val 1)
                                (wrap64 (- (Z.land u_val 1))))))
    else if tag =? 4 then
      if wrap64 (curr self + 8) >? end_ self
      then Stop (Raises (ValueError TruncatedFloat))
      else
        raw <~~ lift (span self 8) ;;
        let self := set_curr self (wrap64 (curr self + 8)) in
        deliver self stack (VFloat (lens_be64 (bytes_word raw)))
    else if tag =? 5 then
      '(u_val, self) <~~ _read_varint self ;;
      let ln := to_int64 u_val in
      if wrap64 (curr self + ln) >? end_ self
      then Stop (Raises (ValueError TruncatedString))
      else
        val <~~ lift (if ln <? 0 then Raise SystemError
                      else raw <- span self ln ;; PyUnicode_DecodeUTF8 raw) ;;
        let self := set_curr self (wrap64 (curr self + ln)) in
        deliver self stack val
    else if tag =? 8 then
      '(u_val, self) <~~ _read_varint self ;;
      if u_val >=? wrap64 (num_symbols self)
      then Stop (Raises (ValueError SymbolIndexOutOfRange))
      else
        val <~~ lift (list_getitem_unchecked (symbols self) u_val) ;;
        deliver self stack val
    else if (tag =? 6) || (tag =? 13) then
      open self stack
        (fun ln => items <- none_list ln ;; Ok (CList items))
        (if tag =? 6 then CT_LIST else CT_TUPLE)
    else if tag =? 7 then open self stack (fun _ => Ok (CDict [])) CT_DICT
    else if tag =? 12 then open self stack (fun _ => Ok (CSet [])) CT_SET
    else Stop (Raises (NotImplementedError tag)).

(** One iteration of the loop of [decode_all].  The dict-key path comes
    before the closure test here too. *)
Definition decode_step (self : FastDecoder) (stack : list Frame)
    : turn FastDecoder Frame (decoded value) :=
  match stack with
  | frame :: below =>
      if (c_type frame =? CT_DICT)
         && match current_key frame with None => true | Some _ => false end
      then
        if curr self >=? end_ self
        then Stop (Raises (ValueError ExpectedDictKeySymbol))
        else
          b <~~ deref self ;;
          if negb (b =? 8)
          then Stop (Raises (ValueError ExpectedDictKeySymbol))
          else
            let self := set_curr self (curr self + 1) in
            '(u_val, self) <~~ _read_varint self ;;
            if u_val >=? wrap64 (num_symbols self)
            then Stop (Raises (ValueError SymbolIndexOutOfRange))
            else
              key <~~ lift (list_getitem_unchecked (symbols self) u_val) ;;
              Next self (with_key frame (Some key) :: below)
      else if remaining frame =? 0 then deliver self below (finished frame)
      else decode_value self stack
  | [] => decode_value self stack
  end.

(** [decode_all] run for at most [fuel] iterations of its loop. *)
Definition decode_all (fuel : nat) (self : FastDecoder) : decoded value :=
  iterate decode_step fuel self [].

End Pointer.

(** The bytes between the two pointers. *)
Definition pointer_available (self : Pointer.FastDecoder) : list Z :=
  firstn (Z.to_nat (Pointer.end_ self - Pointer.curr self))
    (skipn (Z.to_nat (Pointer.curr self - Pointer.address self))
       (Pointer.memory self)).

(** What the loop of [decode_all] keeps true.  The pointers: [curr] never
    passes [end], both point into the buffer unless they are equal, and
    the buffer lies in the lower half of the address space. *)
Definition pointer_placed (self : Pointer.FastDecoder) : Prop :=
  0 <= Pointer.curr self <= Pointer.end_ self /\
  Pointer.end_ self <= 2 ^ 63 /\
  (Pointer.curr self < Pointer.end_ self ->
   Pointer.address self <= Pointer.curr self /\
   Pointer.end_ self <= Pointer.address self + len (Pointer.memory self)) /\
  Pointer.num_symbols self = len (Pointer.symbols self) /\
  len (Pointer.symbols self) <= PY_SSIZE_T_MAX.

(** The frames: the container is of the kind [c_type] says, and a list
    has [index] elements stored and [remaining] to go. *)
Definition pointer_frame_ok (frame : Pointer.Frame) : Prop :=
  match Pointer.container frame with
  | Pointer.CList items =>
      (Pointer.c_type frame = Pointer.CT_LIST \/
       Pointer.c_type frame = Pointer.CT_TUPLE) /\
      0 <= Pointer.index frame /\ 0 <= Pointer.remaining frame /\
      Pointer.index frame + Pointer.remaining frame = len items
  | Pointer.CDict _ => Pointer.c_type frame = Pointer.CT_DICT
  | Pointer.CSet _ => Pointer.c_type frame = Pointer.CT_SET
  end.

(** A frame below the top waits for the container above it: a list has
    room for it, a dict has read its key. *)
Definition pointer_frame_waits (frame : Pointer.Frame) : Prop :=
  match Pointer.container frame with
  | Pointer.CList _ => 1 <= Pointer.remaining frame
  | Pointer.CDict _ => Pointer.current_key frame <> None
  | Pointer.CSet _ => True
  end.

Definition pointer_inv (self : Pointer.FastDecoder)
    (stack : list Pointer.Frame) : Prop :=
  pointer_placed self /\
  len stack <= Pointer.MAX_STACK_DEPTH /\
  Forall pointer_frame_ok stack /\
  Forall pointer_frame_waits (tl stack).

(** Two for every byte still to read and one for every open frame: every
    iteration of the loop lowers it. *)
Definition pointer_measure (self : Pointer.FastDecoder)
    (stack : list Pointer.Frame) : nat :=
  (Z.to_nat (2 * (Pointer.end_ self - Pointer.curr self)) + List.length stack)%nat.

(** The loop has come to an end, and not in an access outside the buffer,
    the symbol table or a list: undefined is at most the shift of a
    varint's eleventh byte. *)
Definition pointer_ended (r : Pointer.decoded value) : Prop :=
  r <> Timeout /\ forall u, r = Unchecked u -> u = Pointer.ShiftCount 70.

(** What one iteration of the loop, started from [self0] and [stack0],
    has to come to. *)
Definition pointer_progress (self0 : Pointer.FastDecoder)
    (stack0 : list Pointer.Frame)
    (t : turn Pointer.FastDecoder Pointer.Frame (Pointer.decoded value)) : Prop :=
  match t with
  | Next self stack =>
      pointer_inv self stack /\
      (pointer_measure self stack < pointer_measure self0 stack0)%nat
  | Stop r => pointer_ended r
  end.

(** The frame of a list whose one element is still to come. *)
Definition pointer_waiting_list : Pointer.Frame :=
  {| Pointer.container := Pointer.CList [VNone]; Pointer.remaining := 1;
     Pointer.index := 0; Pointer.current_key := None;
     Pointer.c_type := Pointer.CT_LIST |}.

(** The decoder over [data] at [address] with [curr] at the byte [p]. *)
Definition pointer_at (address : Z) (data : list Z) (symbols : list string)
    (p : Z) : Pointer.FastDecoder :=
  {| Pointer.memory := data; Pointer.address := address;
     Pointer.curr := address + p; Pointer.end_ := address + len data;
     Pointer.symbols := symbols; Pointer.num_symbols := len symbols |}.

(** The frame of a dict with the entries [done] stored, [n] entries to
    come and the pending key [key]. *)
Definition pointer_dict_frame (done : list (value * value)) (n : Z)
    (key : option value) : Pointer.Frame :=
  {| Pointer.container := Pointer.CDict done; Pointer.remaining := n;
     Pointer.index := 0; Pointer.current_key := key;
     Pointer.c_type := Pointer.CT_DICT |}.

(** The tags the pointer-based decoder knows. *)
Definition pointer_dialect : dialect :=
  {| with_bytes := false; with_time := false; with_tuple_set := true;
     with_dict := true |}.

(** ** The decoder with a list as frame pool

    [core.pyx], lines 602-835: the third module.  Its [DecodeFrame] is the
    class of the first module, its frame pool a Python list of 16 frames
    that [pop] and [append] move between pool and stack, and its loop
    closes a finished frame before it looks for a dict key.  It reads the
    buffer without testing its end, except in the varint reader, and knows
    no tag for tuples and sets.  [DEBUG] is [False]: of
    [_make_error_msg] only the first branch is modelled. *)

Module ListPool.

Inductive message : Type :=
| EOFInVarint
| VarintOverflow
| AtOffset (msg : string) (offset : Z)   (* f"{msg} at offset {self.pos}" *)
| TagUnknown (tag : Z).

Inductive error : Type :=
| LensDecodeError (msg : message)
| Python (e : exn).

Definition decoded (A : Type) : Type := result error undefined A.

Definition lift {A : Type} (m : outcome A) : decoded A :=
  match m with
  | Ok a => Returns a
  | Raise e => Raises (Python e)
  | Undefined u => Unchecked u
  | OutOfFuel => Timeout
  end.

(** The payload handed to [ext_hook] is a [bytes] object or, under
    [zero_copy], a memoryview. *)
Record FastDecoder : Type := {
  buffer : list Z;
  pos : Z;
  size : Z;
  symbols : list string;
  frame_pool : list DecodeFrame;
  zero_copy : bool;
  max_depth : Z;
  ext_hook : option (Z -> value -> outcome value);
  ts_hook : option (Z -> outcome value)
}.

Definition FastDecoder_init (data : list Z) (symbols : list string)
    (zero_copy : bool) (max_depth : Z)
    (ext_hook : option (Z -> value -> outcome value))
    (ts_hook : option (Z -> outcome value)) : FastDecoder :=
  {| buffer := data; size := len data; pos := 0; symbols := symbols;
     zero_copy := zero_copy; max_depth := max_depth; ext_hook := ext_hook;
     ts_hook := ts_hook; frame_pool := repeat (reset CNone 0 false) 16 |}.

Definition set_pos (self : FastDecoder) (p : Z) : FastDecoder :=
  {| buffer := buffer self; pos := p; size := size self;
     symbols := symbols self; frame_pool := frame_pool self;
     zero_copy := zero_copy self; max_depth := max_depth self;
     ext_hook := ext_hook self; ts_hook := ts_hook self |}.

Definition set_frame_pool (self : FastDecoder) (pool : list DecodeFrame)
    : FastDecoder :=
  {| buffer := buffer self; pos := pos self; size := size self;
     symbols := symbols self; frame_pool := pool;
     zero_copy := zero_copy self; max_depth := max_depth self;
     ext_hook := ext_hook self; ts_hook := ts_hook self |}.

Definition _make_error_msg (self : FastDecoder) (msg : string) : message :=
  AtOffset msg (pos self).

(** [_read_varint_nogil]: the loop of the first module's [_read_varint].
    Ten units of fuel are never used up. *)
Fixpoint read_varint_loop (fuel : nat) (self : FastDecoder) (res shift : Z)
    : decoded (Z * FastDecoder) :=
  match fuel with
  | O => Timeout
  | S fuel =>
      if pos self >=? size self then Raises (LensDecodeError EOFInVarint)
      else
        b <~ lift (memoryview_getitem (buffer self) (pos self)) ;;
        let self := set_pos self (pos self + 1) in
        let res := Z.lor res (wrap64 (Z.shiftl (Z.land b 127) shift)) in
        if Z.land b 128 =? 0 then Returns (res, self)
        else
          let shift := shift + 7 in
          if shift >=? 64 then Raises (LensDecodeError VarintOverflow)
          else read_varint_loop fuel self res shift
  end.

Definition _read_varint_nogil (self : FastDecoder) : decoded (Z * FastDecoder) :=
  read_varint_loop 10 self 0 0.

(** [_get_frame]: the last frame of the pool, reset, or a new frame. *)
Definition _get_frame (self : FastDecoder) (container : container_obj)
    (remaining : Z) (is_dict : bool) : DecodeFrame * FastDecoder :=
  match frame_pool self with
  | [] => (reset container remaining is_dict, self)
  | _ :: _ =>
      (reset container remaining is_dict,
       set_frame_pool self (removelast (frame_pool self)))
  end.

(** The conversion [<int>] of a [uint64_t]. *)
Definition to_int32 (z : Z) : Z :=
  let u := z mod 2 ^ 32 in
  if u <? 2 ^ 31 then u else u - 2 ^ 32.

(** [PyBytes_FromStringAndSize(&buf[start], ln)]: a copy of the [ln] bytes
    behind the pointer; CPython refuses a negative length and one that
    leaves no room for the object's header. *)
Definition PyBytes_FromStringAndSize (buf : list Z) (start ln : Z)
    : outcome (list Z) :=
  if ln <? 0 then Raise SystemError
  else if ln >? PY_SSIZE_T_MAX - 33 then Raise OverflowError
  else memoryview_span buf start ln.

(** The code that stores [val] in the frame on top of the stack; the loop
    has it twice, after a closed frame and after a decoded value. *)
Definition fill (frame : DecodeFrame) (val : value) : decoded DecodeFrame :=
  frame <~
    (if is_dict frame then
       c <~ lift (PyDict_SetItem (container frame) (current_key frame) val) ;;
       Returns (with_key (with_fill frame c (list_idx frame)) VNone)
     else
       match container frame with
       | CList slots =>
           slots <~ lift (SET_ITEM slots (list_idx frame) val) ;;
           Returns (with_fill frame (CList slots) (list_idx frame + 1))
       | _ => Unchecked (ItemStoreOutOfBounds (list_idx frame))
       end) ;;
  Returns (with_remaining frame (remaining frame - 1)).

(** [if not stack: return val], else the store above. *)
Definition deliver (self : FastDecoder) (stack : list DecodeFrame) (val : value)
    : turn FastDecoder DecodeFrame (decoded value) :=
  match stack with
  | [] => Stop (Returns val)
  | frame :: below =>
      frame <~~ fill frame val ;;
      Next self (frame :: below)
  end.

Definition push (self : FastDecoder) (stack : list DecodeFrame)
    (container : container_obj) (remaining : Z) (is_dict : bool)
    : turn FastDecoder DecodeFrame (decoded value) :=
  let '(frame, self) := _get_frame self container remaining is_dict in
  Next self (frame :: stack).

(** The bytes of a string, bytes or extension payload. *)
Definition payload_obj (self : FastDecoder) (start ln : Z) : decoded value :=
  if zero_copy self
  then Returns (VMemoryview (memoryview_slice (buffer self) start (pos self)))
  else
    raw <~ lift (PyBytes_FromStringAndSize (buffer self) start ln) ;;
    Returns (VBytes raw).

Definition decode_value (self : FastDecoder) (stack : list DecodeFrame)
    : turn FastDecoder DecodeFrame (decoded value) :=
  tag <~~ lift (memoryview_getitem (buffer self) (pos self)) ;;
  let self := set_pos self (pos self + 1) in
  if tag =? T_NULL then deliver self stack VNone
  else if tag =? T_TRUE then deliver self stack (VBool true)
  else if tag =? T_FALSE then deliver self stack (VBool false)
  else if tag =? T_INT then
    '(u, self) <~~ _read_varint_nogil self ;;
    deliver self stack (VInt (c_zigzag_decode u))
  else if tag =? T_FLOAT then
    raw <~~ lift (memoryview_span (buffer self) (pos self) 8) ;;
    let self := set_pos self (pos self + 8) in
    deliver self stack (VFloat (lens_be64 (bytes_word raw)))
  else if (tag =? T_STR) || (tag =? T_BYTES) then
    '(u, self) <~~ _read_varint_nogil self ;;
    let ln := to_int64 u in
    let start := pos self in
    let self := set_pos self (to_int64 (pos self + ln)) in
    val <~~ payload_obj self start ln ;;
    if negb (zero_copy self) && (tag =? T_STR) then
      val <~~ lift (match val with
                    | VBytes raw => PyUnicode_DecodeUTF8 raw
                    | _ => Raise TypeError
                    end) ;;
      deliver self stack val
    else deliver self stack val
  else if tag =? T_SYMREF then
    '(var_int, self) <~~ _read_varint_nogil self ;;
    val <~~ lift (list_getitem_unchecked (symbols self) var_int) ;;
    deliver self stack val
  else if tag =? T_TIME then
    '(var_int, self) <~~ _read_varint_nogil self ;;
    val <~~ lift (match ts_hook self with
                  | Some hook => hook (c_zigzag_decode var_int)
                  | None => datetime_fromtimestamp (c_zigzag_decode var_int)
                  end) ;;
    deliver self stack val
  else if tag =? T_EXT then
    '(u, self) <~~ _read_varint_nogil self ;;
    let ext_id := to_int32 u in
    '(u, self) <~~ _read_varint_nogil self ;;
    let ln := to_int64 u in
    let start := pos self in
    let self := set_pos self (to_int64 (pos self + ln)) in
    payload <~~ payload_obj self start ln ;;
    val <~~ lift (match ext_hook self with
                  | Some hook => hook ext_id payload
                  | None => Ok (VTuple [VInt ext_id; payload])
                  end) ;;
    deliver self stack val
  else if tag =? T_ARR then
    '(var_int, self) <~~ _read_varint_nogil self ;;
    if var_int =? 0 then deliver self stack (VList [])
    else
      c <~~ lift (PyList_New (to_int64 var_int)) ;;
      push self stack c (to_int64 var_int) false
  else if tag =? T_OBJ then
    '(var_int, self) <~~ _read_varint_nogil self ;;
    if var_int =? 0 then deliver self stack (VDict [])
    else push self stack (CDict []) (to_int64 var_int) true
  else Stop (Raises (LensDecodeError (TagUnknown tag))).

(** One iteration of the loop of [decode_all].  A frame with nothing left
    is closed first; only then is the key of the next entry read. *)
Definition decode_step (self : FastDecoder) (stack : list DecodeFrame)
    : turn FastDecoder DecodeFrame (decoded value) :=
  match stack with
  | frame :: below =>
      if remaining frame =? 0 then
        val <~~ lift (container_value (container frame)) ;;
        let self := set_frame_pool self (frame_pool self ++ [frame]) in
        deliver self below val
      else if is_dict frame && is_None (current_key frame) then
        tag <~~ lift (memoryview_getitem (buffer self) (pos self)) ;;
        if negb (tag =? T_SYMREF)
        then Stop (Raises (LensDecodeError (_make_error_msg self "Key error")))
        else
          let self := set_pos self (pos self + 1) in
          '(var_int, self) <~~ _read_varint_nogil self ;;
          key <~~ lift (list_getitem_unchecked (symbols self) var_int) ;;
          Next self (with_key frame key :: below)
      else decode_value self stack
  | [] => decode_value self stack
  end.

(** [decode_all] run for at most [fuel] iterations of its loop. *)
Definition decode_all (fuel : nat) (self : FastDecoder) : decoded value :=
  iterate decode_step fuel self [].

End ListPool.

(** The decoder over [data] at position [p], with bytes copied
    ([zero_copy] off) and timestamps turned into [datetime]. *)
Definition listpool_at (data : list Z) (symbols : list string)
    (max_depth : Z) (hook : option (Z -> value -> outcome value))
    (pool : list DecodeFrame) (p : Z) : ListPool.FastDecoder :=
  {| ListPool.buffer := data; ListPool.pos := p; ListPool.size := len data;
     ListPool.symbols := symbols; ListPool.frame_pool := pool;
     ListPool.zero_copy := false; ListPool.max_depth := max_depth;
     ListPool.ext_hook := hook; ListPool.ts_hook := None |}.

(** The frame of a dict with the entries [done] stored, [n] entries to
    come and the pending key [key]. *)
Definition listpool_dict_frame (done : list (value * value)) (n : Z)
    (key : value) : DecodeFrame :=
  {| container := CDict done; remaining := n; list_idx := 0;
     current_key := key; is_dict := true |}.

(** The tags the third module knows. *)
Definition listpool_dialect : dialect :=
  {| with_bytes := true; with_time := true; with_tuple_set := false;
     with_dict := true |}.


(** * Properties *)

(** ** Machine arithmetic and ZigZag *)

Ltac pow2 :=
  change (2 ^ 64) with 18446744073709551616 in *;
  change (2 ^ 63) with 9223372036854775808 in *.

Lemma wrap64_small z : 0 <= z < 2 ^ 64 -> wrap64 z = z.
Proof. intros. unfold wrap64. apply Z.mod_small. assumption. Qed.

Lemma to_int64_small z : - 2 ^ 63 <= z < 2 ^ 63 -> to_int64 z = z.
Proof.
  intros H. unfold to_int64. pow2.
  destruct (z mod 18446744073709551616 <? 9223372036854775808) eqn:E;
    [apply Z.ltb_lt in E | apply Z.ltb_ge in E];
    Z.div_mod_to_equations; lia.
Qed.

Lemma testbit_above64 a i : 0 <= a < 2 ^ 64 -> 64 <= i -> Z.testbit a i = false.
Proof.
  intros H Hi. destruct (Z.eq_dec a 0) as [-> | Hne].
  - apply Z.testbit_0_l.
  - apply Z.bits_above_log2; [lia |].
    assert (Z.log2 a < 64) by (apply Z.log2_lt_pow2; lia). lia.
Qed.

Lemma lxor_ones64 a : 0 <= a < 2 ^ 64 -> Z.lxor a (2 ^ 64 - 1) = 2 ^ 64 - 1 - a.
Proof.
  intros H.
  change (2 ^ 64 - 1) with (Z.ones 64).
  assert (Hd : Z.land a (Z.lxor a (Z.ones 64)) = 0).
  { apply Z.bits_inj'. intros i Hi.
    rewrite Z.land_spec, Z.lxor_spec, Z.bits_0.
    destruct (Z_lt_le_dec i 64).
    - rewrite Z.ones_spec_low by lia. destruct (Z.testbit a i); reflexivity.
    - rewrite (testbit_above64 a i) by lia. reflexivity. }
  apply Z.add_nocarry_lxor in Hd.
  rewrite <- Z.lxor_assoc, Z.lxor_nilpotent, Z.lxor_0_l in Hd.
  lia.
Qed.

Lemma land_1 u : Z.land u 1 = u mod 2.
Proof. exact (Z.land_ones u 1 ltac:(lia)). Qed.

Lemma zigzag_encode_nonneg n : 0 <= n < 2 ^ 63 -> c_zigzag_encode n = 2 * n.
Proof.
  intros H. unfold c_zigzag_encode.
  rewrite Z.shiftl_mul_pow2, Z.shiftr_div_pow2 by lia.
  rewrite (Z.div_small n) by lia. rewrite Z.lxor_0_r.
  unfold wrap64, to_int64. pow2. change (2 ^ 1) with 2.
  destruct (_ <? _); Z.div_mod_to_equations; lia.
Qed.

Lemma zigzag_encode_neg n : - 2 ^ 63 <= n < 0 -> c_zigzag_encode n = - 2 * n - 1.
Proof.
  intros H. unfold c_zigzag_encode.
  rewrite Z.shiftl_mul_pow2, Z.shiftr_div_pow2 by lia.
  replace (n / 2 ^ 63) with (-1) by (pow2; Z.div_mod_to_equations; lia).
  rewrite Z.lxor_m1_r. unfold Z.lnot.
  unfold wrap64, to_int64. pow2. change (2 ^ 1) with 2.
  destruct (_ <? _); Z.div_mod_to_equations; lia.
Qed.

Lemma zigzag_encode_range n : - 2 ^ 63 <= n < 2 ^ 63 -> 0 <= c_zigzag_encode n < 2 ^ 64.
Proof.
  intros H. destruct (Z_lt_le_dec n 0).
  - rewrite zigzag_encode_neg by lia. lia.
  - rewrite zigzag_encode_nonneg by lia. lia.
Qed.

Lemma zigzag_roundtrip n : - 2 ^ 63 <= n < 2 ^ 63 -> c_zigzag_decode (c_zigzag_encode n) = n.
Proof.
  intros H. destruct (Z_lt_le_dec n 0).
  - rewrite zigzag_encode_neg by lia. unfold c_zigzag_decode.
    rewrite Z.shiftr_div_pow2 by lia. change (2 ^ 1) with 2.
    rewrite land_1.
    replace ((- 2 * n - 1) mod 2) with 1 by (Z.div_mod_to_equations; lia).
    replace ((- 2 * n - 1) / 2) with (- n - 1) by (Z.div_mod_to_equations; lia).
    change (wrap64 (- 1)) with (2 ^ 64 - 1).
    rewrite lxor_ones64 by lia.
    unfold to_int64. pow2.
    destruct (_ <? _) eqn:E; [apply Z.ltb_lt in E | apply Z.ltb_ge in E];
      Z.div_mod_to_equations; lia.
  - rewrite zigzag_encode_nonneg by lia. unfold c_zigzag_decode.
    rewrite Z.shiftr_div_pow2 by lia. change (2 ^ 1) with 2.
    rewrite land_1.
    replace ((2 * n) mod 2) with 0 by (Z.div_mod_to_equations; lia).
    replace (2 * n / 2) with n by (Z.div_mod_to_equations; lia).
    change (wrap64 (- 0)) with 0. rewrite Z.lxor_0_r.
    apply to_int64_small. lia.
Qed.


(** ** Varints *)

Lemma write_varint_unfold n buf :
  _write_varint n buf =
  if 128 <=? n
  then _write_varint (Z.shiftr n 7) (buf ++ [uchar (Z.lor (Z.land n 127) 128)])
  else buf ++ [uchar n].
Proof.
  funelim (_write_varint n buf);
    destruct (128 <=? n) eqn:E;
    try reflexivity;
    [apply Z.leb_gt in E | apply Z.leb_le in E]; lia.
Qed.

Lemma write_varint_app_aux (k : nat) :
  forall n buf, (Z.to_nat (Z.log2 n) < k)%nat ->
  _write_varint n buf = buf ++ _write_varint n [].
Proof.
  induction k as [| k IH]; intros n buf Hk; [lia |].
  rewrite (write_varint_unfold n buf), (write_varint_unfold n []).
  destruct (128 <=? n) eqn:E; [| reflexivity].
  apply Z.leb_le in E.
  assert (Hlog : 7 <= Z.log2 n) by (apply (Z.log2_le_mono 128 n); lia).
  assert (Hk' : (Z.to_nat (Z.log2 (Z.shiftr n 7)) < k)%nat).
  { rewrite Z.log2_shiftr by lia. lia. }
  rewrite (IH _ (buf ++ _) Hk'), (IH _ ([] ++ _) Hk').
  rewrite <- app_assoc. reflexivity.
Qed.

Lemma write_varint_app n buf : _write_varint n buf = buf ++ _write_varint n [].
Proof. apply (write_varint_app_aux (S (Z.to_nat (Z.log2 n)))). lia. Qed.

Lemma write_varint_length (k : nat) :
  forall n, n < 2 ^ (7 * Z.of_nat (S k)) ->
  (List.length (_write_varint n []) <= S k)%nat.
Proof.
  induction k as [| k IH]; intros n Hn; rewrite write_varint_unfold.
  - change (2 ^ (7 * Z.of_nat 1)) with 128 in Hn.
    destruct (128 <=? n) eqn:E; [apply Z.leb_le in E; lia | simpl; lia].
  - destruct (128 <=? n) eqn:E; [| simpl; lia].
    apply Z.leb_le in E.
    rewrite write_varint_app, length_app. simpl.
    assert (Z.shiftr n 7 < 2 ^ (7 * Z.of_nat (S k))).
    { rewrite Z.shiftr_div_pow2 by lia.
      apply Z.div_lt_upper_bound; [lia |].
      rewrite <- Z.pow_add_r by lia.
      replace (7 + 7 * Z.of_nat (S k)) with (7 * Z.of_nat (S (S k))) by lia.
      assumption. }
    specialize (IH _ H). lia.
Qed.

Lemma write_varint_length_64 n : n < 2 ^ 64 -> len (_write_varint n []) <= 10.
Proof.
  intros H. unfold len.
  assert (L := write_varint_length 9 n).
  assert (2 ^ 64 < 2 ^ (7 * Z.of_nat 10)) by (apply Z.pow_lt_mono_r; lia).
  lia.
Qed.

Lemma testbit_high u k i : 0 <= u < 2 ^ k -> 0 <= k <= i -> Z.testbit u i = false.
Proof.
  intros H Hi. destruct (Z.eq_dec u 0) as [-> | Hne].
  - apply Z.testbit_0_l.
  - apply Z.bits_above_log2; [lia |].
    assert (Z.log2 u < k) by (apply Z.log2_lt_pow2; lia). lia.
Qed.

Ltac bitwise i Hi :=
  apply Z.bits_inj'; intros i Hi;
  change 127 with (Z.ones 7); change 255 with (Z.ones 8); change 128 with (2 ^ 7);
  repeat first
    [ rewrite Z.land_spec | rewrite Z.lor_spec
    | rewrite Z.testbit_ones_nonneg by lia
    | rewrite Z.pow2_bits_eqb by lia ].

Lemma uchar_land u : uchar u = Z.land u 255.
Proof. unfold uchar. symmetry. exact (Z.land_ones u 8 ltac:(lia)). Qed.

Lemma cont_byte_low u : Z.land (uchar (Z.lor (Z.land u 127) 128)) 127 = Z.land u 127.
Proof.
  rewrite uchar_land. bitwise i Hi.
  destruct (i <? 7) eqn:E7, (i <? 8) eqn:E8, (7 =? i) eqn:E;
    try reflexivity; try (destruct (Z.testbit u i); reflexivity); lia.
Qed.

Lemma cont_byte_high u : Z.land (uchar (Z.lor (Z.land u 127) 128)) 128 = 128.
Proof.
  rewrite uchar_land. bitwise i Hi.
  destruct (i <? 7) eqn:E7, (i <? 8) eqn:E8, (7 =? i) eqn:E;
    try reflexivity; try (destruct (Z.testbit u i); reflexivity); lia.
Qed.

Lemma last_byte u : 0 <= u < 128 -> uchar u = u /\ Z.land u 127 = u /\ Z.land u 128 = 0.
Proof.
  intros H. repeat split.
  - apply Z.mod_small. lia.
  - change 127 with (Z.ones 7). rewrite Z.land_ones by lia. apply Z.mod_small. lia.
  - bitwise i Hi. rewrite Z.bits_0.
    destruct (7 =? i) eqn:E; [| apply andb_false_r].
    apply Z.eqb_eq in E. subst i.
    rewrite (testbit_high u 7 7) by (change (2 ^ 7) with 128; lia). reflexivity.
Qed.

Lemma split7 u s : 0 <= s ->
  Z.lor (Z.shiftl (Z.land u 127) s) (Z.shiftl (Z.shiftr u 7) (s + 7)) = Z.shiftl u s.
Proof.
  intros Hs. apply Z.bits_inj'. intros i Hi.
  rewrite Z.lor_spec, !Z.shiftl_spec by lia.
  destruct (Z_lt_le_dec i s).
  - rewrite !Z.testbit_neg_r by lia. reflexivity.
  - rewrite Z.land_spec. change 127 with (Z.ones 7).
    rewrite Z.testbit_ones_nonneg by lia.
    destruct (i - s <? 7) eqn:E; [apply Z.ltb_lt in E | apply Z.ltb_ge in E].
    + rewrite (Z.testbit_neg_r _ (i - (s + 7))) by lia.
      rewrite andb_true_r, orb_false_r. reflexivity.
    + rewrite Z.shiftr_spec by lia. rewrite andb_false_r. simpl.
      f_equal. lia.
Qed.

Lemma nth_error_middle {A} (pre : list A) b post :
  nth_error (pre ++ b :: post) (Z.to_nat (len pre)) = Some b.
Proof.
  unfold len. rewrite Nat2Z.id, nth_error_app2, Nat.sub_diag by lia. reflexivity.
Qed.

Lemma len_app {A} (a b : list A) : len (a ++ b) = len a + len b.
Proof. unfold len. rewrite length_app. lia. Qed.

Lemma len_cons {A} (x : A) (l : list A) : len (x :: l) = 1 + len l.
Proof. unfold len. cbn [List.length]. lia. Qed.

Lemma len_nonneg {A} (a : list A) : 0 <= len a.
Proof. unfold len. lia. Qed.

Lemma shiftl_small u s k : 0 <= u < 2 ^ k -> 0 <= s -> 0 <= k -> s + k <= 64 ->
  wrap64 (Z.shiftl u s) = Z.shiftl u s.
Proof.
  intros Hu Hs Hk Hsk. apply wrap64_small.
  rewrite Z.shiftl_mul_pow2 by lia. split; [apply Z.mul_nonneg_nonneg; lia |].
  apply Z.lt_le_trans with (2 ^ k * 2 ^ s).
  - apply Z.mul_lt_mono_pos_r; lia.
  - rewrite <- Z.pow_add_r by lia. apply Z.pow_le_mono_r; lia.
Qed.

Lemma read_varint_loop_written (fuel : nat) :
  forall u self res shift pre post,
    0 <= u < 2 ^ (64 - shift) -> 0 <= shift <= 63 ->
    63 < 7 * Z.of_nat fuel + shift ->
    buffer self = pre ++ _write_varint u [] ++ post ->
    pos self = len pre -> size self = len (buffer self) ->
    read_varint_loop fuel self res shift =
      Ok (Z.lor res (Z.shiftl u shift),
          set_pos self (pos self + len (_write_varint u []))).
Proof.
  induction fuel as [| fuel IH]; intros u self res shift pre post Hu Hs Hf Hb Hp Hz;
    [lia |].
  rewrite write_varint_unfold in Hb |- *. simpl app in Hb |- *.
  cbn [read_varint_loop].
  destruct (128 <=? u) eqn:E; [apply Z.leb_le in E | apply Z.leb_gt in E].
  - rewrite write_varint_app in Hb |- *.
    set (b := uchar (Z.lor (Z.land u 127) 128)) in *.
    simpl app in Hb.
    assert (Hsz : pos self < size self).
    { rewrite Hz, Hb, Hp, len_app, len_cons.
      pose proof (len_nonneg (_write_varint (Z.shiftr u 7) [] ++ post)).
      pose proof (len_nonneg post). lia. }
    rewrite Z.geb_leb. destruct (size self <=? pos self) eqn:E1;
      [apply Z.leb_le in E1; lia | clear E1].
    unfold buffer_getitem. rewrite Hb, Hp.
    destruct (len pre <? 0) eqn:E2; [apply Z.ltb_lt in E2; pose proof (len_nonneg pre); lia | clear E2].
    rewrite nth_error_middle. cbn [bind].
    subst b. rewrite !cont_byte_low, !cont_byte_high. simpl (128 =? 0).
    assert (Hs7 : shift + 7 <= 63).
    { destruct (Z_lt_le_dec 56 shift); [| lia].
      assert (2 ^ (64 - shift) <= 2 ^ 7) by (apply Z.pow_le_mono_r; lia).
      change (2 ^ 7) with 128 in *. lia. }
    rewrite Z.gtb_ltb. destruct (63 <? shift + 7) eqn:E3;
      [apply Z.ltb_lt in E3; lia | clear E3].
    rewrite (IH (Z.shiftr u 7) _ _ _
               (pre ++ [uchar (Z.lor (Z.land u 127) 128)]) post).
    + f_equal. f_equal.
      * rewrite (shiftl_small (Z.land u 127) shift 7); try lia.
        -- rewrite <- Z.lor_assoc, split7 by lia. reflexivity.
        -- change 127 with (Z.ones 7). rewrite Z.land_ones by lia.
           apply Z.mod_pos_bound. lia.
      * unfold set_pos. simpl. f_equal. rewrite len_cons. lia.
    + rewrite Z.shiftr_div_pow2 by lia. split; [apply Z.div_pos; lia |].
      apply Z.div_lt_upper_bound; [lia |].
      rewrite <- Z.pow_add_r by lia.
      replace (7 + (64 - (shift + 7))) with (64 - shift) by lia. lia.
    + lia.
    + lia.
    + simpl. rewrite Hb, <- app_assoc. reflexivity.
    + simpl. rewrite len_app, len_cons. change (len (@nil Z)) with 0. lia.
    + simpl. exact Hz.
  - destruct (last_byte u ltac:(lia)) as (U1 & U2 & U3).
    rewrite U1 in Hb |- *.
    assert (Hsz : pos self < size self).
    { rewrite Hz, Hb, Hp, len_app. simpl app. rewrite len_cons.
      pose proof (len_nonneg post). lia. }
    rewrite Z.geb_leb. destruct (size self <=? pos self) eqn:E1;
      [apply Z.leb_le in E1; lia | clear E1].
    unfold buffer_getitem. rewrite Hb, Hp.
    destruct (len pre <? 0) eqn:E2; [apply Z.ltb_lt in E2; pose proof (len_nonneg pre); lia | clear E2].
    simpl app. rewrite nth_error_middle. cbn [bind].
    rewrite U2, U3. simpl (0 =? 0).
    rewrite (shiftl_small u shift (64 - shift)) by lia.
    f_equal.
Qed.

Lemma read_varint_written u self pre post :
  0 <= u < 2 ^ 64 ->
  buffer self = pre ++ _write_varint u [] ++ post ->
  pos self = len pre -> size self = len (buffer self) ->
  _read_varint self = Ok (u, set_pos self (pos self + len (_write_varint u []))).
Proof.
  intros Hu Hb Hp Hz. unfold _read_varint.
  rewrite (read_varint_loop_written 10 u self 0 0 pre post); try assumption; try lia.
  rewrite Z.lor_0_l, Z.shiftl_0_r. reflexivity.
Qed.



Lemma in_int64_true n : - 2 ^ 63 <= n < 2 ^ 63 -> in_int64 n = true.
Proof.
  intros H. unfold in_int64. apply andb_true_intro. split.
  - apply Z.leb_le. lia.
  - apply Z.ltb_lt. lia.
Qed.

Lemma skipn_len_app {A} (pre l : list A) : skipn (Z.to_nat (len pre)) (pre ++ l) = l.
Proof.
  unfold len. rewrite Nat2Z.id. rewrite skipn_app, Nat.sub_diag, skipn_all. reflexivity.
Qed.

Lemma firstn_len {A} (l : list A) : firstn (Z.to_nat (len l)) l = l.
Proof. unfold len. rewrite Nat2Z.id. apply firstn_all. Qed.


(** ** Fuel *)

Lemma decode_loop_more_fuel (n m : nat) self stack r :
  decode_loop n self stack = r -> r <> OutOfFuel ->
  decode_loop (n + m) self stack = r.
Proof.
  revert self stack. induction n as [| n IH]; intros self stack Hr Hne.
  - simpl in Hr. congruence.
  - simpl in Hr |- *. destruct (decode_step self stack); [apply IH |]; assumption.
Qed.


(** ** The encoder only appends *)

Lemma encode_list_eq self items buffer :
  _encode_recursive self (VList items) buffer =
  encode_each self items (_write_varint (len items) (buffer ++ [T_ARR])).
Proof.
  cbn [_encode_recursive]. generalize (_write_varint (len items) (buffer ++ [T_ARR])).
  induction items as [| x r IH]; intros b; [reflexivity |].
  cbn [encode_each]. destruct (_encode_recursive self x b); try reflexivity.
  cbn [bind]. apply IH.
Qed.

Lemma encode_tuple_eq self items buffer :
  _encode_recursive self (VTuple items) buffer =
  encode_each self items (_write_varint (len items) (buffer ++ [T_TUPLE])).
Proof.
  cbn [_encode_recursive]. generalize (_write_varint (len items) (buffer ++ [T_TUPLE])).
  induction items as [| x r IH]; intros b; [reflexivity |].
  cbn [encode_each]. destruct (_encode_recursive self x b); try reflexivity.
  cbn [bind]. apply IH.
Qed.

Lemma encode_set_eq self items buffer :
  _encode_recursive self (VSet items) buffer =
  encode_each self items (_write_varint (len items) (buffer ++ [T_SET])).
Proof.
  cbn [_encode_recursive]. generalize (_write_varint (len items) (buffer ++ [T_SET])).
  induction items as [| x r IH]; intros b; [reflexivity |].
  cbn [encode_each]. destruct (_encode_recursive self x b); try reflexivity.
  cbn [bind]. apply IH.
Qed.

Lemma encode_dict_eq self entries buffer :
  _encode_recursive self (VDict entries) buffer =
  encode_entries self entries (_write_varint (len entries) (buffer ++ [T_OBJ])).
Proof.
  cbn [_encode_recursive]. generalize (_write_varint (len entries) (buffer ++ [T_OBJ])).
  induction entries as [| [k x] r IH]; intros b; [reflexivity |].
  cbn [encode_entries]. destruct (symbol_map_getitem self k); try reflexivity.
  cbn [bind]. destruct (_encode_recursive self x _); try reflexivity.
  cbn [bind]. apply IH.
Qed.

Lemma encode_each_prefix self items :
  Forall (fun obj => forall buf,
            _encode_recursive self obj buf =
            map_outcome (app buf) (_encode_recursive self obj [])) items ->
  forall b1 b2,
    encode_each self items (b1 ++ b2) =
    map_outcome (app b1) (encode_each self items b2).
Proof.
  induction 1 as [| x r Hx _ IH]; intros b1 b2; [reflexivity |].
  cbn [encode_each]. rewrite (Hx (b1 ++ b2)), (Hx b2).
  destruct (_encode_recursive self x []); try reflexivity.
  cbn [map_outcome bind]. rewrite <- app_assoc. apply IH.
Qed.

Lemma encode_entries_prefix self entries :
  Forall (fun kv => forall buf,
            _encode_recursive self (snd kv) buf =
            map_outcome (app buf) (_encode_recursive self (snd kv) [])) entries ->
  forall b1 b2,
    encode_entries self entries (b1 ++ b2) =
    map_outcome (app b1) (encode_entries self entries b2).
Proof.
  induction 1 as [| [k x] r Hx _ IH]; intros b1 b2; [reflexivity |].
  cbn [encode_entries]. destruct (symbol_map_getitem self k); try reflexivity.
  cbn [bind]. cbn [snd] in Hx.
  rewrite (Hx (_write_varint a ((b1 ++ b2) ++ [T_SYMREF]))).
  rewrite (Hx (_write_varint a (b2 ++ [T_SYMREF]))).
  destruct (_encode_recursive self x []); try reflexivity.
  cbn [map_outcome bind].
  rewrite (write_varint_app a ((b1 ++ b2) ++ _)), (write_varint_app a (b2 ++ _)).
  rewrite <- !app_assoc. apply IH.
Qed.

Lemma encode_prefix self obj :
  forall buf,
    _encode_recursive self obj buf =
    map_outcome (app buf) (_encode_recursive self obj []).
Proof.
  induction obj using value_induction; intros buf;
    try (rewrite !encode_list_eq || rewrite !encode_tuple_eq
         || rewrite !encode_set_eq || rewrite !encode_dict_eq);
    try (cbn [_encode_recursive]).
  - reflexivity.
  - destruct b; reflexivity.
  - destruct (in_int64 n); [| reflexivity].
    cbn [map_outcome]. rewrite (write_varint_app _ (buf ++ _)), (write_varint_app _ ([] ++ _)).
    rewrite <- app_assoc. reflexivity.
  - cbn [map_outcome]. rewrite <- !app_assoc. reflexivity.
  - destruct (dict_get String.eqb (symbol_map self) s); cbn [map_outcome].
    + rewrite (write_varint_app _ (buf ++ _)), (write_varint_app _ ([] ++ _)).
      rewrite <- app_assoc. reflexivity.
    + rewrite (write_varint_app _ (buf ++ _)), (write_varint_app _ ([] ++ _)).
      rewrite <- !app_assoc. reflexivity.
  - cbn [map_outcome]. rewrite (write_varint_app _ (buf ++ _)), (write_varint_app _ ([] ++ _)).
    rewrite <- !app_assoc. reflexivity.
  - cbn [map_outcome]. rewrite (write_varint_app _ (buf ++ _)), (write_varint_app _ ([] ++ _)).
    rewrite <- !app_assoc. reflexivity.
  - destruct (ext_handler self) as [h |]; [| reflexivity].
    destruct (h (VMemoryview b)) as [[eid payload] |]; [| reflexivity].
    destruct (in_uint64 eid); [| reflexivity].
    cbn [map_outcome].
    rewrite (write_varint_app _ (_write_varint eid (buf ++ _))),
      (write_varint_app eid (buf ++ _)),
      (write_varint_app _ (_write_varint eid ([] ++ _))),
      (write_varint_app eid ([] ++ _)).
    rewrite <- !app_assoc. reflexivity.
  - destruct (in_int64 ms); [| reflexivity].
    cbn [map_outcome]. rewrite (write_varint_app _ (buf ++ _)), (write_varint_app _ ([] ++ _)).
    rewrite <- app_assoc. reflexivity.
  - rewrite (write_varint_app _ (buf ++ _)), (write_varint_app _ ([] ++ _)).
    rewrite <- !app_assoc. apply encode_each_prefix. assumption.
  - rewrite (write_varint_app _ (buf ++ _)), (write_varint_app _ ([] ++ _)).
    rewrite <- !app_assoc. apply encode_each_prefix. assumption.
  - rewrite (write_varint_app _ (buf ++ _)), (write_varint_app _ ([] ++ _)).
    rewrite <- !app_assoc. apply encode_each_prefix. assumption.
  - rewrite (write_varint_app _ (buf ++ _)), (write_varint_app _ ([] ++ _)).
    rewrite <- !app_assoc. apply encode_entries_prefix. assumption.
  - destruct (ext_handler self) as [h |]; [| reflexivity].
    destruct (h (VOther name)) as [[eid payload] |]; [| reflexivity].
    destruct (in_uint64 eid); [| reflexivity].
    cbn [map_outcome].
    rewrite (write_varint_app _ (_write_varint eid (buf ++ _))),
      (write_varint_app eid (buf ++ _)),
      (write_varint_app _ (_write_varint eid ([] ++ _))),
      (write_varint_app eid ([] ++ _)).
    rewrite <- !app_assoc. reflexivity.
Qed.


(** ** Where encoding fails *)

Lemma encode_raise_any_buffer self obj buf e :
  _encode_recursive self obj buf = Raise e <-> _encode_recursive self obj [] = Raise e.
Proof.
  rewrite (encode_prefix self obj buf).
  destruct (_encode_recursive self obj []); cbn [map_outcome]; split; congruence.
Qed.

Lemma encode_ok_any_buffer self obj buf :
  (exists out, _encode_recursive self obj buf = Ok out) <-> encodes self obj.
Proof.
  unfold encodes. rewrite (encode_prefix self obj buf).
  destruct (_encode_recursive self obj []); cbn [map_outcome]; split;
    intros [out H]; try discriminate; eauto.
Qed.

Lemma encodes_continue self obj buf :
  encodes self obj -> exists out, _encode_recursive self obj buf = Ok (buf ++ out).
Proof.
  intros [out H]. exists out. rewrite encode_prefix, H. reflexivity.
Qed.

Lemma encode_each_raise self items buf e :
  encode_each self items buf = Raise e <->
  exists pre item post,
    items = pre ++ item :: post /\ Forall (encodes self) pre /\
    _encode_recursive self item [] = Raise e.
Proof.
  revert buf. induction items as [| x r IH]; intros buf; cbn [encode_each].
  - split; [discriminate |]. intros (pre & item & post & H & _).
    destruct pre; discriminate.
  - split.
    + destruct (_encode_recursive self x buf) as [b | e' | u |] eqn:E;
        cbn [bind]; intros H; try discriminate.
      * apply IH in H. destruct H as (pre & item & post & -> & Hpre & Hi).
        exists (x :: pre), item, post. repeat split; try assumption.
        constructor; [| assumption].
        apply (encode_ok_any_buffer self x buf). eauto.
      * exists [], x, r. repeat split; [constructor |].
        apply (encode_raise_any_buffer self x buf). congruence.
    + intros (pre & item & post & H & Hpre & Hi).
      destruct pre as [| y pre]; cbn [app] in H.
      * injection H as <- <-.
        apply (encode_raise_any_buffer self x buf) in Hi. rewrite Hi. reflexivity.
      * injection H as <- ->.
        inversion Hpre as [| ? ? Hy Hpre']; subst.
        destruct (encodes_continue self x buf Hy) as [out ->]. cbn [bind].
        apply IH. eauto 6.
Qed.

Lemma encode_entries_raise self entries buf e :
  encode_entries self entries buf = Raise e <->
  exists pre k v post,
    entries = pre ++ (k, v) :: post /\
    Forall (fun kv => resolves self (fst kv) /\ encodes self (snd kv)) pre /\
    (symbol_map_getitem self k = Raise e \/
     (resolves self k /\ _encode_recursive self v [] = Raise e)).
Proof.
  revert buf. induction entries as [| [k0 x] r IH]; intros buf; cbn [encode_entries].
  - split; [discriminate |]. intros (pre & k & v & post & H & _).
    destruct pre; discriminate.
  - split.
    + destruct (symbol_map_getitem self k0) as [i | e' | u |] eqn:Ek;
        cbn [bind]; try discriminate.
      * destruct (_encode_recursive self x _) as [b | e' | u |] eqn:E;
          cbn [bind]; intros H; try discriminate.
        -- apply IH in H. destruct H as (pre & k & v & post & -> & Hpre & Hi).
           exists ((k0, x) :: pre), k, v, post. repeat split; try assumption.
           constructor; [| assumption]. cbn [fst snd]. split.
           ++ exists i. assumption.
           ++ apply (proj1 (encode_ok_any_buffer self x
                              (_write_varint i (buf ++ [T_SYMREF])))).
              eauto.
        -- exists [], k0, x, r. repeat split; [constructor |]. right. split.
           ++ exists i. assumption.
           ++ apply (proj1 (encode_raise_any_buffer self x
                              (_write_varint i (buf ++ [T_SYMREF])) e)).
              congruence.
      * intros H. exists [], k0, x, r. repeat split; [constructor |]. left. congruence.
    + intros (pre & k & v & post & H & Hpre & Hi).
      destruct pre as [| [k1 y] pre]; cbn [app] in H.
      * injection H as <- <- <-.
        destruct Hi as [Hk | [[i Hk] Hv]]; rewrite Hk; cbn [bind]; [reflexivity |].
        apply (encode_raise_any_buffer self x (_write_varint i (buf ++ [T_SYMREF]))) in Hv.
        rewrite Hv. reflexivity.
      * injection H as <- <- ->.
        inversion Hpre as [| ? ? [[i Hk] Hy] Hpre']; subst. cbn [fst snd] in *.
        rewrite Hk. cbn [bind].
        destruct (encodes_continue self x (_write_varint i (buf ++ [T_SYMREF])) Hy)
          as [out ->].
        cbn [bind]. apply IH. eauto 8.
Qed.

Lemma unsupported_only_if self obj :
  forall x, _encode_recursive self obj [] = Raise (LensEncodeError x) ->
  dispatched self obj x /\ fallthrough x = true /\ ext_declines self x.
Proof.
  induction obj using value_induction; intros x;
    try (rewrite encode_list_eq || rewrite encode_tuple_eq
         || rewrite encode_set_eq || rewrite encode_dict_eq);
    try (cbn [_encode_recursive]).
  - discriminate.
  - destruct b; discriminate.
  - destruct (in_int64 n); discriminate.
  - discriminate.
  - destruct (dict_get String.eqb (symbol_map self) s); discriminate.
  - discriminate.
  - discriminate.
  - unfold ext_declines. destruct (ext_handler self) as [h |].
    + destruct (h (VMemoryview b)) as [[eid payload] |] eqn:E.
      * destruct (in_uint64 eid); discriminate.
      * intros [= <-]. repeat split; [constructor | assumption].
    + intros [= <-]. repeat split. constructor.
  - destruct (in_int64 ms); discriminate.
  - intros Hr. apply encode_each_raise in Hr.
    destruct Hr as (pre & item & post & -> & Hpre & Hi).
    apply Forall_elt in H. destruct (H x Hi) as (Hd & Hf & He).
    repeat split; try assumption. constructor; assumption.
  - intros Hr. apply encode_each_raise in Hr.
    destruct Hr as (pre & item & post & -> & Hpre & Hi).
    apply Forall_elt in H. destruct (H x Hi) as (Hd & Hf & He).
    repeat split; try assumption. constructor; assumption.
  - intros Hr. apply encode_each_raise in Hr.
    destruct Hr as (pre & item & post & -> & Hpre & Hi).
    apply Forall_elt in H. destruct (H x Hi) as (Hd & Hf & He).
    repeat split; try assumption. constructor; assumption.
  - intros Hr. apply encode_entries_raise in Hr.
    destruct Hr as (pre & k & v & post & -> & Hpre & [Hk | [Hk Hi]]).
    + unfold symbol_map_getitem in Hk.
      destruct k; try discriminate.
      destruct (dict_get String.eqb (symbol_map self) s); discriminate.
    + apply Forall_elt in H. cbn [snd] in H. destruct (H x Hi) as (Hd & Hf & He).
      repeat split; try assumption. constructor; assumption.
  - unfold ext_declines. destruct (ext_handler self) as [h |].
    + destruct (h (VOther name)) as [[eid payload] |] eqn:E.
      * destruct (in_uint64 eid); discriminate.
      * intros [= <-]. repeat split; [constructor | assumption].
    + intros [= <-]. repeat split. constructor.
Qed.

Lemma unsupported_if self obj x :
  dispatched self obj x -> fallthrough x = true -> ext_declines self x ->
  _encode_recursive self obj [] = Raise (LensEncodeError x).
Proof.
  intros Hd Hf He. induction Hd as
    [ obj | pre item post x Hpre Hd IH | pre item post x Hpre Hd IH
    | pre item post x Hpre Hd IH | pre k v post x Hpre Hk Hd IH ].
  - unfold ext_declines in He.
    destruct obj; try discriminate Hf; cbn [_encode_recursive];
      destruct (ext_handler self); try rewrite He; reflexivity.
  - rewrite encode_list_eq. apply encode_each_raise.
    exists pre, item, post. repeat split; auto.
  - rewrite encode_tuple_eq. apply encode_each_raise.
    exists pre, item, post. repeat split; auto.
  - rewrite encode_set_eq. apply encode_each_raise.
    exists pre, item, post. repeat split; auto.
  - rewrite encode_dict_eq. apply encode_entries_raise.
    exists pre, k, v, post. repeat split; auto.
Qed.

Lemma dict_get_set (m : list (string * Z)) k v k' :
  dict_get String.eqb (dict_set String.eqb m k v) k' =
  if String.eqb k k' then Some v else dict_get String.eqb m k'.
Proof.
  induction m as [| [k0 v0] m IH]; cbn [dict_set dict_get].
  - reflexivity.
  - destruct (String.eqb k0 k) eqn:E0; cbn [dict_get].
    + apply String.eqb_eq in E0. subst k0.
      destruct (String.eqb k k'); reflexivity.
    + destruct (String.eqb k0 k') eqn:E1.
      * apply String.eqb_eq in E1. subst k0. rewrite String.eqb_sym, E0. reflexivity.
      * apply IH.
Qed.

Lemma enumerate_symbols_none symbols :
  forall i m s,
    dict_get String.eqb (enumerate_symbols i symbols m) s = None <->
    dict_get String.eqb m s = None /\ ~ In s symbols.
Proof.
  induction symbols as [| sym rest IH]; intros i m s; cbn [enumerate_symbols In].
  - tauto.
  - rewrite IH, dict_get_set.
    destruct (String.eqb sym s) eqn:E.
    + apply String.eqb_eq in E. split; [intros [? _]; discriminate | tauto].
    + apply String.eqb_neq in E. tauto.
Qed.

Lemma getitem_outside_table symbols handler k :
  ~ in_symbol_table symbols k ->
  symbol_map_getitem (FastEncoder_init symbols handler) k = Raise (KeyError k).
Proof.
  intros H. unfold symbol_map_getitem. destruct k; try reflexivity.
  cbn [FastEncoder_init symbol_map].
  destruct (dict_get _ _ s) eqn:E; [| reflexivity].
  exfalso. apply H. cbn [in_symbol_table].
  destruct (in_dec string_dec s symbols) as [Hin | Hout]; [assumption |].
  assert (N : dict_get String.eqb (enumerate_symbols 0 symbols []) s = None).
  { apply enumerate_symbols_none. split; [reflexivity | assumption]. }
  congruence.
Qed.

Lemma getitem_inside_table symbols handler k :
  in_symbol_table symbols k -> resolves (FastEncoder_init symbols handler) k.
Proof.
  intros H. unfold resolves, symbol_map_getitem. destruct k; try contradiction.
  cbn [FastEncoder_init symbol_map in_symbol_table] in *.
  destruct (dict_get _ _ s) eqn:E; [eauto |].
  apply enumerate_symbols_none in E. tauto.
Qed.

Lemma encode_each_ok self items :
  forall buf out, encode_each self items buf = Ok out ->
  Forall (encodes self) items.
Proof.
  induction items as [| x r IH]; intros buf out H; [constructor |].
  cbn [encode_each] in H.
  destruct (_encode_recursive self x buf) as [b | | |] eqn:E; try discriminate.
  cbn [bind] in H. constructor; [| eapply IH; eassumption].
  apply (encode_ok_any_buffer self x buf). eauto.
Qed.

Lemma encode_entries_ok self entries :
  forall buf out, encode_entries self entries buf = Ok out ->
  Forall (fun kv => resolves self (fst kv) /\ encodes self (snd kv)) entries.
Proof.
  induction entries as [| [k x] r IH]; intros buf out H; [constructor |].
  cbn [encode_entries] in H.
  destruct (symbol_map_getitem self k) as [i | | |] eqn:Ek; try discriminate.
  cbn [bind] in H.
  destruct (_encode_recursive self x _) as [b | | |] eqn:E; try discriminate.
  cbn [bind] in H. constructor; [| eapply IH; eassumption].
  cbn [fst snd]. split; [exists i; assumption |].
  apply (encode_ok_any_buffer self x (_write_varint i (buf ++ [T_SYMREF]))). eauto.
Qed.

Lemma keys_resolve self obj k :
  has_key obj k -> encodes self obj -> resolves self k.
Proof.
  induction 1 as
    [ entries k v Hin | entries k' v k Hin Hk IH | items item k Hin Hk IH
    | items item k Hin Hk IH | items item k Hin Hk IH ];
    intros [out Ho].
  - rewrite encode_dict_eq in Ho. apply encode_entries_ok in Ho.
    rewrite Forall_forall in Ho. apply (Ho (k, v) Hin).
  - rewrite encode_dict_eq in Ho. apply encode_entries_ok in Ho.
    rewrite Forall_forall in Ho. apply IH. apply (Ho (k', v) Hin).
  - rewrite encode_list_eq in Ho. apply encode_each_ok in Ho.
    rewrite Forall_forall in Ho. auto.
  - rewrite encode_tuple_eq in Ho. apply encode_each_ok in Ho.
    rewrite Forall_forall in Ho. auto.
  - rewrite encode_set_eq in Ho. apply encode_each_ok in Ho.
    rewrite Forall_forall in Ho. auto.
Qed.

Lemma decode_all_more_fuel (n m : nat) self r :
  decode_all n self = r -> r <> OutOfFuel -> decode_all (n + m) self = r.
Proof. apply decode_loop_more_fuel. Qed.

Lemma decode_more_fuel (n m : nat) data symbols r :
  decode n data symbols = r -> r <> OutOfFuel -> decode (n + m) data symbols = r.
Proof. apply decode_all_more_fuel. Qed.

(** Whatever a run reports once it has enough fuel is the only result any
    amount of fuel can report. *)
Lemma decode_all_result_unique (n m : nat) self r :
  decode_all n self = r -> r <> OutOfFuel ->
  decode_all m self = r \/ decode_all m self = OutOfFuel.
Proof.
  intros Hr Hne. destruct (Nat.le_gt_cases n m) as [Hle | Hgt].
  - left. replace m with (n + (m - n))%nat by lia.
    apply decode_all_more_fuel; assumption.
  - destruct (decode_all m self) eqn:Em; try (right; reflexivity); left;
      rewrite <- Hr; replace n with (m + (n - m))%nat by lia;
      symmetry; apply decode_all_more_fuel; (assumption || discriminate).
Qed.

Lemma decode_result_unique (n m : nat) data symbols r :
  decode n data symbols = r -> r <> OutOfFuel ->
  decode m data symbols = r \/ decode m data symbols = OutOfFuel.
Proof. apply decode_all_result_unique. Qed.

(** ** Integers and timestamps at top level *)

(** Decoding [tag :: varint(u)] at top level hands [u] to the branch of
    [tag]; this is the common first half of the INT and TIME branches. *)
Lemma decode_value_varint tag u self :
  0 <= u < 2 ^ 64 ->
  buffer self = tag :: _write_varint u [] -> pos self = 0 ->
  size self = len (buffer self) ->
  buffer_getitem self 0 = Ok tag /\
  (pos self >=? size self) = false /\
  _read_varint (set_pos self (pos self + 1)) =
    Ok (u, set_pos (set_pos self (pos self + 1))
             (pos self + 1 + len (_write_varint u []))).
Proof.
  intros Hu Hb Hp Hz. repeat split.
  - unfold buffer_getitem. rewrite Hb. reflexivity.
  - rewrite Hz, Hb, Hp, len_cons.
    pose proof (len_nonneg (_write_varint u [])).
    rewrite Z.geb_leb. apply Z.leb_gt. lia.
  - rewrite (read_varint_written u _ [tag] []); try assumption.
    + reflexivity.
    + cbn [buffer set_pos]. rewrite Hb, app_nil_r. reflexivity.
    + cbn [pos set_pos]. rewrite Hp. reflexivity.
Qed.

(** What [ts_hook] is called with: the decoded count is stored in the
    [uint64_t] variable [var_int] before the hook sees it. *)
Lemma time_hook_argument ms symbols zero_copy ext_hook hook fuel :
  - 2 ^ 63 <= ms < 2 ^ 63 ->
  decode_all (S fuel)
    (FastDecoder_init (T_TIME :: _write_varint (c_zigzag_encode ms) [])
       symbols zero_copy ext_hook (Some hook))
  = hook (wrap64 ms).
Proof.
  intros Hn. pose proof (zigzag_encode_range ms Hn) as Hr.
  set (u := c_zigzag_encode ms) in *.
  set (self := FastDecoder_init (T_TIME :: _write_varint u []) symbols
                 zero_copy ext_hook (Some hook)).
  destruct (decode_value_varint T_TIME u self Hr eq_refl eq_refl eq_refl)
    as (Hg & Hc & Hv).
  unfold decode_all. cbn [decode_loop decode_step]. unfold decode_value.
  rewrite Hc. change (pos self) with 0 in *. rewrite Hg. cbn [step_bind].
  change (T_TIME =? T_NULL) with false; change (T_TIME =? T_TRUE) with false;
    change (T_TIME =? T_FALSE) with false; change (T_TIME =? T_INT) with false;
    change (T_TIME =? T_FLOAT) with false; change (T_TIME =? T_STR) with false;
    change (T_TIME =? T_BYTES) with false; change (T_TIME =? T_SYMREF) with false;
    change (T_TIME =? T_TIME) with true.
  cbv iota. rewrite Hv. cbn [step_bind ts_hook set_pos].
  unfold u. rewrite zigzag_roundtrip by assumption.
  change (ts_hook self) with (Some hook). cbv iota.
  destruct (hook (wrap64 ms)); reflexivity.
Qed.

(** ** Round trip within the frame pool *)

Lemma decode_loop_run fuel self stack :
  decode_loop (S fuel) self stack = run fuel (decode_step self stack).
Proof. reflexivity. Qed.



Lemma len_snoc {A} (l : list A) (a : A) : len (l ++ [a]) = len l + 1.
Proof. rewrite len_app. reflexivity. Qed.

Lemma byte_at_range x i : 0 <= byte_at x i < 256.
Proof.
  unfold byte_at. change 255 with (Z.ones 8). rewrite Z.land_ones by lia.
  apply Z.mod_pos_bound. lia.
Qed.

Lemma lor_byte c r : 0 <= c < 256 -> Z.lor c (Z.shiftl r 8) = c + 256 * r.
Proof.
  intros Hc.
  assert (Hd : Z.land c (Z.shiftl r 8) = 0).
  { apply Z.bits_inj'. intros i Hi. rewrite Z.land_spec, Z.bits_0.
    destruct (Z_lt_le_dec i 8).
    - rewrite Z.shiftl_spec_low by lia. apply andb_false_r.
    - rewrite (testbit_high c 8 i) by (change (2 ^ 8) with 256; lia). reflexivity. }
  rewrite <- (Z.lxor_lor _ _ Hd), <- (Z.add_nocarry_lxor _ _ Hd).
  rewrite Z.shiftl_mul_pow2 by lia. change (2 ^ 8) with 256. lia.
Qed.

Lemma byte_at_0 c r : 0 <= c < 256 -> byte_at (c + 256 * r) 0 = c.
Proof.
  intros Hc. unfold byte_at. rewrite Z.shiftr_0_r.
  change 255 with (Z.ones 8). rewrite Z.land_ones by lia. change (2 ^ 8) with 256.
  Z.div_mod_to_equations. lia.
Qed.

Lemma byte_at_small c : 0 <= c < 256 -> byte_at c 0 = c.
Proof.
  intros Hc. replace c with (c + 256 * 0) at 1 by lia. apply byte_at_0. assumption.
Qed.

Lemma byte_at_succ c r i : 0 <= c < 256 -> 0 <= i ->
  byte_at (c + 256 * r) (i + 1) = byte_at r i.
Proof.
  intros Hc Hi. unfold byte_at. f_equal.
  replace (8 * (i + 1)) with (8 + 8 * i) by lia.
  rewrite <- Z.shiftr_shiftr by lia. f_equal.
  rewrite Z.shiftr_div_pow2 by lia. change (2 ^ 8) with 256.
  Z.div_mod_to_equations. lia.
Qed.

Lemma bytes_word_nonneg l : Forall (fun c => 0 <= c < 256) l -> 0 <= bytes_word l.
Proof.
  induction 1 as [| c l Hc _ IH]; cbn [bytes_word]; [lia |].
  rewrite lor_byte by assumption. lia.
Qed.

Lemma word_bytes_of_bytes b0 b1 b2 b3 b4 b5 b6 b7 :
  Forall (fun c => 0 <= c < 256) [b0; b1; b2; b3; b4; b5; b6; b7] ->
  word_bytes (bytes_word [b0; b1; b2; b3; b4; b5; b6; b7])
  = [b0; b1; b2; b3; b4; b5; b6; b7].
Proof.
  intros H.
  repeat match goal with
         | H : Forall _ (_ :: _) |- _ =>
             let Hc := fresh "Hc" in
             let Hr := fresh "Hr" in
             apply Forall_cons_iff in H; destruct H as [Hc Hr]
         end.
  unfold word_bytes. cbn [bytes_word map]. rewrite Z.shiftl_0_l.
  rewrite (Z.lor_0_r b7).
  rewrite !lor_byte by assumption.
  change 1 with (0 + 1).
  change 7 with (0 + 1 + 1 + 1 + 1 + 1 + 1 + 1).
  change 6 with (0 + 1 + 1 + 1 + 1 + 1 + 1).
  change 5 with (0 + 1 + 1 + 1 + 1 + 1).
  change 4 with (0 + 1 + 1 + 1 + 1).
  change 3 with (0 + 1 + 1 + 1).
  change 2 with (0 + 1 + 1).
  rewrite !byte_at_succ by (assumption || lia).
  rewrite !byte_at_0 by assumption.
  rewrite byte_at_small by assumption.
  reflexivity.
Qed.

Lemma byte_at_shift x j : 0 <= j -> byte_at x (j + 1) = byte_at (Z.shiftr x 8) j.
Proof.
  intros Hj. unfold byte_at. f_equal.
  replace (8 * (j + 1)) with (8 + 8 * j) by lia.
  rewrite Z.shiftr_shiftr by lia. reflexivity.
Qed.

Lemma byte_split x : x = byte_at x 0 + 256 * Z.shiftr x 8.
Proof.
  unfold byte_at. rewrite Z.shiftr_0_r, Z.shiftr_div_pow2 by lia.
  change 255 with (Z.ones 8). rewrite Z.land_ones by lia. change (2 ^ 8) with 256.
  Z.div_mod_to_equations. lia.
Qed.

Lemma bytes_of_word x : 0 <= x < 2 ^ 64 -> bytes_word (word_bytes x) = x.
Proof.
  intros Hx. unfold word_bytes. cbn [bytes_word map].
  rewrite Z.shiftl_0_l, Z.lor_0_r.
  rewrite !lor_byte by apply byte_at_range.
  change 1 with (0 + 1).
  change 7 with (0 + 1 + 1 + 1 + 1 + 1 + 1 + 1).
  change 6 with (0 + 1 + 1 + 1 + 1 + 1 + 1).
  change 5 with (0 + 1 + 1 + 1 + 1 + 1).
  change 4 with (0 + 1 + 1 + 1 + 1).
  change 3 with (0 + 1 + 1 + 1).
  change 2 with (0 + 1 + 1).
  rewrite !byte_at_shift by lia.
  set (q1 := Z.shiftr x 8). set (q2 := Z.shiftr q1 8). set (q3 := Z.shiftr q2 8).
  set (q4 := Z.shiftr q3 8). set (q5 := Z.shiftr q4 8). set (q6 := Z.shiftr q5 8).
  set (q7 := Z.shiftr q6 8).
  pose proof (byte_split x) as E0. pose proof (byte_split q1) as E1.
  pose proof (byte_split q2) as E2. pose proof (byte_split q3) as E3.
  pose proof (byte_split q4) as E4. pose proof (byte_split q5) as E5.
  pose proof (byte_split q6) as E6. pose proof (byte_split q7) as E7.
  fold q1 in E0. fold q2 in E1. fold q3 in E2. fold q4 in E3. fold q5 in E4.
  fold q6 in E5. fold q7 in E6.
  pose proof (byte_at_range x 0). pose proof (byte_at_range q1 0).
  pose proof (byte_at_range q2 0). pose proof (byte_at_range q3 0).
  pose proof (byte_at_range q4 0). pose proof (byte_at_range q5 0).
  pose proof (byte_at_range q6 0). pose proof (byte_at_range q7 0).
  assert (Z.shiftr q7 8 = 0).
  { pow2. lia. }
  lia.
Qed.

Lemma word_bytes_range x : Forall (fun c => 0 <= c < 256) (word_bytes x).
Proof. unfold word_bytes. cbn [map]. repeat constructor; apply byte_at_range. Qed.

Lemma word_bytes_swapped x : word_bytes (lens_be64 x) = rev (word_bytes x).
Proof.
  unfold lens_be64. unfold word_bytes at 2. cbn [map rev app].
  apply word_bytes_of_bytes. repeat constructor; apply byte_at_range.
Qed.

Lemma lens_be64_involutive x : 0 <= x < 2 ^ 64 ->
  lens_be64 (bytes_word (word_bytes (lens_be64 x))) = x.
Proof.
  intros Hx. rewrite word_bytes_swapped. fold (lens_be64 x).
  unfold lens_be64 at 1. rewrite word_bytes_swapped, rev_involutive.
  apply bytes_of_word. assumption.
Qed.

Lemma string_of_utf8 s : string_of_bytes (utf8_encode s) = s.
Proof.
  unfold string_of_bytes, utf8_encode. rewrite map_map.
  rewrite (map_ext _ (fun a => a)).
  - rewrite map_id. apply string_of_list_ascii_of_string.
  - intros a. rewrite N2Z.id. apply ascii_N_embedding.
Qed.

Lemma enumerate_symbols_some symbols :
  forall i0 m s i,
    dict_get String.eqb (enumerate_symbols i0 symbols m) s = Some i ->
    dict_get String.eqb m s = Some i \/
    (i0 <= i < i0 + len symbols /\ nth_error symbols (Z.to_nat (i - i0)) = Some s).
Proof.
  induction symbols as [| sym rest IH]; intros i0 m s i H; cbn [enumerate_symbols] in H.
  - left. exact H.
  - apply IH in H. rewrite len_cons. pose proof (len_nonneg rest).
    destruct H as [H | [Hr Hn]].
    + rewrite dict_get_set in H. destruct (String.eqb sym s) eqn:E.
      * apply String.eqb_eq in E. injection H as <-. subst sym. right.
        split; [lia |]. rewrite Z.sub_diag. reflexivity.
      * left. exact H.
    + right. split; [lia |].
      replace (Z.to_nat (i - i0)) with (S (Z.to_nat (i - (i0 + 1)))) by lia.
      exact Hn.
Qed.


Lemma supported_int_inv symbols n :
  supported symbols (VInt n) -> - 2 ^ 63 <= n < 2 ^ 63.
Proof. intros H. inversion H. assumption. Qed.

Lemma supported_float_inv symbols bits :
  supported symbols (VFloat bits) -> 0 <= bits < 2 ^ 64.
Proof. intros H. inversion H. assumption. Qed.

Lemma supported_str_inv symbols s :
  supported symbols (VStr s) ->
  In s symbols \/ utf8_well_formed 0 128 191 (utf8_encode s) = true.
Proof. intros H. inversion H; auto. Qed.

Lemma supported_datetime_inv symbols ms :
  supported symbols (VDatetime ms) -> 0 <= ms <= 253402300799999.
Proof. intros H. inversion H. assumption. Qed.

Lemma supported_list_inv symbols items :
  supported symbols (VList items) -> Forall (supported symbols) items.
Proof. intros H. inversion H. assumption. Qed.

Lemma supported_tuple_inv symbols items :
  supported symbols (VTuple items) -> Forall (supported symbols) items.
Proof. intros H. inversion H. assumption. Qed.

Lemma supported_set_inv symbols elems :
  supported symbols (VSet elems) ->
  Forall (supported symbols) elems /\
  Forall (fun x => hashable x = true) elems /\ distinct [] elems.
Proof. intros H. inversion H. auto. Qed.

Lemma supported_dict_inv symbols entries :
  supported symbols (VDict entries) ->
  Forall (fun kv => in_symbol_table symbols (fst kv) /\
                    supported symbols (snd kv)) entries /\
  distinct_keys [] entries.
Proof. intros H. inversion H. auto. Qed.

Lemma symbols_St data table hook p pool k :
  symbols (decoder_at data table hook p pool k) = table.
Proof. reflexivity. Qed.

Section RoundTrip.
Variable symbols : list string.
Variable handler : option (value -> option (Z * list Z)).
Variable data : list Z.
Variable hook : option (Z -> list Z -> outcome value).
Hypothesis data_fits : len data <= PY_SSIZE_T_MAX / 8.
Hypothesis symbols_fit : len symbols <= PY_SSIZE_T_MAX.

Abbreviation St := (decoder_at data symbols hook).
Abbreviation enc := (FastEncoder_init symbols handler).
Abbreviation back := (decodes_back symbols handler data hook).
Abbreviation chunk := (entry_chunk enc).

Lemma pos_St p pool k : pos (St p pool k) = p.
Proof. reflexivity. Qed.
Lemma size_St p pool k : size (St p pool k) = len data.
Proof. reflexivity. Qed.
Lemma buffer_St p pool k : buffer (St p pool k) = data.
Proof. reflexivity. Qed.
Lemma pool_St p pool k : frame_pool (St p pool k) = pool.
Proof. reflexivity. Qed.
Lemma pool_idx_St p pool k : pool_idx (St p pool k) = k.
Proof. reflexivity. Qed.
Lemma zero_copy_St p pool k : zero_copy (St p pool k) = false.
Proof. reflexivity. Qed.
Lemma ts_hook_St p pool k : ts_hook (St p pool k) = None.
Proof. reflexivity. Qed.
Lemma set_pos_St p pool k p' : set_pos (St p pool k) p' = St p' pool k.
Proof. reflexivity. Qed.
Lemma set_pool_St p pool k pool' k' : set_pool (St p pool k) pool' k' = St p pool' k'.
Proof. reflexivity. Qed.

Create Rewrite HintDb st.
#[local] Hint Rewrite pos_St size_St buffer_St pool_St pool_idx_St zero_copy_St
  ts_hook_St symbols_St set_pos_St set_pool_St : st.

Lemma data_small : len data < 2 ^ 60.
Proof. unfold PY_SSIZE_T_MAX in data_fits. pow2.
  change (2 ^ 60) with 1152921504606846976.
  change ((9223372036854775808 - 1) / 8) with 1152921504606846975 in data_fits. lia.
Qed.

Lemma getitem_at pre b post pool k :
  data = pre ++ b :: post ->
  buffer_getitem (St (len pre) pool k) (len pre) = Ok b.
Proof.
  intros H. unfold buffer_getitem. rewrite buffer_St, H.
  pose proof (len_nonneg pre).
  destruct (len pre <? 0) eqn:E; [apply Z.ltb_lt in E; lia |].
  rewrite nth_error_middle. reflexivity.
Qed.

Lemma not_at_end pre b post :
  data = pre ++ b :: post -> (len pre >=? len data) = false.
Proof.
  intros H. rewrite H, len_app, len_cons. pose proof (len_nonneg post).
  rewrite Z.geb_leb. apply Z.leb_gt. lia.
Qed.

Ltac is_tag t :=
  match t with
  | T_NULL => idtac | T_TRUE => idtac | T_FALSE => idtac | T_INT => idtac
  | T_FLOAT => idtac | T_STR => idtac | T_ARR => idtac | T_OBJ => idtac
  | T_SYMREF => idtac | T_BYTES => idtac | T_TIME => idtac | T_EXT => idtac
  | T_SET => idtac | T_TUPLE => idtac
  end.

Ltac tag_tests :=
  repeat match goal with
         | |- context [Z.eqb ?a ?b] =>
             is_tag a; is_tag b;
             let r := eval vm_compute in (Z.eqb a b) in
             change (Z.eqb a b) with r
         end;
  cbv iota.

(** Reading the tag byte at [len pre]. *)
Ltac read_tag H :=
  unfold decode_value; autorewrite with st;
  rewrite (not_at_end _ _ _ H), (getitem_at _ _ _ _ _ H);
  cbn [step_bind]; autorewrite with st; tag_tests.

Lemma read_varint_at u pre post pool k :
  0 <= u < 2 ^ 64 ->
  data = pre ++ _write_varint u [] ++ post ->
  _read_varint (St (len pre) pool k) =
    Ok (u, St (len pre + len (_write_varint u [])) pool k).
Proof.
  intros Hu H.
  rewrite (read_varint_written u _ pre post Hu); autorewrite with st;
    try reflexivity; assumption.
Qed.

Lemma decode_None pre post pool k stack :
  data = pre ++ T_NULL :: post ->
  decode_value (St (len pre) pool k) stack
  = install (St (len pre + 1) pool k) stack VNone.
Proof. intros H. read_tag H. reflexivity. Qed.

Lemma decode_int n pre post pool k stack :
  - 2 ^ 63 <= n < 2 ^ 63 ->
  data = pre ++ (T_INT :: _write_varint (c_zigzag_encode n) []) ++ post ->
  decode_value (St (len pre) pool k) stack
  = install (St (len pre + len (T_INT :: _write_varint (c_zigzag_encode n) []))
               pool k) stack (VInt n).
Proof.
  intros Hn H. cbn [app] in H. read_tag H.
  rewrite <- (len_snoc pre T_INT).
  rewrite (read_varint_at (c_zigzag_encode n) (pre ++ [T_INT]) post).
  - cbn [step_bind]. rewrite zigzag_roundtrip by assumption.
    rewrite len_snoc, len_cons. do 2 f_equal. lia.
  - apply zigzag_encode_range. assumption.
  - rewrite <- app_assoc. exact H.
Qed.

Lemma span_at pre mid post :
  data = pre ++ mid ++ post ->
  firstn (Z.to_nat (len mid)) (skipn (Z.to_nat (len pre)) data) = mid.
Proof.
  intros H. rewrite H, skipn_len_app. unfold len. rewrite Nat2Z.id.
  rewrite firstn_app, Nat.sub_diag, firstn_all. cbn [firstn]. apply app_nil_r.
Qed.

Lemma len_parts pre mid post :
  data = pre ++ mid ++ post -> len data = len pre + len mid + len post.
Proof. intros H. rewrite H, !len_app. lia. Qed.

Lemma decode_bool (b : bool) pre post pool k stack :
  data = pre ++ (if b then T_TRUE else T_FALSE) :: post ->
  decode_value (St (len pre) pool k) stack
  = install (St (len pre + 1) pool k) stack (VBool b).
Proof. intros H. destruct b; read_tag H; reflexivity. Qed.

Lemma decode_float bits pre post pool k stack :
  0 <= bits < 2 ^ 64 ->
  data = pre ++ (T_FLOAT :: word_bytes (lens_be64 bits)) ++ post ->
  decode_value (St (len pre) pool k) stack
  = install (St (len pre + 9) pool k) stack (VFloat bits).
Proof.
  intros Hb H. pose proof (len_parts _ _ _ H) as HL. rewrite len_cons in HL.
  change (len (word_bytes (lens_be64 bits))) with 8 in HL.
  cbn [app] in H. read_tag H.
  pose proof data_small. pose proof (len_nonneg pre). pose proof (len_nonneg post).
  rewrite (to_int64_small (len pre + 1 + 8)) by (pow2; lia).
  rewrite Z.gtb_ltb.
  destruct (len data <? len pre + 1 + 8) eqn:E; [apply Z.ltb_lt in E; lia | clear E].
  unfold buffer_span. autorewrite with st. change (8 <=? 0) with false. cbv iota.
  destruct (len pre + 1 <? 0) eqn:E; [apply Z.ltb_lt in E; lia | clear E].
  rewrite Z.gtb_ltb.
  destruct (len data <? len pre + 1 + 8) eqn:E; [apply Z.ltb_lt in E; lia | clear E].
  cbn [step_bind]. rewrite <- (len_snoc pre T_FLOAT).
  change (Z.to_nat 8) with (Z.to_nat (len (word_bytes (lens_be64 bits)))).
  rewrite (span_at (pre ++ [T_FLOAT]) _ post)
    by (rewrite <- app_assoc; exact H).
  rewrite lens_be64_involutive by assumption.
  rewrite len_snoc. do 2 f_equal. lia.
Qed.

Lemma decode_symbol s i pre post pool k stack :
  dict_get String.eqb (symbol_map enc) s = Some i ->
  data = pre ++ (T_SYMREF :: _write_varint i []) ++ post ->
  decode_value (St (len pre) pool k) stack
  = install (St (len pre + len (T_SYMREF :: _write_varint i [])) pool k) stack
      (VStr s).
Proof.
  intros Hi H. cbn [FastEncoder_init symbol_map] in Hi.
  apply enumerate_symbols_some in Hi. destruct Hi as [Hi | [Hr Hn]]; [discriminate |].
  rewrite Z.sub_0_r in Hn. unfold PY_SSIZE_T_MAX in symbols_fit.
  cbn [app] in H. read_tag H.
  rewrite <- (len_snoc pre T_SYMREF).
  rewrite (read_varint_at i (pre ++ [T_SYMREF]) post);
    [| pow2; lia | rewrite <- app_assoc; exact H].
  cbn [step_bind]. unfold symbols_getitem. autorewrite with st.
  unfold PY_SSIZE_T_MAX. rewrite Z.gtb_ltb.
  destruct (2 ^ 63 - 1 <? i) eqn:E; [apply Z.ltb_lt in E; lia | clear E].
  rewrite Hn. cbn [step_bind].
  rewrite len_snoc, len_cons. do 2 f_equal. lia.
Qed.

Lemma len_zero {A} (l : list A) : len l = 0 -> l = [].
Proof. destruct l; [reflexivity |]. rewrite len_cons. pose proof (len_nonneg l). lia. Qed.

(** The length-prefixed payload shared by the STR and BYTES branches. *)
Lemma payload_at (b : list Z) pre post pool k :
  data = pre ++ (_write_varint (len b) [] ++ b) ++ post ->
  let p := len pre + len (_write_varint (len b) []) in
  _read_varint (St (len pre) pool k) = Ok (len b, St p pool k) /\
  to_int64 (len b) = len b /\
  (to_int64 (p + len b) >? len data) = false /\
  to_int64 (p + len b) = len pre + len (_write_varint (len b) [] ++ b) /\
  buffer_span (St (to_int64 (p + len b)) pool k) p (len b) = Ok b /\
  buffer_slice (St (to_int64 (p + len b)) pool k) p (to_int64 (p + len b)) = b.
Proof.
  intros H p. pose proof (len_parts _ _ _ H) as HL. rewrite len_app in HL.
  pose proof data_small. pose proof (len_nonneg pre). pose proof (len_nonneg post).
  pose proof (len_nonneg b). pose proof (len_nonneg (_write_varint (len b) [])).
  assert (Hp : to_int64 (p + len b) = p + len b)
    by (apply to_int64_small; unfold p; pow2; lia).
  assert (Hspan : firstn (Z.to_nat (len b)) (skipn (Z.to_nat p) data) = b).
  { unfold p. rewrite <- len_app.
    apply (span_at (pre ++ _write_varint (len b) []) b post).
    rewrite H, <- !app_assoc. reflexivity. }
  repeat split.
  - apply (read_varint_at (len b) pre (b ++ post)); [pow2; lia |].
    rewrite H, <- !app_assoc. reflexivity.
  - apply to_int64_small. pow2. lia.
  - rewrite Hp, Z.gtb_ltb. apply Z.ltb_ge. unfold p. lia.
  - rewrite Hp, len_app. unfold p. lia.
  - unfold buffer_span. autorewrite with st.
    destruct (len b <=? 0) eqn:E0.
    + apply Z.leb_le in E0. rewrite (len_zero b) by lia. reflexivity.
    + destruct (p <? 0) eqn:E1; [apply Z.ltb_lt in E1; unfold p in E1; lia |].
      rewrite Z.gtb_ltb.
      destruct (len data <? p + len b) eqn:E2;
        [apply Z.ltb_lt in E2; unfold p in E2; lia |].
      rewrite Hspan. reflexivity.
  - unfold buffer_slice, slice_bound. autorewrite with st. rewrite Hp.
    destruct (p <? 0) eqn:E1; [apply Z.ltb_lt in E1; unfold p in E1; lia |].
    destruct (p + len b <? 0) eqn:E2; [apply Z.ltb_lt in E2; unfold p in E2; lia |].
    rewrite !Z.min_l by (unfold p; lia).
    replace (p + len b - p) with (len b) by lia. exact Hspan.
Qed.

Lemma decode_str s pre post pool k stack :
  utf8_well_formed 0 128 191 (utf8_encode s) = true ->
  data = pre ++ (T_STR :: _write_varint (len (utf8_encode s)) [] ++ utf8_encode s)
           ++ post ->
  decode_value (St (len pre) pool k) stack
  = install (St (len pre + len (T_STR :: _write_varint (len (utf8_encode s)) []
                                  ++ utf8_encode s)) pool k) stack (VStr s).
Proof.
  intros Hw H. cbn [app] in H. read_tag H.
  destruct (payload_at (utf8_encode s) (pre ++ [T_STR]) post pool k)
    as (Hv & Hl & Hc & Hp & Hs & _).
  { rewrite <- app_assoc. exact H. }
  rewrite len_snoc in *. rewrite Hv. cbn [step_bind]. autorewrite with st.
  rewrite Hl, Hc.
  pose proof (len_nonneg (utf8_encode s)).
  destruct (len (utf8_encode s) <? 0) eqn:E; [apply Z.ltb_lt in E; lia | clear E].
  rewrite Hs. cbn [bind]. unfold PyUnicode_DecodeUTF8. rewrite Hw, string_of_utf8.
  cbn [step_bind]. rewrite Hp, len_cons. do 2 f_equal. lia.
Qed.

Lemma decode_bytes payload pre post pool k stack :
  data = pre ++ (T_BYTES :: _write_varint (len payload) [] ++ payload) ++ post ->
  decode_value (St (len pre) pool k) stack
  = install (St (len pre + len (T_BYTES :: _write_varint (len payload) []
                                  ++ payload)) pool k) stack (VBytes payload).
Proof.
  intros H. cbn [app] in H. read_tag H.
  destruct (payload_at payload (pre ++ [T_BYTES]) post pool k)
    as (Hv & Hl & Hc & Hp & _ & Hs).
  { rewrite <- app_assoc. exact H. }
  rewrite len_snoc in *. rewrite Hv. cbn [step_bind]. autorewrite with st.
  rewrite Hl, Hc, Hs, Hp, len_cons. do 2 f_equal. lia.
Qed.

Lemma decode_datetime ms pre post pool k stack :
  0 <= ms <= 253402300799999 ->
  data = pre ++ (T_TIME :: _write_varint (c_zigzag_encode ms) []) ++ post ->
  decode_value (St (len pre) pool k) stack
  = install (St (len pre + len (T_TIME :: _write_varint (c_zigzag_encode ms) []))
               pool k) stack (VDatetime ms).
Proof.
  intros Hm H. assert (Hn : - 2 ^ 63 <= ms < 2 ^ 63) by (pow2; lia).
  cbn [app] in H. read_tag H.
  rewrite <- (len_snoc pre T_TIME).
  rewrite (read_varint_at (c_zigzag_encode ms) (pre ++ [T_TIME]) post);
    [| apply zigzag_encode_range; assumption | rewrite <- app_assoc; exact H].
  cbn [step_bind]. autorewrite with st.
  rewrite zigzag_roundtrip by assumption.
  rewrite wrap64_small by (pow2; lia).
  unfold datetime_fromtimestamp.
  destruct (-62135596800000 <=? ms) eqn:E1; [| apply Z.leb_gt in E1; lia].
  destruct (ms <=? 253402300799999) eqn:E2; [| apply Z.leb_gt in E2; lia].
  cbn [andb step_bind]. rewrite len_snoc, len_cons. do 2 f_equal. lia.
Qed.

(** *** Shapes of successful encodings *)

Lemma encode_each_shape items :
  forall buf out, encode_each enc items buf = Ok out ->
  exists outs,
    Forall2 (fun x o => _encode_recursive enc x [] = Ok o) items outs /\
    out = buf ++ List.concat outs.
Proof.
  induction items as [| x r IH]; intros buf out H; cbn [encode_each] in H.
  - injection H as <-. exists []. split; [constructor | symmetry; apply app_nil_r].
  - rewrite encode_prefix in H.
    destruct (_encode_recursive enc x []) as [o | | |] eqn:E; try discriminate.
    cbn [map_outcome bind] in H. apply IH in H. destruct H as (outs & Hf & ->).
    exists (o :: outs). split; [constructor; assumption |].
    cbn [List.concat]. rewrite app_assoc. reflexivity.
Qed.

Lemma encode_entries_shape entries :
  forall buf out, encode_entries enc entries buf = Ok out ->
  exists chunks, Forall2 chunk entries chunks /\ out = buf ++ List.concat chunks.
Proof.
  induction entries as [| [k x] r IH]; intros buf out H; cbn [encode_entries] in H.
  - injection H as <-. exists []. split; [constructor | symmetry; apply app_nil_r].
  - destruct (symbol_map_getitem enc k) as [i | | |] eqn:Ek; try discriminate.
    cbn [bind] in H. rewrite encode_prefix in H.
    destruct (_encode_recursive enc x []) as [o | | |] eqn:E; try discriminate.
    cbn [map_outcome bind] in H. apply IH in H. destruct H as (chunks & Hf & ->).
    unfold symbol_map_getitem in Ek. destruct k; try discriminate.
    destruct (dict_get String.eqb (symbol_map enc) s) as [j |] eqn:Ej; try discriminate.
    injection Ek as ->.
    exists (((T_SYMREF :: _write_varint i []) ++ o) :: chunks). split.
    + constructor; [| assumption]. exists s, i, o. cbn [fst snd]. auto.
    + cbn [List.concat]. rewrite write_varint_app. rewrite <- !app_assoc. reflexivity.
Qed.

Lemma encode_nonempty x o : _encode_recursive enc x [] = Ok o -> 1 <= len o.
Proof.
  destruct x;
    try (rewrite encode_list_eq || rewrite encode_tuple_eq
         || rewrite encode_set_eq || rewrite encode_dict_eq);
    cbn [_encode_recursive app]; intros H.
  - injection H as <-. rewrite len_cons. pose proof (len_nonneg (@nil Z)). lia.
  - destruct b; injection H as <-; rewrite len_cons;
      pose proof (len_nonneg (@nil Z)); lia.
  - destruct (in_int64 n); [| discriminate]. injection H as <-.
    rewrite write_varint_app, len_app, len_cons.
    pose proof (len_nonneg (_write_varint (c_zigzag_encode n) [])).
    change (len (@nil Z)) with 0. lia.
  - injection H as <-. rewrite len_cons.
    pose proof (len_nonneg (word_bytes (lens_be64 bits))). lia.
  - destruct (dict_get String.eqb (symbol_map enc) s); injection H as <-;
      rewrite write_varint_app, ?len_app, len_cons; change (len (@nil Z)) with 0.
    + pose proof (len_nonneg (_write_varint z [])). lia.
    + pose proof (len_nonneg (_write_varint (len (utf8_encode s)) [])).
      pose proof (len_nonneg (utf8_encode s)). lia.
  - injection H as <-. rewrite write_varint_app, !len_app, len_cons.
    change (len (@nil Z)) with 0.
    pose proof (len_nonneg (_write_varint (len payload) [])).
    pose proof (len_nonneg payload). lia.
  - injection H as <-. rewrite write_varint_app, !len_app, len_cons.
    change (len (@nil Z)) with 0.
    pose proof (len_nonneg (_write_varint (len payload) [])).
    pose proof (len_nonneg payload). lia.
  - destruct handler as [h |]; [| discriminate].
    cbn [FastEncoder_init ext_handler] in H.
    destruct (h (VMemoryview payload)) as [[eid p] |]; [| discriminate].
    destruct (in_uint64 eid); [| discriminate]. injection H as <-.
    rewrite (write_varint_app _ (_write_varint eid _)), (write_varint_app eid),
      !len_app, len_cons. change (len (@nil Z)) with 0.
    pose proof (len_nonneg (_write_varint eid [])).
    pose proof (len_nonneg (_write_varint (len p) [])).
    pose proof (len_nonneg p). lia.
  - destruct (in_int64 ms); [| discriminate]. injection H as <-.
    rewrite write_varint_app, len_app, len_cons.
    pose proof (len_nonneg (_write_varint (c_zigzag_encode ms) [])).
    change (len (@nil Z)) with 0. lia.
  - apply encode_each_shape in H. destruct H as (outs & _ & ->).
    rewrite write_varint_app, !len_app, len_cons. change (len (@nil Z)) with 0.
    pose proof (len_nonneg (_write_varint (len items) [])).
    pose proof (len_nonneg (List.concat outs)). lia.
  - apply encode_each_shape in H. destruct H as (outs & _ & ->).
    rewrite write_varint_app, !len_app, len_cons. change (len (@nil Z)) with 0.
    pose proof (len_nonneg (_write_varint (len items) [])).
    pose proof (len_nonneg (List.concat outs)). lia.
  - apply encode_each_shape in H. destruct H as (outs & _ & ->).
    rewrite write_varint_app, !len_app, len_cons. change (len (@nil Z)) with 0.
    pose proof (len_nonneg (_write_varint (len elems) [])).
    pose proof (len_nonneg (List.concat outs)). lia.
  - apply encode_entries_shape in H. destruct H as (outs & _ & ->).
    rewrite write_varint_app, !len_app, len_cons. change (len (@nil Z)) with 0.
    pose proof (len_nonneg (_write_varint (len entries) [])).
    pose proof (len_nonneg (List.concat outs)). lia.
  - destruct handler as [h |]; [| discriminate].
    cbn [FastEncoder_init ext_handler] in H.
    destruct (h (VOther type_name)) as [[eid p] |]; [| discriminate].
    destruct (in_uint64 eid); [| discriminate]. injection H as <-.
    rewrite (write_varint_app _ (_write_varint eid _)), (write_varint_app eid),
      !len_app, len_cons. change (len (@nil Z)) with 0.
    pose proof (len_nonneg (_write_varint eid [])).
    pose proof (len_nonneg (_write_varint (len p) [])).
    pose proof (len_nonneg p). lia.
Qed.

Lemma count_le_bytes items outs :
  Forall2 (fun x o => _encode_recursive enc x [] = Ok o) items outs ->
  len items <= len (List.concat outs).
Proof.
  induction 1 as [| x o r outs Hx _ IH]; [reflexivity |].
  cbn [List.concat]. rewrite len_cons, len_app.
  pose proof (encode_nonempty x o Hx). lia.
Qed.

Lemma entries_le_bytes entries chunks :
  Forall2 chunk entries chunks -> len entries <= len (List.concat chunks).
Proof.
  induction 1 as [| kv c r chunks Hc _ IH]; [reflexivity |].
  cbn [List.concat]. rewrite len_cons, len_app.
  destruct Hc as (s & i & o & _ & _ & _ & ->). cbn [app]. rewrite len_cons.
  pose proof (len_nonneg (_write_varint i [] ++ o)). lia.
Qed.

(** *** Frames in the pool *)

Abbreviation blank := (reset CNone 0 false).

Lemma nth_list_store_same {A} (l : list A) i a d :
  (i < List.length l)%nat -> nth i (list_store l i a) d = a.
Proof.
  revert i. induction l as [| x l IH]; intros [| i] H; cbn in *; try lia.
  - reflexivity.
  - apply IH. lia.
Qed.

Lemma nth_list_store_other {A} (l : list A) i j a d :
  i <> j -> nth j (list_store l i a) d = nth j l d.
Proof.
  revert i j. induction l as [| x l IH]; intros [| i] [| j] H; cbn; try reflexivity.
  - lia.
  - apply IH. lia.
Qed.

Lemma length_list_store {A} (l : list A) i a :
  List.length (list_store l i a) = List.length l.
Proof.
  revert i. induction l as [| x l IH]; intros [| i]; cbn; try reflexivity.
  rewrite IH. reflexivity.
Qed.

Lemma pool_agree_refl k pool : pool_agree k pool pool.
Proof. split; [reflexivity | intros; reflexivity]. Qed.

Lemma pool_agree_trans k p1 p2 p3 :
  pool_agree k p1 p2 -> pool_agree k p2 p3 -> pool_agree k p1 p3.
Proof.
  intros [L1 H1] [L2 H2]. split; [congruence |].
  intros i Hi. rewrite H2, H1 by assumption. reflexivity.
Qed.

Lemma pool_agree_weaken k pool pool' :
  pool_agree (S k) pool pool' -> pool_agree k pool pool'.
Proof. intros [L H]. split; [assumption |]. intros i Hi. apply H. lia. Qed.

Lemma pool_agree_store k pool frame :
  pool_agree k pool (list_store pool k frame).
Proof.
  split; [apply length_list_store |].
  intros i Hi. apply nth_list_store_other. lia.
Qed.

Lemma step_ready frame p pool idx k below :
  nth k pool blank = frame -> remaining frame <> 0 ->
  is_dict frame && is_None (current_key frame) = false ->
  decode_step (St p pool idx) (Pooled k :: below)
  = decode_value (St p pool idx) (Pooled k :: below).
Proof.
  intros Hf Hr Hd. unfold decode_step. cbn [deref]. autorewrite with st.
  rewrite Hf. destruct (remaining frame =? 0) eqn:E; [apply Z.eqb_eq in E; lia |].
  rewrite Hd. reflexivity.
Qed.

Lemma install_fill frame frame' v p pool idx k below :
  nth k pool blank = frame -> _fill_container frame v = Ok frame' ->
  install (St p pool idx) (Pooled k :: below) v
  = Continue (St p (list_store pool k frame') idx) (Pooled k :: below).
Proof.
  intros Hf Hfill. unfold install. cbn [deref]. autorewrite with st.
  rewrite Hf, Hfill. cbn [step_bind store_top]. autorewrite with st. reflexivity.
Qed.

Lemma step_close frame v p pool k :
  nth k pool blank = frame -> remaining frame = 0 ->
  container_value (container frame) = Ok v ->
  decode_step (St p pool (Z.of_nat (S k))) (pooled_stack (S k))
  = install (St p pool (Z.of_nat k)) (pooled_stack k) v.
Proof.
  intros Hf Hr Hv. cbn [pooled_stack]. unfold decode_step. cbn [deref].
  autorewrite with st. rewrite Hf, Hr. cbn [Z.eqb]. rewrite Hv. cbn [step_bind].
  destruct (Z.of_nat (S k) >? 0) eqn:E;
    [| rewrite Z.gtb_ltb in E; apply Z.ltb_ge in E; lia].
  autorewrite with st.
  replace (Z.of_nat (S k) - 1) with (Z.of_nat k) by lia.
  destruct k as [| j]; [reflexivity |].
  cbn [pooled_stack same_frame].
  replace (Nat.eqb (S j) j) with false by (symmetry; apply Nat.eqb_neq; lia).
  reflexivity.
Qed.

Lemma push_at p pool k c rem isd :
  (k < 32)%nat ->
  push (St p pool (Z.of_nat k)) (pooled_stack k) c rem isd
  = Continue (St p (list_store pool k (reset c rem isd)) (Z.of_nat (S k)))
      (pooled_stack (S k)).
Proof.
  intros Hk. unfold push, _push_frame. autorewrite with st.
  rewrite Z.geb_leb. destruct (32 <=? Z.of_nat k) eqn:E; [apply Z.leb_le in E; lia |].
  autorewrite with st. rewrite Nat2Z.id.
  replace (Z.of_nat k + 1) with (Z.of_nat (S k)) by lia. reflexivity.
Qed.

(** *** Decoding the elements of a sequence or set *)

Section Elements.
Variable fr : list value -> list value -> DecodeFrame.
Variable okp : list value -> value -> Prop.
Hypothesis fr_fill :
  forall done x rest, okp done x ->
    _fill_container (fr done (x :: rest)) x = Ok (fr (done ++ [x]) rest).
Hypothesis fr_remaining : forall done rest, remaining (fr done rest) = len rest.
Hypothesis fr_is_dict : forall done rest, is_dict (fr done rest) = false.

Lemma elements_loop rest outs :
  Forall2 (fun x o => _encode_recursive enc x [] = Ok o) rest outs ->
  forall done pool pre post k,
    Forall back rest -> Forall (supported symbols) rest ->
    Forall (fun x => (S k + depth x <= 32)%nat) rest ->
    chain okp done rest ->
    data = pre ++ List.concat outs ++ post ->
    List.length pool = 32%nat -> (k < 32)%nat ->
    nth k pool blank = fr done rest ->
    exists n pool',
      pool_agree k pool pool' /\
      nth k pool' blank = fr (done ++ rest) [] /\
      forall fuel,
        decode_loop (n + fuel) (St (len pre) pool (Z.of_nat (S k)))
          (pooled_stack (S k))
        = decode_loop fuel
            (St (len pre + len (List.concat outs)) pool' (Z.of_nat (S k)))
            (pooled_stack (S k)).
Proof.
  induction 1 as [| x o rest outs Hx _ IH];
    intros done pool pre post k Hback Hsup Hdepth Hchain Hdata Hlen Hk Htop.
  - exists O, pool. split; [apply pool_agree_refl |]. split.
    + rewrite app_nil_r. exact Htop.
    + intros fuel. cbn [List.concat]. change (len (@nil Z)) with 0.
      rewrite Z.add_0_r. reflexivity.
  - apply Forall_cons_iff in Hback as [Bx Brest].
    apply Forall_cons_iff in Hsup as [Sx Srest].
    apply Forall_cons_iff in Hdepth as [Dx Drest].
    destruct Hchain as [Hok Hchain]. cbn [List.concat] in Hdata.
    destruct (Bx o Hx Sx pre (List.concat outs ++ post) pool (S k))
      as (n1 & pool1 & Hagree1 & Hrun1);
      [rewrite Hdata, <- app_assoc; reflexivity | assumption | assumption |].
    assert (Htop1 : nth k pool1 blank = fr done (x :: rest)).
    { destruct Hagree1 as [_ Hn]. rewrite Hn by lia. exact Htop. }
    assert (Hlen1 : List.length pool1 = 32%nat).
    { destruct Hagree1 as [HL _]. congruence. }
    set (pool2 := list_store pool1 k (fr (done ++ [x]) rest)).
    destruct (IH (done ++ [x]) pool2 (pre ++ o) post k)
      as (n2 & pool' & Hagree2 & Htop' & Hrun2); try assumption.
    + rewrite Hdata, <- !app_assoc. reflexivity.
    + unfold pool2. rewrite length_list_store. assumption.
    + unfold pool2. apply nth_list_store_same. lia.
    + exists (S (n1 + n2)), pool'. split; [| split].
      * eapply pool_agree_trans; [apply pool_agree_weaken; exact Hagree1 |].
        eapply pool_agree_trans; [apply pool_agree_store | exact Hagree2].
      * rewrite <- app_assoc in Htop'. exact Htop'.
      * intros fuel.
        replace (S (n1 + n2) + fuel)%nat with (S (n1 + (n2 + fuel)))%nat by lia.
        rewrite decode_loop_run. cbn [pooled_stack].
        rewrite (step_ready (fr done (x :: rest))); try assumption.
        -- change (Pooled k :: pooled_stack k) with (pooled_stack (S k)).
           rewrite Hrun1. cbn [pooled_stack].
           rewrite (install_fill (fr done (x :: rest)) (fr (done ++ [x]) rest));
             [| assumption | apply fr_fill; assumption].
           cbn [run]. fold pool2.
           change (Pooled k :: pooled_stack k) with (pooled_stack (S k)).
           rewrite <- len_app. rewrite Hrun2.
           cbn [List.concat]. rewrite !len_app. rewrite Z.add_assoc. reflexivity.
        -- rewrite fr_remaining, len_cons. pose proof (len_nonneg rest). lia.
        -- rewrite fr_is_dict. reflexivity.
Qed.

Variable mk : list value -> value.
Hypothesis fr_value :
  forall items, container_value (container (fr items [])) = Ok (mk items).

Lemma container_run items outs pool pre post k :
  Forall2 (fun x o => _encode_recursive enc x [] = Ok o) items outs ->
  Forall back items -> Forall (supported symbols) items ->
  Forall (fun x => (S k + depth x <= 32)%nat) items ->
  chain okp [] items ->
  data = pre ++ List.concat outs ++ post ->
  List.length pool = 32%nat -> (k < 32)%nat ->
  nth k pool blank = fr [] items ->
  exists n pool',
    pool_agree k pool pool' /\
    forall fuel,
      decode_loop (n + fuel) (St (len pre) pool (Z.of_nat (S k)))
        (pooled_stack (S k))
      = run fuel
          (install (St (len pre + len (List.concat outs)) pool' (Z.of_nat k))
             (pooled_stack k) (mk items)).
Proof.
  intros Henc Hback Hsup Hdepth Hchain Hdata Hlen Hk Htop.
  destruct (elements_loop items outs Henc [] pool pre post k)
    as (n & pool' & Hagree & Htop' & Hrun); try assumption.
  exists (n + 1)%nat, pool'. split; [assumption |].
  intros fuel. rewrite <- Nat.add_assoc, Hrun. cbn [Nat.add].
  rewrite decode_loop_run.
  rewrite (step_close (fr ([] ++ items) []) (mk items)); try assumption.
  - reflexivity.
  - rewrite fr_remaining. reflexivity.
  - apply fr_value.
Qed.
End Elements.

(** *** The three element containers *)

Lemma filled_all items n :
  n = O -> filled (map Some items ++ repeat None n) = Some items.
Proof.
  intros ->. cbn [repeat]. rewrite app_nil_r.
  induction items as [| x r IH]; [reflexivity |].
  cbn [map filled]. rewrite IH. reflexivity.
Qed.

Lemma store_slot_next done x n :
  store_slot (map Some done ++ repeat None (S n)) (List.length done) x
  = Some (map Some (done ++ [x]) ++ repeat None n).
Proof.
  induction done as [| y done IH]; [reflexivity |].
  cbn [map app List.length store_slot]. rewrite IH. reflexivity.
Qed.

Lemma to_nat_len {A} (l : list A) : Z.to_nat (len l) = List.length l.
Proof. unfold len. apply Nat2Z.id. Qed.

Lemma seq_frame_fill tuple done x rest :
  _fill_container (seq_frame tuple done (x :: rest)) x
  = Ok (seq_frame tuple (done ++ [x]) rest).
Proof.
  unfold _fill_container, seq_frame, SET_ITEM.
  cbn [is_dict container list_idx remaining List.length].
  pose proof (len_nonneg done).
  destruct tuple;
    (destruct (len done <? 0) eqn:E; [apply Z.ltb_lt in E; lia |]);
    rewrite to_nat_len, store_slot_next; cbn [bind];
    unfold with_remaining, with_fill;
    cbn [container remaining list_idx current_key is_dict];
    rewrite len_snoc, len_cons;
    replace (1 + len rest - 1) with (len rest) by lia; reflexivity.
Qed.

Lemma set_frame_fill done x rest :
  set_ok done x ->
  _fill_container (set_frame done (x :: rest)) x = Ok (set_frame (done ++ [x]) rest).
Proof.
  intros [Hh Hd]. unfold _fill_container, set_frame, PySet_Add.
  cbn [is_dict container list_idx remaining]. rewrite Hh, Hd. cbn [bind].
  unfold with_remaining, with_fill.
  cbn [container remaining list_idx current_key is_dict].
  rewrite len_cons. replace (1 + len rest - 1) with (len rest) by lia. reflexivity.
Qed.

Lemma chain_trivial done rest : chain (fun _ _ => True) done rest.
Proof. revert done. induction rest; intros done; cbn; auto. Qed.

Lemma chain_set done rest :
  Forall (fun x => hashable x = true) rest -> distinct done rest ->
  chain set_ok done rest.
Proof.
  revert done. induction rest as [| x r IH]; intros done Hh Hd; cbn; [exact I |].
  inversion Hh; subst. destruct Hd as [Hx Hr]. repeat split; auto.
Qed.

(** *** Dictionaries *)

Lemma dict_set_fresh (done : list (value * value)) k v :
  existsb (fun e => py_eqb (fst e) k) done = false ->
  dict_set py_eqb done k v = done ++ [(k, v)].
Proof.
  induction done as [| [k' v'] r IH]; cbn [existsb dict_set fst app]; intros H.
  - reflexivity.
  - apply orb_false_iff in H. destruct H as [H1 H2]. rewrite H1, IH by assumption.
    reflexivity.
Qed.

Lemma dict_frame_fill done s v rest :
  existsb (fun e => py_eqb (fst e) (VStr s)) done = false ->
  _fill_container (dict_frame done ((VStr s, v) :: rest) (VStr s)) v
  = Ok (dict_frame (done ++ [(VStr s, v)]) rest VNone).
Proof.
  intros Hd. unfold _fill_container, dict_frame, PyDict_SetItem.
  cbn [is_dict container current_key hashable list_idx remaining bind].
  rewrite dict_set_fresh by assumption.
  unfold with_remaining, with_key, with_fill.
  cbn [container remaining list_idx current_key is_dict].
  rewrite len_cons. replace (1 + len rest - 1) with (len rest) by lia. reflexivity.
Qed.

Lemma symbol_at s i p pool k :
  dict_get String.eqb (symbol_map enc) s = Some i ->
  0 <= i < 2 ^ 63 /\ symbols_getitem (St p pool k) i = Ok (VStr s).
Proof.
  intros Hi. cbn [FastEncoder_init symbol_map] in Hi.
  apply enumerate_symbols_some in Hi. destruct Hi as [Hi | [Hr Hn]]; [discriminate |].
  rewrite Z.sub_0_r in Hn. unfold PY_SSIZE_T_MAX in symbols_fit.
  split; [pow2; lia |].
  unfold symbols_getitem. autorewrite with st.
  unfold PY_SSIZE_T_MAX. rewrite Z.gtb_ltb.
  destruct (2 ^ 63 - 1 <? i) eqn:E; [apply Z.ltb_lt in E; lia | clear E].
  rewrite Hn. reflexivity.
Qed.

Lemma key_step s i done rest pre post pool idx k below :
  dict_get String.eqb (symbol_map enc) s = Some i ->
  data = pre ++ (T_SYMREF :: _write_varint i []) ++ post ->
  rest <> [] ->
  nth k pool blank = dict_frame done rest VNone ->
  decode_step (St (len pre) pool idx) (Pooled k :: below)
  = Continue
      (St (len pre + len (T_SYMREF :: _write_varint i []))
         (list_store pool k (dict_frame done rest (VStr s))) idx)
      (Pooled k :: below).
Proof.
  intros Hi H Hne Htop. destruct (symbol_at s i (len (pre ++ [T_SYMREF]) + len (_write_varint i [])) pool idx Hi)
    as [Hr Hs].
  unfold decode_step. cbn [deref]. autorewrite with st. rewrite Htop.
  cbn [dict_frame remaining is_dict current_key is_None andb].
  destruct (len rest =? 0) eqn:E.
  { apply Z.eqb_eq in E. apply len_zero in E. contradiction. }
  cbn [app] in H. rewrite (getitem_at _ _ _ _ _ H). cbn [step_bind].
  change (T_SYMREF =? T_SYMREF) with true. cbn [negb]. autorewrite with st.
  rewrite <- (len_snoc pre T_SYMREF).
  rewrite (read_varint_at i (pre ++ [T_SYMREF]) post);
    [| pow2; lia | rewrite <- app_assoc; exact H].
  cbn [step_bind]. rewrite Hs. cbn [step_bind store_top]. autorewrite with st.
  rewrite len_snoc, len_cons.
  replace (len pre + 1 + len (_write_varint i []))
    with (len pre + (1 + len (_write_varint i []))) by lia.
  reflexivity.
Qed.

Lemma entries_loop rest chunks :
  Forall2 chunk rest chunks ->
  forall done pool pre post k,
    Forall (fun kv => back (snd kv)) rest ->
    Forall (fun kv => supported symbols (snd kv)) rest ->
    Forall (fun kv => (S k + depth (snd kv) <= 32)%nat) rest ->
    distinct_keys done rest ->
    data = pre ++ List.concat chunks ++ post ->
    List.length pool = 32%nat -> (k < 32)%nat ->
    nth k pool blank = dict_frame done rest VNone ->
    exists n pool',
      pool_agree k pool pool' /\
      nth k pool' blank = dict_frame (done ++ rest) [] VNone /\
      forall fuel,
        decode_loop (n + fuel) (St (len pre) pool (Z.of_nat (S k)))
          (pooled_stack (S k))
        = decode_loop fuel
            (St (len pre + len (List.concat chunks)) pool' (Z.of_nat (S k)))
            (pooled_stack (S k)).
Proof.
  induction 1 as [| [key v] c rest chunks Hc _ IH];
    intros done pool pre post k Hback Hsup Hdepth Hkeys Hdata Hlen Hk Htop.
  - exists O, pool. split; [apply pool_agree_refl |]. split.
    + rewrite app_nil_r. exact Htop.
    + intros fuel. cbn [List.concat]. change (len (@nil Z)) with 0.
      rewrite Z.add_0_r. reflexivity.
  - apply Forall_cons_iff in Hback as [Bx Brest].
    apply Forall_cons_iff in Hsup as [Sx Srest].
    apply Forall_cons_iff in Hdepth as [Dx Drest].
    destruct Hc as (s & i & o & Hkey & Hi & Ho & ->).
    cbn [fst snd] in *. subst key.
    destruct Hkeys as [Hfresh Hkeys]. cbn [List.concat] in Hdata.
    set (hd := T_SYMREF :: _write_varint i []) in *.
    set (pool1 := list_store pool k (dict_frame done ((VStr s, v) :: rest) (VStr s))).
    assert (Hlen1 : List.length pool1 = 32%nat)
      by (unfold pool1; rewrite length_list_store; assumption).
    assert (Htop1 : nth k pool1 blank = dict_frame done ((VStr s, v) :: rest) (VStr s))
      by (unfold pool1; apply nth_list_store_same; lia).
    destruct (Bx o Ho Sx (pre ++ hd) (List.concat chunks ++ post) pool1 (S k))
      as (n1 & pool2 & Hagree2 & Hrun1);
      [rewrite Hdata, <- !app_assoc; reflexivity | assumption | assumption |].
    assert (Htop2 : nth k pool2 blank = dict_frame done ((VStr s, v) :: rest) (VStr s)).
    { destruct Hagree2 as [_ Hn]. rewrite Hn by lia. exact Htop1. }
    assert (Hlen2 : List.length pool2 = 32%nat).
    { destruct Hagree2 as [HL _]. congruence. }
    set (pool3 := list_store pool2 k (dict_frame (done ++ [(VStr s, v)]) rest VNone)).
    destruct (IH (done ++ [(VStr s, v)]) pool3 ((pre ++ hd) ++ o) post k)
      as (n2 & pool' & Hagree3 & Htop' & Hrun2); try assumption.
    + rewrite Hdata, <- !app_assoc. reflexivity.
    + unfold pool3. rewrite length_list_store. assumption.
    + unfold pool3. apply nth_list_store_same. lia.
    + exists (S (S (n1 + n2))), pool'. split; [| split].
      * eapply pool_agree_trans; [apply pool_agree_store |]. fold pool1.
        eapply pool_agree_trans; [apply pool_agree_weaken; exact Hagree2 |].
        eapply pool_agree_trans; [apply pool_agree_store | exact Hagree3].
      * rewrite <- app_assoc in Htop'. exact Htop'.
      * intros fuel.
        replace (S (S (n1 + n2)) + fuel)%nat
          with (S (S (n1 + (n2 + fuel))))%nat by lia.
        rewrite decode_loop_run. cbn [pooled_stack].
        rewrite (key_step s i done ((VStr s, v) :: rest) pre
                   (o ++ List.concat chunks ++ post));
          [| assumption | rewrite Hdata, <- !app_assoc; reflexivity
           | discriminate | assumption ].
        cbn [run]. fold hd pool1. rewrite decode_loop_run.
        rewrite (step_ready (dict_frame done ((VStr s, v) :: rest) (VStr s)));
          [| assumption
           | cbn [dict_frame remaining]; rewrite len_cons;
             pose proof (len_nonneg rest); lia
           | reflexivity ].
        change (Pooled k :: pooled_stack k) with (pooled_stack (S k)).
        rewrite <- len_app. rewrite Hrun1. cbn [pooled_stack].
        rewrite (install_fill (dict_frame done ((VStr s, v) :: rest) (VStr s))
                   (dict_frame (done ++ [(VStr s, v)]) rest VNone));
          [| assumption | apply dict_frame_fill; assumption].
        cbn [run]. fold pool3.
        change (Pooled k :: pooled_stack k) with (pooled_stack (S k)).
        rewrite <- len_app. rewrite Hrun2.
        cbn [List.concat]. rewrite !len_app. do 2 f_equal. lia.
Qed.

Lemma dict_run entries chunks pool pre post k :
  Forall2 chunk entries chunks ->
  Forall (fun kv => back (snd kv)) entries ->
  Forall (fun kv => supported symbols (snd kv)) entries ->
  Forall (fun kv => (S k + depth (snd kv) <= 32)%nat) entries ->
  distinct_keys [] entries ->
  data = pre ++ List.concat chunks ++ post ->
  List.length pool = 32%nat -> (k < 32)%nat ->
  nth k pool blank = dict_frame [] entries VNone ->
  exists n pool',
    pool_agree k pool pool' /\
    forall fuel,
      decode_loop (n + fuel) (St (len pre) pool (Z.of_nat (S k)))
        (pooled_stack (S k))
      = run fuel
          (install (St (len pre + len (List.concat chunks)) pool' (Z.of_nat k))
             (pooled_stack k) (VDict entries)).
Proof.
  intros Henc Hback Hsup Hdepth Hkeys Hdata Hlen Hk Htop.
  destruct (entries_loop entries chunks Henc [] pool pre post k)
    as (n & pool' & Hagree & Htop' & Hrun); try assumption.
  exists (n + 1)%nat, pool'. split; [assumption |].
  intros fuel. rewrite <- Nat.add_assoc, Hrun. cbn [Nat.add].
  rewrite decode_loop_run.
  rewrite (step_close (dict_frame ([] ++ entries) [] VNone) (VDict entries));
    try assumption; reflexivity.
Qed.

(** *** Nesting depth *)

Abbreviation deepest_of :=
  (fix deepest (l : list value) : nat :=
     match l with
     | [] => O
     | x :: r => Nat.max (depth x) (deepest r)
     end).

Abbreviation deepest_entry_of :=
  (fix deepest (l : list (value * value)) : nat :=
     match l with
     | [] => O
     | (_, x) :: r => Nat.max (depth x) (deepest r)
     end).

Lemma deepest_bound (l : list value) :
  Forall (fun y => (depth y <= deepest_of l)%nat) l.
Proof.
  induction l as [| x r IH]; constructor.
  - lia.
  - eapply Forall_impl; [| exact IH]. cbv beta. intros y Hy. lia.
Qed.

Lemma deepest_entries_bound (l : list (value * value)) :
  Forall (fun kv => (depth (snd kv) <= deepest_entry_of l)%nat) l.
Proof.
  induction l as [| [k x] r IH]; constructor.
  - cbn [snd]. lia.
  - eapply Forall_impl; [| exact IH]. cbv beta. intros y Hy. lia.
Qed.

Lemma below_deepest k l :
  (k + S (deepest_of l) <= 32)%nat ->
  (k < 32)%nat /\ Forall (fun x => (S k + depth x <= 32)%nat) l.
Proof.
  intros H. split; [lia |].
  eapply Forall_impl; [| apply deepest_bound]. cbv beta. intros y Hy. lia.
Qed.

Lemma below_deepest_entry k l :
  (k + S (deepest_entry_of l) <= 32)%nat ->
  (k < 32)%nat /\ Forall (fun kv => (S k + depth (snd kv) <= 32)%nat) l.
Proof.
  intros H. split; [lia |].
  eapply Forall_impl; [| apply deepest_entries_bound]. cbv beta. intros y Hy. lia.
Qed.

Lemma depth_tuple k items :
  (k + depth (VTuple items) <= 32)%nat ->
  (k < 32)%nat /\ Forall (fun x => (S k + depth x <= 32)%nat) items.
Proof. apply below_deepest. Qed.

Lemma depth_set k items :
  (k + depth (VSet items) <= 32)%nat ->
  (k < 32)%nat /\ Forall (fun x => (S k + depth x <= 32)%nat) items.
Proof. apply below_deepest. Qed.

Lemma depth_list k items :
  items <> [] -> (k + depth (VList items) <= 32)%nat ->
  (k < 32)%nat /\ Forall (fun x => (S k + depth x <= 32)%nat) items.
Proof.
  intros Hne. destruct items as [| x r]; [contradiction |].
  apply (below_deepest k (x :: r)).
Qed.

Lemma depth_dict k entries :
  entries <> [] -> (k + depth (VDict entries) <= 32)%nat ->
  (k < 32)%nat /\ Forall (fun kv => (S k + depth (snd kv) <= 32)%nat) entries.
Proof.
  intros Hne. destruct entries as [| x r]; [contradiction |].
  apply (below_deepest_entry k (x :: r)).
Qed.

(** *** Container headers *)

Lemma header_at tag count pre post pool k :
  0 <= count < 2 ^ 63 ->
  data = pre ++ (tag :: _write_varint count []) ++ post ->
  _read_varint (St (len pre + 1) pool k)
  = Ok (count, St (len pre + len (tag :: _write_varint count [])) pool k).
Proof.
  intros Hc H. rewrite <- (len_snoc pre tag).
  rewrite (read_varint_at count (pre ++ [tag]) post);
    [| pow2; lia | rewrite <- app_assoc; exact H].
  rewrite len_snoc, len_cons.
  replace (len pre + 1 + len (_write_varint count []))
    with (len pre + (1 + len (_write_varint count []))) by lia.
  reflexivity.
Qed.

Lemma new_slots_ok n :
  0 <= n <= len data -> new_slots (to_int64 n) = Ok (repeat None (Z.to_nat n)).
Proof.
  intros Hn. pose proof data_small. unfold PY_SSIZE_T_MAX in data_fits.
  rewrite to_int64_small by (pow2; lia). unfold new_slots.
  destruct (n <? 0) eqn:E; [apply Z.ltb_lt in E; lia | clear E].
  rewrite Z.gtb_ltb.
  destruct (PY_SSIZE_T_MAX / 8 <? n) eqn:E;
    [apply Z.ltb_lt in E; unfold PY_SSIZE_T_MAX in E; lia |].
  reflexivity.
Qed.

Lemma varint_zero : _write_varint 0 [] = [0].
Proof. rewrite write_varint_unfold. reflexivity. Qed.

Lemma count_bounds {A} (items : list A) :
  len items <= len data -> 0 <= len items < 2 ^ 63.
Proof. intros H. pose proof data_small. pose proof (len_nonneg items). pow2. lia. Qed.

Lemma count_nonzero {A} (items : list A) : items <> [] -> (len items =? 0) = false.
Proof. intros H. apply Z.eqb_neq. intros E. apply len_zero in E. contradiction. Qed.

Lemma list_header items pre post pool k :
  items <> [] -> len items <= len data -> (k < 32)%nat ->
  data = pre ++ (T_ARR :: _write_varint (len items) []) ++ post ->
  decode_value (St (len pre) pool (Z.of_nat k)) (pooled_stack k)
  = Continue
      (St (len (pre ++ T_ARR :: _write_varint (len items) []))
         (list_store pool k (seq_frame false [] items)) (Z.of_nat (S k)))
      (pooled_stack (S k)).
Proof.
  intros Hne Hn Hk H. pose proof (count_bounds items Hn) as Hc.
  pose proof H as H'. cbn [app] in H'. read_tag H'.
  rewrite (header_at T_ARR (len items) pre post) by assumption.
  cbn [step_bind]. rewrite count_nonzero by assumption.
  unfold PyList_New. rewrite new_slots_ok by lia. cbn [bind step_bind].
  rewrite push_at by assumption.
  rewrite to_int64_small by (pow2; lia). rewrite to_nat_len, len_app. reflexivity.
Qed.

Lemma tuple_header items pre post pool k :
  len items <= len data -> (k < 32)%nat ->
  data = pre ++ (T_TUPLE :: _write_varint (len items) []) ++ post ->
  decode_value (St (len pre) pool (Z.of_nat k)) (pooled_stack k)
  = Continue
      (St (len (pre ++ T_TUPLE :: _write_varint (len items) []))
         (list_store pool k (seq_frame true [] items)) (Z.of_nat (S k)))
      (pooled_stack (S k)).
Proof.
  intros Hn Hk H. pose proof (count_bounds items Hn) as Hc.
  pose proof H as H'. cbn [app] in H'. read_tag H'.
  rewrite (header_at T_TUPLE (len items) pre post) by assumption.
  cbn [step_bind].
  unfold PyTuple_New. rewrite new_slots_ok by lia. cbn [bind step_bind].
  rewrite push_at by assumption.
  rewrite to_int64_small by (pow2; lia). rewrite to_nat_len, len_app. reflexivity.
Qed.

Lemma set_header items pre post pool k :
  len items <= len data -> (k < 32)%nat ->
  data = pre ++ (T_SET :: _write_varint (len items) []) ++ post ->
  decode_value (St (len pre) pool (Z.of_nat k)) (pooled_stack k)
  = Continue
      (St (len (pre ++ T_SET :: _write_varint (len items) []))
         (list_store pool k (set_frame [] items)) (Z.of_nat (S k)))
      (pooled_stack (S k)).
Proof.
  intros Hn Hk H. pose proof (count_bounds items Hn) as Hc.
  pose proof H as H'. cbn [app] in H'. read_tag H'.
  rewrite (header_at T_SET (len items) pre post) by assumption.
  cbn [step_bind]. rewrite push_at by assumption.
  rewrite to_int64_small by (pow2; lia). rewrite len_app. reflexivity.
Qed.

Lemma dict_header (entries : list (value * value)) pre post pool k :
  entries <> [] -> len entries <= len data -> (k < 32)%nat ->
  data = pre ++ (T_OBJ :: _write_varint (len entries) []) ++ post ->
  decode_value (St (len pre) pool (Z.of_nat k)) (pooled_stack k)
  = Continue
      (St (len (pre ++ T_OBJ :: _write_varint (len entries) []))
         (list_store pool k (dict_frame [] entries VNone)) (Z.of_nat (S k)))
      (pooled_stack (S k)).
Proof.
  intros Hne Hn Hk H. pose proof (count_bounds entries Hn) as Hc.
  pose proof H as H'. cbn [app] in H'. read_tag H'.
  rewrite (header_at T_OBJ (len entries) pre post) by assumption.
  cbn [step_bind]. rewrite count_nonzero by assumption.
  rewrite push_at by assumption.
  rewrite to_int64_small by (pow2; lia). rewrite len_app. reflexivity.
Qed.

Lemma empty_header tag v pre post pool k stack :
  (tag = T_ARR /\ v = VList [] \/ tag = T_OBJ /\ v = VDict []) ->
  data = pre ++ [tag; 0] ++ post ->
  decode_value (St (len pre) pool k) stack
  = install (St (len pre + 2) pool k) stack v.
Proof.
  intros Hv H. pose proof H as H'. cbn [app] in H'.
  assert (Hh : _read_varint (St (len pre + 1) pool k)
               = Ok (0, St (len pre + 2) pool k)).
  { rewrite (header_at tag 0 pre post); [| pow2; lia | rewrite varint_zero; exact H].
    rewrite varint_zero. reflexivity. }
  destruct Hv as [[-> ->] | [-> ->]]; read_tag H'; rewrite Hh; reflexivity.
Qed.

(** *** Every supported value decodes back *)

Lemma seq_frame_value tuple items :
  container_value (container (seq_frame tuple items []))
  = Ok (if tuple then VTuple items else VList items).
Proof.
  unfold seq_frame. cbn [container List.length].
  destruct tuple; cbn [container_value]; rewrite filled_all; reflexivity.
Qed.

Lemma out_within pre out post : data = pre ++ out ++ post -> len out <= len data.
Proof.
  intros H. rewrite (len_parts _ _ _ H).
  pose proof (len_nonneg pre). pose proof (len_nonneg post). lia.
Qed.

Lemma list_back items : Forall back items -> back (VList items).
Proof.
  intros Hback out Henc Hsup pre post pool k Hdata Hlen Hdepth.
  rewrite encode_list_eq in Henc. apply encode_each_shape in Henc.
  destruct Henc as (outs & Houts & ->).
  assert (Eout : _write_varint (len items) ([] ++ [T_ARR]) ++ List.concat outs
                 = (T_ARR :: _write_varint (len items) []) ++ List.concat outs)
    by (rewrite write_varint_app; reflexivity).
  rewrite Eout in *. clear Eout.
  pose proof (out_within _ _ _ Hdata) as Hsize.
  pose proof (supported_list_inv _ _ Hsup) as Hitems.
  destruct items as [| x r].
  - destruct outs as [| o outs]; [| inversion Houts].
    exists O, pool. split; [apply pool_agree_refl |].
    intros fuel. cbn [Nat.add List.concat].
    change (len (@nil value)) with 0 in *. rewrite varint_zero in *.
    rewrite (empty_header T_ARR (VList []) pre post);
      [reflexivity | left; auto | exact Hdata].
  - set (items := x :: r) in *.
    assert (Hne : items <> []) by discriminate.
    destruct (depth_list k items Hne Hdepth) as [Hk Hd].
    pose proof (count_le_bytes _ _ Houts) as Hcount.
    rewrite len_app in Hsize.
    pose proof (len_nonneg (T_ARR :: _write_varint (len items) [])).
    assert (Hhead : data = pre ++ (T_ARR :: _write_varint (len items) [])
                             ++ (List.concat outs ++ post))
      by (rewrite Hdata, <- !app_assoc; reflexivity).
    destruct (container_run (seq_frame false) (fun _ _ => True)
                (fun done y rest _ => seq_frame_fill false done y rest)
                (fun _ _ => eq_refl) (fun _ _ => eq_refl)
                VList (seq_frame_value false)
                items outs
                (list_store pool k (seq_frame false [] items))
                (pre ++ T_ARR :: _write_varint (len items) []) post k)
      as (n & pool' & Hagree & Hrun); try assumption.
    + apply chain_trivial.
    + rewrite Hdata, <- !app_assoc. reflexivity.
    + rewrite length_list_store. assumption.
    + apply nth_list_store_same. lia.
    + exists n, pool'. split.
      * eapply pool_agree_trans; [apply pool_agree_store | exact Hagree].
      * intros fuel. rewrite (list_header items pre (List.concat outs ++ post));
          try assumption; [| lia].
        cbn [run]. rewrite Hrun, !len_app, Z.add_assoc. reflexivity.
Qed.

Lemma tuple_back items : Forall back items -> back (VTuple items).
Proof.
  intros Hback out Henc Hsup pre post pool k Hdata Hlen Hdepth.
  rewrite encode_tuple_eq in Henc. apply encode_each_shape in Henc.
  destruct Henc as (outs & Houts & ->).
  assert (Eout : _write_varint (len items) ([] ++ [T_TUPLE]) ++ List.concat outs
                 = (T_TUPLE :: _write_varint (len items) []) ++ List.concat outs)
    by (rewrite write_varint_app; reflexivity).
  rewrite Eout in *. clear Eout.
  pose proof (out_within _ _ _ Hdata) as Hsize.
  pose proof (supported_tuple_inv _ _ Hsup) as Hitems.
  destruct (depth_tuple k items Hdepth) as [Hk Hd].
  pose proof (count_le_bytes _ _ Houts) as Hcount.
  rewrite len_app in Hsize.
  pose proof (len_nonneg (T_TUPLE :: _write_varint (len items) [])).
  destruct (container_run (seq_frame true) (fun _ _ => True)
              (fun done y rest _ => seq_frame_fill true done y rest)
              (fun _ _ => eq_refl) (fun _ _ => eq_refl)
              VTuple (seq_frame_value true)
              items outs
              (list_store pool k (seq_frame true [] items))
              (pre ++ T_TUPLE :: _write_varint (len items) []) post k)
    as (n & pool' & Hagree & Hrun); try assumption.
  - apply chain_trivial.
  - rewrite Hdata, <- !app_assoc. reflexivity.
  - rewrite length_list_store. assumption.
  - apply nth_list_store_same. lia.
  - exists n, pool'. split.
    + eapply pool_agree_trans; [apply pool_agree_store | exact Hagree].
    + intros fuel. rewrite (tuple_header items pre (List.concat outs ++ post));
        try assumption; [| lia | rewrite Hdata, <- !app_assoc; reflexivity].
      cbn [run]. rewrite Hrun, !len_app, Z.add_assoc. reflexivity.
Qed.

Lemma set_back elems : Forall back elems -> back (VSet elems).
Proof.
  intros Hback out Henc Hsup pre post pool k Hdata Hlen Hdepth.
  rewrite encode_set_eq in Henc. apply encode_each_shape in Henc.
  destruct Henc as (outs & Houts & ->).
  assert (Eout : _write_varint (len elems) ([] ++ [T_SET]) ++ List.concat outs
                 = (T_SET :: _write_varint (len elems) []) ++ List.concat outs)
    by (rewrite write_varint_app; reflexivity).
  rewrite Eout in *. clear Eout.
  pose proof (out_within _ _ _ Hdata) as Hsize.
  destruct (supported_set_inv _ _ Hsup) as (Hitems & Hhash & Hdist).
  destruct (depth_set k elems Hdepth) as [Hk Hd].
  pose proof (count_le_bytes _ _ Houts) as Hcount.
  rewrite len_app in Hsize.
  pose proof (len_nonneg (T_SET :: _write_varint (len elems) [])).
  destruct (container_run set_frame set_ok set_frame_fill
              (fun _ _ => eq_refl) (fun _ _ => eq_refl)
              VSet (fun _ => eq_refl)
              elems outs
              (list_store pool k (set_frame [] elems))
              (pre ++ T_SET :: _write_varint (len elems) []) post k)
    as (n & pool' & Hagree & Hrun); try assumption.
  - apply chain_set; assumption.
  - rewrite Hdata, <- !app_assoc. reflexivity.
  - rewrite length_list_store. assumption.
  - apply nth_list_store_same. lia.
  - exists n, pool'. split.
    + eapply pool_agree_trans; [apply pool_agree_store | exact Hagree].
    + intros fuel. rewrite (set_header elems pre (List.concat outs ++ post));
        try assumption; [| lia | rewrite Hdata, <- !app_assoc; reflexivity].
      cbn [run]. rewrite Hrun, !len_app, Z.add_assoc. reflexivity.
Qed.

Lemma dict_back entries :
  Forall (fun kv => back (snd kv)) entries -> back (VDict entries).
Proof.
  intros Hback out Henc Hsup pre post pool k Hdata Hlen Hdepth.
  rewrite encode_dict_eq in Henc. apply encode_entries_shape in Henc.
  destruct Henc as (chunks & Hchunks & ->).
  assert (Eout : _write_varint (len entries) ([] ++ [T_OBJ]) ++ List.concat chunks
                 = (T_OBJ :: _write_varint (len entries) []) ++ List.concat chunks)
    by (rewrite write_varint_app; reflexivity).
  rewrite Eout in *. clear Eout.
  pose proof (out_within _ _ _ Hdata) as Hsize.
  destruct (supported_dict_inv _ _ Hsup) as (Hentries & Hkeys).
  destruct entries as [| e r].
  - destruct chunks as [| c chunks]; [| inversion Hchunks].
    exists O, pool. split; [apply pool_agree_refl |].
    intros fuel. cbn [Nat.add List.concat].
    change (len (@nil (value * value))) with 0 in *. rewrite varint_zero in *.
    rewrite (empty_header T_OBJ (VDict []) pre post);
      [reflexivity | right; auto | exact Hdata].
  - set (entries := e :: r) in *.
    assert (Hne : entries <> []) by discriminate.
    destruct (depth_dict k entries Hne Hdepth) as [Hk Hd].
    pose proof (entries_le_bytes _ _ Hchunks) as Hcount.
    rewrite len_app in Hsize.
    pose proof (len_nonneg (T_OBJ :: _write_varint (len entries) [])).
    destruct (dict_run entries chunks
                (list_store pool k (dict_frame [] entries VNone))
                (pre ++ T_OBJ :: _write_varint (len entries) []) post k)
      as (n & pool' & Hagree & Hrun); try assumption.
    + eapply Forall_impl; [| exact Hentries]. intros kv [_ Hs]. exact Hs.
    + rewrite Hdata, <- !app_assoc. reflexivity.
    + rewrite length_list_store. assumption.
    + apply nth_list_store_same. lia.
    + exists n, pool'. split.
      * eapply pool_agree_trans; [apply pool_agree_store | exact Hagree].
      * intros fuel. rewrite (dict_header entries pre (List.concat chunks ++ post));
          try assumption; [| lia | rewrite Hdata, <- !app_assoc; reflexivity].
        cbn [run]. rewrite Hrun, !len_app, Z.add_assoc. reflexivity.
Qed.

Ltac scalar_case pool :=
  exists O, pool; split; [apply pool_agree_refl |]; intros fuel; cbn [Nat.add].

Lemma all_decode_back v : back v.
Proof.
  induction v using value_induction;
    try (apply list_back; assumption);
    try (apply tuple_back; assumption);
    try (apply set_back; assumption);
    try (apply dict_back; assumption);
    intros out Henc Hsup pre post pool k Hdata Hlen Hdepth;
    cbn [_encode_recursive] in Henc.
  - injection Henc as <-. scalar_case pool.
    rewrite (decode_None pre post) by exact Hdata. reflexivity.
  - assert (out = [if b then T_TRUE else T_FALSE])
      by (destruct b; injection Henc as <-; reflexivity).
    subst out. scalar_case pool.
    rewrite (decode_bool b pre post) by exact Hdata. reflexivity.
  - pose proof (supported_int_inv _ _ Hsup) as Hn.
    rewrite in_int64_true, write_varint_app in Henc by assumption.
    injection Henc as <-. scalar_case pool.
    rewrite (decode_int n pre post) by assumption. reflexivity.
  - pose proof (supported_float_inv _ _ Hsup) as Hb.
    injection Henc as <-. scalar_case pool.
    rewrite (decode_float bits pre post) by assumption. reflexivity.
  - destruct (dict_get String.eqb (symbol_map enc) s) as [i |] eqn:Ei.
    + rewrite write_varint_app in Henc. injection Henc as <-. scalar_case pool.
      rewrite (decode_symbol s i pre post) by assumption. reflexivity.
    + rewrite write_varint_app in Henc. injection Henc as <-.
      assert (Hw : utf8_well_formed 0 128 191 (utf8_encode s) = true).
      { destruct (supported_str_inv _ _ Hsup) as [Hin | Hw]; [| exact Hw].
        cbn [FastEncoder_init symbol_map] in Ei.
        apply enumerate_symbols_none in Ei. tauto. }
      scalar_case pool.
      rewrite (decode_str s pre post) by assumption. reflexivity.
  - rewrite write_varint_app in Henc. injection Henc as <-. scalar_case pool.
    rewrite (decode_bytes b pre post) by assumption. reflexivity.
  - inversion Hsup.
  - inversion Hsup.
  - pose proof (supported_datetime_inv _ _ Hsup) as Hm.
    assert (Hn : - 2 ^ 63 <= ms < 2 ^ 63) by (pow2; lia).
    rewrite in_int64_true, write_varint_app in Henc by assumption.
    injection Henc as <-. scalar_case pool.
    rewrite (decode_datetime ms pre post) by assumption. reflexivity.
  - inversion Hsup.
Qed.

End RoundTrip.



(** * The claims *)

(** C1 (the code diverges from the round-trip property): the timestamp one
    millisecond before the epoch encodes to [0A 01]; decoding those two
    bytes with the same (empty) symbol table raises, and no number of loop
    iterations makes it return the timestamp. *)
Theorem roundtrip_fails_before_epoch :
  encode (FastEncoder_init [] None) before_epoch = Ok [10; 1] /\
  (forall fuel, decode (1 + fuel) [10; 1] [] = Raise ValueError) /\
  (forall fuel, decode fuel [10; 1] [] <> Ok before_epoch).
Proof.
  split; [reflexivity |].
  split; intros fuel.
  - apply decode_more_fuel; [reflexivity | discriminate].
  - intros Hok.
    destruct (decode_result_unique 1 fuel [10; 1] [] (Raise ValueError) eq_refl)
      as [H | H]; [discriminate | |]; rewrite H in Hok; discriminate Hok.
Qed.

(** C2 (the code diverges from the bounds-checking rule): when the input
    ends right after an OBJ header, the tag byte of the expected map key is
    read at position 2 of a two-byte buffer without a check; and an EXT
    value announcing five payload bytes that are not there decodes to an
    empty payload.  Neither run ever raises a decode error. *)
Theorem unchecked_reads :
  (forall fuel, decode (2 + fuel) [7; 1] [] = Undefined (BufferReadOutOfBounds 2)) /\
  (forall fuel,
     decode (1 + fuel) [11; 0; 5] [] = Ok (VTuple [VInt 0; VMemoryview []])) /\
  (forall fuel, is_LensDecodeError (decode fuel [7; 1] []) = false) /\
  (forall fuel, is_LensDecodeError (decode fuel [11; 0; 5] []) = false).
Proof.
  split; [| split; [| split]]; intros fuel.
  - apply decode_more_fuel; [reflexivity | discriminate].
  - apply decode_more_fuel; [reflexivity | discriminate].
  - destruct (decode_result_unique 2 fuel [7; 1] [] _ eq_refl) as [H | H];
      [discriminate | |]; rewrite H; reflexivity.
  - destruct (decode_result_unique 1 fuel [11; 0; 5] [] _ eq_refl) as [H | H];
      [discriminate | |]; rewrite H; reflexivity.
Qed.

(** C3 (the code diverges from the varint-overflow rule): an INT whose
    varint is the ten bytes [80 80 80 80 80 80 80 80 80 02], i.e. the
    65-bit value 2^64, decodes to the integer 0 and never raises; the
    overflow error is only raised when the tenth byte has its continuation
    bit set. *)
Theorem ten_byte_varint_truncated :
  (forall fuel, decode (1 + fuel) (T_INT :: varint_2_64) [] = Ok (VInt 0)) /\
  (forall fuel, is_LensDecodeError (decode fuel (T_INT :: varint_2_64) []) = false) /\
  (forall fuel,
     decode (1 + fuel)
       (T_INT :: [128; 128; 128; 128; 128; 128; 128; 128; 128; 128; 0]) []
     = Raise (LensDecodeError VarintOverflow)).
Proof.
  split; [| split]; intros fuel.
  - apply decode_more_fuel; [reflexivity | discriminate].
  - destruct (decode_result_unique 1 fuel (T_INT :: varint_2_64) [] _ eq_refl)
      as [H | H]; [discriminate | |]; rewrite H; reflexivity.
  - apply decode_more_fuel; [reflexivity | discriminate].
Qed.


(** C5 (the code diverges for negative counts): the TIME payload [01] is
    the ZigZag code of -1 ms.  A [ts_hook] is called with
    18446744073709551615 instead of -1, and without a hook the conversion
    of that count to a datetime raises. *)
Theorem ts_hook_gets_unsigned_count :
  encode (FastEncoder_init [] None) before_epoch = Ok [T_TIME; 1] /\
  (forall fuel,
     decode_all (1 + fuel)
       (FastDecoder_init [T_TIME; 1] [] false None (Some (fun ms => Ok (VInt ms))))
     = Ok (VInt 18446744073709551615)) /\
  (forall fuel, decode (1 + fuel) [T_TIME; 1] [] = Raise ValueError).
Proof.
  split; [reflexivity |].
  split; intros fuel.
  - apply decode_all_more_fuel; [reflexivity | discriminate].
  - apply decode_more_fuel; [reflexivity | discriminate].
Qed.

(** C6 (the code diverges from the symbol-index rule): a SYMREF value with
    index 0 against an empty symbol table, and a map key with index 5
    against a one-entry table, are looked up without any comparison with
    the table length; no decode error is ever raised. *)
Theorem symbol_index_unchecked :
  (forall fuel, decode (1 + fuel) [8; 0] [] = Undefined (SymbolReadOutOfBounds 0)) /\
  (forall fuel,
     decode (2 + fuel) [7; 1; 8; 5; 0] ["a"%string]
     = Undefined (SymbolReadOutOfBounds 5)) /\
  (forall fuel, is_LensDecodeError (decode fuel [8; 0] []) = false) /\
  (forall fuel,
     is_LensDecodeError (decode fuel [7; 1; 8; 5; 0] ["a"%string]) = false).
Proof.
  split; [| split; [| split]]; intros fuel.
  - apply decode_more_fuel; [reflexivity | discriminate].
  - apply decode_more_fuel; [reflexivity | discriminate].
  - destruct (decode_result_unique 1 fuel [8; 0] [] _ eq_refl) as [H | H];
      [discriminate | |]; rewrite H; reflexivity.
  - destruct (decode_result_unique 2 fuel [7; 1; 8; 5; 0] ["a"%string] _ eq_refl)
      as [H | H]; [discriminate | |]; rewrite H; reflexivity.
Qed.

(** C7 as the spec states it fails: with an empty symbol table the map
    [{"zz": None}] does not fail with a [LensEncodeError]; the lookup
    [self.symbol_map[k]] raises Python's [KeyError]. *)
Lemma unknown_symbol_raises_KeyError :
  encode (FastEncoder_init [] None) (VDict [(VStr "zz", VNone)])
    = Raise (KeyError (VStr "zz")) /\
  is_LensEncodeError
    (encode (FastEncoder_init [] None) (VDict [(VStr "zz", VNone)])) = false.
Proof. split; reflexivity. Qed.

(** C7, amended: encoding fails with [LensEncodeError] ("Unsupported
    type") exactly when the type dispatch reaches an object in the final
    [else] branch for which no extension handler is configured or the
    handler declines; a map key that is not a string of the symbol table,
    reached after the entries before it were encoded, makes encoding fail
    with [KeyError]; and no value containing a map with such a key
    encodes. *)
Theorem encode_failure_modes
    (symbols : list string) (handler : option (value -> option (Z * list Z))) :
  (forall obj x,
     encode (FastEncoder_init symbols handler) obj = Raise (LensEncodeError x) <->
     dispatched (FastEncoder_init symbols handler) obj x /\
     fallthrough x = true /\
     ext_declines (FastEncoder_init symbols handler) x) /\
  (forall pre k v post,
     ~ in_symbol_table symbols k ->
     Forall (fun kv => in_symbol_table symbols (fst kv) /\
                       encodes (FastEncoder_init symbols handler) (snd kv)) pre ->
     encode (FastEncoder_init symbols handler) (VDict (pre ++ (k, v) :: post))
       = Raise (KeyError k)) /\
  (forall obj k out,
     has_key obj k -> ~ in_symbol_table symbols k ->
     encode (FastEncoder_init symbols handler) obj <> Ok out).
Proof.
  split; [| split].
  - intros obj x. unfold encode. split.
    + apply unsupported_only_if.
    + intros (Hd & Hf & He). apply unsupported_if; assumption.
  - intros pre k v post Hk Hpre. unfold encode.
    rewrite encode_dict_eq. apply encode_entries_raise.
    exists pre, k, v, post. repeat split.
    + eapply Forall_impl; [| exact Hpre].
      intros [k' v'] [H1 H2]. split; [| exact H2].
      apply getitem_inside_table. exact H1.
    + left. apply getitem_outside_table. exact Hk.
  - intros obj k out Hin Hk Ho.
    assert (Hr : resolves (FastEncoder_init symbols handler) k).
    { apply (keys_resolve _ obj); [assumption | exists out; exact Ho]. }
    destruct Hr as [i Hi].
    rewrite (getitem_outside_table symbols handler k Hk) in Hi. discriminate.
Qed.

Lemma encode_failure_modes_witness :
  encode (FastEncoder_init ["id"%string] None)
    (VList [VInt 1; VOther "frozenset"])
    = Raise (LensEncodeError (VOther "frozenset")) /\
  encode (FastEncoder_init ["id"%string] None)
    (VDict ([(VStr "id", VInt 1)] ++ (VInt 5, VNone) :: []))
    = Raise (KeyError (VInt 5)) /\
  encode (FastEncoder_init ["id"%string] None)
    (VTuple [VDict [(VStr "name", VNone)]]) <> Ok [13; 1; 7; 1; 8; 0; 0].
Proof.
  destruct (encode_failure_modes ["id"%string] None) as (H1 & H2 & H3).
  split; [| split].
  - apply H1. split; [| split].
    + apply (dispatched_list _ [VInt 1] (VOther "frozenset") []).
      * constructor; [| constructor]. exists [3; 2]. reflexivity.
      * constructor.
    + reflexivity.
    + exact I.
  - apply H2.
    + intros H. exact H.
    + constructor; [| constructor]. split.
      * left. reflexivity.
      * exists [3; 2]. reflexivity.
  - apply (H3 _ (VStr "name")).
    + apply (has_key_tuple _ (VDict [(VStr "name", VNone)])).
      * left. reflexivity.
      * apply (has_key_here _ _ VNone). left. reflexivity.
    + intros [H | H]; [discriminate H | exact H].
Defined.

(** C8: for every [n] in [-2^63, 2^63), whatever the symbol table and the
    options, [encode] writes the INT tag followed by the little-endian
    base-128 varint of the ZigZag code [(n << 1) ^ (n >> 63)], and
    [decode_all] returns exactly [n] from those bytes. *)
Theorem int_exact n symbols ext_handler zero_copy ext_hook ts_hook fuel :
  - 2 ^ 63 <= n < 2 ^ 63 ->
  exists data,
    encode (FastEncoder_init symbols ext_handler) (VInt n) = Ok data /\
    data = T_INT :: _write_varint (c_zigzag_encode n) [] /\
    decode_all (S fuel) (FastDecoder_init data symbols zero_copy ext_hook ts_hook)
      = Ok (VInt n).
Proof.
  intros Hn. eexists. split; [| split; [reflexivity |]].
  - unfold encode. cbn [_encode_recursive]. rewrite in_int64_true by assumption.
    rewrite write_varint_app. reflexivity.
  - pose proof (zigzag_encode_range n Hn) as Hr.
    set (u := c_zigzag_encode n) in *.
    set (self := FastDecoder_init (T_INT :: _write_varint u []) symbols zero_copy ext_hook ts_hook).
    assert (Hsz : size self = 1 + len (_write_varint u [])) by (apply len_cons).
    unfold decode_all. cbn [decode_loop decode_step]. unfold decode_value.
    change (pos self) with 0. rewrite Hsz.
    pose proof (len_nonneg (_write_varint u [])).
    rewrite Z.geb_leb. destruct (_ <=? 0) eqn:E; [apply Z.leb_le in E; lia | clear E].
    change (buffer_getitem self 0) with (@Ok Z T_INT). cbn [step_bind].
    change (T_INT =? T_NULL) with false; change (T_INT =? T_TRUE) with false;
      change (T_INT =? T_FALSE) with false; change (T_INT =? T_INT) with true.
    cbv iota.
    rewrite (read_varint_written u _ [T_INT] []); try assumption.
    + cbn [step_bind install]. unfold u. rewrite zigzag_roundtrip by assumption.
      reflexivity.
    + simpl. rewrite app_nil_r. reflexivity.
    + reflexivity.
    + reflexivity.
Qed.


Lemma int_exact_witness :
  exists data,
    encode (FastEncoder_init ["id"%string] None) (VInt (- 2 ^ 63)) = Ok data /\
    data = T_INT :: _write_varint (c_zigzag_encode (- 2 ^ 63)) [] /\
    decode_all 1 (FastDecoder_init data ["id"%string] false None None)
      = Ok (VInt (- 2 ^ 63)).
Proof.
  apply (int_exact (- 2 ^ 63) ["id"%string] None false None None 0).
  split; [apply Z.le_refl | reflexivity].
Defined.





(** * Further properties *)

(** ** ZigZag *)

Lemma zigzag_decode_even u : 0 <= u < 2 ^ 64 -> u mod 2 = 0 ->
  c_zigzag_decode u = u / 2.
Proof.
  intros H He. unfold c_zigzag_decode.
  rewrite Z.shiftr_div_pow2 by lia. change (2 ^ 1) with 2.
  rewrite land_1, He. change (wrap64 (- 0)) with 0. rewrite Z.lxor_0_r.
  apply to_int64_small. pow2. Z.div_mod_to_equations; lia.
Qed.

Lemma zigzag_decode_odd u : 0 <= u < 2 ^ 64 -> u mod 2 = 1 ->
  c_zigzag_decode u = - (u / 2) - 1.
Proof.
  intros H He. unfold c_zigzag_decode.
  rewrite Z.shiftr_div_pow2 by lia. change (2 ^ 1) with 2.
  rewrite land_1, He. change (wrap64 (- 1)) with (2 ^ 64 - 1).
  rewrite lxor_ones64 by (pow2; Z.div_mod_to_equations; lia).
  unfold to_int64. pow2.
  destruct (_ <? _) eqn:E; [apply Z.ltb_lt in E | apply Z.ltb_ge in E];
    Z.div_mod_to_equations; lia.
Qed.

Lemma zigzag_encode_signs n :
  - 2 ^ 63 <= n < 2 ^ 63 ->
  c_zigzag_encode n = if n <? 0 then - 2 * n - 1 else 2 * n.
Proof.
  intros H. destruct (n <? 0) eqn:E;
    [apply Z.ltb_lt in E | apply Z.ltb_ge in E].
  - apply zigzag_encode_neg. lia.
  - apply zigzag_encode_nonneg. lia.
Qed.

(** X2.  ZigZag orders integers by magnitude: 0, -1, 1, -2, 2, ... *)
Theorem zigzag_encode_value n :
  - 2 ^ 63 <= n < 2 ^ 63 ->
  c_zigzag_encode n = if n <? 0 then - 2 * n - 1 else 2 * n.
Proof. exact (zigzag_encode_signs n). Qed.

Lemma zigzag_encode_value_witness :
  c_zigzag_encode (-3) = if -3 <? 0 then - 2 * -3 - 1 else 2 * -3.
Proof. apply (zigzag_encode_value (-3)). pow2. lia. Defined.

(** X3.  [c_zigzag_decode] undoes [c_zigzag_encode] on every [uint64_t]: the two
    are inverse bijections between the unsigned and the signed 64-bit
    integers. *)
Theorem zigzag_encode_decode u :
  0 <= u < 2 ^ 64 ->
  - 2 ^ 63 <= c_zigzag_decode u < 2 ^ 63 /\
  c_zigzag_encode (c_zigzag_decode u) = u.
Proof.
  intros H.
  assert (Hm : u mod 2 = 0 \/ u mod 2 = 1) by (Z.div_mod_to_equations; lia).
  destruct Hm as [He | Ho].
  - rewrite (zigzag_decode_even u H He). split.
    + pow2. Z.div_mod_to_equations; lia.
    + rewrite zigzag_encode_nonneg by (pow2; Z.div_mod_to_equations; lia).
      Z.div_mod_to_equations; lia.
  - rewrite (zigzag_decode_odd u H Ho). split.
    + pow2. Z.div_mod_to_equations; lia.
    + rewrite zigzag_encode_neg by (pow2; Z.div_mod_to_equations; lia).
      Z.div_mod_to_equations; lia.
Qed.

Lemma zigzag_encode_decode_witness :
  - 2 ^ 63 <= c_zigzag_decode (2 ^ 64 - 1) < 2 ^ 63 /\
  c_zigzag_encode (c_zigzag_decode (2 ^ 64 - 1)) = 2 ^ 64 - 1.
Proof. apply (zigzag_encode_decode (2 ^ 64 - 1)). pow2. lia. Defined.

(** ** The varint writer *)

Lemma land_127_range c : 0 <= Z.land c 127 < 128.
Proof.
  change 127 with (Z.ones 7). rewrite Z.land_ones by lia.
  apply Z.mod_pos_bound. lia.
Qed.

Lemma land_127_mod c : Z.land c 127 = c mod 128.
Proof. change 127 with (Z.ones 7). rewrite Z.land_ones by lia. reflexivity. Qed.

Lemma shiftr_7 n : Z.shiftr n 7 = n / 128.
Proof. rewrite Z.shiftr_div_pow2 by lia. reflexivity. Qed.

Lemma write_varint_step n : 128 <= n ->
  _write_varint n [] =
  uchar (Z.lor (Z.land n 127) 128) :: _write_varint (Z.shiftr n 7) [].
Proof.
  intros H. rewrite write_varint_unfold.
  destruct (128 <=? n) eqn:E; [| apply Z.leb_gt in E; lia].
  rewrite write_varint_app. reflexivity.
Qed.

Lemma write_varint_last n : n < 128 -> _write_varint n [] = [uchar n].
Proof.
  intros H. rewrite write_varint_unfold.
  destruct (128 <=? n) eqn:E; [apply Z.leb_le in E; lia | reflexivity].
Qed.

Lemma write_varint_nonempty n : _write_varint n [] <> [].
Proof.
  rewrite write_varint_unfold. destruct (128 <=? n).
  - rewrite write_varint_app. discriminate.
  - discriminate.
Qed.

Lemma write_varint_format_aux (k : nat) :
  forall n, 0 <= n < 2 ^ (7 * Z.of_nat (S k)) ->
  varint_shape (_write_varint n []) /\
  varint_value (_write_varint n []) = n /\
  Forall (fun c => 0 <= c < 256) (_write_varint n []).
Proof.
  induction k as [| k IH]; intros n Hn.
  - change (2 ^ (7 * Z.of_nat 1)) with 128 in Hn.
    rewrite write_varint_last by lia.
    destruct (last_byte n Hn) as (U1 & U2 & U3). rewrite U1.
    cbn [varint_shape varint_value]. rewrite U2, U3.
    repeat split; try lia. repeat constructor; lia.
  - destruct (Z_lt_le_dec n 128) as [Hs | Hl].
    + rewrite write_varint_last by lia.
      destruct (last_byte n ltac:(lia)) as (U1 & U2 & U3). rewrite U1.
      cbn [varint_shape varint_value]. rewrite U2, U3.
      repeat split; try lia. repeat constructor; lia.
    + rewrite write_varint_step by lia.
      assert (Hq : 0 <= Z.shiftr n 7 < 2 ^ (7 * Z.of_nat (S k))).
      { rewrite shiftr_7. split; [apply Z.div_pos; lia |].
        apply Z.div_lt_upper_bound; [lia |].
        change 128 with (2 ^ 7). rewrite <- Z.pow_add_r by lia.
        replace (7 + 7 * Z.of_nat (S k)) with (7 * Z.of_nat (S (S k))) by lia.
        lia. }
      destruct (IH _ Hq) as (S1 & V1 & R1).
      pose proof (write_varint_nonempty (Z.shiftr n 7)) as Hne.
      cbn [varint_shape varint_value].
      destruct (_write_varint (Z.shiftr n 7) []) as [| c r] eqn:Ew;
        [congruence |].
      rewrite cont_byte_low, cont_byte_high, V1.
      repeat split.
      * discriminate.
      * exact S1.
      * rewrite land_127_mod, shiftr_7. Z.div_mod_to_equations; lia.
      * constructor; [| exact R1]. unfold uchar. apply Z.mod_pos_bound. lia.
Qed.

Lemma write_varint_length_lower (k : nat) :
  forall n, 2 ^ (7 * Z.of_nat k) <= n ->
  (k < List.length (_write_varint n []))%nat.
Proof.
  induction k as [| k IH]; intros n Hn.
  - pose proof (write_varint_nonempty n).
    destruct (_write_varint n []); [congruence | cbn; lia].
  - assert (128 <= n).
    { apply Z.le_trans with (2 ^ (7 * Z.of_nat (S k))); [| lia].
      change 128 with (2 ^ 7). apply Z.pow_le_mono_r; lia. }
    rewrite write_varint_step by lia. cbn [List.length].
    apply -> Nat.succ_lt_mono. apply IH.
    rewrite shiftr_7. apply Z.div_le_lower_bound; [lia |].
    change 128 with (2 ^ 7). rewrite <- Z.pow_add_r by lia.
    replace (7 + 7 * Z.of_nat k) with (7 * Z.of_nat (S k)) by lia. lia.
Qed.

Lemma write_varint_layout n :
  0 <= n < 2 ^ 64 ->
  varint_shape (_write_varint n []) /\
  varint_value (_write_varint n []) = n /\
  Forall (fun c => 0 <= c < 256) (_write_varint n []) /\
  1 <= len (_write_varint n []) <= 10 /\
  forall k : nat,
    len (_write_varint n []) <= Z.of_nat (S k) <-> n < 2 ^ (7 * Z.of_nat (S k)).
Proof.
  intros Hn.
  assert (H70 : 2 ^ 64 < 2 ^ (7 * Z.of_nat 10)) by (apply Z.pow_lt_mono_r; lia).
  destruct (write_varint_format_aux 9 n ltac:(lia)) as (S1 & V1 & R1).
  repeat split; try assumption.
  - pose proof (write_varint_nonempty n) as Hne. unfold len.
    destruct (_write_varint n []); [congruence | cbn [List.length]; lia].
  - apply write_varint_length_64. lia.
  - intros Hk. destruct (Z_lt_le_dec n (2 ^ (7 * Z.of_nat (S k)))) as [| Hge];
      [assumption |].
    pose proof (write_varint_length_lower (S k) n Hge). unfold len in Hk. lia.
  - intros Hk. pose proof (write_varint_length k n Hk). unfold len. lia.
Qed.

(** X4.  What [_write_varint] appends for a [uint64_t]: between one and ten
    bytes, the continuation bit on all but the last, the payload groups
    adding up to [n], and no more groups than [n] needs. *)
Theorem write_varint_format n :
  0 <= n < 2 ^ 64 ->
  varint_shape (_write_varint n []) /\
  varint_value (_write_varint n []) = n /\
  Forall (fun c => 0 <= c < 256) (_write_varint n []) /\
  1 <= len (_write_varint n []) <= 10 /\
  forall k : nat,
    len (_write_varint n []) <= Z.of_nat (S k) <-> n < 2 ^ (7 * Z.of_nat (S k)).
Proof. exact (write_varint_layout n). Qed.

Lemma write_varint_format_witness :
  varint_shape (_write_varint 300 []) /\
  varint_value (_write_varint 300 []) = 300 /\
  Forall (fun c => 0 <= c < 256) (_write_varint 300 []) /\
  1 <= len (_write_varint 300 []) <= 10 /\
  forall k : nat,
    len (_write_varint 300 []) <= Z.of_nat (S k) <-> 300 < 2 ^ (7 * Z.of_nat (S k)).
Proof. apply (write_varint_format 300). pow2. lia. Defined.

(** ** The varint reader *)

Lemma land_shiftl_disjoint a b s : 0 <= a < 2 ^ s -> 0 <= s ->
  Z.land a (Z.shiftl b s) = 0.
Proof.
  intros Ha Hs. apply Z.bits_inj'. intros i Hi.
  rewrite Z.land_spec, Z.bits_0, Z.shiftl_spec by lia.
  destruct (Z_lt_le_dec i s).
  - rewrite (Z.testbit_neg_r b) by lia. apply andb_false_r.
  - rewrite (testbit_high a s i) by lia. reflexivity.
Qed.

Lemma lor_disjoint_add a b s : 0 <= a < 2 ^ s -> 0 <= s ->
  Z.lor a (Z.shiftl b s) = a + b * 2 ^ s.
Proof.
  intros Ha Hs.
  rewrite <- Z.lxor_lor by (apply land_shiftl_disjoint; assumption).
  rewrite <- Z.add_nocarry_lxor by (apply land_shiftl_disjoint; assumption).
  rewrite Z.shiftl_mul_pow2 by lia. reflexivity.
Qed.

Lemma wrap64_land z : wrap64 z = Z.land z (Z.ones 64).
Proof. unfold wrap64. rewrite Z.land_ones by lia. reflexivity. Qed.

Lemma lor_wrapped res p s : 0 <= res < 2 ^ s -> 0 <= s <= 64 ->
  Z.lor res (wrap64 (Z.shiftl p s)) = wrap64 (res + p * 2 ^ s).
Proof.
  intros Hr Hs.
  rewrite <- (lor_disjoint_add res p s) by lia.
  rewrite !wrap64_land, Z.land_lor_distr_l.
  rewrite <- (wrap64_land res), wrap64_small; [reflexivity |].
  split; [lia |]. apply Z.lt_le_trans with (2 ^ s); [lia |].
  apply Z.pow_le_mono_r; lia.
Qed.

Lemma wrap64_idem z : wrap64 (wrap64 z) = wrap64 z.
Proof. unfold wrap64. apply Z.mod_mod. lia. Qed.

Lemma consumed_cases self :
  0 <= pos self -> size self <= len (buffer self) ->
  (size self <= pos self /\ consumed self (pos self) (size self) = []) \/
  (exists b r,
     pos self < size self /\
     buffer_getitem self (pos self) = Ok b /\
     consumed self (pos self) (size self) = b :: r /\
     consumed (set_pos self (pos self + 1)) (pos self + 1) (size self) = r).
Proof.
  intros Hp Hs. unfold consumed, buffer_getitem.
  destruct (Z_le_gt_dec (size self) (pos self)) as [Hle | Hgt].
  - left. split; [assumption |].
    replace (Z.to_nat (size self - pos self)) with O by lia. reflexivity.
  - right.
    assert (Hlt : (Z.to_nat (pos self) < List.length (buffer self))%nat)
      by (unfold len in Hs; lia).
    destruct (nth_error (buffer self) (Z.to_nat (pos self))) as [b |] eqn:Eb;
      [| apply nth_error_None in Eb; lia].
    exists b, (firstn (Z.to_nat (size self - (pos self + 1)))
                 (skipn (Z.to_nat (pos self + 1)) (buffer self))).
    destruct (pos self <? 0) eqn:E; [apply Z.ltb_lt in E; lia | clear E].
    repeat split; try lia.
    + destruct (nth_error_split _ _ Eb) as (l1 & l2 & Hb & Hl).
      rewrite Hb.
      replace (Z.to_nat (pos self)) with (List.length l1 + 0)%nat by lia.
      rewrite skipn_app, skipn_all2 by lia.
      replace (List.length l1 + 0 - List.length l1)%nat with O by lia.
      cbn [skipn app].
      replace (Z.to_nat (size self - pos self))
        with (S (Z.to_nat (size self - (pos self + 1)))) by lia.
      cbn [firstn]. f_equal. f_equal.
      replace (Z.to_nat (pos self + 1)) with (List.length l1 + 1)%nat by lia.
      rewrite skipn_app, skipn_all2 by lia.
      replace (List.length l1 + 1 - List.length l1)%nat with 1%nat by lia.
      reflexivity.
Qed.

Lemma varint_shape_nonempty c : varint_shape c -> c <> [].
Proof. destruct c; [contradiction | discriminate]. Qed.

Lemma varint_shape_cons b c :
  Z.land b 128 <> 0 -> varint_shape c -> varint_shape (b :: c).
Proof.
  intros Hb Hc. cbn [varint_shape]. destruct c; [contradiction |].
  split; assumption.
Qed.

Lemma pow_7_succ (j : nat) : 2 ^ (7 * Z.of_nat (S j)) = 128 * 2 ^ (7 * Z.of_nat j).
Proof.
  replace (7 * Z.of_nat (S j)) with (7 + 7 * Z.of_nat j) by lia.
  rewrite Z.pow_add_r by lia. reflexivity.
Qed.

Lemma read_varint_loop_end fuel self res shift :
  size self <= pos self ->
  read_varint_loop (S fuel) self res shift =
    Raise (LensDecodeError EndOfBufferInVarint).
Proof.
  intros H. cbn [read_varint_loop].
  destruct (pos self >=? size self) eqn:E; [reflexivity |].
  rewrite Z.geb_leb in E. apply Z.leb_gt in E. lia.
Qed.

Lemma read_varint_loop_step fuel self res (j : nat) b :
  pos self < size self -> buffer_getitem self (pos self) = Ok b ->
  0 <= res < 2 ^ (7 * Z.of_nat j) -> (j <= 9)%nat ->
  read_varint_loop (S fuel) self res (7 * Z.of_nat j) =
    if Z.land b 128 =? 0
    then Ok (wrap64 (res + Z.land b 127 * 2 ^ (7 * Z.of_nat j)),
             set_pos self (pos self + 1))
    else if Nat.eqb j 9 then Raise (LensDecodeError VarintOverflow)
    else read_varint_loop fuel (set_pos self (pos self + 1))
           (res + Z.land b 127 * 2 ^ (7 * Z.of_nat j)) (7 * Z.of_nat (S j)).
Proof.
  intros Hlt Hget Hres Hj. cbn [read_varint_loop].
  destruct (pos self >=? size self) eqn:E;
    [rewrite Z.geb_leb in E; apply Z.leb_le in E; lia | clear E].
  rewrite Hget. cbn [bind].
  rewrite (lor_wrapped res (Z.land b 127) (7 * Z.of_nat j)) by lia.
  destruct (Z.land b 128 =? 0); [reflexivity |].
  destruct (Nat.eqb j 9) eqn:E9.
  - apply Nat.eqb_eq in E9. subst j. reflexivity.
  - apply Nat.eqb_neq in E9.
    destruct (7 * Z.of_nat j + 7 >? 63) eqn:E;
      [rewrite Z.gtb_ltb in E; apply Z.ltb_lt in E; lia | clear E].
    replace (7 * Z.of_nat j + 7) with (7 * Z.of_nat (S j)) by lia.
    pose proof (land_127_range b) as Hb127.
    assert (Hpow : 2 ^ (7 * Z.of_nat (S j)) <= 2 ^ 63)
      by (apply Z.pow_le_mono_r; lia).
    pose proof (pow_7_succ j) as Hsucc.
    assert (Hpos : 0 < 2 ^ (7 * Z.of_nat j)) by (apply Z.pow_pos_nonneg; lia).
    rewrite wrap64_small by (pow2; nia). reflexivity.
Qed.

Lemma read_varint_loop_cases (fuel : nat) :
  forall (j : nat) self res,
    0 <= pos self -> size self <= len (buffer self) ->
    (S fuel + j = 10)%nat -> 0 <= res < 2 ^ (7 * Z.of_nat j) ->
    let avail := consumed self (pos self) (size self) in
    (exists c rest,
       avail = c ++ rest /\ varint_shape c /\
       (List.length c + j <= 10)%nat /\
       read_varint_loop (S fuel) self res (7 * Z.of_nat j) =
         Ok (wrap64 (res + varint_value c * 2 ^ (7 * Z.of_nat j)),
             set_pos self (pos self + len c))) \/
    (Forall (fun b => Z.land b 128 <> 0) avail /\
     (List.length avail + j < 10)%nat /\
     read_varint_loop (S fuel) self res (7 * Z.of_nat j) =
       Raise (LensDecodeError EndOfBufferInVarint)) \/
    (exists c rest,
       avail = c ++ rest /\ Forall (fun b => Z.land b 128 <> 0) c /\
       (List.length c + j = 10)%nat /\
       read_varint_loop (S fuel) self res (7 * Z.of_nat j) =
         Raise (LensDecodeError VarintOverflow)).
Proof.
  induction fuel as [| fuel IH]; intros j self res Hp Hs Hf Hres avail;
    subst avail;
    destruct (consumed_cases self Hp Hs)
      as [[Hend Hnil] | (b & r & Hlt & Hget & Hcons & Htail)].
  - right; left. rewrite Hnil, read_varint_loop_end by assumption.
    repeat split; [constructor | cbn [List.length]; lia].
  - rewrite (read_varint_loop_step _ _ _ _ b) by (assumption || lia).
    rewrite Hcons.
    destruct (Z.land b 128 =? 0) eqn:E128;
      [apply Z.eqb_eq in E128 | apply Z.eqb_neq in E128].
    + left. exists [b], r. repeat split; [exact E128 | cbn [List.length]; lia |].
      cbn [varint_value]. change (len [b]) with 1.
      rewrite Z.mul_0_r, Z.add_0_r. reflexivity.
    + assert (j = 9%nat) by lia. subst j. cbn [Nat.eqb].
      right; right. exists [b], r.
      repeat split; repeat constructor; exact E128.
  - right; left. rewrite Hnil, read_varint_loop_end by assumption.
    repeat split; [constructor | cbn [List.length]; lia].
  - rewrite (read_varint_loop_step _ _ _ _ b) by (assumption || lia).
    rewrite Hcons.
    destruct (Z.land b 128 =? 0) eqn:E128;
      [apply Z.eqb_eq in E128 | apply Z.eqb_neq in E128].
    + left. exists [b], r. repeat split; [exact E128 | cbn [List.length]; lia |].
      cbn [varint_value]. change (len [b]) with 1.
      rewrite Z.mul_0_r, Z.add_0_r. reflexivity.
    + destruct (Nat.eqb j 9) eqn:E9; [apply Nat.eqb_eq in E9; lia | clear E9].
      pose proof (land_127_range b) as Hb127.
      pose proof (pow_7_succ j) as Hsucc.
      assert (Hpos : 0 < 2 ^ (7 * Z.of_nat j)) by (apply Z.pow_pos_nonneg; lia).
      assert (Hres' : 0 <= res + Z.land b 127 * 2 ^ (7 * Z.of_nat j)
                      < 2 ^ (7 * Z.of_nat (S j))) by nia.
      set (self' := set_pos self (pos self + 1)) in *.
      assert (Hp' : 0 <= pos self') by (cbn; lia).
      assert (Hs' : size self' <= len (buffer self')) by (cbn; assumption).
      destruct (IH (S j) self' _ Hp' Hs' ltac:(lia) Hres')
        as [(c & rest & Ha & Hc & Hl & Hr) | [(Hall & Hl & Hr)
            | (c & rest & Ha & Hc & Hl & Hr)]];
        change (pos self') with (pos self + 1) in *;
        change (size self') with (size self) in *;
        rewrite Htail in *.
      * left. exists (b :: c), rest. repeat split.
        -- rewrite Ha. reflexivity.
        -- apply varint_shape_cons; assumption.
        -- cbn [List.length]. lia.
        -- rewrite Hr. f_equal. f_equal.
           ++ f_equal. cbn [varint_value]. rewrite Hsucc. ring.
           ++ rewrite len_cons. unfold self', set_pos.
              cbn [buffer size pos symbols frame_pool pool_idx zero_copy
                   ext_hook ts_hook].
              f_equal. lia.
      * right; left. repeat split.
        -- constructor; assumption.
        -- cbn [List.length]. lia.
        -- exact Hr.
      * right; right. exists (b :: c), rest. repeat split.
        -- rewrite Ha. reflexivity.
        -- constructor; assumption.
        -- cbn [List.length]. lia.
        -- exact Hr.
Qed.

(** X5.  [_read_varint] on any buffer: it reads only between [pos] and [size],
    at most ten bytes; on bytes of varint shape it returns the low 64 bits
    of their value and leaves [pos] behind them; it raises the end-of-buffer
    error when fewer than ten bytes remain and all ask for more, and the
    overflow error when ten bytes in a row do. *)
Theorem read_varint_cases self :
  0 <= pos self -> size self <= len (buffer self) ->
  (exists c rest,
     consumed self (pos self) (size self) = c ++ rest /\
     varint_shape c /\ 1 <= len c <= 10 /\
     _read_varint self =
       Ok (wrap64 (varint_value c), set_pos self (pos self + len c))) \/
  (Forall (fun b => Z.land b 128 <> 0) (consumed self (pos self) (size self)) /\
   len (consumed self (pos self) (size self)) < 10 /\
   _read_varint self = Raise (LensDecodeError EndOfBufferInVarint)) \/
  (exists c rest,
     consumed self (pos self) (size self) = c ++ rest /\
     Forall (fun b => Z.land b 128 <> 0) c /\ len c = 10 /\
     _read_varint self = Raise (LensDecodeError VarintOverflow)).
Proof.
  intros Hp Hs. unfold _read_varint.
  destruct (read_varint_loop_cases 9 0 self 0 Hp Hs eq_refl ltac:(cbn; lia))
    as [(c & rest & Ha & Hc & Hl & Hr) | [(Hall & Hl & Hr)
        | (c & rest & Ha & Hc & Hl & Hr)]];
    change (7 * Z.of_nat 0) with 0 in *.
  - left. exists c, rest. repeat split; try assumption.
    + pose proof (varint_shape_nonempty c Hc). unfold len.
      destruct c; [congruence | cbn [List.length]; lia].
    + unfold len. lia.
    + rewrite Hr. change (2 ^ 0) with 1. rewrite Z.mul_1_r, Z.add_0_l.
      reflexivity.
  - right; left. repeat split; try assumption. unfold len. lia.
  - right; right. exists c, rest. repeat split; try assumption.
    unfold len. lia.
Qed.

Lemma read_varint_cases_witness :
  let self := FastDecoder_init [3; 172; 2; 0] [] false None None in
  let self := set_pos self 1 in
  (exists c rest,
     consumed self (pos self) (size self) = c ++ rest /\
     varint_shape c /\ 1 <= len c <= 10 /\
     _read_varint self =
       Ok (wrap64 (varint_value c), set_pos self (pos self + len c))) \/
  (Forall (fun b => Z.land b 128 <> 0) (consumed self (pos self) (size self)) /\
   len (consumed self (pos self) (size self)) < 10 /\
   _read_varint self = Raise (LensDecodeError EndOfBufferInVarint)) \/
  (exists c rest,
     consumed self (pos self) (size self) = c ++ rest /\
     Forall (fun b => Z.land b 128 <> 0) c /\ len c = 10 /\
     _read_varint self = Raise (LensDecodeError VarintOverflow)).
Proof.
  apply (read_varint_cases
           (set_pos (FastDecoder_init [3; 172; 2; 0] [] false None None) 1)).
  - cbn. lia.
  - cbn. lia.
Defined.

(** X6.  A varint written by [_write_varint] is read back by [_read_varint]
    wherever it sits in the buffer, and the reader stops right behind it. *)
Theorem read_varint_inverts_write u self pre post :
  0 <= u < 2 ^ 64 ->
  buffer self = pre ++ _write_varint u [] ++ post ->
  pos self = len pre -> size self = len (buffer self) ->
  _read_varint self = Ok (u, set_pos self (len pre + len (_write_varint u []))).
Proof.
  intros Hu Hb Hp Hs. rewrite <- Hp.
  apply (read_varint_written u self pre post); assumption.
Qed.

Lemma read_varint_inverts_write_witness :
  _read_varint (set_pos (FastDecoder_init ([3] ++ _write_varint 300 [] ++ [0])
                           [] false None None) 1)
  = Ok (300, set_pos (set_pos (FastDecoder_init ([3] ++ _write_varint 300 [] ++ [0])
                           [] false None None) 1)
               (len [3] + len (_write_varint 300 []))).
Proof.
  apply (read_varint_inverts_write 300
           (set_pos (FastDecoder_init ([3] ++ _write_varint 300 [] ++ [0])
                       [] false None None) 1) [3] [0]).
  - pow2. lia.
  - reflexivity.
  - reflexivity.
  - reflexivity.
Defined.

(** ** Sizes and layouts of encodings *)

(** X7.  An integer is encoded as the INT tag and the varint of its ZigZag
    code: [1 + k] bytes are enough exactly for [- 2^(7k-1) <= n < 2^(7k-1)]. *)
Theorem int_encoding_size self n (k : nat) :
  - 2 ^ 63 <= n < 2 ^ 63 ->
  exists out,
    encode self (VInt n) = Ok out /\
    out = T_INT :: _write_varint (c_zigzag_encode n) [] /\
    (len out <= 1 + Z.of_nat (S k) <->
     - 2 ^ (7 * Z.of_nat (S k) - 1) <= n < 2 ^ (7 * Z.of_nat (S k) - 1)).
Proof.
  intros Hn. eexists. split; [| split; [reflexivity |]].
  - unfold encode. cbn [_encode_recursive]. rewrite in_int64_true by assumption.
    rewrite write_varint_app. reflexivity.
  - rewrite len_cons.
    destruct (write_varint_layout (c_zigzag_encode n) (zigzag_encode_range n Hn))
      as (_ & _ & _ & _ & Hk).
    assert (Hp : 2 ^ (7 * Z.of_nat (S k)) = 2 * 2 ^ (7 * Z.of_nat (S k) - 1)).
    { rewrite <- Z.pow_succ_r by lia. f_equal. lia. }
    specialize (Hk k). pose proof (zigzag_encode_signs n Hn) as Hz.
    set (L := len (_write_varint (c_zigzag_encode n) [])) in *.
    set (c := c_zigzag_encode n) in *.
    set (P := 2 ^ (7 * Z.of_nat (S k) - 1)) in *.
    destruct Hk as [Hk1 Hk2].
    destruct (n <? 0) eqn:E; [apply Z.ltb_lt in E | apply Z.ltb_ge in E];
      split; intros H.
    + assert (L <= Z.of_nat (S k)) as HL by lia. apply Hk1 in HL. lia.
    + assert (L <= Z.of_nat (S k)); [apply Hk2 |]; lia.
    + assert (L <= Z.of_nat (S k)) as HL by lia. apply Hk1 in HL. lia.
    + assert (L <= Z.of_nat (S k)); [apply Hk2 |]; lia.
Qed.

Lemma int_encoding_size_witness :
  exists out,
    encode (FastEncoder_init [] None) (VInt (-64)) = Ok out /\
    out = T_INT :: _write_varint (c_zigzag_encode (-64)) [] /\
    (len out <= 1 + Z.of_nat 1 <->
     - 2 ^ (7 * Z.of_nat 1 - 1) <= -64 < 2 ^ (7 * Z.of_nat 1 - 1)).
Proof. apply (int_encoding_size (FastEncoder_init [] None) (-64) 0). pow2. lia. Defined.

(** X8.  A float is written as the FLOAT tag and the eight bytes of its bit
    pattern, most significant byte first. *)
Theorem float_big_endian self bits :
  encode self (VFloat bits) =
  Ok [T_FLOAT; byte_at bits 7; byte_at bits 6; byte_at bits 5; byte_at bits 4;
      byte_at bits 3; byte_at bits 2; byte_at bits 1; byte_at bits 0].
Proof.
  unfold encode. cbn [_encode_recursive]. rewrite word_bytes_swapped.
  reflexivity.
Qed.

Lemma bytes_word_bound l :
  Forall (fun c => 0 <= c < 256) l ->
  0 <= bytes_word l < 256 ^ Z.of_nat (List.length l).
Proof.
  induction 1 as [| c r Hc _ IH]; [cbn; lia |].
  cbn [bytes_word List.length]. rewrite lor_byte by assumption.
  rewrite Nat2Z.inj_succ, Z.pow_succ_r by lia. lia.
Qed.

Lemma lens_be64_range x : 0 <= lens_be64 x < 2 ^ 64.
Proof.
  unfold lens_be64.
  pose proof (word_bytes_range x) as Hr. apply Forall_rev in Hr.
  apply bytes_word_bound in Hr. rewrite length_rev in Hr. exact Hr.
Qed.

(** X9.  [lens_be64] is its own inverse on 64-bit words. *)
Theorem lens_be64_involution x :
  0 <= x < 2 ^ 64 -> lens_be64 (lens_be64 x) = x.
Proof.
  intros Hx.
  rewrite <- (bytes_of_word (lens_be64 x)) at 1 by apply lens_be64_range.
  apply lens_be64_involutive. assumption.
Qed.

Lemma lens_be64_involution_witness :
  lens_be64 (lens_be64 4607182418800017408) = 4607182418800017408.
Proof. apply (lens_be64_involution 4607182418800017408). pow2. lia. Defined.

Lemma encode_each_layout self items :
  forall buf out,
    encode_each self items buf = Ok out <->
    exists outs,
      Forall2 (fun x o => _encode_recursive self x [] = Ok o) items outs /\
      out = buf ++ List.concat outs.
Proof.
  induction items as [| x r IH]; intros buf out; cbn [encode_each].
  - split.
    + intros H. injection H as <-. exists [].
      split; [constructor | symmetry; apply app_nil_r].
    + intros (outs & Hf & ->). inversion Hf. cbn [List.concat].
      rewrite app_nil_r. reflexivity.
  - rewrite encode_prefix. split.
    + intros H.
      destruct (_encode_recursive self x []) as [o | | |] eqn:E;
        try discriminate.
      cbn [map_outcome bind] in H. apply IH in H. destruct H as (outs & Hf & ->).
      exists (o :: outs). split; [constructor; assumption |].
      cbn [List.concat]. rewrite app_assoc. reflexivity.
    + intros (outs & Hf & ->). inversion Hf as [| ? o ? outs' Hx Hr]; subst.
      rewrite Hx. cbn [map_outcome bind]. apply IH. exists outs'.
      split; [assumption |]. cbn [List.concat]. rewrite app_assoc. reflexivity.
Qed.

Lemma header_eq tag n rest :
  _write_varint n ([] ++ [tag]) ++ rest = tag :: _write_varint n [] ++ rest.
Proof. rewrite write_varint_app. reflexivity. Qed.

Lemma encode_sequence_layout self items out :
  (encode self (VList items) = Ok out <->
   exists outs,
     Forall2 (fun x o => encode self x = Ok o) items outs /\
     out = T_ARR :: _write_varint (len items) [] ++ List.concat outs) /\
  (encode self (VTuple items) = Ok out <->
   exists outs,
     Forall2 (fun x o => encode self x = Ok o) items outs /\
     out = T_TUPLE :: _write_varint (len items) [] ++ List.concat outs) /\
  (encode self (VSet items) = Ok out <->
   exists outs,
     Forall2 (fun x o => encode self x = Ok o) items outs /\
     out = T_SET :: _write_varint (len items) [] ++ List.concat outs).
Proof.
  unfold encode.
  rewrite encode_list_eq, encode_tuple_eq, encode_set_eq.
  rewrite !encode_each_layout.
  repeat split; intros (outs & Hf & Ho); exists outs; (split; [exact Hf |]);
    rewrite Ho; first [apply header_eq | symmetry; apply header_eq].
Qed.

(** X10.  A list, tuple or set is written as its tag, the varint of its length
    and the encodings of its elements one after the other, with nothing in
    between; it encodes exactly when every element does. *)
Theorem sequence_layout self items out :
  (encode self (VList items) = Ok out <->
   exists outs,
     Forall2 (fun x o => encode self x = Ok o) items outs /\
     out = T_ARR :: _write_varint (len items) [] ++ List.concat outs) /\
  (encode self (VTuple items) = Ok out <->
   exists outs,
     Forall2 (fun x o => encode self x = Ok o) items outs /\
     out = T_TUPLE :: _write_varint (len items) [] ++ List.concat outs) /\
  (encode self (VSet items) = Ok out <->
   exists outs,
     Forall2 (fun x o => encode self x = Ok o) items outs /\
     out = T_SET :: _write_varint (len items) [] ++ List.concat outs).
Proof. exact (encode_sequence_layout self items out). Qed.

Lemma encode_entries_layout self entries :
  forall buf out,
    encode_entries self entries buf = Ok out <->
    exists chunks,
      Forall2 (entry_chunk self) entries chunks /\
      out = buf ++ List.concat chunks.
Proof.
  induction entries as [| [k x] r IH]; intros buf out; cbn [encode_entries].
  - split.
    + intros H. injection H as <-. exists [].
      split; [constructor | symmetry; apply app_nil_r].
    + intros (outs & Hf & ->). inversion Hf. cbn [List.concat].
      rewrite app_nil_r. reflexivity.
  - split.
    + intros H.
      destruct (symbol_map_getitem self k) as [i | | |] eqn:Ek; try discriminate.
      cbn [bind] in H. rewrite encode_prefix in H.
      destruct (_encode_recursive self x []) as [o | | |] eqn:E; try discriminate.
      cbn [map_outcome bind] in H. apply IH in H. destruct H as (chunks & Hf & ->).
      unfold symbol_map_getitem in Ek. destruct k; try discriminate.
      destruct (dict_get String.eqb (symbol_map self) s) as [j |] eqn:Ej;
        try discriminate.
      injection Ek as ->.
      exists (((T_SYMREF :: _write_varint i []) ++ o) :: chunks). split.
      * constructor; [| assumption]. exists s, i, o. cbn [fst snd]. auto.
      * cbn [List.concat]. rewrite write_varint_app, <- !app_assoc. reflexivity.
    + intros (chunks & Hf & ->).
      inversion Hf as [| ? c ? chunks' Hc Hr]; subst.
      destruct Hc as (s & i & o & Hk & Hi & Ho & ->). cbn [fst snd] in *.
      subst k. unfold symbol_map_getitem. rewrite Hi. cbn [bind].
      rewrite encode_prefix, Ho. cbn [map_outcome bind]. apply IH.
      exists chunks'. split; [assumption |].
      cbn [List.concat]. rewrite (write_varint_app i (buf ++ _)), <- !app_assoc.
      reflexivity.
Qed.

Lemma encode_dict_layout self entries out :
  encode self (VDict entries) = Ok out <->
  exists chunks,
    Forall2 (entry_chunk self) entries chunks /\
    out = T_OBJ :: _write_varint (len entries) [] ++ List.concat chunks.
Proof.
  unfold encode. rewrite encode_dict_eq, encode_entries_layout.
  split; intros (chunks & Hf & Ho); exists chunks; (split; [exact Hf |]);
    rewrite Ho; first [apply header_eq | symmetry; apply header_eq].
Qed.

(** X11.  A dict is written as the OBJ tag, the varint of its size and, for each
    entry in iteration order, the SYMREF tag, the varint of the key's index
    in the symbol map and the encoding of the value. *)
Theorem dict_layout self entries out :
  encode self (VDict entries) = Ok out <->
  exists chunks,
    Forall2 (entry_chunk self) entries chunks /\
    out = T_OBJ :: _write_varint (len entries) [] ++ List.concat chunks.
Proof. exact (encode_dict_layout self entries out). Qed.

(** X12.  [_encode_recursive] only appends: what the buffer already holds stays
    in front unchanged, and what is appended does not depend on it. *)
Theorem encode_appends self obj buf :
  _encode_recursive self obj buf =
  match encode self obj with
  | Ok out => Ok (buf ++ out)
  | Raise e => Raise e
  | Undefined u => Undefined u
  | OutOfFuel => OutOfFuel
  end.
Proof.
  rewrite encode_prefix. unfold encode.
  destruct (_encode_recursive self obj []); reflexivity.
Qed.

(** ** The symbol map *)

Lemma enumerate_symbols_last symbols :
  forall i0 m s i,
    dict_get String.eqb (enumerate_symbols i0 symbols m) s = Some i ->
    (dict_get String.eqb m s = Some i /\ ~ In s symbols) \/
    (i0 <= i < i0 + len symbols /\
     nth_error symbols (Z.to_nat (i - i0)) = Some s /\
     forall j, i < j -> nth_error symbols (Z.to_nat (j - i0)) <> Some s).
Proof.
  induction symbols as [| sym rest IH]; intros i0 m s i H;
    cbn [enumerate_symbols] in H.
  - left. split; [assumption | intros []].
  - apply IH in H. rewrite len_cons. pose proof (len_nonneg rest) as Hr.
    destruct H as [[Hm Hn] | (Hi & Hnth & Hlast)].
    + rewrite dict_get_set in Hm.
      destruct (String.eqb sym s) eqn:E.
      * apply String.eqb_eq in E. subst sym. injection Hm as <-. right.
        repeat split; try lia.
        -- rewrite Z.sub_diag. reflexivity.
        -- intros j Hj Hc.
           replace (Z.to_nat (j - i0)) with (S (Z.to_nat (j - (i0 + 1))))
             in Hc by lia.
           cbn [nth_error] in Hc. apply nth_error_In in Hc. contradiction.
      * apply String.eqb_neq in E. left. split; [assumption |].
        intros [Hc | Hc]; [congruence | contradiction].
    + right. repeat split; try lia.
      * replace (Z.to_nat (i - i0)) with (S (Z.to_nat (i - (i0 + 1)))) by lia.
        exact Hnth.
      * intros j Hj.
        replace (Z.to_nat (j - i0)) with (S (Z.to_nat (j - (i0 + 1)))) by lia.
        cbn [nth_error]. apply Hlast. assumption.
Qed.

(** X13.  The index the encoder writes for a string of the symbol table is the
    position of its last occurrence in the table; a string that is not in
    the table has no index. *)
Theorem symbol_index_last_occurrence symbols handler s :
  match dict_get String.eqb (symbol_map (FastEncoder_init symbols handler)) s with
  | Some i =>
      0 <= i < len symbols /\
      nth_error symbols (Z.to_nat i) = Some s /\
      forall j, i < j -> nth_error symbols (Z.to_nat j) <> Some s
  | None => ~ In s symbols
  end.
Proof.
  cbn [FastEncoder_init symbol_map].
  destruct (dict_get String.eqb (enumerate_symbols 0 symbols []) s) as [i |] eqn:E.
  - apply enumerate_symbols_last in E.
    destruct E as [[Hm _] | (Hi & Hnth & Hlast)]; [discriminate Hm |].
    rewrite Z.sub_0_r in Hnth. repeat split; try lia; [assumption |].
    intros j Hj. specialize (Hlast j Hj). rewrite Z.sub_0_r in Hlast.
    assumption.
  - apply enumerate_symbols_none in E. tauto.
Qed.

(** ** Round trips *)





(** ** Payloads *)

Ltac is_tag t :=
  match t with
  | T_NULL => idtac | T_TRUE => idtac | T_FALSE => idtac | T_INT => idtac
  | T_FLOAT => idtac | T_STR => idtac | T_ARR => idtac | T_OBJ => idtac
  | T_SYMREF => idtac | T_BYTES => idtac | T_TIME => idtac | T_EXT => idtac
  | T_SET => idtac | T_TUPLE => idtac
  end.

Ltac tag_tests :=
  repeat match goal with
         | |- context [Z.eqb ?a ?b] =>
             is_tag a; is_tag b;
             let r := eval vm_compute in (Z.eqb a b) in
             change (Z.eqb a b) with r
         end;
  cbv iota.

Lemma tag_read self pre b post :
  buffer self = pre ++ b :: post -> pos self = len pre ->
  size self = len (buffer self) ->
  (pos self >=? size self) = false /\ buffer_getitem self (pos self) = Ok b.
Proof.
  intros Hb Hp Hs. split.
  - rewrite Hs, Hb, Hp, len_app, len_cons. pose proof (len_nonneg post).
    rewrite Z.geb_leb. apply Z.leb_gt. lia.
  - unfold buffer_getitem. rewrite Hb, Hp.
    pose proof (len_nonneg pre).
    destruct (len pre <? 0) eqn:E; [apply Z.ltb_lt in E; lia |].
    rewrite nth_error_middle. reflexivity.
Qed.

Lemma set_pos_set_pos self a b : set_pos (set_pos self a) b = set_pos self b.
Proof. reflexivity. Qed.

Lemma slice_at self pre mid post p :
  buffer self = pre ++ mid ++ post -> size self = len (buffer self) ->
  p = len pre + len mid ->
  buffer_slice (set_pos self p) (len pre) p = mid.
Proof.
  intros Hb Hs ->. unfold buffer_slice, slice_bound.
  cbn [size set_pos buffer]. rewrite Hs, Hb, !len_app.
  pose proof (len_nonneg pre). pose proof (len_nonneg mid).
  pose proof (len_nonneg post).
  destruct (len pre <? 0) eqn:E1; [apply Z.ltb_lt in E1; lia | clear E1].
  destruct (len pre + len mid <? 0) eqn:E2; [apply Z.ltb_lt in E2; lia | clear E2].
  rewrite !Z.min_l by lia.
  replace (len pre + len mid - len pre) with (len mid) by lia.
  rewrite skipn_len_app.
  unfold len. rewrite Nat2Z.id, firstn_app, Nat.sub_diag, firstn_all.
  cbn [firstn]. apply app_nil_r.
Qed.

Lemma bytes_decode_at self stack payload pre post :
  buffer self = pre ++ (T_BYTES :: _write_varint (len payload) [] ++ payload) ++ post ->
  pos self = len pre -> size self = len (buffer self) ->
  len (buffer self) <= PY_SSIZE_T_MAX ->
  decode_value self stack =
  install (set_pos self (len pre + len (T_BYTES :: _write_varint (len payload) []
                                          ++ payload)))
    stack (if zero_copy self then VMemoryview payload else VBytes payload).
Proof.
  intros Hb Hp Hs Hmax. unfold PY_SSIZE_T_MAX in Hmax.
  set (W := _write_varint (len payload) []) in *.
  assert (Hlen : len (buffer self) = len pre + (1 + (len W + len payload)) + len post).
  { rewrite Hb, !len_app, len_cons, len_app. lia. }
  pose proof (len_nonneg pre). pose proof (len_nonneg W).
  pose proof (len_nonneg payload). pose proof (len_nonneg post).
  cbn [app] in Hb. destruct (tag_read self pre _ _ Hb Hp Hs) as [Hend Htag].
  unfold decode_value. rewrite Hend, Htag. cbn [step_bind]. tag_tests.
  rewrite (read_varint_written (len payload) _ (pre ++ [T_BYTES]) (payload ++ post));
    [| pow2; lia
     | cbn [buffer set_pos]; rewrite Hb, <- !app_assoc; reflexivity
     | cbn [pos set_pos]; rewrite Hp, len_snoc; reflexivity
     | exact Hs ].
  cbn [step_bind]. fold W. cbn [pos set_pos size zero_copy].
  rewrite (to_int64_small (len payload)) by (pow2; lia).
  rewrite Hp, Hs, Hlen.
  rewrite to_int64_small by (pow2; lia).
  destruct (_ >? _) eqn:E; [rewrite Z.gtb_ltb in E; apply Z.ltb_lt in E; lia | clear E].
  rewrite len_cons, len_app.
  replace (len pre + 1 + len W + len payload)
    with (len (pre ++ T_BYTES :: W) + len payload)
    by (rewrite len_app, len_cons; lia).
  replace (len pre + 1 + len W) with (len (pre ++ T_BYTES :: W))
    by (rewrite len_app, len_cons; lia).
  rewrite !set_pos_set_pos.
  rewrite (slice_at self (pre ++ T_BYTES :: W) payload post);
    [| rewrite Hb, <- !app_assoc; reflexivity | exact Hs | reflexivity].
  rewrite len_app, len_cons.
  replace (len pre + (1 + len W) + len payload)
    with (len pre + (1 + (len W + len payload))) by lia.
  reflexivity.
Qed.



Lemma ext_decode_at self stack eid payload pre post :
  0 <= eid < 2 ^ 64 ->
  buffer self =
    pre ++ (T_EXT :: _write_varint eid [] ++ _write_varint (len payload) []
              ++ payload) ++ post ->
  pos self = len pre -> size self = len (buffer self) ->
  len (buffer self) <= PY_SSIZE_T_MAX ->
  decode_value self stack =
  (val <-- match ext_hook self with
           | Some hook => hook eid payload
           | None => Ok (VTuple [VInt eid; VMemoryview payload])
           end ;;
   install (set_pos self
              (len pre + len (T_EXT :: _write_varint eid []
                                ++ _write_varint (len payload) [] ++ payload)))
     stack val).
Proof.
  intros He Hb Hp Hs Hmax. unfold PY_SSIZE_T_MAX in Hmax.
  set (E := _write_varint eid []) in *.
  set (W := _write_varint (len payload) []) in *.
  assert (Hlen : len (buffer self)
                 = len pre + (1 + (len E + (len W + len payload))) + len post).
  { rewrite Hb, !len_app, len_cons, !len_app. lia. }
  pose proof (len_nonneg pre). pose proof (len_nonneg W). pose proof (len_nonneg E).
  pose proof (len_nonneg payload). pose proof (len_nonneg post).
  cbn [app] in Hb. destruct (tag_read self pre _ _ Hb Hp Hs) as [Hend Htag].
  unfold decode_value. rewrite Hend, Htag. cbn [step_bind]. tag_tests.
  rewrite (read_varint_written eid _ (pre ++ [T_EXT]) (W ++ payload ++ post));
    [| assumption
     | cbn [buffer set_pos]; rewrite Hb, <- !app_assoc; reflexivity
     | cbn [pos set_pos]; rewrite Hp, len_snoc; reflexivity
     | exact Hs ].
  cbn [step_bind]. fold E.
  rewrite (read_varint_written (len payload) _ (pre ++ T_EXT :: E) (payload ++ post));
    [| pow2; lia
     | cbn [buffer set_pos]; rewrite Hb, <- !app_assoc; reflexivity
     | cbn [pos set_pos]; rewrite Hp, len_app, len_cons; lia
     | exact Hs ].
  cbn [step_bind]. fold W. cbn [pos set_pos size ext_hook].
  rewrite (to_int64_small (len payload)) by (pow2; lia).
  rewrite Hp.
  rewrite to_int64_small by (pow2; lia).
  rewrite len_cons, !len_app.
  replace (len pre + 1 + len E + len W + len payload)
    with (len (pre ++ T_EXT :: E ++ W) + len payload)
    by (rewrite !len_app, len_cons, len_app; lia).
  replace (len pre + 1 + len E + len W) with (len (pre ++ T_EXT :: E ++ W))
    by (rewrite !len_app, len_cons, len_app; lia).
  rewrite !set_pos_set_pos.
  rewrite (slice_at self (pre ++ T_EXT :: E ++ W) payload post);
    [| rewrite Hb, <- !app_assoc; cbn [app]; rewrite <- !app_assoc; reflexivity
     | exact Hs | reflexivity].
  rewrite !len_app, len_cons, len_app.
  replace (len pre + (1 + (len E + len W)) + len payload)
    with (len pre + (1 + (len E + (len W + len payload)))) by lia.
  reflexivity.
Qed.

(** X17.  An object the extension handler accepts as [(eid, payload)] is written
    as the EXT tag, the varint of [eid], the varint of the payload length
    and the payload; decoding hands [eid] and a view of the payload to
    [ext_hook], or returns the pair of them when there is no hook. *)
Theorem ext_roundtrip obj handler eid payload symbols
    (zc : bool) hook ts fuel :
  fallthrough obj = true -> handler obj = Some (eid, payload) ->
  0 <= eid < 2 ^ 64 -> len payload + 21 <= PY_SSIZE_T_MAX ->
  exists data,
    encode (FastEncoder_init symbols (Some handler)) obj = Ok data /\
    data = T_EXT :: _write_varint eid [] ++ _write_varint (len payload) []
             ++ payload /\
    decode_all (S fuel) (FastDecoder_init data symbols zc hook ts)
    = match hook with
      | Some hook => hook eid payload
      | None => Ok (VTuple [VInt eid; VMemoryview payload])
      end.
Proof.
  intros Hf Hh He Hlen. eexists. split; [| split; [reflexivity |]].
  - unfold encode.
    assert (Hu : in_uint64 eid = true).
    { unfold in_uint64. apply andb_true_intro. split;
        [apply Z.leb_le | apply Z.ltb_lt]; lia. }
    destruct obj; try discriminate Hf;
      cbn [_encode_recursive FastEncoder_init ext_handler];
      rewrite Hh, Hu;
      rewrite (write_varint_app _ (_write_varint eid _)), (write_varint_app eid);
      cbn [app]; rewrite <- !app_assoc; reflexivity.
  - unfold decode_all. cbn [decode_loop decode_step].
    rewrite (ext_decode_at _ [] eid payload [] []).
    + cbn [ext_hook FastDecoder_init].
      destruct hook as [hook |]; [| reflexivity].
      destruct (hook eid payload); reflexivity.
    + assumption.
    + cbn [app buffer FastDecoder_init]. rewrite app_nil_r. reflexivity.
    + reflexivity.
    + reflexivity.
    + cbn [buffer FastDecoder_init]. rewrite len_cons, !len_app.
      assert (len (_write_varint (len payload) []) <= 10).
      { apply write_varint_length_64. unfold PY_SSIZE_T_MAX in Hlen. pow2. lia. }
      assert (len (_write_varint eid []) <= 10).
      { apply write_varint_length_64. lia. }
      lia.
Qed.

Lemma ext_roundtrip_witness :
  exists data,
    encode (FastEncoder_init [] (Some (fun _ => Some (300, [1; 2])))) (VOther "Point")
      = Ok data /\
    data = T_EXT :: _write_varint 300 [] ++ _write_varint (len [1; 2]) []
             ++ [1; 2] /\
    decode_all 1 (FastDecoder_init data [] false None None)
    = Ok (VTuple [VInt 300; VMemoryview [1; 2]]).
Proof.
  apply (ext_roundtrip (VOther "Point") (fun _ => Some (300, [1; 2])) 300 [1; 2]
           [] false None None 0).
  - reflexivity.
  - reflexivity.
  - pow2. lia.
  - vm_compute. discriminate.
Defined.

(** ** A length that moves the read position backwards *)

Lemma rewinding_step c table r elems :
  0 <= c < 2 ^ 63 -> r <> 0 ->
  exists elems',
    decode_step (rewinding_state c table r elems) [Pooled 0]
    = Continue (rewinding_state c table (r - 1) elems') [Pooled 0].
Proof.
  intros Hc Hr.
  set (W := _write_varint c []).
  assert (HW : 0 <= len W <= 10).
  { split; [apply len_nonneg | apply write_varint_length_64; pow2; lia]. }
  set (self := rewinding_state c table r elems).
  assert (Hb : buffer self = (T_SET :: W) ++ T_BYTES :: _write_varint (2 ^ 64 - 11) [])
    by reflexivity.
  assert (Hp : pos self = len (T_SET :: W)) by (rewrite len_cons; reflexivity).
  assert (Hs : size self = len (buffer self)) by reflexivity.
  assert (Hsz : size self = 1 + len W + 11).
  { rewrite Hs, Hb, len_app, len_cons. reflexivity. }
  destruct (tag_read self _ _ _ Hb Hp Hs) as [Hend Htag].
  cbn [decode_step deref]. change (frame_pool self)
    with (list_store (repeat (reset CNone 0 false) 32) 0
            {| container := CSet elems; remaining := r; list_idx := 0;
               current_key := VNone; is_dict := false |}).
  cbn [repeat list_store nth remaining is_dict andb].
  destruct (r =? 0) eqn:E; [apply Z.eqb_eq in E; contradiction | clear E].
  unfold decode_value. rewrite Hend, Htag. cbn [step_bind]. tag_tests.
  rewrite (read_varint_written (2 ^ 64 - 11) _ (T_SET :: W ++ [T_BYTES]) []);
    [| pow2; lia
     | cbn [buffer set_pos]; rewrite Hb; cbn [app]; rewrite <- app_assoc, app_nil_r;
       reflexivity
     | cbn [pos set_pos]; rewrite Hp, !len_cons, len_app, len_cons;
       change (len (@nil Z)) with 0; lia
     | exact Hs ].
  cbn [step_bind]. cbn [pos set_pos size zero_copy]. rewrite Hp, len_cons.
  change (to_int64 (2 ^ 64 - 11)) with (-11).
  change (len (_write_varint (2 ^ 64 - 11) [])) with 10.
  replace (1 + len W + 1 + 10 + -11) with (1 + len W) by lia.
  rewrite (to_int64_small (1 + len W)) by (pow2; lia).
  fold (size self). rewrite Hsz.
  destruct (_ >? _) eqn:E; [rewrite Z.gtb_ltb in E; apply Z.ltb_lt in E; lia | clear E].
  change (zero_copy self) with false. cbv iota.
  assert (Hraw : forall s', size s' = size self ->
            buffer_slice s' (1 + len W + 1 + 10) (1 + len W) = []).
  { intros s' Hs'. unfold buffer_slice, slice_bound. rewrite Hs', Hsz.
    destruct (1 + len W + 1 + 10 <? 0) eqn:E1; [apply Z.ltb_lt in E1; lia |].
    destruct (1 + len W <? 0) eqn:E2; [apply Z.ltb_lt in E2; lia |].
    rewrite !Z.min_l by lia.
    replace (Z.to_nat (1 + len W - (1 + len W + 1 + 10))) with O by lia.
    reflexivity. }
  rewrite Hraw by reflexivity.
  eexists. cbn [install deref set_pos frame_pool].
  change (frame_pool self)
    with (list_store (repeat (reset CNone 0 false) 32) 0
            {| container := CSet elems; remaining := r; list_idx := 0;
               current_key := VNone; is_dict := false |}).
  cbn [repeat list_store nth _fill_container is_dict container PySet_Add
       hashable bind step_bind with_fill with_remaining remaining list_idx
       current_key store_top set_pool frame_pool pool_idx buffer size pos
       symbols zero_copy ext_hook ts_hook].
  unfold rewinding_state. cbn [repeat list_store]. fold W. reflexivity.
Qed.

Lemma rewinding_loop c table (fuel : nat) :
  0 <= c < 2 ^ 63 ->
  forall r elems, Z.of_nat fuel <= r ->
    decode_loop fuel (rewinding_state c table r elems) [Pooled 0] = OutOfFuel.
Proof.
  intros Hc. induction fuel as [| fuel IH]; intros r elems Hr; [reflexivity |].
  cbn [decode_loop].
  destruct (rewinding_step c table r elems Hc ltac:(lia)) as (elems' & ->).
  apply IH. lia.
Qed.



(** ** Decoding loops over a stack of frames

    What the round trip of a stack-based decoder rests on, proved once for
    all of them.  The decoder is given by one iteration of its loop
    ([step]), by what it does with a finished value ([deliver]) and by the
    frames it keeps while a container is filled; the hypotheses say how one
    iteration reads a scalar, opens a container, stores an element and
    closes a container. *)

Lemma iterate_S {D F E U : Type}
    (step : D -> list F -> turn D F (result E U value)) fuel self stack :
  iterate step (S fuel) self stack = resume step fuel (step self stack).
Proof. reflexivity. Qed.

Lemma frames_element k items x :
  In x items -> (S (frames x) <= frames (seq_value k items))%nat.
Proof.
  intros Hin.
  assert (H : (frames x <= (fix deepest (l : list value) : nat :=
                              match l with
                              | [] => O
                              | y :: r => Nat.max (frames y) (deepest r)
                              end) items)%nat).
  { induction items as [| y r IH]; [contradiction |].
    destruct Hin as [-> | Hin]; [lia |]. specialize (IH Hin). lia. }
  destruct k; cbn [seq_value frames]; lia.
Qed.

Lemma frames_entry entries kv :
  In kv entries -> (S (frames (snd kv)) <= frames (VDict entries))%nat.
Proof.
  intros Hin.
  assert (H : (frames (snd kv) <=
               (fix deepest (l : list (value * value)) : nat :=
                  match l with
                  | [] => O
                  | (_, y) :: r => Nat.max (frames y) (deepest r)
                  end) entries)%nat).
  { induction entries as [| [k y] r IH]; [contradiction |].
    destruct Hin as [Heq | Hin]; [subst kv; cbn [snd]; lia |].
    specialize (IH Hin). lia. }
  cbn [frames]. lia.
Qed.

Section Machine.
Variables D F E U A : Type.
Variable step : D -> list F -> turn D F (result E U value).
Variable deliver : D -> list F -> value -> turn D F (result E U value).
Variable at_ : Z -> A -> D.
Variable expects : list F -> Prop.
Variable fits : nat -> Prop.
Variable seq_frame : seq_kind -> list value -> list value -> F.
Variable dict_frame : list (value * value) -> list (value * value) -> value -> F.
Variable d : dialect.
Variable shortcut : bool.
Variable symbols : list string.
Variable handler : option (value -> option (Z * list Z)).
Variable data : list Z.

Abbreviation enc := (FastEncoder_init symbols handler).
Abbreviation run := (resume step).

Hypothesis fits_down : forall n m, fits n -> (m <= n)%nat -> fits m.

Hypothesis expects_seq :
  forall k done x rest stack, expects (seq_frame k done (x :: rest) :: stack).

Hypothesis expects_dict :
  forall done e rest s stack,
    expects (dict_frame done (e :: rest) (VStr s) :: stack).

Hypothesis step_scalar :
  forall v out pre post a stack,
    scalar v -> portable d symbols v -> encode enc v = Ok out ->
    data = pre ++ out ++ post -> expects stack ->
    step (at_ (len pre) a) stack = deliver (at_ (len pre + len out) a) stack v.

Hypothesis step_open :
  forall k (items : list value) pre post a stack,
    (k = KList \/ with_tuple_set d = true) ->
    (k = KList -> shortcut = true -> items <> []) ->
    data = pre ++ (seq_tag k :: _write_varint (len items) []) ++ post ->
    len items <= len data -> expects stack -> fits (S (List.length stack)) ->
    exists a',
      step (at_ (len pre) a) stack =
      Next (at_ (len pre + len (seq_tag k :: _write_varint (len items) [])) a')
        (seq_frame k [] items :: stack).

Hypothesis step_empty :
  shortcut = true ->
  forall pre post a stack,
    data = pre ++ (T_ARR :: _write_varint 0 []) ++ post -> expects stack ->
    step (at_ (len pre) a) stack =
    deliver (at_ (len pre + len (T_ARR :: _write_varint 0 [])) a) stack (VList []).

Hypothesis deliver_seq :
  forall k done x rest self stack,
    seq_ok k done x ->
    deliver self (seq_frame k done (x :: rest) :: stack) x =
    Next self (seq_frame k (done ++ [x]) rest :: stack).

Hypothesis step_close :
  forall k items p a stack,
    exists a',
      step (at_ p a) (seq_frame k items [] :: stack) =
      deliver (at_ p a') stack (seq_value k items).

Hypothesis step_open_dict :
  forall (entries : list (value * value)) pre post a stack,
    (shortcut = true -> entries <> []) ->
    data = pre ++ (T_OBJ :: _write_varint (len entries) []) ++ post ->
    len entries <= len data -> expects stack -> fits (S (List.length stack)) ->
    exists a',
      step (at_ (len pre) a) stack =
      Next (at_ (len pre + len (T_OBJ :: _write_varint (len entries) [])) a')
        (dict_frame [] entries VNone :: stack).

Hypothesis step_empty_dict :
  shortcut = true ->
  forall pre post a stack,
    data = pre ++ (T_OBJ :: _write_varint 0 []) ++ post -> expects stack ->
    step (at_ (len pre) a) stack =
    deliver (at_ (len pre + len (T_OBJ :: _write_varint 0 [])) a) stack (VDict []).

Hypothesis step_key :
  forall s i x done rest pre post a stack,
    dict_get String.eqb (symbol_map enc) s = Some i ->
    data = pre ++ (T_SYMREF :: _write_varint i []) ++ post ->
    step (at_ (len pre) a) (dict_frame done ((VStr s, x) :: rest) VNone :: stack) =
    Next (at_ (len pre + len (T_SYMREF :: _write_varint i [])) a)
      (dict_frame done ((VStr s, x) :: rest) (VStr s) :: stack).

Hypothesis deliver_dict :
  forall s x done rest self stack,
    existsb (fun e => py_eqb (fst e) (VStr s)) done = false ->
    deliver self (dict_frame done ((VStr s, x) :: rest) (VStr s) :: stack) x =
    Next self (dict_frame (done ++ [(VStr s, x)]) rest VNone :: stack).

Hypothesis step_close_dict :
  with_dict d = true ->
  forall entries p a stack,
    exists a',
      step (at_ p a) (dict_frame entries [] VNone :: stack) =
      deliver (at_ p a') stack (VDict entries).

Abbreviation arrives :=
  (delivered step deliver at_ expects fits symbols handler data).

Lemma machine_elements k (items : list value) (outs : list (list Z)) :
  Forall2 (fun x o => encode enc x = Ok o) items outs ->
  forall done pre post a stack,
    Forall arrives items ->
    Forall (fun x => fits (S (List.length stack) + frames x)) items ->
    chain (seq_ok k) done items ->
    data = pre ++ List.concat outs ++ post ->
    exists n a',
      forall fuel,
        iterate step (n + fuel) (at_ (len pre) a) (seq_frame k done items :: stack) =
        iterate step fuel (at_ (len pre + len (List.concat outs)) a')
          (seq_frame k (done ++ items) [] :: stack).
Proof.
  induction 1 as [| x o rest outs Hx _ IH];
    intros done pre post a stack Hback Hfits Hchain Hdata.
  - exists O, a. intros fuel. cbn [List.concat Nat.add].
    change (len (@nil Z)) with 0. rewrite Z.add_0_r, app_nil_r. reflexivity.
  - apply Forall_cons_iff in Hback as [Bx Brest].
    apply Forall_cons_iff in Hfits as [Fx Frest].
    destruct Hchain as [Hok Hchain]. cbn [List.concat] in Hdata.
    destruct (Bx o Hx pre (List.concat outs ++ post) a
                (seq_frame k done (x :: rest) :: stack))
      as (n1 & a1 & Hrun1).
    { rewrite Hdata, <- app_assoc. reflexivity. }
    { apply expects_seq. }
    { cbn [List.length]. exact Fx. }
    destruct (IH (done ++ [x]) (pre ++ o) post a1 stack Brest Frest Hchain)
      as (n2 & a2 & Hrun2).
    { rewrite Hdata, <- !app_assoc. reflexivity. }
    exists (S (n1 + n2)), a2. intros fuel.
    cbn [Nat.add]. rewrite iterate_S, <- Nat.add_assoc, Hrun1.
    rewrite deliver_seq by exact Hok. cbn [resume].
    rewrite <- (len_app pre o), Hrun2.
    cbn [List.concat]. rewrite !len_app, <- app_assoc, Z.add_assoc.
    reflexivity.
Qed.

Lemma machine_entries (entries : list (value * value)) (chunks : list (list Z)) :
  Forall2 (entry_chunk enc) entries chunks ->
  forall done pre post a stack,
    Forall (fun kv => arrives (snd kv)) entries ->
    Forall (fun kv => fits (S (List.length stack) + frames (snd kv))) entries ->
    distinct_keys done entries ->
    data = pre ++ List.concat chunks ++ post ->
    exists n a',
      forall fuel,
        iterate step (n + fuel) (at_ (len pre) a)
          (dict_frame done entries VNone :: stack) =
        iterate step fuel (at_ (len pre + len (List.concat chunks)) a')
          (dict_frame (done ++ entries) [] VNone :: stack).
Proof.
  induction 1 as [| [key x] c rest chunks Hc _ IH];
    intros done pre post a stack Hback Hfits Hkeys Hdata.
  - exists O, a. intros fuel. cbn [List.concat Nat.add].
    change (len (@nil Z)) with 0. rewrite Z.add_0_r, app_nil_r. reflexivity.
  - apply Forall_cons_iff in Hback as [Bx Brest].
    apply Forall_cons_iff in Hfits as [Fx Frest].
    destruct Hc as (s & i & o & Hk & Hi & Ho & ->). cbn [fst snd] in *.
    subst key. destruct Hkeys as [Hfresh Hkeys]. cbn [List.concat] in Hdata.
    set (K := T_SYMREF :: _write_varint i []) in *.
    destruct (Bx o Ho (pre ++ K) (List.concat chunks ++ post) a
                (dict_frame done ((VStr s, x) :: rest) (VStr s) :: stack))
      as (n1 & a1 & Hrun1).
    { rewrite Hdata, <- !app_assoc. reflexivity. }
    { apply expects_dict. }
    { cbn [List.length]. exact Fx. }
    destruct (IH (done ++ [(VStr s, x)]) (pre ++ K ++ o) post a1 stack
                Brest Frest Hkeys)
      as (n2 & a2 & Hrun2).
    { rewrite Hdata, <- !app_assoc. reflexivity. }
    exists (S (S (n1 + n2))), a2. intros fuel.
    cbn [Nat.add]. rewrite iterate_S.
    rewrite (step_key s i x done rest pre (o ++ List.concat chunks ++ post))
      by (assumption || (rewrite Hdata, <- !app_assoc; reflexivity)).
    fold K. cbn [resume].
    rewrite iterate_S, <- (len_app pre K), <- Nat.add_assoc, Hrun1.
    rewrite deliver_dict by exact Hfresh. cbn [resume].
    rewrite <- (len_app (pre ++ K) o), <- app_assoc, Hrun2.
    cbn [List.concat]. rewrite !len_app, <- !app_assoc.
    replace (len pre + (len K + len o) + len (List.concat chunks))
      with (len pre + (len K + len o + len (List.concat chunks))) by lia.
    reflexivity.
Qed.

Lemma fits_elements k items (stack : list F) :
  fits (List.length stack + frames (seq_value k items)) ->
  fits (S (List.length stack)) /\
  Forall (fun x => fits (S (List.length stack) + frames x)) items.
Proof.
  intros Hfits. split.
  - apply (fits_down _ _ Hfits). destruct k; cbn [seq_value frames]; lia.
  - apply Forall_forall. intros x Hin.
    apply (fits_down _ _ Hfits). pose proof (frames_element k items x Hin). lia.
Qed.

Lemma fits_entries entries (stack : list F) :
  fits (List.length stack + frames (VDict entries)) ->
  fits (S (List.length stack)) /\
  Forall (fun kv => fits (S (List.length stack) + frames (snd kv))) entries.
Proof.
  intros Hfits. split.
  - apply (fits_down _ _ Hfits). cbn [frames]. lia.
  - apply Forall_forall. intros x Hin.
    apply (fits_down _ _ Hfits). pose proof (frames_entry entries x Hin). lia.
Qed.

Lemma machine_container k items outs :
  (k = KList \/ with_tuple_set d = true) ->
  (k = KList -> shortcut = true -> items <> []) ->
  Forall2 (fun x o => encode enc x = Ok o) items outs ->
  Forall arrives items -> chain (seq_ok k) [] items ->
  forall pre post a stack,
    data = pre ++ ((seq_tag k :: _write_varint (len items) []) ++ List.concat outs)
             ++ post ->
    expects stack ->
    fits (List.length stack + frames (seq_value k items)) ->
    exists n a',
      forall fuel,
        run (n + fuel) (step (at_ (len pre) a) stack) =
        run fuel
          (deliver
             (at_ (len pre + len ((seq_tag k :: _write_varint (len items) [])
                                    ++ List.concat outs)) a')
             stack (seq_value k items)).
Proof.
  intros Hk Hopen Houts Hback Hchain pre post a stack Hdata Hexp Hfits.
  set (H := seq_tag k :: _write_varint (len items) []) in *.
  pose proof (out_within _ _ _ _ Hdata) as Hsize. rewrite len_app in Hsize.
  pose proof (count_le_bytes _ _ _ _ Houts) as Hcount.
  pose proof (len_nonneg H) as HH.
  destruct (fits_elements k items stack Hfits) as [Hroom Hrooms].
  destruct (step_open k items pre (List.concat outs ++ post) a stack Hk Hopen)
    as (a1 & Hstep1); try assumption.
  { rewrite Hdata, <- app_assoc. reflexivity. }
  { lia. }
  fold H in Hstep1.
  destruct (machine_elements k items outs Houts [] (pre ++ H) post a1 stack
              Hback Hrooms Hchain)
    as (n2 & a2 & Hrun2).
  { rewrite Hdata, <- !app_assoc. reflexivity. }
  destruct (step_close k items (len (pre ++ H) + len (List.concat outs)) a2 stack)
    as (a3 & Hstep3).
  exists (n2 + 1)%nat, a3. intros fuel.
  rewrite Hstep1. cbn [resume]. rewrite <- (len_app pre H).
  rewrite <- Nat.add_assoc, Hrun2. cbn [app Nat.add].
  rewrite iterate_S, Hstep3, !len_app, Z.add_assoc. reflexivity.
Qed.

Lemma machine_sequence k items :
  (k = KList \/ with_tuple_set d = true) ->
  (shortcut = true -> with_tuple_set d = false) ->
  Forall arrives items -> chain (seq_ok k) [] items ->
  arrives (seq_value k items).
Proof.
  intros Hk Hshort Hback Hchain out Henc pre post a stack Hdata Hexp Hfits.
  assert (Hshape : exists outs,
             Forall2 (fun x o => encode enc x = Ok o) items outs /\
             out = (seq_tag k :: _write_varint (len items) []) ++ List.concat outs).
  { destruct k; cbn [seq_value seq_tag] in *.
    - apply (proj1 (proj1 (encode_sequence_layout enc items out))) in Henc.
      destruct Henc as (outs & Hf & ->). exists outs. split; [exact Hf | reflexivity].
    - apply (proj1 (proj1 (proj2 (encode_sequence_layout enc items out)))) in Henc.
      destruct Henc as (outs & Hf & ->). exists outs. split; [exact Hf | reflexivity].
    - apply (proj1 (proj2 (proj2 (encode_sequence_layout enc items out)))) in Henc.
      destruct Henc as (outs & Hf & ->). exists outs. split; [exact Hf | reflexivity]. }
  destruct Hshape as (outs & Houts & ->).
  assert (Hcases : (k = KList /\ shortcut = true /\ items = []) \/
                   (k = KList -> shortcut = true -> items <> [])).
  { destruct k; try (right; intros; discriminate).
    destruct shortcut; [| right; intros; discriminate].
    destruct items; [left; auto | right; intros; discriminate]. }
  destruct Hcases as [(-> & Hs & ->) | Hopen].
  - destruct outs as [| o outs]; [| inversion Houts].
    exists O, a. intros fuel. cbn [Nat.add List.concat seq_tag seq_value] in *.
    change (len (@nil value)) with 0 in *. rewrite app_nil_r in *.
    rewrite (step_empty Hs pre post a stack Hdata Hexp). reflexivity.
  - exact (machine_container k items outs Hk Hopen Houts Hback Hchain
             pre post a stack Hdata Hexp Hfits).
Qed.

Lemma machine_dict_run entries chunks :
  with_dict d = true ->
  (shortcut = true -> entries <> []) ->
  Forall2 (entry_chunk enc) entries chunks ->
  Forall (fun kv => arrives (snd kv)) entries ->
  distinct_keys [] entries ->
  forall pre post a stack,
    data = pre ++ ((T_OBJ :: _write_varint (len entries) []) ++ List.concat chunks)
             ++ post ->
    expects stack ->
    fits (List.length stack + frames (VDict entries)) ->
    exists n a',
      forall fuel,
        run (n + fuel) (step (at_ (len pre) a) stack) =
        run fuel
          (deliver
             (at_ (len pre + len ((T_OBJ :: _write_varint (len entries) [])
                                    ++ List.concat chunks)) a')
             stack (VDict entries)).
Proof.
  intros Hd Hopen Hchunks Hback Hkeys pre post a stack Hdata Hexp Hfits.
  set (H := T_OBJ :: _write_varint (len entries) []) in *.
  pose proof (out_within _ _ _ _ Hdata) as Hsize. rewrite len_app in Hsize.
  pose proof (entries_le_bytes _ _ _ _ Hchunks) as Hcount.
  pose proof (len_nonneg H) as HH.
  destruct (fits_entries entries stack Hfits) as [Hroom Hrooms].
  destruct (step_open_dict entries pre (List.concat chunks ++ post) a stack Hopen)
    as (a1 & Hstep1); try assumption.
  { rewrite Hdata, <- app_assoc. reflexivity. }
  { lia. }
  fold H in Hstep1.
  destruct (machine_entries entries chunks Hchunks [] (pre ++ H) post a1 stack
              Hback Hrooms Hkeys)
    as (n2 & a2 & Hrun2).
  { rewrite Hdata, <- !app_assoc. reflexivity. }
  destruct (step_close_dict Hd entries
              (len (pre ++ H) + len (List.concat chunks)) a2 stack)
    as (a3 & Hstep3).
  exists (n2 + 1)%nat, a3. intros fuel.
  rewrite Hstep1. cbn [resume]. rewrite <- (len_app pre H).
  rewrite <- Nat.add_assoc, Hrun2. cbn [app Nat.add].
  rewrite iterate_S, Hstep3, !len_app, Z.add_assoc. reflexivity.
Qed.

Lemma machine_dict entries :
  with_dict d = true ->
  Forall (fun kv => arrives (snd kv)) entries ->
  distinct_keys [] entries ->
  arrives (VDict entries).
Proof.
  intros Hd Hback Hkeys out Henc pre post a stack Hdata Hexp Hfits.
  apply (proj1 (encode_dict_layout enc entries out)) in Henc.
  destruct Henc as (chunks & Hchunks & ->).
  assert (Hcases : (shortcut = true /\ entries = []) \/
                   (shortcut = true -> entries <> [])).
  { destruct shortcut; [| right; intros; discriminate].
    destruct entries; [left; auto | right; intros; discriminate]. }
  destruct Hcases as [(Hs & ->) | Hopen].
  - destruct chunks as [| c chunks]; [| inversion Hchunks].
    exists O, a. intros fuel. cbn [Nat.add List.concat] in *.
    change (len (@nil (value * value))) with 0 in *. rewrite app_nil_r in *.
    rewrite (step_empty_dict Hs pre post a stack Hdata Hexp). reflexivity.
  - exact (machine_dict_run entries chunks Hd Hopen Hchunks Hback Hkeys
             pre post a stack Hdata Hexp Hfits).
Qed.

Lemma portable_scalar_delivered v :
  scalar v -> portable d symbols v -> arrives v.
Proof.
  intros Hs Hp out Henc pre post a stack Hdata Hexp _.
  exists O, a. intros fuel. cbn [Nat.add].
  rewrite (step_scalar v out pre post a stack Hs Hp Henc Hdata Hexp).
  reflexivity.
Qed.

Lemma distinct_chain items : distinct [] items ->
  Forall (fun x => hashable x = true) items -> chain (seq_ok KSet) [] items.
Proof.
  generalize (@nil value) as done. induction items as [| x r IH]; intros done Hd Hh.
  - exact I.
  - destruct Hd as [Hx Hr]. apply Forall_cons_iff in Hh as [Hhx Hhr].
    split; [split; assumption | apply IH; assumption].
Qed.

Lemma trivial_chain k items done : k <> KSet -> chain (seq_ok k) done items.
Proof.
  intros Hk. revert done. induction items as [| x r IH]; intros done; [exact I |].
  split; [destruct k; [exact I | exact I | congruence] | apply IH].
Qed.

(** Every portable value arrives. *)
Lemma machine_value :
  (shortcut = true -> with_tuple_set d = false) ->
  forall v, portable d symbols v -> arrives v.
Proof.
  intros Hshort v. induction v using value_induction; intros Hp;
    try (apply portable_scalar_delivered; [exact I | exact Hp]).
  - (* list *)
    apply (machine_sequence KList items); [left; reflexivity | assumption | |].
    + inversion Hp as [| | | | | | | | items' Hitems | | |]; subst items'.
      rewrite Forall_forall in *. intros x Hin. apply H; [assumption |].
      apply Hitems. assumption.
    + apply trivial_chain. discriminate.
  - (* tuple *)
    inversion Hp as [| | | | | | | | | items' Hts Hitems | |]; subst items'.
    apply (machine_sequence KTuple items); [right; assumption | assumption | |].
    + rewrite Forall_forall in *. intros x Hin. apply H; [assumption |].
      apply Hitems. assumption.
    + apply trivial_chain. discriminate.
  - (* set *)
    inversion Hp as [| | | | | | | | | | elems' Hts Hitems Hhash Hdist |];
      subst elems'.
    apply (machine_sequence KSet elems); [right; assumption | assumption | |].
    + rewrite Forall_forall in *. intros x Hin. apply H; [assumption |].
      apply Hitems. assumption.
    + apply distinct_chain; assumption.
  - (* dict *)
    inversion Hp as [| | | | | | | | | | | entries' Hd Hentries Hkeys];
      subst entries'.
    apply machine_dict; [assumption | | assumption].
    rewrite Forall_forall in *. intros kv Hin. apply H; [assumption |].
    apply Hentries. assumption.
Qed.

(** The entries of a dict are read, one key and one value at a time, also
    by a decoder that cannot close the dict afterwards. *)
Lemma machine_entries_portable entries chunks :
  (shortcut = true -> with_tuple_set d = false) ->
  Forall2 (entry_chunk enc) entries chunks ->
  Forall (fun kv => in_symbol_table symbols (fst kv) /\
                    portable d symbols (snd kv)) entries ->
  distinct_keys [] entries ->
  forall pre post a stack,
    Forall (fun kv => fits (S (List.length stack) + frames (snd kv))) entries ->
    data = pre ++ List.concat chunks ++ post ->
    exists n a',
      forall fuel,
        iterate step (n + fuel) (at_ (len pre) a)
          (dict_frame [] entries VNone :: stack) =
        iterate step fuel (at_ (len pre + len (List.concat chunks)) a')
          (dict_frame entries [] VNone :: stack).
Proof.
  intros Hshort Hchunks Hentries Hkeys pre post a stack Hfits Hdata.
  apply (machine_entries entries chunks Hchunks [] pre post a stack);
    try assumption.
  rewrite Forall_forall in *. intros kv Hin.
  apply machine_value; [assumption |]. apply Hentries. assumption.
Qed.

End Machine.

(** ** Reading an encoded message out of a memoryview *)

Lemma memoryview_getitem_at (data pre : list Z) b post :
  data = pre ++ b :: post -> memoryview_getitem data (len pre) = Ok b.
Proof.
  intros ->. unfold memoryview_getitem. pose proof (len_nonneg pre).
  destruct (len pre <? 0) eqn:E; [apply Z.ltb_lt in E; lia |].
  rewrite nth_error_middle. reflexivity.
Qed.

Lemma before_end (data pre : list Z) b post :
  data = pre ++ b :: post -> (len pre >=? len data) = false.
Proof.
  intros ->. rewrite len_app, len_cons. pose proof (len_nonneg post).
  rewrite Z.geb_leb. apply Z.leb_gt. lia.
Qed.

Lemma memoryview_span_at (data pre mid post : list Z) :
  data = pre ++ mid ++ post ->
  memoryview_span data (len pre) (len mid) = Ok mid.
Proof.
  intros ->. unfold memoryview_span.
  pose proof (len_nonneg pre). pose proof (len_nonneg mid).
  pose proof (len_nonneg post).
  destruct (len mid <=? 0) eqn:E0.
  - apply Z.leb_le in E0. assert (len mid = 0) as Hz by lia.
    apply len_zero in Hz. subst mid. reflexivity.
  - destruct (len pre <? 0) eqn:E1; [apply Z.ltb_lt in E1; lia | clear E1].
    rewrite !len_app.
    destruct (_ >? _) eqn:E2; [rewrite Z.gtb_ltb in E2; apply Z.ltb_lt in E2; lia |].
    rewrite skipn_len_app.
    unfold len. rewrite Nat2Z.id, firstn_app, Nat.sub_diag, firstn_all.
    cbn [firstn]. rewrite app_nil_r. reflexivity.
Qed.

Lemma memoryview_slice_at (data pre mid post : list Z) :
  data = pre ++ mid ++ post ->
  memoryview_slice data (len pre) (len pre + len mid) = mid.
Proof.
  intros ->. unfold memoryview_slice, slice_bound. rewrite !len_app.
  pose proof (len_nonneg pre). pose proof (len_nonneg mid).
  pose proof (len_nonneg post).
  destruct (len pre <? 0) eqn:E1; [apply Z.ltb_lt in E1; lia | clear E1].
  destruct (len pre + len mid <? 0) eqn:E2; [apply Z.ltb_lt in E2; lia | clear E2].
  rewrite !Z.min_l by lia.
  replace (len pre + len mid - len pre) with (len mid) by lia.
  rewrite skipn_len_app.
  unfold len. rewrite Nat2Z.id, firstn_app, Nat.sub_diag, firstn_all.
  cbn [firstn]. apply app_nil_r.
Qed.

Lemma symbol_lookup symbols handler s i :
  len symbols <= PY_SSIZE_T_MAX ->
  dict_get String.eqb (symbol_map (FastEncoder_init symbols handler)) s = Some i ->
  0 <= i < 2 ^ 63 /\ list_getitem_unchecked symbols i = Ok (VStr s).
Proof.
  intros Hfit Hi. cbn [FastEncoder_init symbol_map] in Hi.
  apply enumerate_symbols_some in Hi. destruct Hi as [Hi | [Hr Hn]]; [discriminate |].
  rewrite Z.sub_0_r in Hn. unfold PY_SSIZE_T_MAX in Hfit.
  split; [pow2; lia |].
  unfold list_getitem_unchecked, PY_SSIZE_T_MAX. rewrite Z.gtb_ltb.
  destruct (2 ^ 63 - 1 <? i) eqn:E; [apply Z.ltb_lt in E; lia | clear E].
  rewrite Hn. reflexivity.
Qed.

Lemma list_setitem_next done x n :
  list_setitem (done ++ repeat VNone (S n)) (List.length done) x
  = Some ((done ++ [x]) ++ repeat VNone n).
Proof.
  induction done as [| y done IH]; [reflexivity |].
  cbn [app List.length list_setitem]. rewrite IH. reflexivity.
Qed.

Lemma list_setitem_unchecked_next done x (rest : list value) :
  list_setitem_unchecked (done ++ repeat VNone (List.length (x :: rest)))
    (len done) x
  = Ok ((done ++ [x]) ++ repeat VNone (List.length rest)).
Proof.
  unfold list_setitem_unchecked. pose proof (len_nonneg done).
  destruct (len done <? 0) eqn:E; [apply Z.ltb_lt in E; lia | clear E].
  rewrite to_nat_len. cbn [List.length]. rewrite list_setitem_next. reflexivity.
Qed.

Lemma set_add_fresh done x :
  set_ok done x -> set_add done x = Ok (done ++ [x]).
Proof. intros [Hh Hf]. unfold set_add. rewrite Hh, Hf. reflexivity. Qed.

Lemma dict_setitem_fresh done s x :
  existsb (fun e => py_eqb (fst e) (VStr s)) done = false ->
  dict_setitem done (VStr s) x = Ok (done ++ [(VStr s, x)]).
Proof.
  intros Hf. unfold dict_setitem. cbn [hashable].
  rewrite dict_set_fresh by assumption. reflexivity.
Qed.

(** ** The decoder of part_000 *)

(** [_encode] is the first module's [_encode_recursive]: the two test
    the same types and write the same bytes. *)
Lemma part000_encode_eq self obj buf :
  Part000._encode self obj buf = _encode_recursive self obj buf.
Proof. reflexivity. Qed.

Lemma part000_read_varint_loop_written (fuel : nat) :
  forall u self res shift pre post,
    0 <= u < 2 ^ (64 - shift) -> 0 <= shift <= 63 ->
    63 < 7 * Z.of_nat fuel + shift ->
    Part000.buf self = pre ++ _write_varint u [] ++ post ->
    Part000.pos self = len pre -> Part000.size self = len (Part000.buf self) ->
    Part000.read_varint_loop fuel self res shift =
      Returns (Z.lor res (Z.shiftl u shift),
               Part000.set_pos self (Part000.pos self + len (_write_varint u []))).
Proof.
  induction fuel as [| fuel IH]; intros u self res shift pre post Hu Hs Hf Hb Hp Hz;
    [lia |].
  cbn [Part000.read_varint_loop].
  assert (Hsh : (shift >? 63) = false) by (rewrite Z.gtb_ltb; apply Z.ltb_ge; lia).
  destruct (Z_lt_le_dec u 128) as [Hsmall | Hbig].
  - rewrite write_varint_last in Hb |- * by lia.
    destruct (last_byte u ltac:(lia)) as (U1 & U2 & U3). rewrite U1 in Hb |- *.
    cbn [app] in Hb.
    rewrite Hz, Hp, (before_end _ _ _ _ Hb), (memoryview_getitem_at _ _ _ _ Hb).
    cbn [Part000.lift result_bind]. rewrite Hsh, U2, U3. cbn [Z.eqb].
    rewrite (shiftl_small u shift (64 - shift)) by lia.
    rewrite <- Hp. reflexivity.
  - rewrite write_varint_step in Hb |- * by lia.
    set (b := uchar (Z.lor (Z.land u 127) 128)) in *. cbn [app] in Hb.
    rewrite Hz, Hp, (before_end _ _ _ _ Hb), (memoryview_getitem_at _ _ _ _ Hb).
    cbn [Part000.lift result_bind]. rewrite Hsh.
    subst b. rewrite !cont_byte_low, !cont_byte_high. cbn [Z.eqb].
    assert (Hs7 : shift + 7 <= 63).
    { destruct (Z_lt_le_dec 56 shift); [| lia].
      assert (2 ^ (64 - shift) <= 2 ^ 7) by (apply Z.pow_le_mono_r; lia).
      change (2 ^ 7) with 128 in *. lia. }
    rewrite (IH (Z.shiftr u 7) _ _ _
               (pre ++ [uchar (Z.lor (Z.land u 127) 128)]) post).
    + f_equal. f_equal.
      * rewrite (shiftl_small (Z.land u 127) shift 7); try lia.
        -- rewrite <- Z.lor_assoc, split7 by lia. reflexivity.
        -- apply land_127_range.
      * rewrite len_cons. unfold Part000.set_pos.
        cbn [Part000.buf Part000.pos Part000.size Part000.symbols
             Part000.zero_copy Part000.ext_hook Part000.ts_hook].
        f_equal. lia.
    + rewrite shiftr_7. split; [apply Z.div_pos; lia |].
      apply Z.div_lt_upper_bound; [lia |].
      change 128 with (2 ^ 7). rewrite <- Z.pow_add_r by lia.
      replace (7 + (64 - (shift + 7))) with (64 - shift) by lia. lia.
    + lia.
    + lia.
    + cbn [Part000.buf Part000.set_pos]. rewrite Hb, <- app_assoc. reflexivity.
    + cbn [Part000.pos Part000.set_pos]. rewrite len_snoc. reflexivity.
    + cbn [Part000.size Part000.buf Part000.set_pos]. exact Hz.
Qed.

Lemma part000_symbols data table hook p :
  Part000.symbols (part000_at data table hook p tt) = table.
Proof. reflexivity. Qed.

Section Part000RoundTrip.
Variable symbols : list string.
Variable handler : option (value -> option (Z * list Z)).
Variable data : list Z.
Variable hook : option (Z -> list Z -> outcome value).
Hypothesis data_fits : len data <= PY_SSIZE_T_MAX / 8.
Hypothesis symbols_fit : len symbols <= PY_SSIZE_T_MAX.

Abbreviation P p := (part000_at data symbols hook p tt).
Abbreviation enc := (FastEncoder_init symbols handler).

Lemma part000_pos p : Part000.pos (P p) = p.
Proof. reflexivity. Qed.
Lemma part000_size p : Part000.size (P p) = len data.
Proof. reflexivity. Qed.
Lemma part000_buf p : Part000.buf (P p) = data.
Proof. reflexivity. Qed.
Lemma part000_zero_copy p : Part000.zero_copy (P p) = false.
Proof. reflexivity. Qed.
Lemma part000_ts_hook p : Part000.ts_hook (P p) = None.
Proof. reflexivity. Qed.
Lemma part000_ext_hook p : Part000.ext_hook (P p) = hook.
Proof. reflexivity. Qed.
Lemma part000_set_pos p p' : Part000.set_pos (P p) p' = P p'.
Proof. reflexivity. Qed.

Create Rewrite HintDb p000.
#[local] Hint Rewrite part000_pos part000_size part000_buf part000_zero_copy
  part000_ts_hook part000_ext_hook part000_symbols part000_set_pos : p000.

Ltac p000 := autorewrite with p000.

Lemma part000_data_small : len data < 2 ^ 60.
Proof.
  unfold PY_SSIZE_T_MAX in data_fits. pow2.
  change (2 ^ 60) with 1152921504606846976.
  Z.div_mod_to_equations. lia.
Qed.

Lemma part000_read_varint_at u pre post p :
  0 <= u < 2 ^ 64 ->
  data = pre ++ _write_varint u [] ++ post -> p = len pre ->
  Part000._read_varint (P p) =
    Returns (u, P (len pre + len (_write_varint u []))).
Proof.
  intros Hu H ->. unfold Part000._read_varint.
  rewrite (part000_read_varint_loop_written 11 u _ 0 0 pre post);
    [| assumption | lia | lia | assumption | reflexivity | reflexivity].
  rewrite Z.lor_0_l, Z.shiftl_0_r. reflexivity.
Qed.

Lemma part000_header_at tag count pre post :
  0 <= count < 2 ^ 64 ->
  data = pre ++ (tag :: _write_varint count []) ++ post ->
  Part000._read_varint (P (len pre + 1)) =
    Returns (count, P (len pre + len (tag :: _write_varint count []))).
Proof.
  intros Hc H.
  rewrite (part000_read_varint_at count (pre ++ [tag]) post);
    [| assumption | rewrite <- app_assoc; exact H | rewrite len_snoc; reflexivity].
  rewrite len_snoc, len_cons. rewrite <- Z.add_assoc. reflexivity.
Qed.

Lemma part000_step_value p stack :
  part000_expects stack ->
  Part000.decode_step (P p) stack = Part000.decode_value (P p) stack.
Proof.
  destruct stack as [| frame below]; [reflexivity |].
  intros [Hk Hr]. cbn [Part000.decode_step]. rewrite Hk.
  destruct (Part000.remaining frame =? 0) eqn:E;
    [apply Z.eqb_eq in E; contradiction | reflexivity].
Qed.

(** Reading the tag byte at [len pre]. *)
Ltac read_tag H :=
  unfold Part000.decode_value; p000;
  rewrite (before_end _ _ _ _ H), (memoryview_getitem_at _ _ _ _ H);
  cbn [Part000.lift turn_bind]; p000; tag_tests.

Lemma part000_None pre post stack :
  data = pre ++ T_NULL :: post ->
  Part000.decode_value (P (len pre)) stack =
  Part000.deliver (P (len pre + 1)) stack VNone.
Proof. intros H. read_tag H. reflexivity. Qed.

Lemma part000_bool (b : bool) pre post stack :
  data = pre ++ (if b then T_TRUE else T_FALSE) :: post ->
  Part000.decode_value (P (len pre)) stack =
  Part000.deliver (P (len pre + 1)) stack (VBool b).
Proof. intros H. destruct b; read_tag H; reflexivity. Qed.

Lemma part000_int n pre post stack :
  - 2 ^ 63 <= n < 2 ^ 63 ->
  data = pre ++ (T_INT :: _write_varint (c_zigzag_encode n) []) ++ post ->
  Part000.decode_value (P (len pre)) stack =
  Part000.deliver
    (P (len pre + len (T_INT :: _write_varint (c_zigzag_encode n) [])))
    stack (VInt n).
Proof.
  intros Hn H. pose proof H as H'. cbn [app] in H'. read_tag H'.
  rewrite (part000_header_at T_INT (c_zigzag_encode n) pre post)
    by (try apply zigzag_encode_range; assumption).
  cbn [turn_bind].
  change (Part000.zigzag_decode (c_zigzag_encode n))
    with (c_zigzag_decode (c_zigzag_encode n)).
  rewrite zigzag_roundtrip by assumption. reflexivity.
Qed.

Lemma part000_float bits pre post stack :
  0 <= bits < 2 ^ 64 ->
  data = pre ++ (T_FLOAT :: word_bytes (lens_be64 bits)) ++ post ->
  Part000.decode_value (P (len pre)) stack =
  Part000.deliver (P (len pre + 9)) stack (VFloat bits).
Proof.
  intros Hb H. pose proof H as H'. cbn [app] in H'. read_tag H'.
  pose proof part000_data_small as Hsmall.
  pose proof (len_nonneg pre) as Hpre.
  assert (Hlen : len data = len pre + 9 + len post).
  { rewrite H, !len_app, len_cons.
    change (len (word_bytes (lens_be64 bits))) with 8. lia. }
  pose proof (len_nonneg post).
  rewrite to_int64_small by (pow2; lia).
  destruct (_ >? _) eqn:E; [rewrite Z.gtb_ltb in E; apply Z.ltb_lt in E; lia | clear E].
  change 8 with (len (word_bytes (lens_be64 bits))) at 1.
  rewrite <- (len_snoc pre T_FLOAT).
  rewrite (memoryview_span_at data (pre ++ [T_FLOAT]) (word_bytes (lens_be64 bits)) post)
    by (rewrite <- app_assoc; exact H).
  cbn [Part000.lift turn_bind]. rewrite lens_be64_involutive by assumption.
  rewrite len_snoc. replace (len pre + 1 + 8) with (len pre + 9) by lia.
  reflexivity.
Qed.

Lemma part000_symbol s i pre post stack :
  dict_get String.eqb (symbol_map enc) s = Some i ->
  data = pre ++ (T_SYMREF :: _write_varint i []) ++ post ->
  Part000.decode_value (P (len pre)) stack =
  Part000.deliver (P (len pre + len (T_SYMREF :: _write_varint i []))) stack
    (VStr s).
Proof.
  intros Hi H. pose proof H as H'. cbn [app] in H'. read_tag H'.
  destruct (symbol_lookup symbols handler s i symbols_fit Hi) as [Hr Hs].
  rewrite (part000_header_at T_SYMREF i pre post) by (assumption || (pow2; lia)).
  cbn [turn_bind]. p000. rewrite Hs. reflexivity.
Qed.

Lemma part000_payload_at (b : list Z) pre post :
  data = pre ++ (_write_varint (len b) [] ++ b) ++ post ->
  let p := len pre + len (_write_varint (len b) []) in
  Part000._read_varint (P (len pre)) = Returns (len b, P p) /\
  to_int64 (len b) = len b /\
  (to_int64 (p + len b) >? len data) = false /\
  to_int64 (p + len b) = len pre + len (_write_varint (len b) [] ++ b) /\
  memoryview_span data p (len b) = Ok b /\
  memoryview_slice data p (to_int64 (p + len b)) = b.
Proof.
  intros H p. pose proof part000_data_small as Hsmall.
  pose proof (len_nonneg pre). pose proof (len_nonneg b). pose proof (len_nonneg post).
  set (W := _write_varint (len b) []) in *. pose proof (len_nonneg W).
  assert (Hlen : len data = len pre + (len W + len b) + len post).
  { rewrite H, !len_app. lia. }
  assert (Hb : 0 <= len b < 2 ^ 64) by (pow2; lia).
  assert (Hpb : to_int64 (p + len b) = len pre + len (W ++ b)).
  { unfold p. rewrite to_int64_small by (pow2; lia). rewrite len_app. lia. }
  repeat split.
  - apply (part000_read_varint_at (len b) pre (b ++ post));
      [assumption | rewrite H, <- app_assoc; reflexivity | reflexivity].
  - apply to_int64_small. pow2. lia.
  - rewrite Hpb, len_app. rewrite Z.gtb_ltb. apply Z.ltb_ge. lia.
  - exact Hpb.
  - unfold p. rewrite <- len_app.
    apply (memoryview_span_at data (pre ++ W) b post).
    rewrite H, <- !app_assoc. reflexivity.
  - rewrite to_int64_small by (unfold p; pow2; lia).
    unfold p. rewrite <- len_app.
    apply (memoryview_slice_at data (pre ++ W) b post).
    rewrite H, <- !app_assoc. reflexivity.
Qed.

Lemma part000_str s pre post stack :
  utf8_well_formed 0 128 191 (utf8_encode s) = true ->
  data = pre ++ (T_STR :: _write_varint (len (utf8_encode s)) [] ++ utf8_encode s)
           ++ post ->
  Part000.decode_value (P (len pre)) stack =
  Part000.deliver
    (P (len pre + len (T_STR :: _write_varint (len (utf8_encode s)) []
                         ++ utf8_encode s)))
    stack (VStr s).
Proof.
  intros Hw H. pose proof H as H'. cbn [app] in H'. read_tag H'.
  destruct (part000_payload_at (utf8_encode s) (pre ++ [T_STR]) post)
    as (Hv & Hl & Hc & Hp & Hs & _).
  { rewrite <- app_assoc. exact H. }
  rewrite len_snoc in *. rewrite Hv. cbn [turn_bind]. p000.
  rewrite Hl, Hc.
  pose proof (len_nonneg (utf8_encode s)).
  destruct (len (utf8_encode s) <? 0) eqn:E; [apply Z.ltb_lt in E; lia | clear E].
  rewrite Hs. cbn [bind]. unfold PyUnicode_DecodeUTF8. rewrite Hw, string_of_utf8.
  cbn [Part000.lift turn_bind]. rewrite Hp, len_cons. do 2 f_equal. lia.
Qed.

Lemma part000_bytes payload pre post stack :
  data = pre ++ (T_BYTES :: _write_varint (len payload) [] ++ payload) ++ post ->
  Part000.decode_value (P (len pre)) stack =
  Part000.deliver
    (P (len pre + len (T_BYTES :: _write_varint (len payload) [] ++ payload)))
    stack (VBytes payload).
Proof.
  intros H. pose proof H as H'. cbn [app] in H'. read_tag H'.
  destruct (part000_payload_at payload (pre ++ [T_BYTES]) post)
    as (Hv & Hl & Hc & Hp & _ & Hs).
  { rewrite <- app_assoc. exact H. }
  rewrite len_snoc in *. rewrite Hv. cbn [turn_bind]. p000.
  rewrite Hl, Hc, Hs, Hp, len_cons. do 2 f_equal. lia.
Qed.

Lemma part000_datetime ms pre post stack :
  -62135596800000 <= ms <= 253402300799999 ->
  data = pre ++ (T_TIME :: _write_varint (c_zigzag_encode ms) []) ++ post ->
  Part000.decode_value (P (len pre)) stack =
  Part000.deliver
    (P (len pre + len (T_TIME :: _write_varint (c_zigzag_encode ms) [])))
    stack (VDatetime ms).
Proof.
  intros Hm H. pose proof H as H'. cbn [app] in H'. read_tag H'.
  assert (Hn : - 2 ^ 63 <= ms < 2 ^ 63) by (pow2; lia).
  rewrite (part000_header_at T_TIME (c_zigzag_encode ms) pre post)
    by (try apply zigzag_encode_range; assumption).
  cbn [turn_bind]. p000.
  change (Part000.zigzag_decode (c_zigzag_encode ms))
    with (c_zigzag_decode (c_zigzag_encode ms)).
  rewrite zigzag_roundtrip by assumption.
  unfold datetime_fromtimestamp.
  destruct (-62135596800000 <=? ms) eqn:E1; [| apply Z.leb_gt in E1; lia].
  destruct (ms <=? 253402300799999) eqn:E2; [| apply Z.leb_gt in E2; lia].
  reflexivity.
Qed.

(** One iteration on the encoding of a scalar delivers the scalar. *)
Lemma part000_step_scalar v out pre post (a : unit) stack :
  scalar v -> portable part000_dialect symbols v -> encode enc v = Ok out ->
  data = pre ++ out ++ post -> part000_expects stack ->
  Part000.decode_step (part000_at data symbols hook (len pre) a) stack =
  Part000.deliver (part000_at data symbols hook (len pre + len out) a) stack v.
Proof.
  intros Hs Hp Henc Hdata Hexp. destruct a.
  rewrite part000_step_value by assumption.
  unfold encode in Henc.
  destruct v; try contradiction; cbn [_encode_recursive app] in Henc.
  - injection Henc as <-. apply (part000_None pre post). exact Hdata.
  - destruct b; injection Henc as <-.
    + apply (part000_bool true pre post). exact Hdata.
    + apply (part000_bool false pre post). exact Hdata.
  - inversion Hp as [| | n' Hn | | | | | | | | |]; subst n'.
    rewrite in_int64_true, write_varint_app in Henc by assumption.
    injection Henc as <-. apply (part000_int n pre post); assumption.
  - inversion Hp as [| | | bits' Hb | | | | | | | |]; subst bits'.
    injection Henc as <-.
    replace (len (T_FLOAT :: word_bytes (lens_be64 bits))) with 9 by reflexivity.
    apply (part000_float bits pre post); assumption.
  - destruct (dict_get String.eqb (symbol_map enc) s) as [i |] eqn:Ei;
      rewrite write_varint_app in Henc; injection Henc as <-.
    + apply (part000_symbol s i pre post); assumption.
    + assert (Hw : utf8_well_formed 0 128 191 (utf8_encode s) = true).
      { inversion Hp as [| | | | s' Hin | s' Hw | | | | | |]; subst s';
          [| exact Hw].
        cbn [FastEncoder_init symbol_map] in Ei.
        apply enumerate_symbols_none in Ei. tauto. }
      apply (part000_str s pre post); assumption.
  - rewrite write_varint_app in Henc. injection Henc as <-.
    apply (part000_bytes payload pre post). exact Hdata.
  - inversion Hp.
  - inversion Hp.
  - inversion Hp as [| | | | | | | ms' _ Hm | | | |]; subst ms'.
    assert (Hn : - 2 ^ 63 <= ms < 2 ^ 63) by (pow2; lia).
    rewrite in_int64_true, write_varint_app in Henc by assumption.
    injection Henc as <-. apply (part000_datetime ms pre post); assumption.
  - inversion Hp.
Qed.

(** ** Containers *)

Lemma part000_expects_seq k done x rest stack :
  part000_expects (part000_seq_frame k done (x :: rest) :: stack).
Proof.
  split; [reflexivity |]. cbn [part000_seq_frame Part000.remaining].
  rewrite len_cons. pose proof (len_nonneg rest). lia.
Qed.

Lemma part000_expects_dict done e rest s stack :
  part000_expects (part000_dict_frame done (e :: rest) (VStr s) :: stack).
Proof.
  split; [reflexivity |]. cbn [part000_dict_frame Part000.remaining].
  rewrite len_cons. pose proof (len_nonneg rest). lia.
Qed.

Lemma part000_count {X} (items : list X) :
  len items <= len data ->
  0 <= len items < 2 ^ 64 /\ to_int64 (len items) = len items /\
  Part000.none_list (len items) = Returns (repeat VNone (List.length items)).
Proof.
  intros Hn. pose proof part000_data_small. pose proof (len_nonneg items).
  unfold PY_SSIZE_T_MAX in data_fits.
  repeat split; try (pow2; lia).
  - apply to_int64_small. pow2. lia.
  - unfold Part000.none_list. rewrite Z.gtb_ltb.
    destruct (PY_SSIZE_T_MAX / 8 <? len items) eqn:E;
      [apply Z.ltb_lt in E; unfold PY_SSIZE_T_MAX in E; lia |].
    rewrite to_nat_len. reflexivity.
Qed.

Lemma part000_open k (items : list value) pre post (a : unit) stack :
  (k = KList \/ with_tuple_set part000_dialect = true) ->
  (k = KList -> false = true -> items <> []) ->
  data = pre ++ (seq_tag k :: _write_varint (len items) []) ++ post ->
  len items <= len data -> part000_expects stack -> True ->
  exists a',
    Part000.decode_step (part000_at data symbols hook (len pre) a) stack =
    Next (part000_at data symbols hook
            (len pre + len (seq_tag k :: _write_varint (len items) [])) a')
      (part000_seq_frame k [] items :: stack).
Proof.
  intros _ _ H Hn Hexp _. destruct a. exists tt.
  rewrite part000_step_value by assumption.
  destruct (part000_count items Hn) as (Hc & Hi & Hl).
  pose proof H as H'. cbn [app] in H'.
  destruct k; cbn [seq_tag] in *; read_tag H'.
  - rewrite (part000_header_at T_ARR (len items) pre post Hc H).
    cbn [turn_bind]. rewrite Hi, Hl. reflexivity.
  - rewrite (part000_header_at T_TUPLE (len items) pre post Hc H).
    cbn [turn_bind]. rewrite Hi, Hl. reflexivity.
  - rewrite (part000_header_at T_SET (len items) pre post Hc H).
    cbn [turn_bind]. rewrite Hi. reflexivity.
Qed.

Lemma part000_deliver_seq k done x rest self stack :
  seq_ok k done x ->
  Part000.deliver self (part000_seq_frame k done (x :: rest) :: stack) x =
  Next self (part000_seq_frame k (done ++ [x]) rest :: stack).
Proof.
  intros Hok. unfold Part000.deliver, Part000._fill_parent.
  destruct k; cbn [part000_seq_frame Part000.is_dict Part000.container
                   Part000.index Part000.current_key].
  - rewrite list_setitem_unchecked_next. cbn [Part000.lift result_bind turn_bind].
    unfold Part000.with_fill, part000_seq_frame.
    cbn [Part000.remaining Part000.is_dict Part000.is_tuple].
    rewrite len_cons, len_snoc. do 2 f_equal. f_equal; lia.
  - rewrite list_setitem_unchecked_next. cbn [Part000.lift result_bind turn_bind].
    unfold Part000.with_fill, part000_seq_frame.
    cbn [Part000.remaining Part000.is_dict Part000.is_tuple].
    rewrite len_cons, len_snoc. do 2 f_equal. f_equal; lia.
  - rewrite set_add_fresh by exact Hok. cbn [Part000.lift result_bind turn_bind].
    unfold Part000.with_fill, part000_seq_frame.
    cbn [Part000.remaining Part000.is_dict Part000.is_tuple].
    rewrite len_cons. do 2 f_equal. f_equal; lia.
Qed.

Lemma part000_close k items p (a : unit) stack :
  exists a',
    Part000.decode_step (part000_at data symbols hook p a)
      (part000_seq_frame k items [] :: stack) =
    Part000.deliver (part000_at data symbols hook p a') stack (seq_value k items).
Proof.
  exists a. cbn [Part000.decode_step]. unfold Part000.finished.
  destruct k; cbn [part000_seq_frame Part000.is_dict Part000.current_key
                   Part000.remaining Part000.container Part000.is_tuple
                   andb List.length repeat seq_value];
    change (len (@nil value)) with 0; cbn [Z.eqb];
    rewrite ?app_nil_r; reflexivity.
Qed.

Lemma part000_open_dict (entries : list (value * value)) pre post (a : unit) stack :
  (false = true -> entries <> []) ->
  data = pre ++ (T_OBJ :: _write_varint (len entries) []) ++ post ->
  len entries <= len data -> part000_expects stack -> True ->
  exists a',
    Part000.decode_step (part000_at data symbols hook (len pre) a) stack =
    Next (part000_at data symbols hook
            (len pre + len (T_OBJ :: _write_varint (len entries) [])) a')
      (part000_dict_frame [] entries VNone :: stack).
Proof.
  intros _ H Hn Hexp _. destruct a. exists tt.
  rewrite part000_step_value by assumption.
  destruct (part000_count entries Hn) as (Hc & Hi & Hl).
  pose proof H as H'. cbn [app] in H'. read_tag H'.
  rewrite (part000_header_at T_OBJ (len entries) pre post Hc H).
  cbn [turn_bind]. rewrite Hi. reflexivity.
Qed.

Lemma part000_key s i x done rest pre post (a : unit) stack :
  dict_get String.eqb (symbol_map enc) s = Some i ->
  data = pre ++ (T_SYMREF :: _write_varint i []) ++ post ->
  Part000.decode_step (part000_at data symbols hook (len pre) a)
    (part000_dict_frame done ((VStr s, x) :: rest) VNone :: stack) =
  Next (part000_at data symbols hook
          (len pre + len (T_SYMREF :: _write_varint i [])) a)
    (part000_dict_frame done ((VStr s, x) :: rest) (VStr s) :: stack).
Proof.
  intros Hi H. destruct a.
  destruct (symbol_lookup symbols handler s i symbols_fit Hi) as [Hr Hs].
  pose proof H as H'. cbn [app] in H'.
  cbn [Part000.decode_step part000_dict_frame Part000.is_dict
       Part000.current_key is_None andb].
  p000. rewrite (before_end _ _ _ _ H'), (memoryview_getitem_at _ _ _ _ H').
  cbn [Part000.lift turn_bind]. p000. tag_tests. cbn [negb].
  rewrite (part000_header_at T_SYMREF i pre post) by (assumption || (pow2; lia)).
  cbn [turn_bind]. p000. rewrite Hs. reflexivity.
Qed.

Lemma part000_deliver_dict s x done rest self stack :
  existsb (fun e => py_eqb (fst e) (VStr s)) done = false ->
  Part000.deliver self
    (part000_dict_frame done ((VStr s, x) :: rest) (VStr s) :: stack) x =
  Next self (part000_dict_frame (done ++ [(VStr s, x)]) rest VNone :: stack).
Proof.
  intros Hf. unfold Part000.deliver, Part000._fill_parent.
  cbn [part000_dict_frame Part000.is_dict Part000.container Part000.index
       Part000.current_key].
  rewrite dict_setitem_fresh by assumption.
  cbn [Part000.lift result_bind turn_bind].
  unfold Part000.with_fill, part000_dict_frame.
  cbn [Part000.remaining Part000.is_dict Part000.is_tuple].
  rewrite len_cons. do 2 f_equal. f_equal; lia.
Qed.

(** Every value without a dict arrives. *)
Lemma part000_arrives v :
  portable part000_dialect symbols v ->
  delivered Part000.decode_step Part000.deliver (part000_at data symbols hook)
    part000_expects (fun _ => True) symbols handler data v.
Proof.
  apply (machine_value _ _ _ _ _ Part000.decode_step Part000.deliver
           (part000_at data symbols hook) part000_expects (fun _ => True)
           part000_seq_frame part000_dict_frame part000_dialect false
           symbols handler data).
  - intros; exact I.
  - exact part000_expects_seq.
  - exact part000_expects_dict.
  - exact part000_step_scalar.
  - exact part000_open.
  - discriminate.
  - exact part000_deliver_seq.
  - exact part000_close.
  - exact part000_open_dict.
  - discriminate.
  - exact part000_key.
  - exact part000_deliver_dict.
  - discriminate.
  - discriminate.
Qed.

End Part000RoundTrip.





(** ** The varint reader of part_000 *)

Lemma part000_available self :
  0 <= Part000.pos self -> Part000.size self <= len (Part000.buf self) ->
  let avail := firstn (Z.to_nat (Part000.size self - Part000.pos self))
                 (skipn (Z.to_nat (Part000.pos self)) (Part000.buf self)) in
  (Part000.size self <= Part000.pos self /\ avail = []) \/
  (exists b r,
     Part000.pos self < Part000.size self /\
     memoryview_getitem (Part000.buf self) (Part000.pos self) = Ok b /\
     avail = b :: r /\
     firstn (Z.to_nat (Part000.size self - (Part000.pos self + 1)))
       (skipn (Z.to_nat (Part000.pos self + 1)) (Part000.buf self)) = r).
Proof.
  intros Hp Hs.
  set (self1 := {| buffer := Part000.buf self; size := Part000.size self;
                   pos := Part000.pos self; symbols := []; frame_pool := [];
                   pool_idx := 0; zero_copy := false; ext_hook := None;
                   ts_hook := None |}).
  destruct (consumed_cases self1 Hp Hs)
    as [[Hend Hnil] | (b & r & Hlt & Hget & Hcons & Htail)].
  - left. split; assumption.
  - right. exists b, r. repeat split; assumption.
Qed.

Lemma part000_read_varint_loop_S fuel self res shift :
  Part000.read_varint_loop (S fuel) self res shift =
  if Part000.pos self >=? Part000.size self
  then Raises (Part000.LensDecodeError Part000.TruncatedVarint)
  else
    b <~ Part000.lift (memoryview_getitem (Part000.buf self) (Part000.pos self)) ;;
    if shift >? 63 then Raises (Part000.LensDecodeError Part000.VarintOverflow)
    else
      if Z.land b 128 =? 0
      then Returns (Z.lor res (wrap64 (Z.shiftl (Z.land b 127) shift)),
                    Part000.set_pos self (Part000.pos self + 1))
      else Part000.read_varint_loop fuel
             (Part000.set_pos self (Part000.pos self + 1))
             (Z.lor res (wrap64 (Z.shiftl (Z.land b 127) shift))) (shift + 7).
Proof. reflexivity. Qed.

Lemma part000_read_varint_loop_cases (fuel : nat) :
  forall (j : nat) self res,
    0 <= Part000.pos self -> Part000.size self <= len (Part000.buf self) ->
    (S fuel + j = 11)%nat -> ((j <= 9)%nat -> 0 <= res < 2 ^ (7 * Z.of_nat j)) ->
    let avail := firstn (Z.to_nat (Part000.size self - Part000.pos self))
                   (skipn (Z.to_nat (Part000.pos self)) (Part000.buf self)) in
    (exists c rest,
       avail = c ++ rest /\ varint_shape c /\
       (List.length c + j <= 10)%nat /\
       Part000.read_varint_loop (S fuel) self res (7 * Z.of_nat j) =
         Returns (wrap64 (res + varint_value c * 2 ^ (7 * Z.of_nat j)),
                  Part000.set_pos self (Part000.pos self + len c))) \/
    (Forall (fun b => Z.land b 128 <> 0) avail /\
     (List.length avail + j <= 10)%nat /\
     Part000.read_varint_loop (S fuel) self res (7 * Z.of_nat j) =
       Raises (Part000.LensDecodeError Part000.TruncatedVarint)) \/
    (exists c b rest,
       avail = c ++ b :: rest /\ Forall (fun b => Z.land b 128 <> 0) c /\
       (List.length c + j = 10)%nat /\
       Part000.read_varint_loop (S fuel) self res (7 * Z.of_nat j) =
         Raises (Part000.LensDecodeError Part000.VarintOverflow)).
Proof.
  induction fuel as [| fuel IH]; intros j self res Hp Hs Hf Hres avail;
    subst avail; rewrite !part000_read_varint_loop_S;
    destruct (part000_available self Hp Hs)
      as [[Hend Hnil] | (b & r & Hlt & Hget & Hcons & Htail)].
  - right; left. rewrite Hnil.
    destruct (_ >=? _) eqn:E; [| rewrite Z.geb_leb in E; apply Z.leb_gt in E; lia].
    repeat split; [constructor | cbn [List.length]; lia].
  - (* the eleventh byte *)
    assert (j = 10%nat) by lia. subst j.
    destruct (_ >=? _) eqn:E; [rewrite Z.geb_leb in E; apply Z.leb_le in E; lia |].
    rewrite Hget, Hcons. cbn [Part000.lift result_bind].
    right; right. exists [], b, r. repeat split. constructor.
  - right; left. rewrite Hnil.
    destruct (_ >=? _) eqn:E; [| rewrite Z.geb_leb in E; apply Z.leb_gt in E; lia].
    repeat split; [constructor | cbn [List.length]; lia].
  - assert (Hj : (j <= 9)%nat) by lia. specialize (Hres Hj).
    destruct (_ >=? _) eqn:E; [rewrite Z.geb_leb in E; apply Z.leb_le in E; lia | clear E].
    rewrite Hget, Hcons. cbn [Part000.lift result_bind].
    destruct (7 * Z.of_nat j >? 63) eqn:E;
      [rewrite Z.gtb_ltb in E; apply Z.ltb_lt in E; lia | clear E].
    rewrite (lor_wrapped res (Z.land b 127) (7 * Z.of_nat j)) by lia.
    destruct (Z.land b 128 =? 0) eqn:E128;
      [apply Z.eqb_eq in E128 | apply Z.eqb_neq in E128].
    + left. exists [b], r. repeat split; [exact E128 | cbn [List.length]; lia |].
      cbn [varint_value]. change (len [b]) with 1.
      rewrite Z.mul_0_r, Z.add_0_r. reflexivity.
    + pose proof (land_127_range b) as Hb127.
      pose proof (pow_7_succ j) as Hsucc.
      assert (Hpos : 0 < 2 ^ (7 * Z.of_nat j)) by (apply Z.pow_pos_nonneg; lia).
      set (self' := Part000.set_pos self (Part000.pos self + 1)) in *.
      set (res' := wrap64 (res + Z.land b 127 * 2 ^ (7 * Z.of_nat j))) in *.
      assert (Hp' : 0 <= Part000.pos self') by (cbn; lia).
      assert (Hs' : Part000.size self' <= len (Part000.buf self')) by (cbn; assumption).
      assert (Hres' : (S j <= 9)%nat -> 0 <= res' < 2 ^ (7 * Z.of_nat (S j))).
      { intros Hj'. assert (2 ^ (7 * Z.of_nat (S j)) <= 2 ^ 63)
          by (apply Z.pow_le_mono_r; lia).
        unfold res'. rewrite wrap64_small by (pow2; nia). nia. }
      replace (7 * Z.of_nat j + 7) with (7 * Z.of_nat (S j)) by lia.
      destruct (IH (S j) self' res' Hp' Hs' ltac:(lia) Hres')
        as [(c & rest & Ha & Hc & Hl & Hr) | [(Hall & Hl & Hr)
            | (c & b' & rest & Ha & Hc & Hl & Hr)]];
        change (Part000.pos self') with (Part000.pos self + 1) in *;
        change (Part000.size self') with (Part000.size self) in *;
        change (Part000.buf self') with (Part000.buf self) in *;
        rewrite Htail in *.
      * left. exists (b :: c), rest. repeat split.
        -- rewrite Ha. reflexivity.
        -- apply varint_shape_cons; assumption.
        -- cbn [List.length]. lia.
        -- rewrite Hr. f_equal. f_equal.
           ++ unfold res', wrap64. rewrite Z.add_mod_idemp_l by lia.
              f_equal. cbn [varint_value]. rewrite Hsucc. ring.
           ++ rewrite len_cons. unfold self', Part000.set_pos.
              cbn [Part000.buf Part000.pos Part000.size Part000.symbols
                   Part000.zero_copy Part000.ext_hook Part000.ts_hook].
              f_equal. lia.
      * right; left. repeat split.
        -- constructor; assumption.
        -- cbn [List.length]. lia.
        -- exact Hr.
      * right; right. exists (b :: c), b', rest. repeat split.
        -- rewrite Ha. reflexivity.
        -- constructor; assumption.
        -- cbn [List.length]. lia.
        -- exact Hr.
Qed.

(** X21.  [_read_varint] of [part_000] on any buffer: it reads only between
    [pos] and [size]; on a varint of at most ten bytes it returns the low
    64 bits of its value (bits above bit 63 of a tenth byte are dropped
    without an error); it raises the truncation error when the buffer ends
    within ten continuation bytes, and the overflow error only when it
    reads an eleventh byte. *)
Theorem part000_read_varint_cases self :
  0 <= Part000.pos self -> Part000.size self <= len (Part000.buf self) ->
  let avail := firstn (Z.to_nat (Part000.size self - Part000.pos self))
                 (skipn (Z.to_nat (Part000.pos self)) (Part000.buf self)) in
  (exists c rest,
     avail = c ++ rest /\ varint_shape c /\ 1 <= len c <= 10 /\
     Part000._read_varint self =
       Returns (wrap64 (varint_value c),
                Part000.set_pos self (Part000.pos self + len c))) \/
  (Forall (fun b => Z.land b 128 <> 0) avail /\ len avail <= 10 /\
   Part000._read_varint self =
     Raises (Part000.LensDecodeError Part000.TruncatedVarint)) \/
  (exists c b rest,
     avail = c ++ b :: rest /\ Forall (fun b => Z.land b 128 <> 0) c /\
     len c = 10 /\
     Part000._read_varint self =
       Raises (Part000.LensDecodeError Part000.VarintOverflow)).
Proof.
  intros Hp Hs avail. subst avail. unfold Part000._read_varint.
  destruct (part000_read_varint_loop_cases 10 0 self 0 Hp Hs eq_refl
              ltac:(intros; split; [lia | reflexivity]))
    as [(c & rest & Ha & Hc & Hl & Hr) | [(Hall & Hl & Hr)
        | (c & b & rest & Ha & Hc & Hl & Hr)]];
    change (7 * Z.of_nat 0) with 0 in *.
  - left. exists c, rest. repeat split; try assumption.
    + pose proof (varint_shape_nonempty c Hc). unfold len.
      destruct c; [congruence | cbn [List.length]; lia].
    + unfold len. lia.
    + rewrite Hr. change (2 ^ 0) with 1. rewrite Z.mul_1_r, Z.add_0_l.
      reflexivity.
  - right; left. repeat split; try assumption. unfold len. lia.
  - right; right. exists c, b, rest. repeat split; try assumption.
    unfold len. lia.
Qed.

Lemma part000_read_varint_cases_witness :
  let self := Part000.FastDecoder_init
                [128; 128; 128; 128; 128; 128; 128; 128; 128; 2] [] false None None in
  let avail := firstn (Z.to_nat (Part000.size self - Part000.pos self))
                 (skipn (Z.to_nat (Part000.pos self)) (Part000.buf self)) in
  (exists c rest,
     avail = c ++ rest /\ varint_shape c /\ 1 <= len c <= 10 /\
     Part000._read_varint self =
       Returns (wrap64 (varint_value c),
                Part000.set_pos self (Part000.pos self + len c))) \/
  (Forall (fun b => Z.land b 128 <> 0) avail /\ len avail <= 10 /\
   Part000._read_varint self =
     Raises (Part000.LensDecodeError Part000.TruncatedVarint)) \/
  (exists c b rest,
     avail = c ++ b :: rest /\ Forall (fun b => Z.land b 128 <> 0) c /\
     len c = 10 /\
     Part000._read_varint self =
       Raises (Part000.LensDecodeError Part000.VarintOverflow)).
Proof.
  apply (part000_read_varint_cases
           (Part000.FastDecoder_init
              [128; 128; 128; 128; 128; 128; 128; 128; 128; 2] [] false None None)).
  - cbn. lia.
  - cbn. lia.
Defined.

(** ** The pointer-based decoder *)

(** ** Its varint reader *)

Lemma pointer_available_cases self :
  (Pointer.curr self < Pointer.end_ self ->
   Pointer.address self <= Pointer.curr self /\
   Pointer.end_ self <= Pointer.address self + len (Pointer.memory self)) ->
  (Pointer.end_ self <= Pointer.curr self /\ pointer_available self = []) \/
  (exists b r,
     Pointer.curr self < Pointer.end_ self /\
     Pointer.deref self = Returns b /\
     pointer_available self = b :: r /\
     pointer_available (Pointer.set_curr self (Pointer.curr self + 1)) = r).
Proof.
  intros Hin. unfold pointer_available.
  destruct (Z_le_gt_dec (Pointer.end_ self) (Pointer.curr self)) as [Hle | Hgt].
  - left. split; [assumption |].
    replace (Z.to_nat (Pointer.end_ self - Pointer.curr self)) with O by lia.
    reflexivity.
  - right. destruct (Hin ltac:(lia)) as [Ha He].
    set (self1 := {| buffer := Pointer.memory self;
                     size := Pointer.end_ self - Pointer.address self;
                     pos := Pointer.curr self - Pointer.address self;
                     symbols := []; frame_pool := []; pool_idx := 0;
                     zero_copy := false; ext_hook := None; ts_hook := None |}).
    destruct (consumed_cases self1 ltac:(cbn; lia) ltac:(cbn; lia))
      as [[Hend _] | (b & r & Hlt & Hget & Hcons & Htail)];
      [cbn in Hend; lia |].
    exists b, r. unfold consumed, buffer_getitem in *. subst self1.
    cbn [buffer size pos set_pos] in *.
    repeat split.
    + lia.
    + unfold Pointer.deref, memoryview_getitem. rewrite Hget. reflexivity.
    + rewrite <- Hcons. f_equal. lia.
    + rewrite <- Htail. cbn [Pointer.set_curr Pointer.end_ Pointer.curr
                             Pointer.address Pointer.memory].
      f_equal; [lia | f_equal; lia].
Qed.

Lemma pointer_read_varint_loop_S fuel self res shift :
  Pointer.read_varint_loop (S fuel) self res shift =
  if Pointer.curr self >=? Pointer.end_ self
  then Raises (Pointer.ValueError Pointer.TruncatedVarint)
  else
    b <~ Pointer.deref self ;;
    if (shift >=? 63) && (Z.land b 127 >? 1)
    then Raises (Pointer.ValueError Pointer.VarintOverflow)
    else if shift >=? 64 then Unchecked (Pointer.ShiftCount shift)
    else
      if Z.land b 128 =? 0
      then Returns (Z.lor res (wrap64 (Z.shiftl (Z.land b 127) shift)),
                    Pointer.set_curr self (Pointer.curr self + 1))
      else Pointer.read_varint_loop fuel
             (Pointer.set_curr self (Pointer.curr self + 1))
             (Z.lor res (wrap64 (Z.shiftl (Z.land b 127) shift))) (shift + 7).
Proof. reflexivity. Qed.

Lemma varint_value_nonneg c : 0 <= varint_value c.
Proof.
  induction c as [| b c IH]; cbn [varint_value]; [lia |].
  pose proof (land_127_range b). lia.
Qed.

Lemma pointer_read_varint_loop_cases (fuel : nat) :
  forall (j : nat) self res,
    (Pointer.curr self < Pointer.end_ self ->
     Pointer.address self <= Pointer.curr self /\
     Pointer.end_ self <= Pointer.address self + len (Pointer.memory self)) ->
    (S fuel + j = 11)%nat -> ((j <= 9)%nat -> 0 <= res < 2 ^ (7 * Z.of_nat j)) ->
    (exists c rest,
       pointer_available self = c ++ rest /\ varint_shape c /\
       (List.length c + j <= 10)%nat /\
       res + varint_value c * 2 ^ (7 * Z.of_nat j) < 2 ^ 64 /\
       Pointer.read_varint_loop (S fuel) self res (7 * Z.of_nat j) =
         Returns (res + varint_value c * 2 ^ (7 * Z.of_nat j),
                  Pointer.set_curr self (Pointer.curr self + len c))) \/
    (Forall (fun b => Z.land b 128 <> 0) (pointer_available self) /\
     (List.length (pointer_available self) + j <= 10)%nat /\
     Pointer.read_varint_loop (S fuel) self res (7 * Z.of_nat j) =
       Raises (Pointer.ValueError Pointer.TruncatedVarint)) \/
    (exists c b rest,
       pointer_available self = c ++ b :: rest /\
       Forall (fun b => Z.land b 128 <> 0) c /\
       (9 <= List.length c + j <= 10)%nat /\ 1 < Z.land b 127 /\
       Pointer.read_varint_loop (S fuel) self res (7 * Z.of_nat j) =
         Raises (Pointer.ValueError Pointer.VarintOverflow)) \/
    (exists c b rest,
       pointer_available self = c ++ b :: rest /\
       Forall (fun b => Z.land b 128 <> 0) c /\
       (List.length c + j = 10)%nat /\ Z.land b 127 <= 1 /\
       Pointer.read_varint_loop (S fuel) self res (7 * Z.of_nat j) =
         Unchecked (Pointer.ShiftCount 70)).
Proof.
  induction fuel as [| fuel IH]; intros j self res Hin Hf Hres;
    rewrite !pointer_read_varint_loop_S;
    destruct (pointer_available_cases self Hin)
      as [[Hend Hnil] | (b & r & Hlt & Hget & Hcons & Htail)].
  - right; left. rewrite Hnil.
    destruct (_ >=? _) eqn:E; [| rewrite Z.geb_leb in E; apply Z.leb_gt in E; lia].
    repeat split; [constructor | cbn [List.length]; lia].
  - (* the eleventh byte *)
    assert (j = 10%nat) by lia. subst j.
    destruct (_ >=? _) eqn:E; [rewrite Z.geb_leb in E; apply Z.leb_le in E; lia |].
    rewrite Hget, Hcons. cbn [result_bind].
    change (7 * Z.of_nat 10 >=? 63) with true.
    change (7 * Z.of_nat 10 >=? 64) with true.
    change (7 * Z.of_nat 10) with 70. cbn [andb].
    destruct (Z.land b 127 >? 1) eqn:Ep;
      [rewrite Z.gtb_ltb in Ep; apply Z.ltb_lt in Ep
      | rewrite Z.gtb_ltb in Ep; apply Z.ltb_ge in Ep].
    + right; right; left. exists [], b, r. repeat split; try (cbn; lia).
      constructor.
    + right; right; right. exists [], b, r. repeat split; try (cbn; lia).
      constructor.
  - right; left. rewrite Hnil.
    destruct (_ >=? _) eqn:E; [| rewrite Z.geb_leb in E; apply Z.leb_gt in E; lia].
    repeat split; [constructor | cbn [List.length]; lia].
  - assert (Hj : (j <= 9)%nat) by lia. specialize (Hres Hj).
    destruct (_ >=? _) eqn:E; [rewrite Z.geb_leb in E; apply Z.leb_le in E; lia | clear E].
    rewrite Hget, Hcons. cbn [result_bind].
    pose proof (land_127_range b) as Hb127.
    pose proof (pow_7_succ j) as Hsucc.
    assert (Hpos : 0 < 2 ^ (7 * Z.of_nat j)) by (apply Z.pow_pos_nonneg; lia).
    assert (Hle63 : 2 ^ (7 * Z.of_nat j) <= 2 ^ 63) by (apply Z.pow_le_mono_r; lia).
    destruct ((7 * Z.of_nat j >=? 63) && (Z.land b 127 >? 1)) eqn:Eo.
    { (* ten bytes, and more than one payload bit in the tenth *)
      apply andb_true_iff in Eo. destruct Eo as [E63 Ep].
      rewrite Z.geb_leb in E63. apply Z.leb_le in E63.
      rewrite Z.gtb_ltb in Ep. apply Z.ltb_lt in Ep.
      right; right; left. exists [], b, r. repeat split; try (cbn; lia).
      constructor. }
    destruct (7 * Z.of_nat j >=? 64) eqn:E64;
      [rewrite Z.geb_leb in E64; apply Z.leb_le in E64; lia | clear E64].
    assert (Hsum : 0 <= res + Z.land b 127 * 2 ^ (7 * Z.of_nat j) < 2 ^ 64).
    { apply andb_false_iff in Eo. destruct Eo as [E63 | Ep].
      - rewrite Z.geb_leb in E63. apply Z.leb_gt in E63.
        assert (2 ^ (7 * Z.of_nat (S j)) <= 2 ^ 63) by (apply Z.pow_le_mono_r; lia).
        pow2. nia.
      - rewrite Z.gtb_ltb in Ep. apply Z.ltb_ge in Ep. pow2. nia. }
    rewrite (lor_wrapped res (Z.land b 127) (7 * Z.of_nat j)) by lia.
    rewrite wrap64_small by exact Hsum.
    destruct (Z.land b 128 =? 0) eqn:E128;
      [apply Z.eqb_eq in E128 | apply Z.eqb_neq in E128].
    + left. exists [b], r. repeat split; [exact E128 | cbn [List.length]; lia | |];
        cbn [varint_value]; change (len [b]) with 1;
        rewrite Z.mul_0_r, Z.add_0_r; [lia | reflexivity].
    + set (self' := Pointer.set_curr self (Pointer.curr self + 1)) in *.
      set (res' := res + Z.land b 127 * 2 ^ (7 * Z.of_nat j)) in *.
      assert (Hin' : Pointer.curr self' < Pointer.end_ self' ->
                     Pointer.address self' <= Pointer.curr self' /\
                     Pointer.end_ self' <= Pointer.address self' + len (Pointer.memory self')).
      { cbn. intros _. destruct (Hin Hlt). lia. }
      assert (Hres' : (S j <= 9)%nat -> 0 <= res' < 2 ^ (7 * Z.of_nat (S j))).
      { intros Hj'. unfold res'. nia. }
      replace (7 * Z.of_nat j + 7) with (7 * Z.of_nat (S j)) by lia.
      destruct (IH (S j) self' res' Hin' ltac:(lia) Hres')
        as [(c & rest & Ha & Hc & Hl & Hv & Hr) | [(Hall & Hl & Hr)
            | [(c & b' & rest & Ha & Hc & Hl & Hp & Hr)
            | (c & b' & rest & Ha & Hc & Hl & Hp & Hr)]]];
        rewrite Htail in *.
      * left. exists (b :: c), rest.
        assert (Heq : res' + varint_value c * 2 ^ (7 * Z.of_nat (S j)) =
                      res + varint_value (b :: c) * 2 ^ (7 * Z.of_nat j)).
        { unfold res'. cbn [varint_value]. rewrite Hsucc. ring. }
        repeat split.
        -- rewrite Ha. reflexivity.
        -- apply varint_shape_cons; assumption.
        -- cbn [List.length]. lia.
        -- rewrite <- Heq. exact Hv.
        -- rewrite Hr, Heq. f_equal. f_equal.
           rewrite len_cons. unfold self', Pointer.set_curr.
           cbn [Pointer.memory Pointer.address Pointer.curr Pointer.end_
                Pointer.symbols Pointer.num_symbols].
           f_equal. lia.
      * right; left. repeat split.
        -- constructor; assumption.
        -- cbn [List.length]. lia.
        -- exact Hr.
      * right; right; left. exists (b :: c), b', rest. repeat split;
          try (cbn [List.length]; lia); try assumption.
        -- rewrite Ha. reflexivity.
        -- constructor; assumption.
      * right; right; right. exists (b :: c), b', rest. repeat split;
          try (cbn [List.length]; lia); try assumption.
        -- rewrite Ha. reflexivity.
        -- constructor; assumption.
Qed.

Lemma pointer_deref_at self pre b post :
  Pointer.memory self = pre ++ b :: post ->
  Pointer.curr self = Pointer.address self + len pre ->
  Pointer.deref self = Returns b.
Proof.
  intros Hm Hc. unfold Pointer.deref. rewrite Hc.
  replace (Pointer.address self + len pre - Pointer.address self)
    with (len pre) by lia.
  rewrite (memoryview_getitem_at _ _ _ _ Hm). reflexivity.
Qed.

Lemma pointer_before_end self pre b post :
  Pointer.memory self = pre ++ b :: post ->
  Pointer.curr self = Pointer.address self + len pre ->
  Pointer.end_ self = Pointer.address self + len (Pointer.memory self) ->
  (Pointer.curr self >=? Pointer.end_ self) = false.
Proof.
  intros Hm Hc He. rewrite Hc, He, Hm, len_app, len_cons.
  pose proof (len_nonneg post). rewrite Z.geb_leb. apply Z.leb_gt. lia.
Qed.

Lemma pointer_read_varint_loop_written (fuel : nat) :
  forall u self res shift pre post,
    0 <= u < 2 ^ (64 - shift) -> 0 <= shift <= 63 ->
    63 < 7 * Z.of_nat fuel + shift ->
    Pointer.memory self = pre ++ _write_varint u [] ++ post ->
    Pointer.curr self = Pointer.address self + len pre ->
    Pointer.end_ self = Pointer.address self + len (Pointer.memory self) ->
    Pointer.read_varint_loop fuel self res shift =
      Returns (Z.lor res (Z.shiftl u shift),
               Pointer.set_curr self (Pointer.curr self + len (_write_varint u []))).
Proof.
  induction fuel as [| fuel IH]; intros u self res shift pre post Hu Hs Hf Hb Hp Hz;
    [lia |].
  rewrite pointer_read_varint_loop_S.
  assert (Hsh : (shift >=? 64) = false) by (rewrite Z.geb_leb; apply Z.leb_gt; lia).
  destruct (Z_lt_le_dec u 128) as [Hsmall | Hbig].
  - rewrite write_varint_last in Hb |- * by lia.
    destruct (last_byte u ltac:(lia)) as (U1 & U2 & U3). rewrite U1 in Hb |- *.
    cbn [app] in Hb.
    rewrite (pointer_before_end _ _ _ _ Hb Hp Hz), (pointer_deref_at _ _ _ _ Hb Hp).
    cbn [result_bind]. rewrite Hsh, U2, U3. cbn [Z.eqb].
    assert (Ho : ((shift >=? 63) && (u >? 1)) = false).
    { apply andb_false_iff. destruct (Z_lt_le_dec shift 63) as [Hlt | Hge].
      - left. rewrite Z.geb_leb. apply Z.leb_gt. lia.
      - right. rewrite Z.gtb_ltb. apply Z.ltb_ge.
        assert (shift = 63) by lia. subst shift.
        change (2 ^ (64 - 63)) with 2 in Hu. lia. }
    rewrite Ho. rewrite (shiftl_small u shift (64 - shift)) by lia.
    reflexivity.
  - rewrite write_varint_step in Hb |- * by lia.
    set (b := uchar (Z.lor (Z.land u 127) 128)) in *. cbn [app] in Hb.
    rewrite (pointer_before_end _ _ _ _ Hb Hp Hz), (pointer_deref_at _ _ _ _ Hb Hp).
    cbn [result_bind]. rewrite Hsh.
    subst b. rewrite !cont_byte_low, !cont_byte_high. cbn [Z.eqb].
    assert (Hs7 : shift + 7 <= 63).
    { destruct (Z_lt_le_dec 56 shift); [| lia].
      assert (2 ^ (64 - shift) <= 2 ^ 7) by (apply Z.pow_le_mono_r; lia).
      change (2 ^ 7) with 128 in *. lia. }
    assert (Ho : (shift >=? 63) = false) by (rewrite Z.geb_leb; apply Z.leb_gt; lia).
    rewrite Ho. cbn [andb].
    rewrite (IH (Z.shiftr u 7) _ _ _
               (pre ++ [uchar (Z.lor (Z.land u 127) 128)]) post).
    + f_equal. f_equal.
      * rewrite (shiftl_small (Z.land u 127) shift 7); try lia.
        -- rewrite <- Z.lor_assoc, split7 by lia. reflexivity.
        -- apply land_127_range.
      * rewrite len_cons. unfold Pointer.set_curr.
        cbn [Pointer.memory Pointer.address Pointer.curr Pointer.end_
             Pointer.symbols Pointer.num_symbols].
        f_equal. lia.
    + rewrite shiftr_7. split; [apply Z.div_pos; lia |].
      apply Z.div_lt_upper_bound; [lia |].
      change 128 with (2 ^ 7). rewrite <- Z.pow_add_r by lia.
      replace (7 + (64 - (shift + 7))) with (64 - shift) by lia. lia.
    + lia.
    + lia.
    + cbn [Pointer.set_curr Pointer.memory]. rewrite Hb, <- app_assoc. reflexivity.
    + cbn [Pointer.set_curr Pointer.curr Pointer.address].
      rewrite len_app. change (len [_]) with 1. lia.
    + cbn [Pointer.set_curr Pointer.end_ Pointer.address Pointer.memory]. exact Hz.
Qed.

Lemma pointer_read_varint_written u self pre post :
  0 <= u < 2 ^ 64 ->
  Pointer.memory self = pre ++ _write_varint u [] ++ post ->
  Pointer.curr self = Pointer.address self + len pre ->
  Pointer.end_ self = Pointer.address self + len (Pointer.memory self) ->
  Pointer._read_varint self =
    Returns (u, Pointer.set_curr self (Pointer.curr self + len (_write_varint u []))).
Proof.
  intros Hu Hb Hp Hz. unfold Pointer._read_varint.
  rewrite (pointer_read_varint_loop_written 11 u self 0 0 pre post);
    try assumption; try lia.
  rewrite Z.lor_0_l, Z.shiftl_0_r. reflexivity.
Qed.

(** X22.  The pointer-based [_read_varint] on any buffer.  Whenever it
    returns, the result is the exact value of the varint, which then is
    below [2 ^ 64]: no payload bit is dropped.  A tenth or eleventh byte
    with a payload above 1 raises the overflow error.  But ten
    continuation bytes followed by a byte with payload 0 or 1 are not
    rejected: that byte is shifted by 70 bits, which C leaves undefined. *)
Theorem pointer_read_varint_cases self :
  Pointer.address self <= Pointer.curr self ->
  Pointer.end_ self <= Pointer.address self + len (Pointer.memory self) ->
  (exists c rest,
     pointer_available self = c ++ rest /\ varint_shape c /\ 1 <= len c <= 10 /\
     0 <= varint_value c < 2 ^ 64 /\
     Pointer._read_varint self =
       Returns (varint_value c,
                Pointer.set_curr self (Pointer.curr self + len c))) \/
  (Forall (fun b => Z.land b 128 <> 0) (pointer_available self) /\
   len (pointer_available self) <= 10 /\
   Pointer._read_varint self =
     Raises (Pointer.ValueError Pointer.TruncatedVarint)) \/
  (exists c b rest,
     pointer_available self = c ++ b :: rest /\
     Forall (fun b => Z.land b 128 <> 0) c /\
     9 <= len c <= 10 /\ 1 < Z.land b 127 /\
     Pointer._read_varint self =
       Raises (Pointer.ValueError Pointer.VarintOverflow)) \/
  (exists c b rest,
     pointer_available self = c ++ b :: rest /\
     Forall (fun b => Z.land b 128 <> 0) c /\
     len c = 10 /\ Z.land b 127 <= 1 /\
     Pointer._read_varint self = Unchecked (Pointer.ShiftCount 70)).
Proof.
  intros Ha He. unfold Pointer._read_varint.
  destruct (pointer_read_varint_loop_cases 10 0 self 0 ltac:(intros; split; assumption)
              eq_refl ltac:(intros; split; [lia | reflexivity]))
    as [(c & rest & Hav & Hc & Hl & Hv & Hr) | [(Hall & Hl & Hr)
        | [(c & b & rest & Hav & Hc & Hl & Hp & Hr)
        | (c & b & rest & Hav & Hc & Hl & Hp & Hr)]]];
    change (7 * Z.of_nat 0) with 0 in *; change (2 ^ 0) with 1 in *;
    rewrite ?Z.mul_1_r, ?Z.add_0_l in *.
  - left. exists c, rest. repeat split; try assumption.
    + pose proof (varint_shape_nonempty c Hc). unfold len.
      destruct c; [congruence | cbn [List.length]; lia].
    + unfold len. lia.
    + apply varint_value_nonneg.
  - right; left. repeat split; try assumption. unfold len. lia.
  - right; right; left. exists c, b, rest. repeat split; try assumption;
      unfold len; lia.
  - right; right; right. exists c, b, rest. repeat split; try assumption.
    unfold len. lia.
Qed.

Lemma pointer_read_varint_cases_witness :
  let self := Pointer.FastDecoder_init 4096
                [255; 255; 255; 255; 255; 255; 255; 255; 255; 1; 0] [] in
  (exists c rest,
     pointer_available self = c ++ rest /\ varint_shape c /\ 1 <= len c <= 10 /\
     0 <= varint_value c < 2 ^ 64 /\
     Pointer._read_varint self =
       Returns (varint_value c,
                Pointer.set_curr self (Pointer.curr self + len c))) \/
  (Forall (fun b => Z.land b 128 <> 0) (pointer_available self) /\
   len (pointer_available self) <= 10 /\
   Pointer._read_varint self =
     Raises (Pointer.ValueError Pointer.TruncatedVarint)) \/
  (exists c b rest,
     pointer_available self = c ++ b :: rest /\
     Forall (fun b => Z.land b 128 <> 0) c /\
     9 <= len c <= 10 /\ 1 < Z.land b 127 /\
     Pointer._read_varint self =
       Raises (Pointer.ValueError Pointer.VarintOverflow)) \/
  (exists c b rest,
     pointer_available self = c ++ b :: rest /\
     Forall (fun b => Z.land b 128 <> 0) c /\
     len c = 10 /\ Z.land b 127 <= 1 /\
     Pointer._read_varint self = Unchecked (Pointer.ShiftCount 70)).
Proof.
  apply (pointer_read_varint_cases
           (Pointer.FastDecoder_init 4096
              [255; 255; 255; 255; 255; 255; 255; 255; 255; 1; 0] [])).
  - cbn. lia.
  - cbn. lia.
Defined.

(** ** Loops that come to an end *)

Section Invariant.
Context {D F E U : Type}.
Variable step : D -> list F -> turn D F (result E U value).
Variable inv : D -> list F -> Prop.
Variable measure : D -> list F -> nat.
Variable ended : result E U value -> Prop.

Hypothesis step_keeps : forall self stack,
  inv self stack ->
  match step self stack with
  | Next self' stack' =>
      inv self' stack' /\ (measure self' stack' < measure self stack)%nat
  | Stop r => ended r
  end.

Lemma iterate_ends (n : nat) :
  forall self stack,
    inv self stack -> (measure self stack < n)%nat ->
    exists r, ended r /\ forall fuel, iterate step (n + fuel) self stack = r.
Proof.
  induction n as [| n IH]; intros self stack Hinv Hm; [lia |].
  pose proof (step_keeps self stack Hinv) as Hstep.
  cbn [Nat.add iterate].
  destruct (step self stack) as [self' stack' | r].
  - destruct Hstep as [Hinv' Hless].
    apply (IH self' stack' Hinv'). lia.
  - exists r. split; [exact Hstep | reflexivity].
Qed.

Lemma iterate_keeps (fuel : nat) :
  forall self stack,
    inv self stack ->
    iterate step fuel self stack = Timeout \/ ended (iterate step fuel self stack).
Proof.
  induction fuel as [| fuel IH]; intros self stack Hinv; [left; reflexivity |].
  pose proof (step_keeps self stack Hinv) as Hstep.
  cbn [iterate].
  destruct (step self stack) as [self' stack' | r].
  - apply IH. apply Hstep.
  - right. exact Hstep.
Qed.
End Invariant.

(** ** What the loop of the pointer-based decoder keeps *)

Lemma pointer_available_length self :
  Pointer.curr self <= Pointer.end_ self ->
  len (pointer_available self) <= Pointer.end_ self - Pointer.curr self.
Proof.
  intros H. unfold pointer_available, len.
  pose proof (firstn_le_length
                (Z.to_nat (Pointer.end_ self - Pointer.curr self))
                (skipn (Z.to_nat (Pointer.curr self - Pointer.address self))
                   (Pointer.memory self))).
  lia.
Qed.

Lemma pointer_placed_advance self p :
  pointer_placed self -> Pointer.curr self <= p <= Pointer.end_ self ->
  pointer_placed (Pointer.set_curr self p).
Proof.
  intros (Hc & He & Hin & Hn & Hs) Hp. unfold pointer_placed.
  cbn [Pointer.set_curr Pointer.curr Pointer.end_ Pointer.address
       Pointer.memory Pointer.symbols Pointer.num_symbols].
  repeat split; try assumption; try lia.
Qed.

Lemma pointer_read_varint_spec self :
  pointer_placed self ->
  match Pointer._read_varint self with
  | Returns (u, self') =>
      0 <= u < 2 ^ 64 /\
      Pointer.curr self < Pointer.curr self' <= Pointer.end_ self /\
      self' = Pointer.set_curr self (Pointer.curr self')
  | Raises _ => True
  | Unchecked x => x = Pointer.ShiftCount 70
  | Timeout => False
  end.
Proof.
  intros (Hc & He & Hin & Hn & Hs). unfold Pointer._read_varint.
  pose proof (pointer_available_length self ltac:(lia)) as Hlen.
  destruct (pointer_read_varint_loop_cases 10 0 self 0 Hin eq_refl
              ltac:(intros; split; [lia | reflexivity]))
    as [(c & rest & Hav & Hsh & Hl & Hv & Hr) | [(Hall & Hl & Hr)
        | [(c & b & rest & Hav & Hsh & Hl & Hp & Hr)
        | (c & b & rest & Hav & Hsh & Hl & Hp & Hr)]]];
    change (7 * Z.of_nat 0) with 0 in *;
    rewrite Hr; try exact I; try reflexivity.
  change (2 ^ 0) with 1 in *.
  rewrite Z.mul_1_r, Z.add_0_l in *.
  pose proof (varint_value_nonneg c).
  assert (1 <= len c).
  { pose proof (varint_shape_nonempty c Hsh). unfold len.
    destruct c; [congruence | cbn [List.length]; lia]. }
  rewrite Hav, len_app in Hlen. pose proof (len_nonneg rest).
  cbn [Pointer.set_curr Pointer.curr].
  repeat split; try lia.
Qed.

Lemma pointer_deref_placed self :
  pointer_placed self -> Pointer.curr self < Pointer.end_ self ->
  exists b, Pointer.deref self = Returns b.
Proof.
  intros (Hc & He & Hin & Hn & Hs) Hlt.
  destruct (pointer_available_cases self Hin)
    as [[Hend _] | (b & r & _ & Hget & _)]; [lia |].
  exists b. exact Hget.
Qed.

Lemma list_setitem_some items : forall (i : nat) (val : value),
  (i < List.length items)%nat ->
  exists items', list_setitem items i val = Some items' /\
                 List.length items' = List.length items.
Proof.
  induction items as [| x items IH]; intros i val Hi; cbn [List.length] in Hi; [lia |].
  destruct i as [| i]; cbn [list_setitem].
  - exists (val :: items). split; reflexivity.
  - destruct (IH i val ltac:(lia)) as (items' & -> & Hl).
    exists (x :: items'). split; [reflexivity | cbn [List.length]; lia].
Qed.

Ltac ended :=
  unfold pointer_ended; split;
  [discriminate | intros ? ?; first [discriminate | congruence]].

Lemma pointer_fill_ok frame val :
  pointer_frame_ok frame -> pointer_frame_waits frame ->
  match Pointer._fill_parent frame val with
  | Returns frame' => pointer_frame_ok frame'
  | Raises _ => True
  | Unchecked _ => False
  | Timeout => False
  end.
Proof.
  unfold pointer_frame_ok, pointer_frame_waits, Pointer._fill_parent.
  destruct (Pointer.container frame) as [items | entries | elems] eqn:Ec.
  - intros ([Hct | Hct] & Hi & Hr & Hlen) Hw; rewrite Hct;
      cbn [Z.eqb Pointer.CT_LIST Pointer.CT_TUPLE Pointer.CT_DICT orb Pos.eqb];
      unfold list_setitem_unchecked;
      (destruct (Pointer.index frame <? 0) eqn:E; [apply Z.ltb_lt in E; lia |]);
      (destruct (list_setitem_some items (Z.to_nat (Pointer.index frame)) val
                  ltac:(unfold len in Hlen; lia)) as (items' & -> & Hl));
      cbn [Pointer.lift result_bind Pointer.with_fill Pointer.container
           Pointer.c_type Pointer.index Pointer.remaining];
      rewrite Hct; unfold len in *; repeat split; auto; lia.
  - intros Hct Hw. rewrite Hct. cbn [Z.eqb Pointer.CT_DICT Pos.eqb].
    destruct (Pointer.current_key frame) as [key |]; [| congruence].
    unfold dict_setitem. destruct (hashable key); cbn [Pointer.lift result_bind];
      [| exact I].
    cbn [Pointer.with_fill Pointer.container Pointer.c_type]. exact Hct.
  - intros Hct Hw. rewrite Hct.
    cbn [Z.eqb Pointer.CT_LIST Pointer.CT_TUPLE Pointer.CT_DICT Pointer.CT_SET
         orb Pos.eqb].
    unfold set_add. destruct (hashable val); cbn [Pointer.lift result_bind];
      [| exact I].
    cbn [Pointer.with_fill Pointer.container Pointer.c_type]. exact Hct.
Qed.

Lemma pointer_progress_varint self0 stack0 self
    (f : Z * Pointer.FastDecoder ->
         turn Pointer.FastDecoder Pointer.Frame (Pointer.decoded value)) :
  pointer_placed self ->
  (forall u p, 0 <= u < 2 ^ 64 ->
     Pointer.curr self < p <= Pointer.end_ self ->
     pointer_progress self0 stack0 (f (u, Pointer.set_curr self p))) ->
  pointer_progress self0 stack0 (turn_bind (Pointer._read_varint self) f).
Proof.
  intros Hpl Hf. pose proof (pointer_read_varint_spec self Hpl) as Hspec.
  destruct (Pointer._read_varint self) as [[u self'] | e | x |]; cbn [turn_bind].
  - destruct Hspec as (Hu & Hp & Heq). rewrite Heq. apply Hf; assumption.
  - cbn [pointer_progress]. ended.
  - subst x. cbn [pointer_progress]. ended.
  - contradiction.
Qed.

Lemma pointer_progress_lift {A : Type} self0 stack0 (m : outcome A)
    (f : A -> turn Pointer.FastDecoder Pointer.Frame (Pointer.decoded value)) :
  (forall u, m <> Undefined u) -> m <> OutOfFuel ->
  (forall a, m = Ok a -> pointer_progress self0 stack0 (f a)) ->
  pointer_progress self0 stack0 (turn_bind (Pointer.lift m) f).
Proof.
  intros Hu Ho Hf. destruct m as [a | e | u |]; cbn [Pointer.lift turn_bind].
  - apply Hf. reflexivity.
  - cbn [pointer_progress]. ended.
  - exfalso. exact (Hu u eq_refl).
  - congruence.
Qed.

Lemma pointer_progress_deliver self0 stack0 self stack val :
  pointer_placed self -> len stack <= Pointer.MAX_STACK_DEPTH ->
  Forall pointer_frame_ok stack -> Forall pointer_frame_waits stack ->
  (pointer_measure self stack < pointer_measure self0 stack0)%nat ->
  pointer_progress self0 stack0 (Pointer.deliver self stack val).
Proof.
  intros Hpl Hlen Hok Hw Hm. destruct stack as [| frame below]; cbn [Pointer.deliver].
  - cbn [pointer_progress]. ended.
  - apply Forall_cons_iff in Hok as [Hok Hoks].
    apply Forall_cons_iff in Hw as [Hw Hws].
    pose proof (pointer_fill_ok frame val Hok Hw) as Hfill.
    destruct (Pointer._fill_parent frame val) as [frame' | e | x |];
      cbn [turn_bind pointer_progress]; try contradiction; [| ended].
    split; [| exact Hm].
    unfold pointer_inv. split; [assumption |].
    split; [rewrite len_cons in *; exact Hlen |].
    split; [constructor; assumption | exact Hws].
Qed.

Lemma pointer_progress_open self0 stack self new ct :
  pointer_placed self -> Pointer.end_ self = Pointer.end_ self0 ->
  Pointer.curr self0 < Pointer.curr self ->
  Forall pointer_frame_ok stack -> Forall pointer_frame_waits stack ->
  (forall ln c, new ln = Ok c ->
     pointer_frame_ok {| Pointer.container := c; Pointer.remaining := ln;
                         Pointer.index := 0; Pointer.current_key := None;
                         Pointer.c_type := ct |}) ->
  (forall ln u, new ln <> Undefined u) -> (forall ln, new ln <> OutOfFuel) ->
  pointer_progress self0 stack (Pointer.open self stack new ct).
Proof.
  intros Hpl He Hc Hok Hw Hnew Hu Ho. unfold Pointer.open.
  destruct (len stack >=? Pointer.MAX_STACK_DEPTH) eqn:Ed;
    [cbn [pointer_progress]; ended |].
  rewrite Z.geb_leb in Ed. apply Z.leb_gt in Ed.
  apply pointer_progress_varint; [assumption |]. intros u p Hu64 Hp.
  cbv zeta.
  apply pointer_progress_lift; [apply Hu | apply Ho |]. intros c Hc'.
  cbn [pointer_progress]. split.
  - unfold pointer_inv. split; [| split; [| split]].
    + apply (pointer_placed_advance self p Hpl). lia.
    + rewrite len_cons. unfold Pointer.MAX_STACK_DEPTH in *. lia.
    + constructor; [exact (Hnew _ _ Hc') | assumption].
    + exact Hw.
  - unfold pointer_measure.
    cbn [Pointer.set_curr Pointer.curr Pointer.end_ List.length].
    destruct Hpl as (Hcur & _). lia.
Qed.

Lemma to_int64_range z : - 2 ^ 63 <= to_int64 z < 2 ^ 63.
Proof.
  unfold to_int64, wrap64. pow2.
  destruct (z mod 18446744073709551616 <? 9223372036854775808) eqn:E;
    [apply Z.ltb_lt in E | apply Z.ltb_ge in E];
    Z.div_mod_to_equations; lia.
Qed.

Lemma pointer_symbol_ok self u :
  pointer_placed self -> 0 <= u ->
  (u >=? wrap64 (Pointer.num_symbols self)) = false ->
  exists s, list_getitem_unchecked (Pointer.symbols self) u = Ok (VStr s).
Proof.
  intros (_ & _ & _ & Hn & Hs) Hu Hlt. rewrite Hn in Hlt.
  pose proof (len_nonneg (Pointer.symbols self)).
  unfold PY_SSIZE_T_MAX in Hs.
  rewrite wrap64_small in Hlt by (pow2; lia).
  rewrite Z.geb_leb in Hlt. apply Z.leb_gt in Hlt.
  unfold list_getitem_unchecked, PY_SSIZE_T_MAX. rewrite Z.gtb_ltb.
  destruct (2 ^ 63 - 1 <? u) eqn:E; [apply Z.ltb_lt in E; lia | clear E].
  destruct (nth_error (Pointer.symbols self) (Z.to_nat u)) as [s |] eqn:En.
  - exists s. reflexivity.
  - apply nth_error_None in En. unfold len in Hlt. lia.
Qed.

Lemma pointer_span_ok self ln :
  pointer_placed self -> 0 <= ln ->
  Pointer.curr self + ln <= Pointer.end_ self ->
  exists raw, Pointer.span self ln = Ok raw.
Proof.
  intros (Hc & He & Hin & _) Hln Hfit. unfold Pointer.span, memoryview_span.
  destruct (ln <=? 0) eqn:E0; [eexists; reflexivity | apply Z.leb_gt in E0].
  destruct (Hin ltac:(lia)) as [Ha Hm].
  destruct (_ <? 0) eqn:E1; [apply Z.ltb_lt in E1; lia | clear E1].
  destruct (_ >? _) eqn:E2;
    [rewrite Z.gtb_ltb in E2; apply Z.ltb_lt in E2; lia |].
  eexists; reflexivity.
Qed.

Lemma pointer_decode_value_ok self stack :
  pointer_placed self -> len stack <= Pointer.MAX_STACK_DEPTH ->
  Forall pointer_frame_ok stack -> Forall pointer_frame_waits stack ->
  pointer_progress self stack (Pointer.decode_value self stack).
Proof.
  intros Hpl Hlen Hok Hw. unfold Pointer.decode_value.
  destruct (Pointer.curr self >=? Pointer.end_ self) eqn:Ee;
    [cbn [pointer_progress]; ended |].
  rewrite Z.geb_leb in Ee. apply Z.leb_gt in Ee.
  destruct (pointer_deref_placed self Hpl Ee) as [tag ->]. cbn [turn_bind].
  cbv zeta.
  assert (Hpl1 : pointer_placed (Pointer.set_curr self (Pointer.curr self + 1)))
    by (apply pointer_placed_advance; [assumption | lia]).
  assert (Hcur : 0 <= Pointer.curr self) by (destruct Hpl as ((? & ?) & _); lia).
  assert (Hend : Pointer.end_ self <= 2 ^ 63) by (destruct Hpl as (_ & ? & _); lia).
  assert (Hm : forall p, Pointer.curr self < p <= Pointer.end_ self ->
               (pointer_measure (Pointer.set_curr self p) stack
                < pointer_measure self stack)%nat).
  { intros p Hp. unfold pointer_measure. cbn [Pointer.set_curr Pointer.curr Pointer.end_].
    lia. }
  assert (Hdel : forall p val, Pointer.curr self < p <= Pointer.end_ self ->
            pointer_progress self stack
              (Pointer.deliver (Pointer.set_curr self p) stack val)).
  { intros p val Hp. apply pointer_progress_deliver; try assumption.
    - apply pointer_placed_advance; [assumption | lia].
    - apply Hm. exact Hp. }
  destruct (tag =? 0); [apply Hdel; lia |].
  destruct (tag =? 1); [apply Hdel; lia |].
  destruct (tag =? 2); [apply Hdel; lia |].
  destruct (tag =? 3).
  { apply pointer_progress_varint; [assumption |]. intros u p Hu Hp.
    cbn [Pointer.set_curr Pointer.curr Pointer.end_] in Hp.
    apply (Hdel p). lia. }
  destruct (tag =? 4).
  { cbn [Pointer.set_curr Pointer.curr Pointer.end_].
    rewrite wrap64_small by (pow2; lia).
    destruct (_ >? _) eqn:E8; [cbn [pointer_progress]; ended |].
    rewrite Z.gtb_ltb in E8. apply Z.ltb_ge in E8.
    destruct (pointer_span_ok _ 8 Hpl1 ltac:(lia) ltac:(cbn; lia)) as [raw Hraw].
    match goal with
    | |- context [Pointer.span ?X ?l] =>
        change (Pointer.span X l)
          with (Pointer.span (Pointer.set_curr self (Pointer.curr self + 1)) 8)
    end.
    rewrite Hraw. cbn [Pointer.lift turn_bind].
    apply (Hdel (Pointer.curr self + 1 + 8)). lia. }
  destruct (tag =? 5).
  { apply pointer_progress_varint; [assumption |]. intros u p Hu Hp.
    cbn [Pointer.set_curr Pointer.curr Pointer.end_] in Hp |- *.
    pose proof (to_int64_range u) as Hln.
    destruct (Z_lt_le_dec (to_int64 u) 0) as [Hneg | Hpos].
    - destruct (_ >? _); [cbn [pointer_progress]; ended |].
      destruct (to_int64 u <? 0) eqn:E; [| apply Z.ltb_ge in E; lia].
      cbn [Pointer.lift turn_bind pointer_progress]. ended.
    - rewrite wrap64_small by (pow2; lia).
      destruct (_ >? _) eqn:E8; [cbn [pointer_progress]; ended |].
      rewrite Z.gtb_ltb in E8. apply Z.ltb_ge in E8.
      destruct (to_int64 u <? 0) eqn:E; [apply Z.ltb_lt in E; lia | clear E].
      destruct (pointer_span_ok (Pointer.set_curr self p) (to_int64 u)
                  ltac:(apply pointer_placed_advance; [assumption | lia])
                  Hpos ltac:(cbn; lia)) as [raw Hraw].
      match goal with
      | |- context [Pointer.span ?X ?l] =>
          change (Pointer.span X l)
            with (Pointer.span (Pointer.set_curr self p) (to_int64 u))
      end.
      rewrite Hraw. cbn [bind].
      unfold PyUnicode_DecodeUTF8.
      destruct (utf8_well_formed 0 128 191 raw);
        cbn [Pointer.lift turn_bind]; [| cbn [pointer_progress]; ended].
      apply (Hdel (p + to_int64 u)). lia. }
  destruct (tag =? 8).
  { apply pointer_progress_varint; [assumption |]. intros u p Hu Hp.
    cbn [Pointer.set_curr Pointer.curr Pointer.end_] in Hp.
    destruct (u >=? _) eqn:Es; [cbn [pointer_progress]; ended |].
    destruct (pointer_symbol_ok _ u
                ltac:(apply (pointer_placed_advance _ p Hpl1); cbn; lia)
                ltac:(lia) Es) as [s Hs].
    rewrite Hs. cbn [Pointer.lift turn_bind].
    apply (Hdel p). lia. }
  assert (Hopen : forall new ct,
            (forall ln c, new ln = Ok c ->
               pointer_frame_ok {| Pointer.container := c; Pointer.remaining := ln;
                                   Pointer.index := 0; Pointer.current_key := None;
                                   Pointer.c_type := ct |}) ->
            (forall ln u, new ln <> Undefined u) -> (forall ln, new ln <> OutOfFuel) ->
            pointer_progress self stack
              (Pointer.open (Pointer.set_curr self (Pointer.curr self + 1)) stack new ct)).
  { intros new ct H1 H2 H3. apply pointer_progress_open; try assumption.
    - reflexivity.
    - cbn. lia. }
  destruct ((tag =? 6) || (tag =? 13)).
  { apply Hopen.
    - intros ln c Hc. unfold Pointer.none_list, new_slots in Hc.
      destruct (ln <? 0) eqn:E0; [discriminate | apply Z.ltb_ge in E0].
      destruct (ln >? PY_SSIZE_T_MAX / 8); [discriminate |].
      cbn [bind] in Hc. injection Hc as <-.
      unfold pointer_frame_ok. cbn [Pointer.container Pointer.c_type Pointer.index
                                    Pointer.remaining].
      repeat split; try lia.
      + destruct (tag =? 6); [left | right]; reflexivity.
      + unfold len. rewrite length_map, repeat_length. lia.
    - intros ln u. unfold Pointer.none_list, new_slots.
      destruct (ln <? 0); [discriminate |].
      destruct (ln >? PY_SSIZE_T_MAX / 8); discriminate.
    - intros ln. unfold Pointer.none_list, new_slots.
      destruct (ln <? 0); [discriminate |].
      destruct (ln >? PY_SSIZE_T_MAX / 8); discriminate. }
  destruct (tag =? 7).
  { apply Hopen; [| discriminate | discriminate].
    intros ln c Hc. injection Hc as <-. reflexivity. }
  destruct (tag =? 12).
  { apply Hopen; [| discriminate | discriminate].
    intros ln c Hc. injection Hc as <-. reflexivity. }
  cbn [pointer_progress]. ended.
Qed.

Lemma pointer_step_keeps self stack :
  pointer_inv self stack ->
  pointer_progress self stack (Pointer.decode_step self stack).
Proof.
  intros (Hpl & Hlen & Hok & Hw). unfold Pointer.decode_step.
  destruct stack as [| frame below].
  { apply pointer_decode_value_ok; assumption. }
  cbn [tl] in Hw. pose proof Hok as Hoks.
  apply Forall_cons_iff in Hoks as [Hf Hoks].
  rewrite len_cons in Hlen. pose proof (len_nonneg below) as Hnn.
  destruct ((Pointer.c_type frame =? Pointer.CT_DICT) && _) eqn:Ek.
  - (* the key of the next entry *)
    apply andb_true_iff in Ek. destruct Ek as [Ect Ekey].
    destruct (Pointer.curr self >=? Pointer.end_ self) eqn:Ee;
      [cbn [pointer_progress]; ended |].
    rewrite Z.geb_leb in Ee. apply Z.leb_gt in Ee.
    destruct (pointer_deref_placed self Hpl Ee) as [b ->]. cbn [turn_bind].
    destruct (negb (b =? 8)); [cbn [pointer_progress]; ended |].
    cbv zeta.
    assert (Hpl1 : pointer_placed (Pointer.set_curr self (Pointer.curr self + 1)))
      by (apply pointer_placed_advance; [assumption | lia]).
    apply pointer_progress_varint; [assumption |]. intros u p Hu Hp.
    cbn [Pointer.set_curr Pointer.curr Pointer.end_] in Hp.
    destruct (u >=? _) eqn:Es; [cbn [pointer_progress]; ended |].
    destruct (pointer_symbol_ok _ u
                ltac:(apply (pointer_placed_advance _ p Hpl1); cbn; lia)
                ltac:(lia) Es) as [s Hs].
    rewrite Hs. cbn [Pointer.lift turn_bind pointer_progress]. split.
    + unfold pointer_inv. split; [| split; [| split]].
      * apply (pointer_placed_advance _ p Hpl1). cbn. lia.
      * rewrite len_cons. exact Hlen.
      * constructor; [| assumption].
        unfold pointer_frame_ok in *.
        cbn [Pointer.with_key Pointer.container Pointer.c_type Pointer.index
             Pointer.remaining]. exact Hf.
      * exact Hw.
    + unfold pointer_measure.
      cbn [Pointer.set_curr Pointer.curr Pointer.end_ List.length]. lia.
  - destruct (Pointer.remaining frame =? 0) eqn:Er.
    + (* the frame is closed *)
      apply pointer_progress_deliver; try assumption.
      * lia.
      * unfold pointer_measure. cbn [List.length]. lia.
    + apply Z.eqb_neq in Er.
      apply pointer_decode_value_ok; try assumption.
      * rewrite len_cons. exact Hlen.
      * constructor; [| exact Hw].
        unfold pointer_frame_ok, pointer_frame_waits in *.
        destruct (Pointer.container frame) as [items | entries | elems].
        -- lia.
        -- rewrite Hf in Ek. cbn [Z.eqb Pointer.CT_DICT Pos.eqb andb] in Ek.
           destruct (Pointer.current_key frame); congruence.
        -- exact I.
Qed.

Lemma pointer_init_inv address data symbols :
  0 <= address -> address + len data <= 2 ^ 63 ->
  len symbols <= PY_SSIZE_T_MAX ->
  pointer_inv (Pointer.FastDecoder_init address data symbols) [].
Proof.
  intros Ha Hd Hs. pose proof (len_nonneg data) as Hn.
  unfold pointer_inv, pointer_placed, Pointer.FastDecoder_init.
  destruct (len data >? 0) eqn:E;
    cbn [Pointer.curr Pointer.end_ Pointer.address Pointer.memory
         Pointer.symbols Pointer.num_symbols tl];
    repeat split; try lia; try (pow2; lia); try constructor;
    try (unfold Pointer.MAX_STACK_DEPTH; cbn; lia).
Qed.

Lemma pointer_init_measure address data symbols :
  pointer_measure (Pointer.FastDecoder_init address data symbols) []
  = (2 * List.length data)%nat.
Proof.
  unfold pointer_measure, Pointer.FastDecoder_init.
  destruct (len data >? 0) eqn:E;
    cbn [Pointer.curr Pointer.end_ List.length].
  - unfold len. lia.
  - rewrite Z.gtb_ltb in E. apply Z.ltb_ge in E. unfold len in E. lia.
Qed.

(** X23.  The pointer-based [decode_all] comes to an end on every input:
    for a buffer of [n] bytes its loop runs at most [2 * n + 1] times,
    whatever the bytes are, and then has returned, raised or stopped at an
    undefined operation. *)
Theorem pointer_decode_all_terminates address data symbols :
  0 <= address -> address + len data <= 2 ^ 63 ->
  len symbols <= PY_SSIZE_T_MAX ->
  exists r,
    r <> Timeout /\
    forall fuel,
      Pointer.decode_all (S (2 * List.length data) + fuel)
        (Pointer.FastDecoder_init address data symbols) = r.
Proof.
  intros Ha Hd Hs.
  destruct (iterate_ends Pointer.decode_step pointer_inv pointer_measure
              pointer_ended pointer_step_keeps (S (2 * List.length data))
              (Pointer.FastDecoder_init address data symbols) []
              (pointer_init_inv address data symbols Ha Hd Hs)
              ltac:(rewrite pointer_init_measure; lia))
    as (r & [Hr _] & Hrun).
  exists r. split; [exact Hr | exact Hrun].
Qed.

Lemma pointer_decode_all_terminates_witness :
  exists r,
    r <> Timeout /\
    forall fuel,
      Pointer.decode_all (S (2 * List.length [6; 1; 7; 0]) + fuel)
        (Pointer.FastDecoder_init 4096 [6; 1; 7; 0] []) = r.
Proof.
  apply (pointer_decode_all_terminates 4096 [6; 1; 7; 0] []).
  - lia.
  - cbn. lia.
  - cbn. lia.
Defined.

(** X24.  The pointer-based [decode_all] stays inside its memory on every
    input: it never reads outside the buffer or the symbol table, never
    stores outside a list and never uses a [NULL] key.  The one undefined
    operation it can reach is the shift by 70 bits in [_read_varint]. *)
Theorem pointer_decode_all_safe address data symbols fuel u :
  0 <= address -> address + len data <= 2 ^ 63 ->
  len symbols <= PY_SSIZE_T_MAX ->
  Pointer.decode_all fuel (Pointer.FastDecoder_init address data symbols)
    = Unchecked u ->
  u = Pointer.ShiftCount 70.
Proof.
  intros Ha Hd Hs Hrun.
  destruct (iterate_keeps Pointer.decode_step pointer_inv pointer_measure
              pointer_ended pointer_step_keeps fuel
              (Pointer.FastDecoder_init address data symbols) []
              (pointer_init_inv address data symbols Ha Hd Hs))
    as [Ht | [_ Hu]].
  - unfold Pointer.decode_all in Hrun. congruence.
  - apply Hu. exact Hrun.
Qed.

Lemma pointer_decode_all_safe_witness :
  Pointer.decode_all 1
    (Pointer.FastDecoder_init 4096
       [3; 128; 128; 128; 128; 128; 128; 128; 128; 128; 128; 0] [])
  = Unchecked (Pointer.ShiftCount 70) /\
  Pointer.ShiftCount 70 = Pointer.ShiftCount 70.
Proof.
  split; [reflexivity |].
  apply (pointer_decode_all_safe 4096
           [3; 128; 128; 128; 128; 128; 128; 128; 128; 128; 128; 0] [] 1%nat
           (Pointer.ShiftCount 70)).
  - lia.
  - cbn. lia.
  - cbn. lia.
  - reflexivity.
Defined.

(** ** The limit of 128 frames *)

Lemma nested_layout self v o (k : nat) :
  encode self v = Ok o ->
  encode self (nested k v) = Ok (List.concat (repeat [T_ARR; 1] k) ++ o).
Proof.
  intros Hv. induction k as [| k IH]; [exact Hv |].
  unfold encode in *. change (nested (S k) v) with (VList [nested k v]).
  rewrite encode_list_eq. cbn [encode_each].
  rewrite encode_prefix, IH. reflexivity.
Qed.

Lemma nested_encodes self v (k : nat) :
  forall out, encode self (nested k v) = Ok out -> exists o, encode self v = Ok o.
Proof.
  induction k as [| k IH]; intros out Henc; [exists out; exact Henc |].
  unfold encode in *. change (nested (S k) v) with (VList [nested k v]) in Henc.
  rewrite encode_list_eq in Henc. cbn [encode_each] in Henc.
  rewrite encode_prefix in Henc.
  destruct (_encode_recursive self (nested k v) []) as [o' | | |] eqn:Ek;
    cbn [map_outcome bind] in Henc; try discriminate.
  exact (IH o' eq_refl).
Qed.

Lemma repeat_split {A : Type} (x : A) (j k : nat) :
  (j < k)%nat -> repeat x k = repeat x j ++ x :: repeat x (k - j - 1).
Proof.
  intros H. replace k with (j + S (k - j - 1))%nat at 1 by lia.
  rewrite repeat_app. reflexivity.
Qed.

Lemma len_headers (j : nat) : len (List.concat (repeat [T_ARR; 1] j)) = 2 * Z.of_nat j.
Proof.
  induction j as [| j IH]; [reflexivity |].
  cbn [repeat List.concat]. rewrite len_app, IH. change (len [T_ARR; 1]) with 2. lia.
Qed.

Lemma pointer_step_no_key frame below self :
  Pointer.c_type frame = Pointer.CT_LIST -> Pointer.remaining frame <> 0 ->
  Pointer.decode_step self (frame :: below)
  = Pointer.decode_value self (frame :: below).
Proof.
  intros Hc Hr. cbn [Pointer.decode_step]. rewrite Hc. cbn [Z.eqb andb].
  destruct (Pointer.remaining frame =? 0) eqn:E; [apply Z.eqb_eq in E; lia |].
  reflexivity.
Qed.

Lemma pointer_step_waiting (j : nat) self :
  Pointer.decode_step self (repeat pointer_waiting_list j)
  = Pointer.decode_value self (repeat pointer_waiting_list j).
Proof.
  destruct j as [| j]; [reflexivity |]. cbn [repeat].
  apply pointer_step_no_key; [reflexivity | discriminate].
Qed.

(** One more list of one element is opened. *)
Lemma pointer_open_waiting (j : nat) self pre post :
  (j < 128)%nat ->
  Pointer.memory self = pre ++ [T_ARR; 1] ++ post ->
  Pointer.curr self = Pointer.address self + len pre ->
  Pointer.end_ self = Pointer.address self + len (Pointer.memory self) ->
  Pointer.decode_step self (repeat pointer_waiting_list j)
  = Next (Pointer.set_curr self (Pointer.curr self + 2))
      (repeat pointer_waiting_list (S j)).
Proof.
  intros Hj Hm Hc He. rewrite pointer_step_waiting. unfold Pointer.decode_value.
  cbn [app] in Hm.
  rewrite (pointer_before_end _ _ _ _ Hm Hc He), (pointer_deref_at _ _ _ _ Hm Hc).
  cbn [turn_bind]. cbv zeta. change (T_ARR =? 0) with false.
  change (T_ARR =? 1) with false. change (T_ARR =? 2) with false.
  change (T_ARR =? 3) with false. change (T_ARR =? 4) with false.
  change (T_ARR =? 5) with false. change (T_ARR =? 8) with false.
  change ((T_ARR =? 6) || (T_ARR =? 13)) with true. cbv iota.
  unfold Pointer.open.
  assert (Hd : (len (repeat pointer_waiting_list j) >=? Pointer.MAX_STACK_DEPTH) = false).
  { unfold len. rewrite repeat_length. rewrite Z.geb_leb. apply Z.leb_gt.
    unfold Pointer.MAX_STACK_DEPTH. lia. }
  rewrite Hd.
  rewrite (pointer_read_varint_written 1 _ (pre ++ [T_ARR]) post).
  - cbn [turn_bind]. cbv zeta. change (to_int64 1) with 1.
    change (_write_varint 1 []) with [1].
    cbn [Pointer.lift turn_bind Pointer.none_list new_slots bind map repeat].
    change (Pointer.none_list 1) with (Ok [VNone] : outcome (list value)).
    cbn [bind Pointer.lift turn_bind]. f_equal.
    unfold Pointer.set_curr.
    cbn [Pointer.memory Pointer.address Pointer.curr Pointer.end_
         Pointer.symbols Pointer.num_symbols].
    f_equal. change (len [1]) with 1. lia.
  - pow2. lia.
  - cbn [Pointer.set_curr Pointer.memory]. rewrite Hm, <- app_assoc. reflexivity.
  - cbn [Pointer.set_curr Pointer.curr Pointer.address].
    rewrite len_app. change (len [T_ARR]) with 1. lia.
  - cbn [Pointer.set_curr Pointer.end_ Pointer.address Pointer.memory]. exact He.
Qed.

(** With 128 frames open the next list is refused. *)
Lemma pointer_open_refused self pre post :
  Pointer.memory self = pre ++ T_ARR :: post ->
  Pointer.curr self = Pointer.address self + len pre ->
  Pointer.end_ self = Pointer.address self + len (Pointer.memory self) ->
  Pointer.decode_step self (repeat pointer_waiting_list 128)
  = Stop (Raises Pointer.RuntimeError).
Proof.
  intros Hm Hc He. rewrite pointer_step_waiting. unfold Pointer.decode_value.
  rewrite (pointer_before_end _ _ _ _ Hm Hc He), (pointer_deref_at _ _ _ _ Hm Hc).
  reflexivity.
Qed.

Lemma pointer_nesting_run (k : nat) o address table (d : nat) :
  forall (j : nat) self,
    (129 <= k)%nat -> (j + d = 128)%nat ->
    self = Pointer.set_curr
             (Pointer.FastDecoder_init address
                (List.concat (repeat [T_ARR; 1] k) ++ o) table)
             (address + 2 * Z.of_nat j) ->
    forall fuel,
      iterate Pointer.decode_step (S d + fuel) self (repeat pointer_waiting_list j)
      = Raises Pointer.RuntimeError.
Proof.
  assert (Hinit : forall p,
    (129 <= k)%nat ->
    let self := Pointer.set_curr
                  (Pointer.FastDecoder_init address
                     (List.concat (repeat [T_ARR; 1] k) ++ o) table) p in
    Pointer.memory self = List.concat (repeat [T_ARR; 1] k) ++ o /\
    Pointer.curr self = p /\ Pointer.address self = address /\
    Pointer.end_ self = address + len (Pointer.memory self)).
  { intros p Hk. unfold Pointer.FastDecoder_init.
    destruct (len _ >? 0) eqn:E.
    - repeat split.
    - rewrite Z.gtb_ltb in E. apply Z.ltb_ge in E.
      rewrite len_app, len_headers in E. pose proof (len_nonneg o). lia. }
  induction d as [| d IH]; intros j self Hk Hj Hself fuel;
    destruct (Hinit (address + 2 * Z.of_nat j) Hk) as (Hm & Hc & Ha & He);
    rewrite <- Hself in Hm, Hc, Ha, He; rewrite <- Ha in Hc, He;
    rewrite (repeat_split [T_ARR; 1] j k) in Hm by lia;
    rewrite concat_app in Hm; cbn [List.concat] in Hm;
    rewrite <- !app_assoc in Hm;
    rewrite <- (len_headers j) in Hc.
  - assert (j = 128%nat) by lia. subst j.
    rewrite iterate_S. cbn [app] in Hm.
    rewrite (pointer_open_refused self _ _ Hm Hc He). reflexivity.
  - change (S (S d) + fuel)%nat with (S (S d + fuel)). rewrite iterate_S.
    rewrite (pointer_open_waiting j self _ _ ltac:(lia) Hm Hc He).
    cbn [resume]. apply (IH (S j)); [assumption | lia |].
    rewrite Hself. unfold Pointer.set_curr.
    cbn [Pointer.memory Pointer.address Pointer.curr Pointer.end_
         Pointer.symbols Pointer.num_symbols].
    f_equal. lia.
Qed.

(** X25.  The pointer-based decoder keeps at most 128 frames: a value that
    lies inside 129 or more lists, which [encode] writes without
    complaint, is refused with [RuntimeError("Stack overflow")], whatever
    the value is and whatever follows it. *)
Theorem pointer_nesting_limit symbols handler table address (k : nat) v out junk :
  (129 <= k)%nat ->
  encode (FastEncoder_init symbols handler) (nested k v) = Ok out ->
  forall fuel,
    Pointer.decode_all (129 + fuel)
      (Pointer.FastDecoder_init address (out ++ junk) table)
    = Raises Pointer.RuntimeError.
Proof.
  intros Hk Henc fuel.
  destruct (nested_encodes _ v k out Henc) as [o Ev].
  rewrite (nested_layout _ v o k Ev) in Henc. injection Henc as <-.
  rewrite <- app_assoc. unfold Pointer.decode_all.
  apply (pointer_nesting_run k (o ++ junk) address table 128 0); [assumption | lia |].
  unfold Pointer.FastDecoder_init, Pointer.set_curr.
  destruct (len _ >? 0) eqn:E.
  - cbn [Pointer.memory Pointer.address Pointer.curr Pointer.end_
         Pointer.symbols Pointer.num_symbols].
    f_equal. lia.
  - rewrite Z.gtb_ltb in E. apply Z.ltb_ge in E.
    rewrite len_app, len_headers in E. pose proof (len_nonneg (o ++ junk)). lia.
Qed.

(** ** Reading an encoded message through the pointers *)

Lemma pointer_init_at address data symbols :
  0 < len data ->
  Pointer.FastDecoder_init address data symbols = pointer_at address data symbols 0.
Proof.
  intros H. unfold Pointer.FastDecoder_init, pointer_at.
  destruct (len data >? 0) eqn:E;
    [| rewrite Z.gtb_ltb in E; apply Z.ltb_ge in E; lia].
  rewrite Z.add_0_r. reflexivity.
Qed.

Ltac pointer_tags :=
  repeat match goal with
         | |- context [Z.eqb ?a ?b] =>
             is_tag a;
             let r := eval vm_compute in (Z.eqb a b) in
             change (Z.eqb a b) with r
         end;
  cbn [orb negb]; cbv iota.

Section PointerRun.
Variable symbols : list string.
Variable handler : option (value -> option (Z * list Z)).
Variable data : list Z.
Variable address : Z.
Hypothesis address_fits : 0 <= address.
Hypothesis data_fits : address + len data <= 2 ^ 63.
Hypothesis symbols_fit : len symbols <= PY_SSIZE_T_MAX.

Abbreviation Q p := (pointer_at address data symbols p).
Abbreviation enc := (FastEncoder_init symbols handler).

Lemma pointer_at_curr p : Pointer.curr (Q p) = address + p.
Proof. reflexivity. Qed.
Lemma pointer_at_end p : Pointer.end_ (Q p) = address + len data.
Proof. reflexivity. Qed.
Lemma pointer_at_symbols p : Pointer.symbols (Q p) = symbols.
Proof. reflexivity. Qed.
Lemma pointer_at_num_symbols p : Pointer.num_symbols (Q p) = len symbols.
Proof. reflexivity. Qed.
Lemma pointer_at_set_curr p q : Pointer.set_curr (Q p) (address + q) = Q q.
Proof. reflexivity. Qed.

Lemma pointer_tag_at pre b post :
  data = pre ++ b :: post ->
  (Pointer.curr (Q (len pre)) >=? Pointer.end_ (Q (len pre))) = false /\
  Pointer.deref (Q (len pre)) = Returns b.
Proof.
  intros H. split.
  - apply (pointer_before_end _ pre b post); [exact H | reflexivity | reflexivity].
  - apply (pointer_deref_at _ pre b post); [exact H | reflexivity].
Qed.

Lemma pointer_read_varint_at u pre post :
  0 <= u < 2 ^ 64 ->
  data = pre ++ _write_varint u [] ++ post ->
  Pointer._read_varint (Q (len pre)) =
    Returns (u, Q (len pre + len (_write_varint u []))).
Proof.
  intros Hu H.
  rewrite (pointer_read_varint_written u (Q (len pre)) pre post Hu H eq_refl eq_refl).
  rewrite pointer_at_curr, <- Z.add_assoc, pointer_at_set_curr. reflexivity.
Qed.

Lemma pointer_header_at tag count pre post :
  0 <= count < 2 ^ 64 ->
  data = pre ++ (tag :: _write_varint count []) ++ post ->
  Pointer._read_varint (Q (len pre + 1)) =
    Returns (count, Q (len pre + len (tag :: _write_varint count []))).
Proof.
  intros Hc H. rewrite <- (len_snoc pre tag).
  rewrite (pointer_read_varint_at count (pre ++ [tag]) post);
    [| assumption | rewrite <- app_assoc; exact H].
  rewrite len_snoc, len_cons. rewrite <- Z.add_assoc. reflexivity.
Qed.

(** Reading the tag byte at [len pre]. *)
Ltac pointer_read_tag H :=
  unfold Pointer.decode_value;
  destruct (pointer_tag_at _ _ _ H) as [-> ->];
  cbn [turn_bind]; cbv zeta;
  rewrite pointer_at_curr, <- Z.add_assoc, pointer_at_set_curr;
  pointer_tags.

Lemma pointer_None pre post stack :
  data = pre ++ T_NULL :: post ->
  Pointer.decode_value (Q (len pre)) stack =
  Pointer.deliver (Q (len pre + 1)) stack VNone.
Proof. intros H. pointer_read_tag H. reflexivity. Qed.

Lemma pointer_bool (b : bool) pre post stack :
  data = pre ++ (if b then T_TRUE else T_FALSE) :: post ->
  Pointer.decode_value (Q (len pre)) stack =
  Pointer.deliver (Q (len pre + 1)) stack (VBool b).
Proof. intros H. destruct b; pointer_read_tag H; reflexivity. Qed.

Lemma pointer_int n pre post stack :
  - 2 ^ 63 <= n < 2 ^ 63 ->
  data = pre ++ (T_INT :: _write_varint (c_zigzag_encode n) []) ++ post ->
  Pointer.decode_value (Q (len pre)) stack =
  Pointer.deliver
    (Q (len pre + len (T_INT :: _write_varint (c_zigzag_encode n) [])))
    stack (VInt n).
Proof.
  intros Hn H. pose proof H as H'. cbn [app] in H'. pointer_read_tag H'.
  rewrite (pointer_header_at T_INT (c_zigzag_encode n) pre post)
    by (try apply zigzag_encode_range; assumption).
  cbn [turn_bind].
  change (to_int64 (Z.lxor (Z.shiftr (c_zigzag_encode n) 1)
                      (wrap64 (- Z.land (c_zigzag_encode n) 1))))
    with (c_zigzag_decode (c_zigzag_encode n)).
  rewrite zigzag_roundtrip by assumption. reflexivity.
Qed.

Lemma pointer_float bits pre post stack :
  0 <= bits < 2 ^ 64 ->
  data = pre ++ (T_FLOAT :: word_bytes (lens_be64 bits)) ++ post ->
  Pointer.decode_value (Q (len pre)) stack =
  Pointer.deliver (Q (len pre + 9)) stack (VFloat bits).
Proof.
  intros Hb H. pose proof H as H'. cbn [app] in H'. pointer_read_tag H'.
  pose proof (len_nonneg pre) as Hpre.
  assert (Hlen : len data = len pre + 9 + len post).
  { rewrite H, !len_app, len_cons.
    change (len (word_bytes (lens_be64 bits))) with 8. lia. }
  pose proof (len_nonneg post).
  rewrite pointer_at_curr, pointer_at_end.
  rewrite wrap64_small by (pow2; lia).
  destruct (_ >? _) eqn:E; [rewrite Z.gtb_ltb in E; apply Z.ltb_lt in E; lia | clear E].
  unfold Pointer.span. rewrite pointer_at_curr.
  replace (address + (len pre + 1) - Pointer.address (Q (len pre + 1)))
    with (len (pre ++ [T_FLOAT])) by (rewrite len_snoc; cbn; lia).
  change (Pointer.memory (Q (len pre + 1))) with data.
  change 8 with (len (word_bytes (lens_be64 bits))) at 1.
  rewrite (memoryview_span_at data (pre ++ [T_FLOAT]) (word_bytes (lens_be64 bits)) post)
    by (rewrite <- app_assoc; exact H).
  cbn [Pointer.lift turn_bind]. rewrite lens_be64_involutive by assumption.
  rewrite <- Z.add_assoc, pointer_at_set_curr.
  replace (len pre + 1 + 8) with (len pre + 9) by lia.
  reflexivity.
Qed.

Lemma pointer_symbol s i pre post stack :
  dict_get String.eqb (symbol_map enc) s = Some i ->
  data = pre ++ (T_SYMREF :: _write_varint i []) ++ post ->
  Pointer.decode_value (Q (len pre)) stack =
  Pointer.deliver (Q (len pre + len (T_SYMREF :: _write_varint i []))) stack
    (VStr s).
Proof.
  intros Hi H. pose proof H as H'. cbn [app] in H'. pointer_read_tag H'.
  destruct (symbol_lookup symbols handler s i symbols_fit Hi) as [Hr Hs].
  rewrite (pointer_header_at T_SYMREF i pre post) by (assumption || (pow2; lia)).
  cbn [turn_bind]. rewrite pointer_at_num_symbols, pointer_at_symbols.
  assert (Hin : i < len symbols).
  { unfold list_getitem_unchecked in Hs.
    destruct (i >? PY_SSIZE_T_MAX); [discriminate |].
    destruct (nth_error symbols (Z.to_nat i)) eqn:En; [| discriminate].
    assert (Z.to_nat i < List.length symbols)%nat
      by (apply nth_error_Some; congruence).
    unfold len. lia. }
  unfold PY_SSIZE_T_MAX in symbols_fit.
  rewrite wrap64_small by (pose proof (len_nonneg symbols); pow2; lia).
  destruct (i >=? len symbols) eqn:E;
    [rewrite Z.geb_leb in E; apply Z.leb_le in E; lia |].
  rewrite Hs. reflexivity.
Qed.

Lemma pointer_str s pre post stack :
  utf8_well_formed 0 128 191 (utf8_encode s) = true ->
  data = pre ++ (T_STR :: _write_varint (len (utf8_encode s)) [] ++ utf8_encode s)
           ++ post ->
  Pointer.decode_value (Q (len pre)) stack =
  Pointer.deliver
    (Q (len pre + len (T_STR :: _write_varint (len (utf8_encode s)) []
                         ++ utf8_encode s)))
    stack (VStr s).
Proof.
  intros Hw H. pose proof H as H'. cbn [app] in H'. pointer_read_tag H'.
  set (b := utf8_encode s) in *. set (W := _write_varint (len b) []) in *.
  pose proof (len_nonneg pre). pose proof (len_nonneg b).
  pose proof (len_nonneg post). pose proof (len_nonneg W).
  assert (Hlen : len data = len pre + (1 + (len W + len b)) + len post).
  { rewrite H, !len_app, len_cons, len_app. lia. }
  rewrite (pointer_header_at T_STR (len b) pre (b ++ post));
    [| pow2; lia | rewrite H; cbn [app]; rewrite <- !app_assoc; reflexivity].
  cbn [turn_bind]. cbv zeta. fold W.
  rewrite pointer_at_curr, pointer_at_end.
  rewrite to_int64_small by (pow2; lia). rewrite len_cons.
  rewrite wrap64_small by (pow2; lia).
  destruct (_ >? _) eqn:E; [rewrite Z.gtb_ltb in E; apply Z.ltb_lt in E; lia | clear E].
  destruct (len b <? 0) eqn:E; [apply Z.ltb_lt in E; lia | clear E].
  unfold Pointer.span. rewrite pointer_at_curr.
  replace (address + (len pre + (1 + len W)) - Pointer.address (Q (len pre + (1 + len W))))
    with (len (pre ++ T_STR :: W))
    by (rewrite len_app, len_cons; cbn [pointer_at Pointer.address]; lia).
  change (Pointer.memory (Q (len pre + (1 + len W)))) with data.
  rewrite (memoryview_span_at data (pre ++ T_STR :: W) b post)
    by (rewrite H; cbn [app]; rewrite <- !app_assoc; reflexivity).
  cbn [bind]. unfold PyUnicode_DecodeUTF8. rewrite Hw. unfold b.
  rewrite string_of_utf8. cbn [Pointer.lift turn_bind].
  rewrite <- Z.add_assoc, pointer_at_set_curr.
  do 2 f_equal. rewrite len_cons, len_app. lia.
Qed.

(** One iteration on the encoding of a scalar delivers the scalar. *)
Lemma pointer_value_scalar v out pre post stack :
  scalar v -> portable pointer_dialect symbols v -> encode enc v = Ok out ->
  data = pre ++ out ++ post ->
  Pointer.decode_value (Q (len pre)) stack =
  Pointer.deliver (Q (len pre + len out)) stack v.
Proof.
  intros Hs Hp Henc Hdata.
  unfold encode in Henc.
  destruct v; try contradiction; cbn [_encode_recursive app] in Henc.
  - injection Henc as <-. apply (pointer_None pre post). exact Hdata.
  - destruct b; injection Henc as <-.
    + apply (pointer_bool true pre post). exact Hdata.
    + apply (pointer_bool false pre post). exact Hdata.
  - inversion Hp as [| | n' Hn | | | | | | | | |]; subst n'.
    rewrite in_int64_true, write_varint_app in Henc by assumption.
    injection Henc as <-. apply (pointer_int n pre post); assumption.
  - inversion Hp as [| | | bits' Hb | | | | | | | |]; subst bits'.
    injection Henc as <-.
    replace (len (T_FLOAT :: word_bytes (lens_be64 bits))) with 9 by reflexivity.
    apply (pointer_float bits pre post); assumption.
  - destruct (dict_get String.eqb (symbol_map enc) s) as [i |] eqn:Ei;
      rewrite write_varint_app in Henc; injection Henc as <-.
    + apply (pointer_symbol s i pre post); assumption.
    + assert (Hw : utf8_well_formed 0 128 191 (utf8_encode s) = true).
      { inversion Hp as [| | | | s' Hin | s' Hw | | | | | |]; subst s';
          [| exact Hw].
        cbn [FastEncoder_init symbol_map] in Ei.
        apply enumerate_symbols_none in Ei. tauto. }
      apply (pointer_str s pre post); assumption.
  - inversion Hp as [| | | | | | payload' Hb | | | | |]. discriminate.
  - inversion Hp.
  - inversion Hp.
  - inversion Hp as [| | | | | | | ms' Ht Hm | | | |]. discriminate.
  - inversion Hp.
Qed.

(** ** A dict of scalars *)

Lemma pointer_key_step done n s i pre post below :
  dict_get String.eqb (symbol_map enc) s = Some i ->
  data = pre ++ (T_SYMREF :: _write_varint i []) ++ post ->
  Pointer.decode_step (Q (len pre)) (pointer_dict_frame done n None :: below)
  = Next (Q (len pre + len (T_SYMREF :: _write_varint i [])))
      (pointer_dict_frame done n (Some (VStr s)) :: below).
Proof.
  intros Hi H. pose proof H as H'. cbn [app] in H'.
  cbn [Pointer.decode_step pointer_dict_frame Pointer.c_type Pointer.current_key].
  change (Pointer.CT_DICT =? Pointer.CT_DICT) with true. cbn [andb].
  destruct (pointer_tag_at _ _ _ H') as [-> ->]. cbn [turn_bind].
  change (negb (T_SYMREF =? 8)) with false. cbv iota. cbv zeta.
  rewrite pointer_at_curr, <- Z.add_assoc, pointer_at_set_curr.
  destruct (symbol_lookup symbols handler s i symbols_fit Hi) as [Hr Hs].
  rewrite (pointer_header_at T_SYMREF i pre post) by (assumption || (pow2; lia)).
  cbn [turn_bind]. rewrite pointer_at_num_symbols, pointer_at_symbols.
  assert (Hin : i < len symbols).
  { unfold list_getitem_unchecked in Hs.
    destruct (i >? PY_SSIZE_T_MAX); [discriminate |].
    destruct (nth_error symbols (Z.to_nat i)) eqn:En; [| discriminate].
    assert (Z.to_nat i < List.length symbols)%nat
      by (apply nth_error_Some; congruence).
    unfold len. lia. }
  unfold PY_SSIZE_T_MAX in symbols_fit.
  rewrite wrap64_small by (pose proof (len_nonneg symbols); pow2; lia).
  destruct (i >=? len symbols) eqn:E;
    [rewrite Z.geb_leb in E; apply Z.leb_le in E; lia |].
  rewrite Hs. reflexivity.
Qed.

Lemma pointer_entry_value done n key v out pre post below :
  n <> 0 -> scalar v -> portable pointer_dialect symbols v ->
  encode enc v = Ok out -> data = pre ++ out ++ post ->
  Pointer.decode_step (Q (len pre)) (pointer_dict_frame done n (Some key) :: below)
  = Pointer.deliver (Q (len pre + len out))
      (pointer_dict_frame done n (Some key) :: below) v.
Proof.
  intros Hn Hs Hp Henc H.
  cbn [Pointer.decode_step pointer_dict_frame Pointer.c_type Pointer.current_key
       Pointer.remaining].
  rewrite andb_false_r.
  destruct (n =? 0) eqn:E; [apply Z.eqb_eq in E; contradiction |].
  apply (pointer_value_scalar v out pre post); assumption.
Qed.

Lemma pointer_deliver_entry done n s v p below :
  existsb (fun e => py_eqb (fst e) (VStr s)) done = false ->
  Pointer.deliver (Q p) (pointer_dict_frame done n (Some (VStr s)) :: below) v
  = Next (Q p) (pointer_dict_frame (done ++ [(VStr s, v)]) (n - 1) None :: below).
Proof.
  intros Hf. cbn [Pointer.deliver]. unfold Pointer._fill_parent.
  cbn [pointer_dict_frame Pointer.c_type Pointer.current_key Pointer.container].
  change (Pointer.CT_DICT =? Pointer.CT_DICT) with true. cbv iota.
  rewrite dict_setitem_fresh by assumption. reflexivity.
Qed.

Lemma pointer_entries_run (left_ : list (value * value)) :
  forall done pre chunks post,
    Forall (fun kv => in_symbol_table symbols (fst kv) /\ scalar (snd kv) /\
                      portable pointer_dialect symbols (snd kv)) left_ ->
    distinct_keys done left_ ->
    Forall2 (entry_chunk enc) left_ chunks ->
    data = pre ++ List.concat chunks ++ post ->
    forall fuel,
      iterate Pointer.decode_step (2 * List.length left_ + fuel) (Q (len pre))
        [pointer_dict_frame done (len left_) None]
      = iterate Pointer.decode_step fuel (Q (len pre + len (List.concat chunks)))
          [pointer_dict_frame (done ++ left_) 0 None].
Proof.
  induction left_ as [| [k v] r IH]; intros done pre chunks post Hall Hkeys Hch Hd fuel.
  - inversion Hch; subst. cbn [List.concat List.length Nat.mul Nat.add].
    change (len (@nil Z)) with 0. rewrite Z.add_0_r, app_nil_r. reflexivity.
  - destruct chunks as [| c cs]; [inversion Hch |].
    apply Forall2_cons_iff in Hch as [(s & i & o & Hk & Hi & Ho & Hc) Hcs].
    apply Forall_cons_iff in Hall as [(_ & Hsc & Hpo) Hall].
    cbn [fst snd] in Hk, Ho, Hsc, Hpo. subst k c.
    cbn [distinct_keys] in Hkeys. destruct Hkeys as [Hfresh Hkeys].
    cbn [List.concat] in Hd. rewrite <- !app_assoc in Hd.
    replace (2 * List.length ((VStr s, v) :: r) + fuel)%nat
      with (S (S (2 * List.length r + fuel))) by (cbn [List.length]; lia).
    rewrite iterate_S.
    rewrite (pointer_key_step done _ s i pre _ [] Hi Hd). cbn [resume].
    rewrite iterate_S. rewrite <- len_app.
    rewrite (pointer_entry_value done _ (VStr s) v o
               (pre ++ T_SYMREF :: _write_varint i []) (List.concat cs ++ post) []);
      try assumption.
    + rewrite pointer_deliver_entry by assumption. cbn [resume].
      rewrite len_cons. replace (1 + len r - 1) with (len r) by lia.
      rewrite <- len_app.
      rewrite (IH (done ++ [(VStr s, v)])
                 ((pre ++ T_SYMREF :: _write_varint i []) ++ o) cs post);
        try assumption.
      * rewrite <- !app_assoc. cbn [app List.concat].
        rewrite !len_app, !len_cons, !len_app. f_equal. f_equal. lia.
      * rewrite Hd, <- !app_assoc. reflexivity.
    + rewrite len_cons. pose proof (len_nonneg r). lia.
    + rewrite Hd, <- !app_assoc. reflexivity.
Qed.

Lemma pointer_dict_header (entries : list (value * value)) post :
  len entries < 2 ^ 63 ->
  data = (T_OBJ :: _write_varint (len entries) []) ++ post ->
  Pointer.decode_step (Q 0) []
  = Next (Q (len (T_OBJ :: _write_varint (len entries) [])))
      [pointer_dict_frame [] (len entries) None].
Proof.
  intros Hn H. cbn [Pointer.decode_step].
  assert (H' : data = [] ++ T_OBJ :: _write_varint (len entries) [] ++ post)
    by exact H.
  change (Q 0) with (Q (len (@nil Z))). pointer_read_tag H'.
  unfold Pointer.open. change (len (@nil Pointer.Frame) >=? Pointer.MAX_STACK_DEPTH) with false.
  cbv iota. pose proof (len_nonneg entries).
  rewrite (pointer_header_at T_OBJ (len entries) [] post) by (assumption || (pow2; lia)).
  cbn [turn_bind]. cbv zeta. rewrite to_int64_small by (pow2; lia).
  reflexivity.
Qed.

Lemma pointer_dict_end done n :
  Pointer.decode_step (Q (len data)) [pointer_dict_frame done n None]
  = Stop (Raises (Pointer.ValueError Pointer.ExpectedDictKeySymbol)).
Proof.
  cbn [Pointer.decode_step pointer_dict_frame Pointer.c_type Pointer.current_key].
  change (Pointer.CT_DICT =? Pointer.CT_DICT) with true. cbn [andb].
  rewrite pointer_at_curr, pointer_at_end, Z.geb_leb, Z.leb_refl. reflexivity.
Qed.

End PointerRun.

Lemma pointer_nesting_limit_witness :
  (129 <= 129)%nat /\
  forall fuel,
    Pointer.decode_all (129 + fuel)
      (Pointer.FastDecoder_init 4096
         ((List.concat (repeat [T_ARR; 1] 129) ++ [T_NULL]) ++ []) [])
    = Raises Pointer.RuntimeError.
Proof.
  split; [lia |].
  apply (pointer_nesting_limit [] None [] 4096 129 VNone
           (List.concat (repeat [T_ARR; 1] 129) ++ [T_NULL]) []).
  - lia.
  - apply nested_layout. reflexivity.
Defined.

(** X26.  The pointer-based decoder cannot read what the encoder writes
    for bytes, bytearrays, timestamps and extension objects: it knows no
    tag 9, 10 or 11 and raises [NotImplementedError] at the first byte. *)
Theorem pointer_rejects_bytes_time_ext symbols handler table address v out junk fuel :
  match v with
  | VBytes _ | VBytearray _ | VDatetime _ | VMemoryview _ | VOther _ => True
  | _ => False
  end ->
  encode (FastEncoder_init symbols handler) v = Ok out ->
  exists tag,
    In tag [T_BYTES; T_TIME; T_EXT] /\
    hd_error out = Some tag /\
    Pointer.decode_all (S fuel)
      (Pointer.FastDecoder_init address (out ++ junk) table)
    = Raises (Pointer.NotImplementedError tag).
Proof.
  intros Hv Henc. unfold encode in Henc.
  assert (Hrun : forall tag rest,
            In tag [T_BYTES; T_TIME; T_EXT] -> out = tag :: rest ->
            Pointer.decode_all (S fuel)
              (Pointer.FastDecoder_init address (out ++ junk) table)
            = Raises (Pointer.NotImplementedError tag)).
  { intros tag rest Hin ->. unfold Pointer.decode_all. rewrite iterate_S.
    rewrite pointer_init_at
      by (cbn [app]; rewrite len_cons; pose proof (len_nonneg (rest ++ junk)); lia).
    cbn [Pointer.decode_step]. unfold Pointer.decode_value.
    destruct (pointer_tag_at table ((tag :: rest) ++ junk) address [] tag (rest ++ junk)
                eq_refl) as [H1 H2].
    change (len (@nil Z)) with 0 in H1, H2. rewrite H1, H2. cbn [turn_bind].
    cbv zeta.
    destruct Hin as [<- | [<- | [<- | []]]]; reflexivity. }
  destruct v; try contradiction; cbn [_encode_recursive app] in Henc.
  - rewrite write_varint_app in Henc. injection Henc as <-.
    exists T_BYTES. split; [cbn; tauto |]. split; [reflexivity |].
    apply (Hrun T_BYTES (_write_varint (len payload) [] ++ payload)); [cbn; tauto |].
    reflexivity.
  - rewrite write_varint_app in Henc. injection Henc as <-.
    exists T_BYTES. split; [cbn; tauto |]. split; [reflexivity |].
    apply (Hrun T_BYTES (_write_varint (len payload) [] ++ payload)); [cbn; tauto |].
    reflexivity.
  - destruct (ext_handler _) as [h |]; [| discriminate].
    destruct (h _) as [[eid payload'] |]; [| discriminate].
    destruct (in_uint64 eid); [| discriminate].
    rewrite (write_varint_app (len payload')), (write_varint_app eid) in Henc.
    injection Henc as <-.
    exists T_EXT. split; [cbn; tauto |]. split; [reflexivity |].
    apply (Hrun T_EXT ((_write_varint eid [] ++ _write_varint (len payload') [])
                        ++ payload')); [cbn; tauto |].
    cbn [app]. rewrite <- !app_assoc. reflexivity.
  - destruct (in_int64 ms); [| discriminate].
    rewrite write_varint_app in Henc. injection Henc as <-.
    exists T_TIME. split; [cbn; tauto |]. split; [reflexivity |].
    apply (Hrun T_TIME (_write_varint (c_zigzag_encode ms) [])); [cbn; tauto |].
    reflexivity.
  - destruct (ext_handler _) as [h |]; [| discriminate].
    destruct (h _) as [[eid payload'] |]; [| discriminate].
    destruct (in_uint64 eid); [| discriminate].
    rewrite (write_varint_app (len payload')), (write_varint_app eid) in Henc.
    injection Henc as <-.
    exists T_EXT. split; [cbn; tauto |]. split; [reflexivity |].
    apply (Hrun T_EXT ((_write_varint eid [] ++ _write_varint (len payload') [])
                        ++ payload')); [cbn; tauto |].
    cbn [app]. rewrite <- !app_assoc. reflexivity.
Qed.

Lemma pointer_rejects_bytes_time_ext_witness :
  exists tag,
    In tag [T_BYTES; T_TIME; T_EXT] /\
    hd_error [T_TIME; 1] = Some tag /\
    Pointer.decode_all 1 (Pointer.FastDecoder_init 4096 ([T_TIME; 1] ++ []) [])
    = Raises (Pointer.NotImplementedError tag).
Proof.
  apply (pointer_rejects_bytes_time_ext [] None [] 4096 (VDatetime (-1))
           [T_TIME; 1] [] 0%nat).
  - exact I.
  - reflexivity.
Defined.

(** X27.  The pointer-based decoder cannot decode a dict either.  It too
    looks for the next key symbol before it tests whether the dict frame
    is complete, so for every dict with symbol keys and scalar values (the
    empty dict included) decoding the exact output of [encode] raises
    [ValueError("Expected dict key symbol")] once the last entry has been
    stored. *)
Theorem pointer_dict_fails symbols handler address entries out :
  0 <= address -> address + len out <= 2 ^ 63 ->
  len symbols <= PY_SSIZE_T_MAX ->
  Forall (fun kv => in_symbol_table symbols (fst kv) /\ scalar (snd kv) /\
                    portable pointer_dialect symbols (snd kv)) entries ->
  distinct_keys [] entries ->
  encode (FastEncoder_init symbols handler) (VDict entries) = Ok out ->
  forall fuel,
    Pointer.decode_all (2 * List.length entries + 2 + fuel)
      (Pointer.FastDecoder_init address out symbols)
    = Raises (Pointer.ValueError Pointer.ExpectedDictKeySymbol).
Proof.
  intros Ha Hfit Hsym Hentries Hkeys Henc fuel.
  apply (proj1 (encode_dict_layout _ entries out)) in Henc.
  destruct Henc as (chunks & Hchunks & Hout).
  set (H := T_OBJ :: _write_varint (len entries) []) in *.
  pose proof (entries_le_bytes _ _ _ _ Hchunks) as Hcount.
  assert (Hlen : len out = len H + len (List.concat chunks)).
  { rewrite Hout. change (T_OBJ :: _write_varint (len entries) [] ++ List.concat chunks)
      with (H ++ List.concat chunks). apply len_app. }
  assert (HH : 1 <= len H).
  { unfold H. rewrite len_cons. pose proof (len_nonneg (_write_varint (len entries) [])).
    lia. }
  pose proof (len_nonneg (List.concat chunks)) as Hcc.
  pose proof (len_nonneg entries) as Hee.
  unfold Pointer.decode_all.
  rewrite pointer_init_at by lia.
  replace (2 * List.length entries + 2 + fuel)%nat
    with (S (2 * List.length entries + S fuel)) by lia.
  rewrite iterate_S.
  rewrite (pointer_dict_header symbols out address entries (List.concat chunks))
    by (assumption || lia).
  cbn [resume]. fold H.
  rewrite (pointer_entries_run symbols handler out address Ha Hfit Hsym entries [] H chunks []
             Hentries Hkeys Hchunks)
    by (rewrite app_nil_r; exact Hout).
  rewrite iterate_S, <- Hlen, pointer_dict_end. reflexivity.
Qed.

Lemma pointer_dict_fails_witness :
  encode (FastEncoder_init ["id"%string] None) (VDict [(VStr "id", VInt 7)])
    = Ok [7; 1; 8; 0; 3; 14] /\
  forall fuel,
    Pointer.decode_all (2 * List.length [(VStr "id", VInt 7)] + 2 + fuel)
      (Pointer.FastDecoder_init 4096 [7; 1; 8; 0; 3; 14] ["id"%string])
    = Raises (Pointer.ValueError Pointer.ExpectedDictKeySymbol).
Proof.
  split; [reflexivity |].
  apply (pointer_dict_fails ["id"%string] None 4096 [(VStr "id", VInt 7)]
           [7; 1; 8; 0; 3; 14]).
  - lia.
  - cbn. lia.
  - cbn. lia.
  - constructor; [| constructor]. cbn [fst snd in_symbol_table In scalar].
    split; [left; reflexivity |]. split; [exact I |].
    apply portable_int. lia.
  - cbn. split; [reflexivity | exact I].
  - reflexivity.
Defined.

(** ** The decoder with a list as frame pool *)

Lemma listpool_read_varint_loop_S fuel self res shift :
  ListPool.read_varint_loop (S fuel) self res shift =
  if ListPool.pos self >=? ListPool.size self
  then Raises (ListPool.LensDecodeError ListPool.EOFInVarint)
  else
    b <~ ListPool.lift (memoryview_getitem (ListPool.buffer self) (ListPool.pos self)) ;;
    if Z.land b 128 =? 0
    then Returns (Z.lor res (wrap64 (Z.shiftl (Z.land b 127) shift)),
                  ListPool.set_pos self (ListPool.pos self + 1))
    else if shift + 7 >=? 64
         then Raises (ListPool.LensDecodeError ListPool.VarintOverflow)
         else ListPool.read_varint_loop fuel
                (ListPool.set_pos self (ListPool.pos self + 1))
                (Z.lor res (wrap64 (Z.shiftl (Z.land b 127) shift))) (shift + 7).
Proof. reflexivity. Qed.

Lemma listpool_read_varint_loop_written (fuel : nat) :
  forall u self res shift pre post,
    0 <= u < 2 ^ (64 - shift) -> 0 <= shift <= 63 ->
    63 < 7 * Z.of_nat fuel + shift ->
    ListPool.buffer self = pre ++ _write_varint u [] ++ post ->
    ListPool.pos self = len pre ->
    ListPool.size self = len (ListPool.buffer self) ->
    ListPool.read_varint_loop fuel self res shift =
      Returns (Z.lor res (Z.shiftl u shift),
               ListPool.set_pos self (ListPool.pos self + len (_write_varint u []))).
Proof.
  induction fuel as [| fuel IH]; intros u self res shift pre post Hu Hs Hf Hb Hp Hz;
    [lia |].
  rewrite listpool_read_varint_loop_S.
  destruct (Z_lt_le_dec u 128) as [Hsmall | Hbig].
  - rewrite write_varint_last in Hb |- * by lia.
    destruct (last_byte u ltac:(lia)) as (U1 & U2 & U3). rewrite U1 in Hb |- *.
    cbn [app] in Hb.
    rewrite Hz, Hp, (before_end _ _ _ _ Hb), (memoryview_getitem_at _ _ _ _ Hb).
    cbn [ListPool.lift result_bind]. rewrite U2, U3. cbn [Z.eqb].
    rewrite (shiftl_small u shift (64 - shift)) by lia.
    rewrite <- Hp. reflexivity.
  - rewrite write_varint_step in Hb |- * by lia.
    set (b := uchar (Z.lor (Z.land u 127) 128)) in *. cbn [app] in Hb.
    rewrite Hz, Hp, (before_end _ _ _ _ Hb), (memoryview_getitem_at _ _ _ _ Hb).
    cbn [ListPool.lift result_bind].
    subst b. rewrite !cont_byte_low, !cont_byte_high. cbn [Z.eqb].
    assert (Hs7 : shift + 7 <= 63).
    { destruct (Z_lt_le_dec 56 shift); [| lia].
      assert (2 ^ (64 - shift) <= 2 ^ 7) by (apply Z.pow_le_mono_r; lia).
      change (2 ^ 7) with 128 in *. lia. }
    destruct (shift + 7 >=? 64) eqn:E;
      [rewrite Z.geb_leb in E; apply Z.leb_le in E; lia | clear E].
    rewrite (IH (Z.shiftr u 7) _ _ _
               (pre ++ [uchar (Z.lor (Z.land u 127) 128)]) post).
    + f_equal. f_equal.
      * rewrite (shiftl_small (Z.land u 127) shift 7); try lia.
        -- rewrite <- Z.lor_assoc, split7 by lia. reflexivity.
        -- apply land_127_range.
      * rewrite len_cons. unfold ListPool.set_pos.
        cbn [ListPool.buffer ListPool.pos ListPool.size ListPool.symbols
             ListPool.frame_pool ListPool.zero_copy ListPool.max_depth
             ListPool.ext_hook ListPool.ts_hook].
        f_equal. lia.
    + rewrite shiftr_7. split; [apply Z.div_pos; lia |].
      apply Z.div_lt_upper_bound; [lia |].
      change 128 with (2 ^ 7). rewrite <- Z.pow_add_r by lia.
      replace (7 + (64 - (shift + 7))) with (64 - shift) by lia. lia.
    + lia.
    + lia.
    + cbn [ListPool.set_pos ListPool.buffer]. rewrite Hb, <- app_assoc. reflexivity.
    + cbn [ListPool.set_pos ListPool.pos]. rewrite len_app, ?Hp.
      change (len [_]) with 1. reflexivity.
    + cbn [ListPool.set_pos ListPool.size ListPool.buffer]. exact Hz.
Qed.

Lemma listpool_read_varint_written u self pre post :
  0 <= u < 2 ^ 64 ->
  ListPool.buffer self = pre ++ _write_varint u [] ++ post ->
  ListPool.pos self = len pre ->
  ListPool.size self = len (ListPool.buffer self) ->
  ListPool._read_varint_nogil self =
    Returns (u, ListPool.set_pos self (ListPool.pos self + len (_write_varint u []))).
Proof.
  intros Hu Hb Hp Hz. unfold ListPool._read_varint_nogil.
  rewrite (listpool_read_varint_loop_written 10 u self 0 0 pre post);
    try assumption; try lia.
  rewrite Z.lor_0_l, Z.shiftl_0_r. reflexivity.
Qed.

(** X28.  The third module trusts the length of a string or bytes field.
    When the length is larger than what is left of the buffer, nothing is
    raised: the bytes behind the end of the buffer are read. *)
Theorem listpool_length_overread tag n payload symbols max_depth ext_hook
    ts_hook fuel :
  tag = T_STR \/ tag = T_BYTES ->
  len payload < n <= PY_SSIZE_T_MAX - 33 ->
  let data := tag :: _write_varint n [] ++ payload in
  ListPool.decode_all (S fuel)
    (ListPool.FastDecoder_init data symbols false max_depth ext_hook ts_hook)
  = Unchecked (BufferReadOutOfBounds (len data)).
Proof.
  intros Htag Hn data. unfold ListPool.decode_all. rewrite iterate_S.
  cbn [ListPool.decode_step]. unfold ListPool.decode_value.
  set (self := ListPool.FastDecoder_init data symbols false max_depth ext_hook ts_hook).
  assert (Hd : ListPool.buffer self = [] ++ tag :: _write_varint n [] ++ payload)
    by reflexivity.
  change (ListPool.pos self) with (len (@nil Z)).
  rewrite (memoryview_getitem_at _ _ _ _ Hd). cbn [ListPool.lift turn_bind].
  cbv zeta.
  pose proof (len_nonneg payload) as Hp.
  unfold PY_SSIZE_T_MAX in Hn.
  assert (Hv : ListPool._read_varint_nogil (ListPool.set_pos self (len (@nil Z) + 1))
               = Returns (n, ListPool.set_pos self (1 + len (_write_varint n [])))).
  { rewrite (listpool_read_varint_written n _ [tag] payload);
      [reflexivity | pow2; lia | reflexivity | reflexivity | reflexivity]. }
  assert (Hstr : (if (tag =? T_STR) || (tag =? T_BYTES) then true else false) = true)
    by (destruct Htag as [-> | ->]; reflexivity).
  assert (Hno : (tag =? T_NULL) = false /\ (tag =? T_TRUE) = false /\
                (tag =? T_FALSE) = false /\ (tag =? T_INT) = false /\
                (tag =? T_FLOAT) = false)
    by (destruct Htag as [-> | ->]; repeat split; reflexivity).
  destruct Hno as (-> & -> & -> & -> & ->).
  destruct ((tag =? T_STR) || (tag =? T_BYTES)); [| discriminate].
  rewrite Hv. cbn [turn_bind]. cbv zeta.
  rewrite (to_int64_small n) by (pow2; lia).
  unfold ListPool.payload_obj.
  cbn [ListPool.set_pos ListPool.zero_copy ListPool.pos ListPool.buffer self
       ListPool.FastDecoder_init].
  unfold ListPool.PyBytes_FromStringAndSize, memoryview_span.
  pose proof (len_nonneg (_write_varint n [])) as Hw.
  destruct (n <? 0) eqn:E; [apply Z.ltb_lt in E; lia | clear E].
  destruct (n >? PY_SSIZE_T_MAX - 33) eqn:E;
    [rewrite Z.gtb_ltb in E; apply Z.ltb_lt in E; unfold PY_SSIZE_T_MAX in E; lia
    | clear E].
  destruct (n <=? 0) eqn:E; [apply Z.leb_le in E; lia | clear E].
  destruct (1 + len (_write_varint n []) <? 0) eqn:E;
    [apply Z.ltb_lt in E; lia | clear E].
  assert (Hlen : len data = 1 + len (_write_varint n []) + len payload).
  { unfold data. rewrite len_cons, len_app. lia. }
  destruct (_ >? len data) eqn:E;
    [| rewrite Z.gtb_ltb in E; apply Z.ltb_ge in E; lia].
  reflexivity.
Qed.

Lemma listpool_length_overread_witness :
  let data := T_BYTES :: _write_varint 5 [] ++ [1; 2] in
  ListPool.decode_all 1 (ListPool.FastDecoder_init data [] false 1000 None None)
  = Unchecked (BufferReadOutOfBounds (len data)).
Proof.
  apply (listpool_length_overread T_BYTES 5 [1; 2] [] 1000 None None 0%nat).
  - right. reflexivity.
  - cbn. lia.
Defined.

Lemma to_int32_small z : - 2 ^ 31 <= z < 2 ^ 31 -> ListPool.to_int32 z = z.
Proof.
  intros H. unfold ListPool.to_int32.
  change (2 ^ 32) with 4294967296. change (2 ^ 31) with 2147483648 in *.
  destruct (z mod 4294967296 <? 2147483648) eqn:E;
    [apply Z.ltb_lt in E | apply Z.ltb_ge in E];
    Z.div_mod_to_equations; lia.
Qed.

Lemma to_int32_range z : - 2 ^ 31 <= ListPool.to_int32 z < 2 ^ 31.
Proof.
  unfold ListPool.to_int32.
  change (2 ^ 32) with 4294967296. change (2 ^ 31) with 2147483648 in *.
  destruct (z mod 4294967296 <? 2147483648) eqn:E;
    [apply Z.ltb_lt in E | apply Z.ltb_ge in E];
    Z.div_mod_to_equations; lia.
Qed.

(** ** Reading an encoded message *)

Section ListPoolRun.
Variable symbols : list string.
Variable handler : option (value -> option (Z * list Z)).
Variable data : list Z.
Variable max_depth : Z.
Variable hook : option (Z -> value -> outcome value).
Hypothesis data_fits : len data <= PY_SSIZE_T_MAX - 33.
Hypothesis symbols_fit : len symbols <= PY_SSIZE_T_MAX.

Abbreviation R pool p := (listpool_at data symbols max_depth hook pool p).
Abbreviation enc := (FastEncoder_init symbols handler).

Lemma listpool_at_pos pool p : ListPool.pos (R pool p) = p.
Proof. reflexivity. Qed.
Lemma listpool_at_size pool p : ListPool.size (R pool p) = len data.
Proof. reflexivity. Qed.
Lemma listpool_at_buffer pool p : ListPool.buffer (R pool p) = data.
Proof. reflexivity. Qed.
Lemma listpool_at_symbols pool p : ListPool.symbols (R pool p) = symbols.
Proof. reflexivity. Qed.
Lemma listpool_at_zero_copy pool p : ListPool.zero_copy (R pool p) = false.
Proof. reflexivity. Qed.
Lemma listpool_at_ts_hook pool p : ListPool.ts_hook (R pool p) = None.
Proof. reflexivity. Qed.
Lemma listpool_at_ext_hook pool p : ListPool.ext_hook (R pool p) = hook.
Proof. reflexivity. Qed.
Lemma listpool_at_frame_pool pool p : ListPool.frame_pool (R pool p) = pool.
Proof. reflexivity. Qed.
Lemma listpool_at_set_pos pool p q : ListPool.set_pos (R pool p) q = R pool q.
Proof. reflexivity. Qed.
Lemma listpool_at_set_frame_pool pool p pool' :
  ListPool.set_frame_pool (R pool p) pool' = R pool' p.
Proof. reflexivity. Qed.

Create Rewrite HintDb lp.
#[local] Hint Rewrite listpool_at_pos listpool_at_size listpool_at_buffer
  listpool_at_symbols listpool_at_zero_copy listpool_at_ts_hook
  listpool_at_ext_hook listpool_at_frame_pool listpool_at_set_pos
  listpool_at_set_frame_pool : lp.

Ltac lp := autorewrite with lp.

Lemma listpool_read_varint_at u pool pre post :
  0 <= u < 2 ^ 64 ->
  data = pre ++ _write_varint u [] ++ post ->
  ListPool._read_varint_nogil (R pool (len pre)) =
    Returns (u, R pool (len pre + len (_write_varint u []))).
Proof.
  intros Hu H.
  rewrite (listpool_read_varint_written u (R pool (len pre)) pre post Hu H
             eq_refl eq_refl).
  lp. reflexivity.
Qed.

Lemma listpool_header_at tag count pool pre post :
  0 <= count < 2 ^ 64 ->
  data = pre ++ (tag :: _write_varint count []) ++ post ->
  ListPool._read_varint_nogil (R pool (len pre + 1)) =
    Returns (count, R pool (len pre + len (tag :: _write_varint count []))).
Proof.
  intros Hc H. rewrite <- (len_snoc pre tag).
  rewrite (listpool_read_varint_at count pool (pre ++ [tag]) post);
    [| assumption | rewrite <- app_assoc; exact H].
  rewrite len_snoc, len_cons. rewrite <- Z.add_assoc. reflexivity.
Qed.

(** Reading the tag byte at [len pre]. *)
Ltac listpool_read_tag H :=
  unfold ListPool.decode_value; lp;
  rewrite (memoryview_getitem_at _ _ _ _ H);
  cbn [ListPool.lift turn_bind]; cbv zeta; lp; tag_tests; cbn [orb]; cbv iota.

Lemma listpool_None pool pre post stack :
  data = pre ++ T_NULL :: post ->
  ListPool.decode_value (R pool (len pre)) stack =
  ListPool.deliver (R pool (len pre + 1)) stack VNone.
Proof. intros H. listpool_read_tag H. reflexivity. Qed.

Lemma listpool_bool (b : bool) pool pre post stack :
  data = pre ++ (if b then T_TRUE else T_FALSE) :: post ->
  ListPool.decode_value (R pool (len pre)) stack =
  ListPool.deliver (R pool (len pre + 1)) stack (VBool b).
Proof. intros H. destruct b; listpool_read_tag H; reflexivity. Qed.

Lemma listpool_int n pool pre post stack :
  - 2 ^ 63 <= n < 2 ^ 63 ->
  data = pre ++ (T_INT :: _write_varint (c_zigzag_encode n) []) ++ post ->
  ListPool.decode_value (R pool (len pre)) stack =
  ListPool.deliver
    (R pool (len pre + len (T_INT :: _write_varint (c_zigzag_encode n) [])))
    stack (VInt n).
Proof.
  intros Hn H. pose proof H as H'. cbn [app] in H'. listpool_read_tag H'.
  rewrite (listpool_header_at T_INT (c_zigzag_encode n) pool pre post)
    by (try apply zigzag_encode_range; assumption).
  cbn [turn_bind]. rewrite zigzag_roundtrip by assumption. reflexivity.
Qed.

Lemma listpool_float bits pool pre post stack :
  0 <= bits < 2 ^ 64 ->
  data = pre ++ (T_FLOAT :: word_bytes (lens_be64 bits)) ++ post ->
  ListPool.decode_value (R pool (len pre)) stack =
  ListPool.deliver (R pool (len pre + 9)) stack (VFloat bits).
Proof.
  intros Hb H. pose proof H as H'. cbn [app] in H'. listpool_read_tag H'.
  change 8 with (len (word_bytes (lens_be64 bits))) at 1.
  rewrite <- (len_snoc pre T_FLOAT).
  rewrite (memoryview_span_at data (pre ++ [T_FLOAT]) (word_bytes (lens_be64 bits)) post)
    by (rewrite <- app_assoc; exact H).
  cbn [ListPool.lift turn_bind]. rewrite lens_be64_involutive by assumption.
  rewrite len_snoc. replace (len pre + 1 + 8) with (len pre + 9) by lia.
  reflexivity.
Qed.

Lemma listpool_symbol s i pool pre post stack :
  dict_get String.eqb (symbol_map enc) s = Some i ->
  data = pre ++ (T_SYMREF :: _write_varint i []) ++ post ->
  ListPool.decode_value (R pool (len pre)) stack =
  ListPool.deliver (R pool (len pre + len (T_SYMREF :: _write_varint i []))) stack
    (VStr s).
Proof.
  intros Hi H. pose proof H as H'. cbn [app] in H'. listpool_read_tag H'.
  destruct (symbol_lookup symbols handler s i symbols_fit Hi) as [Hr Hs].
  rewrite (listpool_header_at T_SYMREF i pool pre post) by (assumption || (pow2; lia)).
  cbn [turn_bind]. lp. rewrite Hs. reflexivity.
Qed.

(** The length and the bytes of a string or bytes field. *)
Lemma listpool_payload_at (b : list Z) pool pre post :
  data = pre ++ (_write_varint (len b) [] ++ b) ++ post ->
  let p := len pre + len (_write_varint (len b) []) in
  ListPool._read_varint_nogil (R pool (len pre)) = Returns (len b, R pool p) /\
  to_int64 (len b) = len b /\
  to_int64 (p + len b) = len pre + len (_write_varint (len b) [] ++ b) /\
  ListPool.PyBytes_FromStringAndSize data p (len b) = Ok b.
Proof.
  intros H p.
  pose proof (len_nonneg pre). pose proof (len_nonneg b). pose proof (len_nonneg post).
  set (W := _write_varint (len b) []) in *. pose proof (len_nonneg W).
  assert (Hlen : len data = len pre + (len W + len b) + len post).
  { rewrite H, !len_app. lia. }
  unfold PY_SSIZE_T_MAX in data_fits.
  assert (Hb : 0 <= len b < 2 ^ 64) by (pow2; lia).
  repeat split.
  - apply (listpool_read_varint_at (len b) pool pre (b ++ post));
      [assumption | rewrite H, <- app_assoc; reflexivity].
  - apply to_int64_small. pow2. lia.
  - unfold p. rewrite to_int64_small by (pow2; lia). rewrite len_app. lia.
  - unfold ListPool.PyBytes_FromStringAndSize.
    destruct (len b <? 0) eqn:E; [apply Z.ltb_lt in E; lia | clear E].
    destruct (len b >? PY_SSIZE_T_MAX - 33) eqn:E;
      [rewrite Z.gtb_ltb in E; apply Z.ltb_lt in E; unfold PY_SSIZE_T_MAX in E;
       pow2; lia | clear E].
    unfold p. rewrite <- len_app.
    apply (memoryview_span_at data (pre ++ W) b post).
    rewrite H, <- !app_assoc. reflexivity.
Qed.

Lemma listpool_str s pool pre post stack :
  utf8_well_formed 0 128 191 (utf8_encode s) = true ->
  data = pre ++ (T_STR :: _write_varint (len (utf8_encode s)) [] ++ utf8_encode s)
           ++ post ->
  ListPool.decode_value (R pool (len pre)) stack =
  ListPool.deliver
    (R pool (len pre + len (T_STR :: _write_varint (len (utf8_encode s)) []
                              ++ utf8_encode s)))
    stack (VStr s).
Proof.
  intros Hw H. pose proof H as H'. cbn [app] in H'. listpool_read_tag H'.
  destruct (listpool_payload_at (utf8_encode s) pool (pre ++ [T_STR]) post)
    as (Hv & Hl & Hp & Hs).
  { rewrite <- app_assoc. exact H. }
  rewrite len_snoc in *. rewrite Hv. cbn [turn_bind]. cbv zeta. lp.
  rewrite Hl, Hp. unfold ListPool.payload_obj. lp. rewrite Hs.
  cbn [ListPool.lift result_bind turn_bind negb andb].
  unfold PyUnicode_DecodeUTF8. rewrite Hw, string_of_utf8.
  cbn [ListPool.lift turn_bind]. rewrite len_cons. do 2 f_equal. lia.
Qed.

Lemma listpool_bytes payload pool pre post stack :
  data = pre ++ (T_BYTES :: _write_varint (len payload) [] ++ payload) ++ post ->
  ListPool.decode_value (R pool (len pre)) stack =
  ListPool.deliver
    (R pool (len pre + len (T_BYTES :: _write_varint (len payload) [] ++ payload)))
    stack (VBytes payload).
Proof.
  intros H. pose proof H as H'. cbn [app] in H'. listpool_read_tag H'.
  destruct (listpool_payload_at payload pool (pre ++ [T_BYTES]) post)
    as (Hv & Hl & Hp & Hs).
  { rewrite <- app_assoc. exact H. }
  rewrite len_snoc in *. rewrite Hv. cbn [turn_bind]. cbv zeta. lp.
  rewrite Hl, Hp. unfold ListPool.payload_obj. lp. rewrite Hs.
  cbn [ListPool.lift result_bind turn_bind negb andb].
  rewrite len_cons. do 2 f_equal. lia.
Qed.

Lemma listpool_datetime ms pool pre post stack :
  -62135596800000 <= ms <= 253402300799999 ->
  data = pre ++ (T_TIME :: _write_varint (c_zigzag_encode ms) []) ++ post ->
  ListPool.decode_value (R pool (len pre)) stack =
  ListPool.deliver
    (R pool (len pre + len (T_TIME :: _write_varint (c_zigzag_encode ms) [])))
    stack (VDatetime ms).
Proof.
  intros Hm H. pose proof H as H'. cbn [app] in H'. listpool_read_tag H'.
  assert (Hn : - 2 ^ 63 <= ms < 2 ^ 63) by (pow2; lia).
  rewrite (listpool_header_at T_TIME (c_zigzag_encode ms) pool pre post)
    by (try apply zigzag_encode_range; assumption).
  cbn [turn_bind]. lp. rewrite zigzag_roundtrip by assumption.
  unfold datetime_fromtimestamp.
  destruct (-62135596800000 <=? ms) eqn:E1; [| apply Z.leb_gt in E1; lia].
  destruct (ms <=? 253402300799999) eqn:E2; [| apply Z.leb_gt in E2; lia].
  reflexivity.
Qed.

(** One iteration on the encoding of a scalar delivers the scalar. *)
Lemma listpool_value_scalar v out pool pre post stack :
  scalar v -> portable listpool_dialect symbols v -> encode enc v = Ok out ->
  data = pre ++ out ++ post ->
  ListPool.decode_value (R pool (len pre)) stack =
  ListPool.deliver (R pool (len pre + len out)) stack v.
Proof.
  intros Hs Hp Henc Hdata.
  unfold encode in Henc.
  destruct v; try contradiction; cbn [_encode_recursive app] in Henc.
  - injection Henc as <-. apply (listpool_None pool pre post). exact Hdata.
  - destruct b; injection Henc as <-.
    + apply (listpool_bool true pool pre post). exact Hdata.
    + apply (listpool_bool false pool pre post). exact Hdata.
  - inversion Hp as [| | n' Hn | | | | | | | | |]; subst n'.
    rewrite in_int64_true, write_varint_app in Henc by assumption.
    injection Henc as <-. apply (listpool_int n pool pre post); assumption.
  - inversion Hp as [| | | bits' Hb | | | | | | | |]; subst bits'.
    injection Henc as <-.
    replace (len (T_FLOAT :: word_bytes (lens_be64 bits))) with 9 by reflexivity.
    apply (listpool_float bits pool pre post); assumption.
  - destruct (dict_get String.eqb (symbol_map enc) s) as [i |] eqn:Ei;
      rewrite write_varint_app in Henc; injection Henc as <-.
    + apply (listpool_symbol s i pool pre post); assumption.
    + assert (Hw : utf8_well_formed 0 128 191 (utf8_encode s) = true).
      { inversion Hp as [| | | | s' Hin | s' Hw | | | | | |]; subst s';
          [| exact Hw].
        cbn [FastEncoder_init symbol_map] in Ei.
        apply enumerate_symbols_none in Ei. tauto. }
      apply (listpool_str s pool pre post); assumption.
  - rewrite write_varint_app in Henc. injection Henc as <-.
    apply (listpool_bytes payload pool pre post). exact Hdata.
  - inversion Hp.
  - inversion Hp.
  - inversion Hp as [| | | | | | | ms' _ Hm | | | |]; subst ms'.
    assert (Hn : - 2 ^ 63 <= ms < 2 ^ 63) by (pow2; lia).
    rewrite in_int64_true, write_varint_app in Henc by assumption.
    injection Henc as <-. apply (listpool_datetime ms pool pre post); assumption.
  - inversion Hp.
Qed.

(** ** A dict of scalars *)

Lemma listpool_get_frame pool p c n (d : bool) :
  ListPool._get_frame (R pool p) c n d
  = (reset c n d, R (match pool with [] => [] | _ :: _ => removelast pool end) p).
Proof. destruct pool; reflexivity. Qed.

Lemma listpool_dict_header (entries : list (value * value)) pool post :
  entries <> [] -> len entries < 2 ^ 63 ->
  data = (T_OBJ :: _write_varint (len entries) []) ++ post ->
  ListPool.decode_step (R pool 0) []
  = Next (R (match pool with [] => [] | _ :: _ => removelast pool end)
            (len (T_OBJ :: _write_varint (len entries) [])))
      [listpool_dict_frame [] (len entries) VNone].
Proof.
  intros Hne Hn H. cbn [ListPool.decode_step].
  assert (H' : data = [] ++ T_OBJ :: _write_varint (len entries) [] ++ post)
    by exact H.
  change (R pool 0) with (R pool (len (@nil Z))). listpool_read_tag H'.
  pose proof (len_nonneg entries).
  rewrite (listpool_header_at T_OBJ (len entries) pool [] post)
    by (assumption || (pow2; lia)).
  cbn [turn_bind]. cbv zeta.
  destruct (len entries =? 0) eqn:E.
  { apply Z.eqb_eq in E. destruct entries; [congruence |].
    rewrite len_cons in E. pose proof (len_nonneg entries). lia. }
  rewrite to_int64_small by (pow2; lia).
  unfold ListPool.push. rewrite listpool_get_frame. reflexivity.
Qed.

Lemma listpool_key_step done n s i pool pre post below :
  n <> 0 ->
  dict_get String.eqb (symbol_map enc) s = Some i ->
  data = pre ++ (T_SYMREF :: _write_varint i []) ++ post ->
  ListPool.decode_step (R pool (len pre)) (listpool_dict_frame done n VNone :: below)
  = Next (R pool (len pre + len (T_SYMREF :: _write_varint i [])))
      (listpool_dict_frame done n (VStr s) :: below).
Proof.
  intros Hn Hi H. pose proof H as H'. cbn [app] in H'.
  cbn [ListPool.decode_step listpool_dict_frame remaining is_dict current_key
       is_None andb].
  destruct (n =? 0) eqn:E; [apply Z.eqb_eq in E; contradiction | clear E].
  lp. rewrite (memoryview_getitem_at _ _ _ _ H'). cbn [ListPool.lift turn_bind].
  change (negb (T_SYMREF =? T_SYMREF)) with false. cbv iota. cbv zeta. lp.
  destruct (symbol_lookup symbols handler s i symbols_fit Hi) as [Hr Hs].
  rewrite (listpool_header_at T_SYMREF i pool pre post) by (assumption || (pow2; lia)).
  cbn [turn_bind]. lp. rewrite Hs. reflexivity.
Qed.

Lemma listpool_entry_value done n s v out pool pre post below :
  n <> 0 -> scalar v -> portable listpool_dialect symbols v ->
  encode enc v = Ok out -> data = pre ++ out ++ post ->
  ListPool.decode_step (R pool (len pre))
    (listpool_dict_frame done n (VStr s) :: below)
  = ListPool.deliver (R pool (len pre + len out))
      (listpool_dict_frame done n (VStr s) :: below) v.
Proof.
  intros Hn Hs Hp Henc H.
  cbn [ListPool.decode_step listpool_dict_frame remaining is_dict current_key
       is_None andb].
  destruct (n =? 0) eqn:E; [apply Z.eqb_eq in E; contradiction |].
  apply (listpool_value_scalar v out pool pre post); assumption.
Qed.

Lemma listpool_deliver_entry done n s v pool p below :
  existsb (fun e => py_eqb (fst e) (VStr s)) done = false ->
  ListPool.deliver (R pool p) (listpool_dict_frame done n (VStr s) :: below) v
  = Next (R pool p)
      (listpool_dict_frame (done ++ [(VStr s, v)]) (n - 1) VNone :: below).
Proof.
  intros Hf. cbn [ListPool.deliver]. unfold ListPool.fill.
  cbn [listpool_dict_frame is_dict container current_key PyDict_SetItem hashable].
  rewrite dict_set_fresh by assumption. reflexivity.
Qed.

Lemma listpool_entries_run (left_ : list (value * value)) :
  forall done pool pre chunks post,
    Forall (fun kv => in_symbol_table symbols (fst kv) /\ scalar (snd kv) /\
                      portable listpool_dialect symbols (snd kv)) left_ ->
    distinct_keys done left_ ->
    Forall2 (entry_chunk enc) left_ chunks ->
    data = pre ++ List.concat chunks ++ post ->
    forall fuel,
      iterate ListPool.decode_step (2 * List.length left_ + fuel) (R pool (len pre))
        [listpool_dict_frame done (len left_) VNone]
      = iterate ListPool.decode_step fuel
          (R pool (len pre + len (List.concat chunks)))
          [listpool_dict_frame (done ++ left_) 0 VNone].
Proof.
  induction left_ as [| [k v] r IH];
    intros done pool pre chunks post Hall Hkeys Hch Hd fuel.
  - inversion Hch; subst. cbn [List.concat List.length Nat.mul Nat.add].
    change (len (@nil Z)) with 0. rewrite Z.add_0_r, app_nil_r. reflexivity.
  - destruct chunks as [| c cs]; [inversion Hch |].
    apply Forall2_cons_iff in Hch as [(s & i & o & Hk & Hi & Ho & Hc) Hcs].
    apply Forall_cons_iff in Hall as [(_ & Hsc & Hpo) Hall].
    cbn [fst snd] in Hk, Ho, Hsc, Hpo. subst k c.
    cbn [distinct_keys] in Hkeys. destruct Hkeys as [Hfresh Hkeys].
    cbn [List.concat] in Hd. rewrite <- !app_assoc in Hd.
    assert (Hn : len ((VStr s, v) :: r) <> 0)
      by (rewrite len_cons; pose proof (len_nonneg r); lia).
    replace (2 * List.length ((VStr s, v) :: r) + fuel)%nat
      with (S (S (2 * List.length r + fuel))) by (cbn [List.length]; lia).
    rewrite iterate_S.
    rewrite (listpool_key_step done _ s i pool pre _ [] Hn Hi Hd). cbn [resume].
    rewrite iterate_S. rewrite <- len_app.
    rewrite (listpool_entry_value done _ s v o pool
               (pre ++ T_SYMREF :: _write_varint i []) (List.concat cs ++ post) []);
      try assumption.
    + rewrite listpool_deliver_entry by assumption. cbn [resume].
      rewrite len_cons. replace (1 + len r - 1) with (len r) by lia.
      rewrite <- len_app.
      rewrite (IH (done ++ [(VStr s, v)]) pool
                 ((pre ++ T_SYMREF :: _write_varint i []) ++ o) cs post);
        try assumption.
      * rewrite <- !app_assoc. cbn [app List.concat].
        rewrite !len_app, !len_cons, !len_app. f_equal. f_equal. lia.
      * rewrite Hd, <- !app_assoc. reflexivity.
    + rewrite Hd, <- !app_assoc. reflexivity.
Qed.

Lemma listpool_dict_close done pool p :
  ListPool.decode_step (R pool p) [listpool_dict_frame done 0 VNone]
  = Stop (Returns (VDict done)).
Proof. reflexivity. Qed.

Lemma listpool_empty_dict pool post :
  data = [T_OBJ; 0] ++ post ->
  ListPool.decode_step (R pool 0) [] = Stop (Returns (VDict [])).
Proof.
  intros H. cbn [ListPool.decode_step].
  assert (H' : data = [] ++ T_OBJ :: _write_varint 0 [] ++ post) by exact H.
  change (R pool 0) with (R pool (len (@nil Z))). listpool_read_tag H'.
  rewrite (listpool_header_at T_OBJ 0 pool [] post) by (pow2; lia || exact H).
  reflexivity.
Qed.

(** An extension object: its id, the length of its payload, the payload. *)
Lemma listpool_ext eid payload pool :
  hook = None -> 0 <= eid < 2 ^ 64 ->
  data = T_EXT :: _write_varint eid [] ++ _write_varint (len payload) [] ++ payload ->
  ListPool.decode_step (R pool 0) []
  = Stop (Returns (VTuple [VInt (ListPool.to_int32 eid); VBytes payload])).
Proof.
  intros Hh He H. cbn [ListPool.decode_step].
  assert (H' : data = [] ++ T_EXT :: _write_varint eid []
                        ++ _write_varint (len payload) [] ++ payload) by exact H.
  change (R pool 0) with (R pool (len (@nil Z))). listpool_read_tag H'.
  rewrite (listpool_header_at T_EXT eid pool []
             (_write_varint (len payload) [] ++ payload)) by (assumption || exact H).
  cbn [turn_bind]. cbv zeta.
  destruct (listpool_payload_at payload pool (T_EXT :: _write_varint eid []) [])
    as (Hv & Hl & Hp & Hs).
  { rewrite app_nil_r. rewrite H. cbn [app]. reflexivity. }
  change (len (@nil Z) + len (T_EXT :: _write_varint eid []))
    with (len (T_EXT :: _write_varint eid [])).
  rewrite Hv. cbn [turn_bind]. cbv zeta. lp. rewrite Hl, Hp.
  unfold ListPool.payload_obj. lp. rewrite Hs.
  cbn [ListPool.lift result_bind turn_bind]. lp. rewrite Hh.
  reflexivity.
Qed.

End ListPoolRun.

(** X29.  The third module stores the id of an extension object in a C
    [int].  What the encoder writes for an extension object comes back as
    the pair of id and payload, but with the id reduced to 32 bits: ids
    from [2 ^ 31] on do not survive the round trip. *)
Theorem listpool_ext_id_truncated symbols handler obj eid payload out table
    max_depth fuel :
  match obj with VMemoryview _ | VOther _ => True | _ => False end ->
  handler obj = Some (eid, payload) ->
  encode (FastEncoder_init symbols (Some handler)) obj = Ok out ->
  len out <= PY_SSIZE_T_MAX - 33 ->
  ListPool.decode_all (S fuel)
    (ListPool.FastDecoder_init out table false max_depth None None)
  = Returns (VTuple [VInt (ListPool.to_int32 eid); VBytes payload]) /\
  (ListPool.to_int32 eid = eid <-> eid < 2 ^ 31).
Proof.
  intros Hobj Hh Henc Hfit.
  assert (He : in_uint64 eid = true /\
               out = T_EXT :: _write_varint eid []
                       ++ _write_varint (len payload) [] ++ payload).
  { unfold encode in Henc.
    destruct obj; try contradiction;
      cbn [_encode_recursive FastEncoder_init ext_handler] in Henc;
      rewrite Hh in Henc;
      (destruct (in_uint64 eid); [| discriminate]);
      rewrite (write_varint_app (len payload)), (write_varint_app eid) in Henc;
      injection Henc as <-; (split; [reflexivity |]);
      cbn [app]; rewrite <- !app_assoc; reflexivity. }
  destruct He as [He Hout].
  unfold in_uint64 in He. apply andb_true_iff in He. destruct He as [H0 H1].
  apply Z.leb_le in H0. apply Z.ltb_lt in H1.
  split.
  - unfold ListPool.decode_all. rewrite iterate_S.
    change (ListPool.FastDecoder_init out table false max_depth None None)
      with (listpool_at out table max_depth None
              (repeat (reset CNone 0 false) 16) 0).
    rewrite (listpool_ext table out max_depth None Hfit eid payload _ eq_refl
               ltac:(lia) Hout).
    reflexivity.
  - split.
    + intros Heq. pose proof (to_int32_range eid). lia.
    + intros Hlt. apply to_int32_small. lia.
Qed.

Lemma listpool_ext_id_truncated_witness :
  ListPool.decode_all 1
    (ListPool.FastDecoder_init
       (T_EXT :: _write_varint (2 ^ 32 + 7) [] ++ _write_varint 2 [] ++ [1; 2])
       [] false 1000 None None)
  = Returns (VTuple [VInt (ListPool.to_int32 (2 ^ 32 + 7)); VBytes [1; 2]]) /\
  (ListPool.to_int32 (2 ^ 32 + 7) = 2 ^ 32 + 7 <-> 2 ^ 32 + 7 < 2 ^ 31).
Proof.
  apply (listpool_ext_id_truncated [] (fun _ => Some (2 ^ 32 + 7, [1; 2]))
           (VOther "point") (2 ^ 32 + 7) [1; 2]
           (T_EXT :: _write_varint (2 ^ 32 + 7) [] ++ _write_varint 2 [] ++ [1; 2])
           [] 1000 0%nat).
  - exact I.
  - reflexivity.
  - unfold encode. cbn [_encode_recursive FastEncoder_init ext_handler].
    change (in_uint64 (2 ^ 32 + 7)) with true. cbv iota.
    rewrite (write_varint_app (len [1; 2])), (write_varint_app (2 ^ 32 + 7)).
    cbn [app]. rewrite <- !app_assoc. reflexivity.
  - vm_compute. discriminate.
Defined.


